(** * js-mermaid-builder: flowchart model, serializer and parser

    A shallow embedding of the TypeScript sources
      - the current module (data model, [Chart.print], [parseFlowchart]),
      - [src/index.ts] (the earlier serializer, module [Legacy] below),
    and the properties of the specification proved about them.

    Conventions.
      - A JavaScript string is the list of its UTF-16 code units ([str]);
        the literals of the source are written [lit "..."].
      - [undefined] is [None]; the truthiness tests of the source
        ([if (this.title)], [!this.id], ...) are the [truthy] functions.
      - A JavaScript number is a double.  A number the program keeps or
        reads (the index of a positional link style, the result of
        [Number.parseInt], an entry of a dash array) is a [number]: an
        integer-valued double from zero up, or any other number given by the
        text that prints it.  A number the program counts with (the running
        link counter, an index into [lines]) is a [nat]; counting from zero
        by one is exact below 2^53, and the statements that print or read a
        counter say so ([countable]).
      - [throw new Error(...)] is the [Err] result; the message is the
        constructor of [ParseError] and its arguments.
      - Regular expressions are values of [re] run by a backtracking matcher
        that follows the ECMAScript matching order (greedy, leftmost
        alternative first). *)

From Stdlib Require Import Ascii String NArith Decimal DecimalNat DecimalPos DecimalN.
From stdpp Require Import base option list gmap.

Set Default Proof Using "Type".
Local Open Scope N_scope.
Local Open Scope nat_scope.

(** ** Strings as code-unit lists *)

Abbreviation char := N.
Abbreviation str := (list N).

Definition ch (a : ascii) : char := N_of_ascii a.
Definition lit (s : string) : str := map ch (list_ascii_of_string s).

Arguments ch : simpl never.
Arguments lit : simpl never.

Definition char_eqb (a b : char) : bool := N.eqb a b.
Arguments char_eqb : simpl never.

Fixpoint str_eqb (a b : str) : bool :=
  match a, b with
  | [], [] => true
  | x :: a', y :: b' => char_eqb x y && str_eqb a' b'
  | _, _ => false
  end.

Definition in_range (lo hi c : N) : bool := (N.leb lo c) && (N.leb c hi).

(** ECMAScript LineTerminator: LF, CR, LS, PS. *)
Definition is_line_terminator (c : char) : bool :=
  N.eqb c 10 || N.eqb c 13 || N.eqb c 8232 || N.eqb c 8233.

(** ECMAScript WhiteSpace and LineTerminator: what [String.prototype.trim]
    strips and what [\s] matches. *)
Definition is_ws (c : char) : bool :=
  in_range 9 13 c || N.eqb c 32 || N.eqb c 160 || N.eqb c 5760
  || in_range 8192 8202 c || N.eqb c 8232 || N.eqb c 8233
  || N.eqb c 8239 || N.eqb c 8287 || N.eqb c 12288 || N.eqb c 65279.

Definition is_digit (c : char) : bool := in_range 48 57 c.

(** The class [[a-zA-Z0-9\-_!#$]]. *)
Definition is_id_char (c : char) : bool :=
  in_range 97 122 c || in_range 65 90 c || in_range 48 57 c
  || N.eqb c 45 || N.eqb c 95 || N.eqb c 33 || N.eqb c 35 || N.eqb c 36.

(** The class [[a-zA-Z0-9\-_]] of [Subgraph.getId]. *)
Definition is_subgraph_id_char (c : char) : bool :=
  in_range 97 122 c || in_range 65 90 c || in_range 48 57 c
  || N.eqb c 45 || N.eqb c 95.

Arguments is_line_terminator : simpl never.
Arguments is_ws : simpl never.
Arguments is_digit : simpl never.
Arguments is_id_char : simpl never.
Arguments is_subgraph_id_char : simpl never.

Fixpoint trimStart (s : str) : str :=
  match s with
  | c :: r => if is_ws c then trimStart r else s
  | [] => []
  end.

Definition trimEnd (s : str) : str := rev (trimStart (rev s)).

(** [String.prototype.trim]. *)
Definition trim (s : str) : str := trimEnd (trimStart s).

(** [Array.prototype.join]. *)
Fixpoint join (sep : str) (l : list str) : str :=
  match l with
  | [] => []
  | [x] => x
  | x :: r => x ++ sep ++ join sep r
  end.

(** [String.prototype.split] on a one-character separator. *)
Fixpoint split (sep : char) (s : str) : list str :=
  match s with
  | [] => [[]]
  | c :: r =>
      if char_eqb c sep then [] :: split sep r
      else match split sep r with
           | l :: ls => (c :: l) :: ls
           | [] => [[c]]
           end
  end.

Definition LF : char := 10%N.
Definition CR : char := 13%N.

(** [input.replace(/\r\n/g, '\n')]. *)
Fixpoint replaceCRLF (s : str) : str :=
  match s with
  | [] => []
  | c :: r =>
      match r with
      | d :: r' =>
          if char_eqb c CR && char_eqb d LF then LF :: replaceCRLF r'
          else c :: replaceCRLF r
      | [] => [c]
      end
  end.

(** [s.replace(/[^...]+/g, '')] for a class [keep]: every maximal run of
    characters outside [keep] is replaced by the empty string. *)
Fixpoint skipRun (keep : char -> bool) (s : str) : str :=
  match s with
  | c :: r => if keep c then s else skipRun keep r
  | [] => []
  end.

Fixpoint removeRuns (keep : char -> bool) (fuel : nat) (s : str) : str :=
  match fuel with
  | O => []
  | S f =>
      match s with
      | [] => []
      | c :: r =>
          if keep c then c :: removeRuns keep f r
          else removeRuns keep f (skipRun keep r)
      end
  end.

Definition stripUnsafe (keep : char -> bool) (s : str) : str :=
  removeRuns keep (length s) s.

(** [s.replace(/;$/, '')]. *)
Definition stripTrailingSemicolon (s : str) : str :=
  match rev s with
  | c :: r => if char_eqb c (ch ";") then rev r else s
  | [] => s
  end.

(** ** Numbers *)

Fixpoint uint_str (u : Decimal.uint) : str :=
  match u with
  | Nil => []
  | D0 u => 48%N :: uint_str u
  | D1 u => 49%N :: uint_str u
  | D2 u => 50%N :: uint_str u
  | D3 u => 51%N :: uint_str u
  | D4 u => 52%N :: uint_str u
  | D5 u => 53%N :: uint_str u
  | D6 u => 54%N :: uint_str u
  | D7 u => 55%N :: uint_str u
  | D8 u => 56%N :: uint_str u
  | D9 u => 57%N :: uint_str u
  end.

(** The decimal numeral of an integer. *)
Definition N_str (v : N) : str := uint_str (N.to_uint v).

(** The text of a counter in a template string. *)
Definition nat_str (n : nat) : str := N_str (N.of_nat n).

(** A number that is kept, read or printed but not computed with.
    [Integer v] is the double whose value is the integer [v]: any [v] below
    2^53, and from there on the integers with 53 significant bits.
    [NotInteger t] is any other number (negative, fractional, [NaN],
    [Infinity]), given by the text [t] that [Number::toString] yields. *)
Inductive number :=
  | Integer (v : N)
  | NotInteger (text : str).

#[global] Instance number_eq_dec : EqDecision number.
Proof. solve_decision. Defined.

Definition two53 : N := 9007199254740992%N.

(** A counter that one more increment still leaves exact. *)
Definition countable (n : nat) : bool := N.leb (N.of_nat n) two53.

(** A counter as the number it is. *)
Definition counter (n : nat) : number := Integer (N.of_nat n).

(** The double nearest to an integer that is 2^53 or more: 53 significant
    bits, a tie going to the even one. *)
Definition roundToDouble (v : N) : N :=
  let e := (N.log2 v - 52)%N in
  let q := N.shiftr v e in
  let r := (v - N.shiftl q e)%N in
  let half := N.shiftl 1 (e - 1) in
  let q := if (half <? r)%N || ((r =? half)%N && N.odd q) then (q + 1)%N else q in
  N.shiftl q e.

Definition digitsValue (s : str) : N :=
  fold_left (fun acc c => 10 * acc + (c - 48))%N s 0%N.

(** [Number::toString] of an integer-valued double [x] that is 2^53 or
    more: the digits of the multiple of the highest power of ten that still
    rounds to [x] (the nearest one to [x], the even one on a tie), written
    out up to 21 digits and with an exponent beyond.  [lo2] and [hi2] are
    twice the bounds of the interval that rounds to [x], which is closed
    when the significand of [x] is even. *)
Fixpoint shortestFrom (j : nat) (x lo2 hi2 : N) (closed : bool) : N :=
  let p := (10 ^ N.of_nat j)%N in
  let down := (x / p * p)%N in
  let up := (down + p)%N in
  let inside c :=
    if closed then (lo2 <=? 2 * c)%N && (2 * c <=? hi2)%N
    else (lo2 <? 2 * c)%N && (2 * c <? hi2)%N in
  match inside down && (0 <? down)%N, inside up with
  | true, true =>
      if (x - down <? up - x)%N then down
      else if (up - x <? x - down)%N then up
      else if N.even (down / p) then down else up
  | true, false => down
  | false, true => up
  | false, false =>
      match j with
      | O => x
      | S j' => shortestFrom j' x lo2 hi2 closed
      end
  end.

Definition shortest (x : N) : N :=
  let e := (N.log2 x - 52)%N in
  let ulp := N.shiftl 1 e in
  let below := if (x =? N.shiftl 1 (N.log2 x))%N then N.shiftl 1 (e - 1) else ulp in
  shortestFrom (length (N_str x)) x (2 * x - below) (2 * x + ulp)
    (N.even (N.shiftr x e)).

Fixpoint dropZeros (s : str) : str :=
  match s with
  | c :: r => if N.eqb c 48 then dropZeros r else s
  | [] => []
  end.

Definition largeText (x : N) : str :=
  let ds := N_str (shortest x) in
  let n := length ds in
  if Nat.leb n 21 then ds
  else
    match rev (dropZeros (rev ds)) with
    | d :: rest =>
        d :: (match rest with [] => [] | _ => ch "." :: rest end)
          ++ lit "e+" ++ nat_str (n - 1)
    | [] => ds
    end.

(** [Number::toString], as a template string applies it. *)
Definition Number_toString (x : number) : str :=
  match x with
  | Integer v => if (v <? two53)%N then N_str v else largeText v
  | NotInteger t => t
  end.

(** The longest run of decimal digits at the start of a string. *)
Fixpoint digitPrefix (s : str) : str :=
  match s with
  | c :: r => if is_digit c then c :: digitPrefix r else []
  | [] => []
  end.

(** Minus zero prints as [0] and is the same key of a [Map]: it is kept
    as zero. *)
Definition negated (x : number) : number :=
  match x with
  | Integer 0 => Integer 0
  | _ => NotInteger (lit "-" ++ Number_toString x)
  end.

(** [Number.parseInt(s, 10)]: leading white space is skipped, a sign is
    read, and the longest run of decimal digits that follows gives the
    double nearest to the integer written, [Infinity] from 2^1024 on;
    without a digit there the result is [NaN]. *)
Definition parseInt (s : str) : number :=
  let t := trimStart s in
  let '(negative, body) :=
    match t with
    | c :: r =>
        if char_eqb c (ch "-") then (true, r)
        else if char_eqb c (ch "+") then (false, r) else (false, t)
    | [] => (false, t)
    end in
  match digitPrefix body with
  | [] => NotInteger (lit "NaN")
  | ds =>
      let v := digitsValue ds in
      let x := if (v <? two53)%N then v else roundToDouble v in
      let magnitude :=
        if (x <? 2 ^ 1024)%N then Integer x else NotInteger (lit "Infinity") in
      if negative then negated magnitude else magnitude
  end.

(** First occurrence of [pat] in [s]: the text before and the text after. *)
Fixpoint strip_prefix (p s : str) : option str :=
  match p with
  | [] => Some s
  | x :: p' =>
      match s with
      | y :: s' => if char_eqb x y then strip_prefix p' s' else None
      | [] => None
      end
  end.

Fixpoint find_sub (pat s : str) : option (str * str) :=
  match strip_prefix pat s with
  | Some after => Some ([], after)
  | None =>
      match s with
      | [] => None
      | c :: r =>
          match find_sub pat r with
          | Some (b, a) => Some (c :: b, a)
          | None => None
          end
      end
  end.

(** GetSubstitution of ECMAScript for a string pattern (no capture groups):
    [$$] is a dollar sign, [$&] the matched text, [$`] the text before the
    match, [$'] the text after it; any other [$] is literal. *)
Fixpoint getSubstitution (matched before after : str) (template : str) : str :=
  match template with
  | [] => []
  | c :: r =>
      if char_eqb c (ch "$") then
        match r with
        | d :: r' =>
            if char_eqb d (ch "$") then ch "$" :: getSubstitution matched before after r'
            else if char_eqb d (ch "&") then matched ++ getSubstitution matched before after r'
            else if char_eqb d (ch "`") then before ++ getSubstitution matched before after r'
            else if char_eqb d (ch "'") then after ++ getSubstitution matched before after r'
            else c :: getSubstitution matched before after r
        | [] => [c]
        end
      else c :: getSubstitution matched before after r
  end.

(** [s.replace(pat, replacement)] with a string pattern. *)
Definition replaceFirst (s pat replacement : str) : str :=
  match find_sub pat s with
  | Some (before, after) =>
      before ++ getSubstitution pat before after replacement ++ after
  | None => s
  end.

(** [s.lastIndexOf(pat)] as the split at the last occurrence. *)
Fixpoint find_last (pat s : str) : option (str * str) :=
  match s with
  | [] => match strip_prefix pat [] with Some a => Some ([], a) | None => None end
  | c :: r =>
      match find_last pat r with
      | Some (b, a) => Some (c :: b, a)
      | None =>
          match strip_prefix pat s with
          | Some a => Some ([], a)
          | None => None
          end
      end
  end.

(** [s.includes(c)] for a single character. *)
Definition includes (c : char) (s : str) : bool := existsb (char_eqb c) s.

Definition nonempty (s : str) : bool :=
  match s with [] => false | _ => true end.

(** Truthiness of an optional string. *)
Definition truthy (o : option str) : bool :=
  match o with Some s => nonempty s | None => false end.

(** ** Data model *)

Inductive ChartDir := LR | TD | TB | RL | BT.

Definition ChartDir_value (d : ChartDir) : str :=
  match d with
  | LR => lit "LR" | TD => lit "TD" | TB => lit "TB"
  | RL => lit "RL" | BT => lit "BT"
  end.

Inductive NodeShape :=
  | RECT_ROUND | STADIUM | SUBROUTINE | CYLINDER
  | CIRCLE | ASSYMETRIC | RHOMBUS | HEXAGON.

Definition NodeShape_value (s : NodeShape) : str :=
  match s with
  | RECT_ROUND => lit "(VAL)"
  | STADIUM => lit "([VAL])"
  | SUBROUTINE => lit "[[VAL]]"
  | CYLINDER => lit "[(VAL)]"
  | CIRCLE => lit "((VAL))"
  | ASSYMETRIC => lit ">VAL]"
  | RHOMBUS => lit "{VAL}"
  | HEXAGON => lit "{{VAL}}"
  end.

Inductive LinkType := ARROW | OPEN | INVISIBLE.

Definition LinkType_value (t : LinkType) : str :=
  match t with
  | ARROW => lit "-->" | OPEN => lit "---" | INVISIBLE => lit "~~~"
  end.

(** [strokeDasharray?: string | number[]]. *)
Inductive DashArray :=
  | DashString (s : str)
  | DashNumbers (l : list number).

Record NodeStyle := {
  fill : option str;
  ns_stroke : option str;
  ns_strokeWidth : option str;
  ns_color : option str;
  strokeDasharray : option DashArray
}.

Definition pushIf (o : option str) (key : string) : list str :=
  match o with
  | Some v => if nonempty v then [lit key ++ v] else []
  | None => []
  end.

Definition NodeStyle_toString (s : NodeStyle) : str :=
  let result :=
    pushIf (fill s) "fill:" ++ pushIf (ns_stroke s) "stroke:"
    ++ pushIf (ns_strokeWidth s) "stroke-width:" ++ pushIf (ns_color s) "color:" in
  let result :=
    match strokeDasharray s with
    | Some (DashNumbers l) =>
        result ++ [lit "stroke-dasharray:" ++ join (lit " ") (map Number_toString l)]
    | Some (DashString d) =>
        if nonempty d then result ++ [lit "stroke-dasharray:" ++ d] else result
    | None => result
    end in
  join (lit ",") result.

Record ChartNode := {
  node_title : str;
  shape : NodeShape;
  node_id : str;
  className : option str
}.

(** [new ChartNode(title)] with the defaults of the constructor. *)
Definition newChartNode (title : str) : ChartNode :=
  {| node_title := title; shape := RECT_ROUND; node_id := []; className := None |}.

(** [ensureId] writes the derived identifier into the node. *)
Definition ensureId (n : ChartNode) : ChartNode :=
  if negb (nonempty (node_id n)) && nonempty (node_title n) then
    {| node_title := node_title n; shape := shape n;
       node_id := stripUnsafe is_id_char (node_title n);
       className := className n |}
  else n.

(** [getId] returns the identifier and the node as [ensureId] left it. *)
Definition ChartNode_getId (n : ChartNode) : str * ChartNode :=
  let n' := ensureId n in (node_id n', n').

Definition ChartNode_toString_with (shapeValue : NodeShape -> str) (n : ChartNode) : str :=
  let n' := ensureId n in
  let classNameSuffix :=
    match className n' with
    | Some c => if nonempty c then lit ":::" ++ c else []
    | None => []
    end in
  node_id n' ++ replaceFirst (shapeValue (shape n')) (lit "VAL") (node_title n')
    ++ classNameSuffix.

Definition ChartNode_toString : ChartNode -> str :=
  ChartNode_toString_with NodeShape_value.

Record LinkStyle := {
  stroke : option str;
  strokeWidth : option str;
  color : option str
}.

Definition LinkStyle_toString (s : LinkStyle) : str :=
  join (lit ",")
    (pushIf (stroke s) "stroke:" ++ pushIf (strokeWidth s) "stroke-width:"
     ++ pushIf (color s) "color:").

(** [string | LinkStyle]. *)
Inductive LinkStyleValue :=
  | RawStyle (s : str)
  | StyleObject (s : LinkStyle).

Definition LinkStyleValue_text (v : LinkStyleValue) : str :=
  match v with
  | RawStyle s => s
  | StyleObject o => LinkStyle_toString o
  end.

(** [string | ChartNode]. *)
Inductive NodeRef :=
  | ById (id : str)
  | ByNode (n : ChartNode).

Definition NodeRef_id (r : NodeRef) : str :=
  match r with
  | ById s => s
  | ByNode n => fst (ChartNode_getId n)
  end.

Record Link := {
  src : NodeRef;
  dest : NodeRef;
  link_text : option str;
  link_type : LinkType;
  link_style : option LinkStyleValue
}.

(** The test [if (link.style)]: an object is truthy, a string is truthy when
    it is not empty. *)
Definition hasStyle (l : Link) : bool :=
  match link_style l with
  | Some (RawStyle s) => nonempty s
  | Some (StyleObject _) => true
  | None => false
  end.

Definition Link_toString (l : Link) : str :=
  let linkText :=
    match link_text l with
    | Some t => if nonempty t then lit "|" ++ t ++ lit "|" else []
    | None => []
    end in
  NodeRef_id (src l) ++ lit " " ++ LinkType_value (link_type l) ++ lit " "
    ++ linkText ++ NodeRef_id (dest l).

Definition printStyle (l : Link) (linkCount : number) : str :=
  if hasStyle l then
    match link_style l with
    | Some v => lit "linkStyle " ++ Number_toString linkCount ++ lit " "
                  ++ LinkStyleValue_text v ++ lit ";"
    | None => []
    end
  else [].

(** [string | string[]]. *)
Inductive ClassNames :=
  | OneName (s : str)
  | ManyNames (l : list str).

(** [string | NodeStyle]. *)
Inductive NodeStyleValue :=
  | RawNodeStyle (s : str)
  | NodeStyleObject (s : NodeStyle).

Record ClassDef := {
  classNames : ClassNames;
  cd_style : NodeStyleValue
}.

Definition ClassDef_toString (d : ClassDef) : str :=
  let names :=
    match classNames d with
    | ManyNames l => join (lit ",") l
    | OneName s => s
    end in
  let style :=
    match cd_style d with
    | RawNodeStyle s => s
    | NodeStyleObject o => NodeStyle_toString o
    end in
  lit "classDef " ++ names ++ lit " " ++ style.

(** [string | ChartNode | (string | ChartNode)[]]. *)
Inductive AttachedNodes :=
  | OneNode (r : NodeRef)
  | ManyNodes (l : list NodeRef).

Record ClassAttachment := {
  ca_nodes : AttachedNodes;
  ca_className : str
}.

Definition ClassAttachment_toString (a : ClassAttachment) : str :=
  let nodesArray :=
    match ca_nodes a with
    | OneNode r => [NodeRef_id r]
    | ManyNodes l => map NodeRef_id l
    end in
  lit "class " ++ join (lit ",") nodesArray ++ lit " " ++ ca_className a ++ lit ";".

(** The fields of [Chart], shared by [Subgraph extends Chart].  [L] is how a
    container holds its links (the values themselves, or references into
    the parser's link store) and [S] the type of its sub-groupings. *)
Record ChartOf (L S : Type) := MkChart {
  title : option str;
  direction : ChartDir;
  nodes : list ChartNode;
  links : list L;
  subgraphs : list S;
  classDefs : list ClassDef;
  classAttachments : list ClassAttachment;
  positionalLinkStyles : list (number * LinkStyleValue)
}.
Arguments MkChart {L S}.
Arguments title {L S}.
Arguments direction {L S}.
Arguments nodes {L S}.
Arguments links {L S}.
Arguments subgraphs {L S}.
Arguments classDefs {L S}.
Arguments classAttachments {L S}.
Arguments positionalLinkStyles {L S}.

#[warnings="-register-all"]
Inductive SubgraphOf (L : Type) :=
  | MkSubgraph (id : option str) (fields : ChartOf L (SubgraphOf L)).
Arguments MkSubgraph {L}.

Definition sub_id {L} (s : SubgraphOf L) : option str :=
  match s with MkSubgraph i _ => i end.
Definition sub_fields {L} (s : SubgraphOf L) : ChartOf L (SubgraphOf L) :=
  match s with MkSubgraph _ f => f end.

Abbreviation Subgraph := (SubgraphOf Link).
Abbreviation Chart := (ChartOf Link (SubgraphOf Link)).

(** *** Construction API *)

Definition newChart {L S} (t : option str) (d : ChartDir) : ChartOf L S :=
  MkChart t d [] [] [] [] [] [].

Definition addNode {L S} (c : ChartOf L S) (n : ChartNode) : ChartOf L S :=
  MkChart (title c) (direction c) (nodes c ++ [n]) (links c) (subgraphs c)
    (classDefs c) (classAttachments c) (positionalLinkStyles c).

Definition addLink {L S} (c : ChartOf L S) (l : L) : ChartOf L S :=
  MkChart (title c) (direction c) (nodes c) (links c ++ [l]) (subgraphs c)
    (classDefs c) (classAttachments c) (positionalLinkStyles c).

Definition addClassDef {L S} (c : ChartOf L S) (d : ClassDef) : ChartOf L S :=
  MkChart (title c) (direction c) (nodes c) (links c) (subgraphs c)
    (classDefs c ++ [d]) (classAttachments c) (positionalLinkStyles c).

Definition attachClass {L S} (c : ChartOf L S) (ns : AttachedNodes) (cn : str)
  : ChartOf L S :=
  MkChart (title c) (direction c) (nodes c) (links c) (subgraphs c)
    (classDefs c) (classAttachments c ++ [{| ca_nodes := ns; ca_className := cn |}])
    (positionalLinkStyles c).

Definition addLinkBetween {S} (c : ChartOf Link S) (s d : NodeRef) (t : option str)
  : ChartOf Link S :=
  addLink c {| src := ById (NodeRef_id s); dest := ById (NodeRef_id d);
               link_text := t; link_type := ARROW; link_style := None |}.

(** [addLinkStyle(link: number, style)]: the positional branch. *)
Definition addLinkStyle {L S} (c : ChartOf L S) (pos : number) (st : LinkStyleValue)
  : ChartOf L S :=
  MkChart (title c) (direction c) (nodes c) (links c) (subgraphs c)
    (classDefs c) (classAttachments c) (positionalLinkStyles c ++ [(pos, st)]).

Definition addSubgraph {L S} (c : ChartOf L S) (s : S) : ChartOf L S :=
  MkChart (title c) (direction c) (nodes c) (links c) (subgraphs c ++ [s])
    (classDefs c) (classAttachments c) (positionalLinkStyles c).

(** ** Serializer *)

(** [Math.random()]: the [k]-th call of a run yields a number whose
    [Math.floor(x * 1000000)] is [draws k mod 1000000]. *)
Record Random := {
  draws : nat -> nat;
  calls : nat
}.

Definition nextRandom (r : Random) : nat * Random :=
  (N.to_nat (N.modulo (N.of_nat (draws r (calls r))) 1000000%N),
   {| draws := draws r; calls := S (calls r) |}).

Record Printed := {
  text : str;
  nextLinkCount : nat;
  random : Random
}.

Definition NL : str := [LF].

(** The loop over [this.links] of [printBody]. *)
Definition printLinks (indent : str) (ls : list Link) (acc : list str * nat)
  : list str * nat :=
  fold_left
    (fun '(result, currentLinkCount) link =>
       let result := result ++ [indent ++ Link_toString link] in
       let result :=
         if hasStyle link
         then result ++ [indent ++ printStyle link (counter currentLinkCount)]
         else result in
       (result, currentLinkCount + 1))
    ls acc.

(** The loop over [this.subgraphs]; [printS] is [subgraph.print]. *)
Definition printSubgraphs {S} (printS : S -> str -> nat -> Random -> Printed)
    (indent : str) (ss : list S) (acc : list str * nat * Random)
  : list str * nat * Random :=
  fold_left
    (fun '(result, currentLinkCount, rnd) subgraph =>
       let subgraphResult := printS subgraph indent currentLinkCount rnd in
       (result ++ [text subgraphResult], nextLinkCount subgraphResult,
        random subgraphResult))
    ss acc.

Definition positionalLine (indent : str) (p : number * LinkStyleValue) : str :=
  indent ++ lit "linkStyle " ++ Number_toString (fst p) ++ lit " "
    ++ LinkStyleValue_text (snd p) ++ lit ";".

Definition printBody {S} (printS : S -> str -> nat -> Random -> Printed)
    (c : ChartOf Link S) (indent : str) (linkCount : nat) (rnd : Random)
  : Printed :=
  let result := map (fun node => indent ++ ChartNode_toString node) (nodes c) in
  let '(result, currentLinkCount) := printLinks indent (links c) (result, linkCount) in
  let '(result, currentLinkCount, rnd) :=
    printSubgraphs printS indent (subgraphs c) (result, currentLinkCount, rnd) in
  let result := result ++ map (fun d => indent ++ ClassDef_toString d) (classDefs c) in
  let result :=
    result ++ map (fun a => indent ++ ClassAttachment_toString a) (classAttachments c) in
  let result := result ++ map (positionalLine indent) (positionalLinkStyles c) in
  {| text := join NL result; nextLinkCount := currentLinkCount; random := rnd |}.

(** [Subgraph.getId]: the identifier, the sub-grouping with the identifier
    cached, and the state of the random source. *)
Definition Subgraph_getId {L} (s : SubgraphOf L) (rnd : Random)
  : str * SubgraphOf L * Random :=
  if truthy (sub_id s) then (default [] (sub_id s), s, rnd)
  else
    let '(id, rnd') :=
      if truthy (title (sub_fields s))
      then (stripUnsafe is_subgraph_id_char (default [] (title (sub_fields s))), rnd)
      else let '(n, rnd') := nextRandom rnd in (lit "subgraph" ++ nat_str n, rnd') in
    (id, MkSubgraph (Some id) (sub_fields s), rnd').

Fixpoint Subgraph_print (s : Subgraph) (indent : str) (linkCount : nat)
    (rnd : Random) {struct s} : Printed :=
  match s with
  | MkSubgraph sid f =>
      let currentIndent := indent in
      let '(id, _, rnd) := Subgraph_getId (MkSubgraph sid f) rnd in
      let body := printBody Subgraph_print f (currentIndent ++ lit "  ") linkCount rnd in
      let result :=
        [ currentIndent ++ lit "subgraph " ++ id ++ lit " ["
            ++ (if truthy (title f) then default [] (title f) else []) ++ lit "]";
          currentIndent ++ lit "  direction " ++ ChartDir_value (direction f);
          text body;
          indent ++ lit "end" ] in
      {| text := join NL result; nextLinkCount := nextLinkCount body;
         random := random body |}
  end.

Definition Chart_print (c : Chart) (indent : str) (linkCount : nat) (rnd : Random)
  : Printed :=
  let currentIndent := indent in
  let result :=
    if truthy (title c)
    then [ currentIndent ++ lit "---";
           currentIndent ++ lit "title: " ++ default [] (title c);
           currentIndent ++ lit "---" ]
    else [] in
  let result := result ++ [currentIndent ++ lit "flowchart " ++ ChartDir_value (direction c)] in
  let body := printBody Subgraph_print c (currentIndent ++ lit "  ") linkCount rnd in
  let result := result ++ [text body] in
  let result := result ++ [[]] in
  {| text := join NL result; nextLinkCount := nextLinkCount body; random := random body |}.

(** [Chart.toString]. *)
Definition Chart_toString (rnd : Random) (c : Chart) : str :=
  text (Chart_print c [] 0 rnd).

(** ** The earlier serializer of [src/index.ts]

    [printBody] and [print] return the text only: the link counter is a
    by-value parameter and a sub-grouping's count never reaches its
    caller.  [Math.random() * 1000000] is not floored there, so the random
    source yields the rendered suffix. *)
Module Legacy.

Definition NodeShape_value (s : NodeShape) : str :=
  match s with
  | CYLINDER => lit "[(VAL]]"
  | _ => NodeShape_value s
  end.

Definition ChartNode_toString : ChartNode -> str :=
  ChartNode_toString_with NodeShape_value.

Record Random := {
  draws : nat -> str;
  calls : nat
}.

Definition printLinks (indent : str) (ls : list Link) (acc : list str * nat)
  : list str * nat :=
  fold_left
    (fun '(result, linkCount) link =>
       let result := result ++ [indent ++ Link_toString link] in
       let result :=
         if hasStyle link
         then result ++ [indent ++ printStyle link (counter linkCount)]
         else result in
       (result, linkCount + 1))
    ls acc.

Definition printSubgraphs {S} (printS : S -> str -> nat -> Random -> str * Random)
    (indent : str) (linkCount : nat) (ss : list S) (acc : list str * Random)
  : list str * Random :=
  fold_left
    (fun '(result, rnd) subgraph =>
       let '(t, rnd) := printS subgraph indent linkCount rnd in
       (result ++ [t], rnd))
    ss acc.

Definition printBody {S} (printS : S -> str -> nat -> Random -> str * Random)
    (c : ChartOf Link S) (indent : str) (linkCount : nat) (rnd : Random)
  : str * Random :=
  let result := map (fun node => indent ++ ChartNode_toString node) (nodes c) in
  let '(result, linkCount) := printLinks indent (links c) (result, linkCount) in
  let '(result, rnd) :=
    printSubgraphs printS indent linkCount (subgraphs c) (result, rnd) in
  let result := result ++ map (fun d => indent ++ ClassDef_toString d) (classDefs c) in
  let result :=
    result ++ map (fun a => indent ++ ClassAttachment_toString a) (classAttachments c) in
  let result := result ++ map (positionalLine indent) (positionalLinkStyles c) in
  (join NL result, rnd).

Definition Subgraph_getId (s : Subgraph) (rnd : Random) : str * Random :=
  if truthy (sub_id s) then (default [] (sub_id s), rnd)
  else if truthy (title (sub_fields s))
  then (stripUnsafe is_subgraph_id_char (default [] (title (sub_fields s))), rnd)
  else (lit "subgraph" ++ draws rnd (calls rnd),
        {| draws := draws rnd; calls := S (calls rnd) |}).

Fixpoint Subgraph_print (s : Subgraph) (indent : str) (linkCount : nat)
    (rnd : Random) {struct s} : str * Random :=
  match s with
  | MkSubgraph sid f =>
      let currentIndent := indent in
      let '(id, rnd) := Subgraph_getId (MkSubgraph sid f) rnd in
      let '(body, rnd) :=
        printBody Subgraph_print f (currentIndent ++ lit "  ") linkCount rnd in
      (join NL
         [ currentIndent ++ lit "subgraph " ++ id ++ lit " ["
             ++ (if truthy (title f) then default [] (title f) else []) ++ lit "]";
           currentIndent ++ lit "  direction " ++ ChartDir_value (direction f);
           body;
           indent ++ lit "end" ], rnd)
  end.

Definition Chart_print (c : Chart) (indent : str) (linkCount : nat) (rnd : Random)
  : str * Random :=
  let currentIndent := indent in
  let result :=
    if truthy (title c)
    then [ currentIndent ++ lit "---";
           currentIndent ++ lit "title: " ++ default [] (title c);
           currentIndent ++ lit "---" ]
    else [] in
  let result :=
    result ++ [currentIndent ++ lit "flowchart " ++ ChartDir_value (direction c)] in
  let '(body, rnd) :=
    printBody Subgraph_print c (currentIndent ++ lit "  ") linkCount rnd in
  (join NL (result ++ [body] ++ [[]]), rnd).

Definition Chart_toString (rnd : Random) (c : Chart) : str :=
  fst (Chart_print c [] 0 rnd).

End Legacy.

(** ** Regular expressions *)

Inductive re :=
  | Eps
  | Cls (p : char -> bool)
  | Lit (s : str)
  | Cat (a b : re)
  | Alt (a b : re)
  | Star (a : re)
  | Opt (a : re)
  | Grp (n : nat) (a : re).

Definition Plus (a : re) : re := Cat a (Star a).

Abbreviation caps := (gmap nat str).
Abbreviation cont := (list N -> gmap nat (list N) -> option (gmap nat (list N))).

(** Greedy iteration: one more round of [step] is tried first, and a round
    that consumes nothing is rejected; then the continuation. *)
Fixpoint star (step : cont -> cont) (fuel : nat) (k : cont) (s : str) (c : caps)
  : option caps :=
  match fuel with
  | O => k s c
  | S f =>
      match step (fun s' c' =>
                    if Nat.ltb (length s') (length s) then star step f k s' c'
                    else None) s c with
      | Some r => Some r
      | None => k s c
      end
  end.

(** The backtracking matcher in continuation-passing style. *)
Fixpoint m (r : re) (k : cont) (s : str) (c : caps) {struct r} : option caps :=
  match r with
  | Eps => k s c
  | Cls p =>
      match s with
      | x :: s' => if p x then k s' c else None
      | [] => None
      end
  | Lit l =>
      match strip_prefix l s with
      | Some s' => k s' c
      | None => None
      end
  | Cat a b => m a (m b k) s c
  | Alt a b =>
      match m a k s c with
      | Some r => Some r
      | None => m b k s c
      end
  | Star a => star (m a) (length s) k s c
  | Opt a =>
      match m a k s c with
      | Some r => Some r
      | None => k s c
      end
  | Grp n a =>
      m a (fun s' c' => k s' (<[n := take (length s - length s') s]> c')) s c
  end.

(** The end-of-input assertion closing every pattern of the parser. *)
Definition at_end : cont :=
  fun s c => match s with [] => Some c | _ => None end.

(** [s.match(/^r$/)]. *)
Definition exec (r : re) (s : str) : option caps := m r at_end s ∅.

(** A captured group; an unmatched group is [undefined]. *)
Definition group (c : caps) (n : nat) : option str := c !! n.

Definition dot (c : char) : bool := negb (is_line_terminator c).
Definition any (c : char) : bool := true.
Definition non_ws (c : char) : bool := negb (is_ws c).

Declare Scope re_scope.
Delimit Scope re_scope with re.
Bind Scope re_scope with re.
Infix "·" := Cat (at level 41, right associativity) : re_scope.

Definition dirTokens : re :=
  Alt (Lit (lit "LR")) (Alt (Lit (lit "TD")) (Alt (Lit (lit "TB"))
    (Alt (Lit (lit "RL")) (Lit (lit "BT"))))).

(** [^ title: \s* ( .* ) $]   (patterns are quoted with spaces between their tokens) *)
Definition titleRe : re :=
  (Lit (lit "title:") · Star (Cls is_ws) · Grp 1 (Star (Cls dot)))%re.

(** [^ flowchart \s+ ( LR|TD|TB|RL|BT ) $] *)
Definition headerRe : re :=
  (Lit (lit "flowchart") · Plus (Cls is_ws) · Grp 1 dirTokens)%re.

(** [^ subgraph \s+ ( [^\s\[]+ ) \s* (?: \[ ( .* ) \] )? $] *)
Definition subgraphRe : re :=
  (Lit (lit "subgraph") · Plus (Cls is_ws)
   · Grp 1 (Plus (Cls (fun c => negb (is_ws c || char_eqb c (ch "[")))))
   · Star (Cls is_ws)
   · Opt (Lit (lit "[") · Grp 2 (Star (Cls dot)) · Lit (lit "]")))%re.

(** [^ direction \s+ ( LR|TD|TB|RL|BT ) $] *)
Definition directionRe : re :=
  (Lit (lit "direction") · Plus (Cls is_ws) · Grp 1 dirTokens)%re.

(** [^ classDef \s+ ( [^\s]+ ) \s+ ( .+ ) $] *)
Definition classDefRe : re :=
  (Lit (lit "classDef") · Plus (Cls is_ws) · Grp 1 (Plus (Cls non_ws))
   · Plus (Cls is_ws) · Grp 2 (Plus (Cls dot)))%re.

(** [^ class \s+ ( [^\s]+ ) \s+ ( [^\s;]+ ) ;? $] *)
Definition classRe : re :=
  (Lit (lit "class") · Plus (Cls is_ws) · Grp 1 (Plus (Cls non_ws))
   · Plus (Cls is_ws)
   · Grp 2 (Plus (Cls (fun c => negb (is_ws c || char_eqb c (ch ";")))))
   · Opt (Lit (lit ";")))%re.

(** [^ linkStyle \s+ ( \d+ ) \s+ ( .+ ) ;? $] *)
Definition linkStyleRe : re :=
  (Lit (lit "linkStyle") · Plus (Cls is_ws) · Grp 1 (Plus (Cls is_digit))
   · Plus (Cls is_ws) · Grp 2 (Plus (Cls dot)) · Opt (Lit (lit ";")))%re.

(** [^ ( [^\s]+ ) \s+ ( -->|---|~~~ ) \s* (?: \| ( [^|]+ ) \| )? \s* ( [^\s]+ ) $] *)
Definition linkRe : re :=
  (Grp 1 (Plus (Cls non_ws)) · Plus (Cls is_ws)
   · Grp 2 (Alt (Lit (lit "-->")) (Alt (Lit (lit "---")) (Lit (lit "~~~"))))
   · Star (Cls is_ws)
   · Opt (Lit (lit "|") · Grp 3 (Plus (Cls (fun c => negb (char_eqb c (ch "|")))))
          · Lit (lit "|"))
   · Star (Cls is_ws) · Grp 4 (Plus (Cls non_ws)))%re.

(** [^ ( [a-zA-Z0-9\-_!#$]+ ) ( .+ ) $] *)
Definition idRe : re :=
  (Grp 1 (Plus (Cls is_id_char)) · Grp 2 (Plus (Cls dot)))%re.

(** [^ open ( [\s\S]* ) close $] for a pair of delimiters. *)
Definition shapeRe (open close : string) : re :=
  (Lit (lit open) · Grp 1 (Star (Cls any)) · Lit (lit close))%re.

(** [shapeCandidates], in the order of the source. *)
Definition shapeCandidates : list (NodeShape * re) :=
  [ (HEXAGON, shapeRe "{{" "}}");
    (CIRCLE, shapeRe "((" "))");
    (SUBROUTINE, shapeRe "[[" "]]");
    (CYLINDER, shapeRe "[(" ")]");
    (STADIUM, shapeRe "([" "])");
    (RHOMBUS, shapeRe "{" "}");
    (RECT_ROUND, shapeRe "(" ")");
    (ASSYMETRIC, shapeRe ">" "]") ].

(** ** Parser *)

(** The errors thrown by the parser, one constructor per message. *)
Inductive ParseError :=
  | MissingClosingFrontmatter
  | MissingFlowchartDeclaration
  | InvalidFlowchartDeclaration (header : str)
  | UnexpectedEndAtRoot
  | SubgraphMissingDirectionAndBody (subgraphId : str)
  | SubgraphMissingValidDirection (subgraphId : str)
  | SubgraphMissingEnd (subgraphId : str)
  | UnsupportedLine (line : str).

Inductive result (A : Type) :=
  | Ok (a : A)
  | Err (e : ParseError).
Arguments Ok {A}.
Arguments Err {A}.

(** While it parses, a container holds references to its links: a link
    object is created exactly when it is registered in [linksByIndex] under
    the next index, so that index is the address of the object, and
    [linksByIndex] is the store through which [link.style = style] is seen
    by the container that owns the link. *)
Abbreviation ParsedSubgraph := (SubgraphOf nat).
Abbreviation ParsedChart := (ChartOf nat (SubgraphOf nat)).

Record ParseState := {
  nextLinkIndex : nat;
  linksByIndex : gmap nat Link;
  lastParsedLinkIndex : option nat
}.

Definition ChartDir_of_value (s : str) : ChartDir :=
  if str_eqb s (lit "LR") then LR
  else if str_eqb s (lit "TB") then TB
  else if str_eqb s (lit "RL") then RL
  else if str_eqb s (lit "BT") then BT
  else TD.

Definition LinkType_of_value (s : str) : LinkType :=
  if str_eqb s (lit "---") then OPEN
  else if str_eqb s (lit "~~~") then INVISIBLE
  else ARROW.

(** The loop over [shapeCandidates] of [parseNodeLine]. *)
Fixpoint firstShape (cands : list (NodeShape * re)) (rest id : str)
    (cls : option str) : option ChartNode :=
  match cands with
  | [] => None
  | (sh, rx) :: cands' =>
      match exec rx rest with
      | Some mt =>
          Some {| node_title := default [] (group mt 1); shape := sh;
                  node_id := id; className := cls |}
      | None => firstShape cands' rest id cls
      end
  end.

Definition parseNodeLine (line : str) : option ChartNode :=
  let parts :=
    match find_last (lit ":::") line with
    | Some (before, after) =>
        let cls := trim after in
        if nonempty cls then Some (before, Some cls) else None
    | None => Some (line, None)
    end in
  match parts with
  | None => None
  | Some (nodeContent, cls) =>
      match exec idRe nodeContent with
      | None => None
      | Some idMatch =>
          let id := default [] (group idMatch 1) in
          let rest := default [] (group idMatch 2) in
          firstShape shapeCandidates rest id cls
      end
  end.

(** [while (index < lines.length && lines[index].trim() === '') index += 1]. *)
Fixpoint skipBlankFrom (rest : list str) (index : nat) : nat :=
  match rest with
  | l :: rest' =>
      if nonempty (trim l) then index else skipBlankFrom rest' (index + 1)
  | [] => index
  end.

Definition skipBlank (lines : list str) (index : nat) : nat :=
  skipBlankFrom (drop index lines) index.

Record BodyResult := {
  nextIndex : nat;
  foundEndToken : bool;
  parsedChart : ParsedChart;
  parsedState : ParseState
}.

Definition setLinkStyle (l : Link) (style : str) : Link :=
  {| src := src l; dest := dest l; link_text := link_text l;
     link_type := link_type l; link_style := Some (RawStyle style) |}.

(** [state.lastParsedLinkIndex === linkIndex]: a value of the counter
    against the number read. *)
Definition sameIndex (counter : option nat) (x : number) : bool :=
  match counter, x with
  | Some k, Integer v => N.eqb (N.of_nat k) v
  | _, _ => false
  end.

(** [state.linksByIndex.get(linkIndex)]: the keys are values of the
    counter. *)
Definition getLink (state : ParseState) (x : number) : option Link :=
  match x with
  | Integer v => linksByIndex state !! N.to_nat v
  | NotInteger _ => None
  end.

(** The test of the link-style statement:
    [lastStatementWasLink && state.lastParsedLinkIndex === linkIndex
     && link && !link.style]. *)
Definition attachesInline (lastStatementWasLink : bool) (state : ParseState)
    (linkIndex : number) : bool :=
  if lastStatementWasLink then
    if sameIndex (lastParsedLinkIndex state) linkIndex then
      match getLink state linkIndex with
      | Some link => negb (hasStyle link)
      | None => false
      end
    else false
  else false.

(** [link.style = style] on the link found under [linkIndex]. *)
Definition styleInline (state : ParseState) (linkIndex : number) (style : str)
  : ParseState :=
  {| nextLinkIndex := nextLinkIndex state;
     linksByIndex :=
       match linkIndex with
       | Integer v =>
           alter (fun link => setLinkStyle link style) (N.to_nat v)
             (linksByIndex state)
       | NotInteger _ => linksByIndex state
       end;
     lastParsedLinkIndex := lastParsedLinkIndex state |}.

Definition classNamesOf (names : str) : ClassNames :=
  if includes (ch ",") names
  then ManyNames (map trim (split (ch ",") names))
  else OneName names.

Definition attachedNodesOf (ids : str) : AttachedNodes :=
  match map trim (split (ch ",") ids) with
  | [one] => OneNode (ById one)
  | many => ManyNodes (map ById many)
  end.

(** [parseChartBody]: the [while] loop, with [index] and
    [lastStatementWasLink] as its variables.  The container and the parse
    state, which the source mutates in place, are passed along and
    returned.  [fuel] bounds the number of iterations; [None] is returned
    only when it runs out (see [bodyLoop_terminates]). *)
Fixpoint bodyLoop (fuel : nat) (lines : list str) (index : nat)
    (lastStatementWasLink : bool) (chart : ParsedChart) (state : ParseState)
    (stopOnEnd : bool) {struct fuel} : option (result BodyResult) :=
  match fuel with
  | O => None
  | S fuel =>
  match lines !! index with
  | None =>
      Some (Ok {| nextIndex := index; foundEndToken := false;
                  parsedChart := chart; parsedState := state |})
  | Some raw =>
  let line := trim raw in
  if negb (nonempty line) then
    bodyLoop fuel lines (index + 1) lastStatementWasLink chart state stopOnEnd
  else if str_eqb line (lit "end") then
    if negb stopOnEnd then
      Some (Ok {| nextIndex := index + 1; foundEndToken := true;
                  parsedChart := chart; parsedState := state |})
    else
      Some (Ok {| nextIndex := index + 1; foundEndToken := true;
                  parsedChart := chart; parsedState := state |})
  else
  match exec subgraphRe line with
  | Some subgraphMatch =>
      let subgraphId := default [] (group subgraphMatch 1) in
      let subgraphTitle := default [] (group subgraphMatch 2) in
      let index := skipBlank lines (index + 1) in
      match lines !! index with
      | None => Some (Err (SubgraphMissingDirectionAndBody subgraphId))
      | Some rawDirection =>
          let directionLine := trim rawDirection in
          match exec directionRe directionLine with
          | None => Some (Err (SubgraphMissingValidDirection subgraphId))
          | Some directionMatch =>
              let subgraph : ParsedChart :=
                newChart (Some subgraphTitle)
                  (ChartDir_of_value (default [] (group directionMatch 1))) in
              match bodyLoop fuel lines (index + 1) false subgraph state true with
              | None => None
              | Some (Err e) => Some (Err e)
              | Some (Ok nestedResult) =>
                  if negb (foundEndToken nestedResult) then
                    Some (Err (SubgraphMissingEnd subgraphId))
                  else
                    bodyLoop fuel lines (nextIndex nestedResult) false
                      (addSubgraph chart
                         (MkSubgraph (Some subgraphId) (parsedChart nestedResult)))
                      (parsedState nestedResult) stopOnEnd
              end
          end
      end
  | None =>
  match exec classDefRe line with
  | Some classDefMatch =>
      let names := classNamesOf (default [] (group classDefMatch 1)) in
      let style := trim (default [] (group classDefMatch 2)) in
      bodyLoop fuel lines (index + 1) false
        (addClassDef chart {| classNames := names; cd_style := RawNodeStyle style |})
        state stopOnEnd
  | None =>
  match exec classRe line with
  | Some classAttachmentMatch =>
      let nodes := attachedNodesOf (default [] (group classAttachmentMatch 1)) in
      let cn := default [] (group classAttachmentMatch 2) in
      bodyLoop fuel lines (index + 1) false (attachClass chart nodes cn) state stopOnEnd
  | None =>
  match exec linkStyleRe line with
  | Some linkStyleMatch =>
      let linkIndex := parseInt (default [] (group linkStyleMatch 1)) in
      let style :=
        stripTrailingSemicolon (trim (default [] (group linkStyleMatch 2))) in
      if attachesInline lastStatementWasLink state linkIndex then
        bodyLoop fuel lines (index + 1) false chart
          (styleInline state linkIndex style) stopOnEnd
      else
        bodyLoop fuel lines (index + 1) false
          (addLinkStyle chart linkIndex (RawStyle style)) state stopOnEnd
  | None =>
  match exec linkRe line with
  | Some linkMatch =>
      let link :=
        {| src := ById (default [] (group linkMatch 1));
           dest := ById (default [] (group linkMatch 4));
           link_text := group linkMatch 3;
           link_type := LinkType_of_value (default [] (group linkMatch 2));
           link_style := None |} in
      bodyLoop fuel lines (index + 1) true
        (addLink chart (nextLinkIndex state))
        {| nextLinkIndex := nextLinkIndex state + 1;
           linksByIndex := <[nextLinkIndex state := link]> (linksByIndex state);
           lastParsedLinkIndex := Some (nextLinkIndex state) |}
        stopOnEnd
  | None =>
  match parseNodeLine line with
  | Some node =>
      bodyLoop fuel lines (index + 1) false (addNode chart node) state stopOnEnd
  | None => Some (Err (UnsupportedLine line))
  end end end end end end
  end
  end.

(** Every iteration and every nested call starts at a later line, so
    [length lines - startIndex + 1] rounds are enough. *)
Definition parseChartBody (lines : list str) (startIndex : nat)
    (chart : ParsedChart) (state : ParseState) (stopOnEnd : bool)
  : option (result BodyResult) :=
  bodyLoop (S (length lines - startIndex)) lines startIndex false chart state stopOnEnd.

(** The loop of the front matter: [index] stops at the closing [---] or at
    the end of the input; the last [title:] line seen wins. *)
Fixpoint frontmatterLoop (rest : list str) (index : nat) (t : option str)
  : nat * option str :=
  match rest with
  | l :: rest' =>
      let line := trim l in
      if str_eqb line (lit "---") then (index, t)
      else
        let t :=
          match exec titleRe line with
          | Some titleMatch => Some (default [] (group titleMatch 1))
          | None => t
          end in
        frontmatterLoop rest' (index + 1) t
  | [] => (index, t)
  end.

(** Reading the links of a parsed container from the store. *)
Definition dummyLink : Link :=
  {| src := ById []; dest := ById []; link_text := None;
     link_type := ARROW; link_style := None |}.

Definition deref (store : gmap nat Link) (r : nat) : Link :=
  default dummyLink (store !! r).

Fixpoint resolveSubgraph (store : gmap nat Link) (s : ParsedSubgraph) : Subgraph :=
  match s with
  | MkSubgraph i f =>
      MkSubgraph i
        (MkChart (title f) (direction f) (nodes f) (map (deref store) (links f))
           (map (resolveSubgraph store) (subgraphs f)) (classDefs f)
           (classAttachments f) (positionalLinkStyles f))
  end.

Definition resolveChart (store : gmap nat Link) (f : ParsedChart) : Chart :=
  MkChart (title f) (direction f) (nodes f) (map (deref store) (links f))
    (map (resolveSubgraph store) (subgraphs f)) (classDefs f)
    (classAttachments f) (positionalLinkStyles f).

Definition is_line (lines : list str) (index : nat) (s : str) : bool :=
  match lines !! index with
  | Some l => str_eqb (trim l) s
  | None => false
  end.

(** [parseFlowchart] on the lines of the input. *)
Definition parseLines (lines : list str) : option (result Chart) :=
  let index := skipBlank lines 0 in
  let front : result (nat * option str) :=
    if is_line lines index (lit "---") then
      let '(index, t) := frontmatterLoop (drop (index + 1) lines) (index + 1) None in
      if negb (is_line lines index (lit "---")) then Err MissingClosingFrontmatter
      else Ok (index + 1, t)
    else Ok (index, None) in
  match front with
  | Err e => Some (Err e)
  | Ok (index, t) =>
      let index := skipBlank lines index in
      match lines !! index with
      | None => Some (Err MissingFlowchartDeclaration)
      | Some raw =>
          let header := trim raw in
          match exec headerRe header with
          | None => Some (Err (InvalidFlowchartDeclaration header))
          | Some headerMatch =>
              let chart : ParsedChart :=
                newChart t (ChartDir_of_value (default [] (group headerMatch 1))) in
              let state :=
                {| nextLinkIndex := 0; linksByIndex := ∅;
                   lastParsedLinkIndex := None |} in
              match parseChartBody lines (index + 1) chart state false with
              | None => None
              | Some (Err e) => Some (Err e)
              | Some (Ok r) =>
                  if foundEndToken r then Some (Err UnexpectedEndAtRoot)
                  else Some (Ok (resolveChart (linksByIndex (parsedState r))
                                   (parsedChart r)))
              end
          end
      end
  end.

Definition parseFlowchart (input : str) : option (result Chart) :=
  parseLines (split LF (replaceCRLF input)).

(** * Properties *)

(** ** Strings *)

Lemma char_eqb_eq (a b : char) : char_eqb a b = true <-> a = b.
Proof. apply N.eqb_eq. Qed.

Lemma char_eqb_refl (a : char) : char_eqb a a = true.
Proof. apply N.eqb_refl. Qed.

Lemma char_eqb_neq (a b : char) : char_eqb a b = false <-> a <> b.
Proof. apply N.eqb_neq. Qed.

Lemma str_eqb_eq (a b : str) : str_eqb a b = true <-> a = b.
Proof.
  revert b. induction a as [|x a IH]; intros [|y b]; simpl; split; try done.
  - intros [Hx Hr]%andb_true_iff. apply char_eqb_eq in Hx. apply IH in Hr.
    by subst.
  - intros [= -> ->]. rewrite char_eqb_refl. simpl. by apply IH.
Qed.

Lemma str_eqb_refl (a : str) : str_eqb a a = true.
Proof. by apply str_eqb_eq. Qed.

Lemma str_eqb_neq (a b : str) : str_eqb a b = false <-> a <> b.
Proof.
  destruct (str_eqb a b) eqn:E.
  - apply str_eqb_eq in E. split; [done | intros H; by destruct H].
  - split; [|done]. intros _ ->. by rewrite str_eqb_refl in E.
Qed.

Lemma skipRun_filter keep s :
  List.filter keep (skipRun keep s) = List.filter keep s.
Proof.
  induction s as [|c r IH]; simpl; [done|].
  destruct (keep c) eqn:E; simpl; [by rewrite E | done].
Qed.

Lemma skipRun_length keep s : length (skipRun keep s) <= length s.
Proof.
  induction s as [|c r IH]; simpl; [done|].
  destruct (keep c); simpl; lia.
Qed.

Lemma removeRuns_filter keep fuel s :
  length s <= fuel -> removeRuns keep fuel s = List.filter keep s.
Proof.
  revert s. induction fuel as [|f IH]; intros [|c r] Hlen; simpl in *; try done; try lia.
  destruct (keep c) eqn:E.
  - f_equal. apply IH. lia.
  - rewrite IH; [apply skipRun_filter|].
    pose proof (skipRun_length keep r). lia.
Qed.

(** Deleting the runs of unsafe characters is filtering by the safe class. *)
Lemma stripUnsafe_filter keep s : stripUnsafe keep s = List.filter keep s.
Proof. by apply removeRuns_filter. Qed.

Lemma filter_nonempty_inv keep (s : str) :
  nonempty (List.filter keep s) = true -> nonempty s = true.
Proof. by destruct s. Qed.

(** ** Identifier derivation *)

Lemma ensureId_idempotent n : ensureId (ensureId n) = ensureId n.
Proof.
  unfold ensureId.
  destruct (negb (nonempty (node_id n)) && nonempty (node_title n)) eqn:E; simpl.
  - destruct (negb (nonempty (stripUnsafe is_id_char (node_title n)))
              && nonempty (node_title n)); [done|].
    done.
  - by rewrite E.
Qed.

(** An assignment to the public field [title]. *)
Definition setTitle (n : ChartNode) (t : str) : ChartNode :=
  {| node_title := t; shape := shape n; node_id := node_id n;
     className := className n |}.

(** C6. A node built without an explicit identifier answers [getId] with
    its label filtered by the identifier alphabet, and a second lookup
    gives the same answer and leaves the node as the first left it.  When
    the answer is not empty it is kept: whatever the label is changed to,
    a later lookup returns it and leaves the node alone.  When it is empty
    nothing is kept: a later lookup derives the identifier from the label
    the node has then. *)
Theorem derived_identifier_memoized (n : ChartNode) :
  node_id n = [] ->
  let id1 := fst (ChartNode_getId n) in
  let n1 := snd (ChartNode_getId n) in
  id1 = List.filter is_id_char (node_title n)
  /\ n1 = {| node_title := node_title n; shape := shape n; node_id := id1;
             className := className n |}
  /\ ChartNode_getId n1 = (id1, n1)
  /\ (id1 <> [] -> forall t, ChartNode_getId (setTitle n1 t) = (id1, setTitle n1 t))
  /\ (id1 = [] ->
      forall t, fst (ChartNode_getId (setTitle n1 t)) = List.filter is_id_char t).
Proof.
  intros Hid. cbv zeta. unfold ChartNode_getId. cbn [fst snd].
  assert (H1 : node_id (ensureId n) = List.filter is_id_char (node_title n)).
  { unfold ensureId. rewrite Hid. cbn [nonempty negb andb].
    destruct (nonempty (node_title n)) eqn:E; cbn [node_id].
    - apply stripUnsafe_filter.
    - rewrite Hid. by destruct (node_title n). }
  assert (H2 : ensureId n
               = {| node_title := node_title n; shape := shape n;
                    node_id := node_id (ensureId n); className := className n |}).
  { unfold ensureId. destruct (_ && _); [done | by destruct n]. }
  split_and!.
  - exact H1.
  - exact H2.
  - by rewrite ensureId_idempotent.
  - intros Hne t. set (n1 := ensureId n) in *.
    assert (E : ensureId (setTitle n1 t) = setTitle n1 t).
    { unfold ensureId, setTitle. cbn [node_id node_title].
      by destruct (node_id n1). }
    by rewrite E.
  - intros He t. set (n1 := ensureId n) in *.
    unfold ensureId, setTitle. cbn [node_id node_title]. rewrite He.
    cbn [nonempty negb andb].
    destruct (nonempty t) eqn:E; cbn [node_id].
    + apply stripUnsafe_filter.
    + by destruct t.
Qed.

Lemma derived_identifier_memoized_witness :
  fst (ChartNode_getId (newChartNode (lit "subnode 2"))) = lit "subnode2"
  /\ fst (ChartNode_getId
            (setTitle (snd (ChartNode_getId (newChartNode (lit "subnode 2"))))
               (lit "another label")))
     = lit "subnode2".
Proof.
  pose proof (derived_identifier_memoized (newChartNode (lit "subnode 2")) eq_refl)
    as (H1 & _ & _ & H4 & _).
  split; [exact H1|].
  rewrite (H4 ltac:(done) (lit "another label")). exact H1.
Defined.

(** A label without a character of the identifier alphabet derives the
    empty identifier, which is not kept: once the label is [cd], the next
    lookup answers [cd]. *)
Lemma empty_identifier_is_recomputed :
  let n := newChartNode (lit "???") in
  node_id n = []
  /\ fst (ChartNode_getId n) = []
  /\ fst (ChartNode_getId (setTitle (snd (ChartNode_getId n)) (lit "cd"))) = lit "cd"
  /\ fst (ChartNode_getId (setTitle (snd (ChartNode_getId n)) (lit "cd")))
     <> fst (ChartNode_getId n).
Proof. by vm_compute. Qed.

(** ** Serializer: the link loop and the running counter *)

(** The text of a link's style, when it has one. *)
Definition styleText (l : Link) : str :=
  match link_style l with
  | Some v => LinkStyleValue_text v
  | None => []
  end.

(** The lines of one link when the running counter is [k]. *)
Definition linkLines (indent : str) (k : nat) (l : Link) : list str :=
  (indent ++ Link_toString l)
  :: (if hasStyle l
      then [indent ++ lit "linkStyle " ++ Number_toString (counter k) ++ lit " "
              ++ styleText l ++ lit ";"]
      else []).

Lemma printStyle_styled l x :
  hasStyle l = true ->
  printStyle l x
  = lit "linkStyle " ++ Number_toString x ++ lit " " ++ styleText l ++ lit ";".
Proof.
  unfold printStyle, styleText, hasStyle. intros H.
  destruct (link_style l) as [v|]; [|done]. by rewrite H.
Qed.

Lemma printLinks_spec indent ls res n :
  printLinks indent ls (res, n)
  = (res ++ concat (imap (fun i l => linkLines indent (n + i) l) ls), n + length ls).
Proof.
  unfold printLinks. revert res n.
  induction ls as [|l ls IH]; intros res n; cbn [fold_left imap concat length].
  - by rewrite app_nil_r, Nat.add_0_r.
  - rewrite Nat.add_0_r.
    assert (Hext : imap ((fun i l0 => linkLines indent (n + i) l0) ∘ S) ls
                   = imap (fun i l0 => linkLines indent (n + 1 + i) l0) ls).
    { apply imap_ext. intros i x _. simpl. f_equal. lia. }
    rewrite Hext. unfold linkLines at 1.
    destruct (hasStyle l) eqn:E.
    + rewrite IH, printStyle_styled by done.
      rewrite <- !app_assoc. simpl. f_equal. lia.
    + rewrite IH. rewrite <- !app_assoc. simpl. f_equal. lia.
Qed.

Lemma printSubgraphs_acc {S} (printS : S -> str -> nat -> Random -> Printed)
    indent ss res n rnd :
  printSubgraphs printS indent ss (res, n, rnd)
  = (res ++ (printSubgraphs printS indent ss ([], n, rnd)).1.1,
     (printSubgraphs printS indent ss ([], n, rnd)).1.2,
     (printSubgraphs printS indent ss ([], n, rnd)).2).
Proof.
  unfold printSubgraphs. revert res n rnd.
  induction ss as [|s ss IH]; intros res n rnd; simpl.
  - by rewrite app_nil_r.
  - rewrite IH. symmetry. rewrite IH. simpl. by rewrite <- app_assoc.
Qed.

Lemma printSubgraphs_cons {S} (printS : S -> str -> nat -> Random -> Printed)
    indent s ss n rnd :
  printSubgraphs printS indent (s :: ss) ([], n, rnd)
  = let p := printS s indent n rnd in
    let r := printSubgraphs printS indent ss ([], nextLinkCount p, random p) in
    (text p :: r.1.1, r.1.2, r.2).
Proof.
  unfold printSubgraphs at 1. simpl.
  exact (printSubgraphs_acc printS indent ss _ _ _).
Qed.

(** The lines pushed by [printBody], its counter and its random source. *)
Definition bodyItems {S} (printS : S -> str -> nat -> Random -> Printed)
    (c : ChartOf Link S) (indent : str) (linkCount : nat) (rnd : Random)
  : list str :=
  map (fun node => indent ++ ChartNode_toString node) (nodes c)
  ++ concat (imap (fun i l => linkLines indent (linkCount + i) l) (links c))
  ++ (printSubgraphs printS indent (subgraphs c)
        ([], linkCount + length (links c), rnd)).1.1
  ++ map (fun d => indent ++ ClassDef_toString d) (classDefs c)
  ++ map (fun a => indent ++ ClassAttachment_toString a) (classAttachments c)
  ++ map (positionalLine indent) (positionalLinkStyles c).

Lemma printBody_spec {S} (printS : S -> str -> nat -> Random -> Printed)
    (c : ChartOf Link S) indent n rnd :
  printBody printS c indent n rnd
  = {| text := join NL (bodyItems printS c indent n rnd);
       nextLinkCount :=
         (printSubgraphs printS indent (subgraphs c)
            ([], n + length (links c), rnd)).1.2;
       random :=
         (printSubgraphs printS indent (subgraphs c)
            ([], n + length (links c), rnd)).2 |}.
Proof.
  unfold printBody, bodyItems. rewrite printLinks_spec.
  rewrite printSubgraphs_acc.
  destruct (printSubgraphs printS indent (subgraphs c) _) as [[ts n'] rnd'].
  simpl. by rewrite <- !app_assoc.
Qed.

(** A counter below 2^53 prints as its decimal numeral. *)
Lemma Number_toString_counter k :
  (N.of_nat k < two53)%N -> Number_toString (counter k) = nat_str k.
Proof.
  intros H%N.ltb_lt. unfold counter, Number_toString. by rewrite H.
Qed.

Lemma countable_lt n m : countable m = true -> n < m -> (N.of_nat n < two53)%N.
Proof. unfold countable. intros H%N.leb_le Hn. lia. Qed.

(** C4. In the loop over a container's links, a link pushes its own line
    and, right after it, the line [linkStyle <counter> <style>;] exactly
    when its style is a style object or a raw string that is not empty,
    where the counter is the value at entry plus the number of links before
    it, printed as a numeral while counting is exact; the loop leaves the
    counter advanced by the number of links.  These lines follow the node
    lines in the text of [printBody]. *)
Theorem link_loop_numbers_styles {S} (printS : S -> str -> nat -> Random -> Printed)
    (c : ChartOf Link S) (indent : str) (n : nat) (rnd : Random) (res : list str) :
  countable (n + length (links c)) = true ->
  printLinks indent (links c) (res, n)
  = (res ++ concat (imap (fun i l =>
              (indent ++ Link_toString l)
              :: match link_style l with
                 | Some (StyleObject o) =>
                     [indent ++ lit "linkStyle " ++ nat_str (n + i) ++ lit " "
                        ++ LinkStyle_toString o ++ lit ";"]
                 | Some (RawStyle s) =>
                     if nonempty s
                     then [indent ++ lit "linkStyle " ++ nat_str (n + i) ++ lit " "
                             ++ s ++ lit ";"]
                     else []
                 | None => []
                 end) (links c)),
     n + length (links c))
  /\ exists rest,
       text (printBody printS c indent n rnd)
       = join NL (map (fun node => indent ++ ChartNode_toString node) (nodes c)
                  ++ (printLinks indent (links c) ([], n)).1 ++ rest).
Proof.
  intros Hc. split.
  - rewrite printLinks_spec. do 3 f_equal. apply imap_ext. intros i l Hl.
    apply lookup_lt_Some in Hl. unfold linkLines, hasStyle, styleText.
    rewrite Number_toString_counter by (eapply countable_lt; [exact Hc | lia]).
    destruct (link_style l) as [[s|o]|]; [|done|done]. by destruct (nonempty s).
  - rewrite printBody_spec. simpl. unfold bodyItems.
    rewrite printLinks_spec. simpl. eauto.
Qed.

Definition emptyLinkStyle : LinkStyle :=
  {| stroke := None; strokeWidth := None; color := None |}.

Definition plainLinkAB (style : option LinkStyleValue) : Link :=
  {| src := ById (lit "a"); dest := ById (lit "b"); link_text := None;
     link_type := ARROW; link_style := style |}.

Lemma link_loop_numbers_styles_witness :
  printLinks (lit "  ")
    [plainLinkAB (Some (RawStyle (lit "stroke:red"))); plainLinkAB None;
     plainLinkAB (Some (StyleObject emptyLinkStyle)); plainLinkAB (Some (RawStyle []))]
    ([], 3)
  = ([lit "  a --> b"; lit "  linkStyle 3 stroke:red;"; lit "  a --> b";
      lit "  a --> b"; lit "  linkStyle 5 ;"; lit "  a --> b"], 7).
Proof.
  pose proof (link_loop_numbers_styles
                (fun (_ : Subgraph) _ k rnd =>
                   {| text := []; nextLinkCount := k; random := rnd |})
                (MkChart None TD []
                   [plainLinkAB (Some (RawStyle (lit "stroke:red"))); plainLinkAB None;
                    plainLinkAB (Some (StyleObject emptyLinkStyle));
                    plainLinkAB (Some (RawStyle []))] [] [] [] [])
                (lit "  ") 3 {| draws := fun _ => 0; calls := 0 |} [] eq_refl)
    as [H _].
  exact H.
Defined.

(** A link whose style is the empty string carries a raw string, and its
    line is followed by no [linkStyle] line. *)
Lemma empty_raw_style_prints_no_line :
  link_style (plainLinkAB (Some (RawStyle []))) = Some (RawStyle [])
  /\ printLinks (lit "  ") [plainLinkAB (Some (RawStyle []))] ([], 0)
     = ([lit "  a --> b"], 1).
Proof. split; [done | by vm_compute]. Qed.

(** ** Induction on container trees *)

Section SubgraphInduction.
Context {L : Type} (P : SubgraphOf L -> Prop).
Hypothesis step : forall i f, Forall P (subgraphs f) -> P (MkSubgraph i f).

Fixpoint Subgraph_tree_ind (s : SubgraphOf L) : P s :=
  match s with
  | MkSubgraph i f =>
      step i f
        ((fix go (l : list (SubgraphOf L)) : Forall P l :=
            match l with
            | [] => @List.Forall_nil _ P
            | x :: r => @List.Forall_cons _ P x r (Subgraph_tree_ind x) (go r)
            end) (subgraphs f))
  end.
End SubgraphInduction.

(** The number of links of a sub-grouping and of everything below it. *)
Fixpoint linkTotal {L} (s : SubgraphOf L) : nat :=
  match s with
  | MkSubgraph _ f => length (links f) + sum_list (map linkTotal (subgraphs f))
  end.

(** Every sub-grouping of the tree has an identifier or a title. *)
Fixpoint identified {L} (s : SubgraphOf L) : bool :=
  match s with
  | MkSubgraph i f => (truthy i || truthy (title f)) && forallb identified (subgraphs f)
  end.

Lemma Subgraph_print_eq sid f indent n rnd :
  Subgraph_print (MkSubgraph sid f) indent n rnd
  = let '(id, _, rnd) := Subgraph_getId (MkSubgraph sid f) rnd in
    let body := printBody Subgraph_print f (indent ++ lit "  ") n rnd in
    {| text :=
         join NL
           [ indent ++ lit "subgraph " ++ id ++ lit " ["
               ++ (if truthy (title f) then default [] (title f) else []) ++ lit "]";
             indent ++ lit "  direction " ++ ChartDir_value (direction f);
             text body;
             indent ++ lit "end" ];
       nextLinkCount := nextLinkCount body;
       random := random body |}.
Proof. reflexivity. Qed.

Lemma printSubgraphs_count (ss : list Subgraph) indent n rnd :
  Forall (fun s => forall indent n rnd,
            nextLinkCount (Subgraph_print s indent n rnd) = n + linkTotal s) ss ->
  (printSubgraphs Subgraph_print indent ss ([], n, rnd)).1.2
  = n + sum_list (map linkTotal ss).
Proof.
  intros H. revert n rnd. induction H as [|s ss Hs _ IH]; intros n rnd.
  - simpl. lia.
  - rewrite printSubgraphs_cons. cbn [fst snd map sum_list sum_list_with].
    rewrite IH, Hs. unfold id. lia.
Qed.

Lemma Subgraph_print_count (s : Subgraph) indent n rnd :
  nextLinkCount (Subgraph_print s indent n rnd) = n + linkTotal s.
Proof.
  revert indent n rnd. induction s as [sid f IH] using Subgraph_tree_ind.
  intros indent n rnd. rewrite Subgraph_print_eq.
  destruct (Subgraph_getId _ _) as [[id s'] rnd']. cbn [nextLinkCount].
  rewrite printBody_spec. cbn [nextLinkCount].
  rewrite printSubgraphs_count by done. symmetry. apply Nat.add_assoc.
Qed.

(** The text pushed for the [i]-th sub-grouping is its own serialization
    started at the counter left by the ones before it. *)
Lemma printSubgraphs_lookup (ss : list Subgraph) indent n rnd i s :
  ss !! i = Some s ->
  exists rnd_i,
    (printSubgraphs Subgraph_print indent ss ([], n, rnd)).1.1 !! i
    = Some (text (Subgraph_print s indent
                    (n + sum_list (map linkTotal (take i ss))) rnd_i)).
Proof.
  revert n rnd i. induction ss as [|x ss IH]; intros n rnd [|i] Hi; try done.
  - simpl in Hi. injection Hi as ->. exists rnd.
    rewrite printSubgraphs_cons. simpl. by rewrite Nat.add_0_r.
  - simpl in Hi. rewrite printSubgraphs_cons. cbn [fst snd].
    destruct (IH (nextLinkCount (Subgraph_print x indent n rnd))
                (random (Subgraph_print x indent n rnd)) i Hi) as [r Hr].
    exists r. rewrite lookup_cons. rewrite Hr. rewrite Subgraph_print_count.
    cbn [take map sum_list sum_list_with]. unfold id. do 3 f_equal. lia.
Qed.

(** The revised serializer threads one counter through the whole tree:
    the [i]-th sub-grouping is serialized from the counter advanced past
    the container's own links and past every link of the sub-groupings
    before it, and the call returns the counter advanced past the whole
    subtree. *)
Lemma counter_threaded_through_subgraphs (c : Chart) indent n rnd :
  nextLinkCount (printBody Subgraph_print c indent n rnd)
  = n + length (links c) + sum_list (map linkTotal (subgraphs c))
  /\ (forall s indent n rnd,
        nextLinkCount (Subgraph_print s indent n rnd) = n + linkTotal s)
  /\ forall i s, subgraphs c !! i = Some s ->
       exists rnd_i,
         (printSubgraphs Subgraph_print indent (subgraphs c)
            ([], n + length (links c), rnd)).1.1 !! i
         = Some (text (Subgraph_print s indent
                         (n + length (links c)
                          + sum_list (map linkTotal (take i (subgraphs c)))) rnd_i)).
Proof.
  split; [|split].
  - rewrite printBody_spec. cbn [nextLinkCount].
    apply printSubgraphs_count. apply Forall_forall. intros s _.
    apply Subgraph_print_count.
  - apply Subgraph_print_count.
  - intros i s Hi. by apply printSubgraphs_lookup.
Qed.

(** *** The earlier serializer loses the count of a sub-grouping *)

Definition styledLink (a b : string) (colour : string) : Link :=
  {| src := ById (lit a); dest := ById (lit b); link_text := None;
     link_type := ARROW;
     link_style := Some (StyleObject {| stroke := Some (lit colour);
                                        strokeWidth := None; color := None |}) |}.

(** Two sibling sub-groupings, one styled link in each. *)
Definition twoStyledSubgraphs : Chart :=
  addSubgraph
    (addSubgraph (newChart None TD)
       (MkSubgraph (Some (lit "A"))
          (addLink (newChart None TD) (styledLink "a" "b" "red"))))
    (MkSubgraph (Some (lit "B"))
       (addLink (newChart None TD) (styledLink "c" "d" "blue"))).

Definition noRandom : Random := {| draws := fun _ => 0; calls := 0 |}.
Definition noLegacyRandom : Legacy.Random :=
  {| Legacy.draws := fun _ => []; Legacy.calls := 0 |}.

(** C2. On [twoStyledSubgraphs] the serializer of [src/index.ts] numbers
    both links 0: the count of the first sub-grouping does not come back to
    the loop over the sub-groupings, so the second link, which is link 1 in
    document order, is styled as link 0. *)
Theorem legacy_counter_not_threaded :
  Legacy.Chart_toString noLegacyRandom twoStyledSubgraphs
  = lit "flowchart TD
  subgraph A []
    direction TD
    a --> b
    linkStyle 0 stroke:red;
  end
  subgraph B []
    direction TD
    c --> d
    linkStyle 0 stroke:blue;
  end
".
Proof. vm_compute. reflexivity. Qed.

(** The revised serializer numbers the same links 0 and 1. *)
Example revised_counter_threaded :
  Chart_toString noRandom twoStyledSubgraphs
  = lit "flowchart TD
  subgraph A []
    direction TD
    a --> b
    linkStyle 0 stroke:red;
  end
  subgraph B []
    direction TD
    c --> d
    linkStyle 1 stroke:blue;
  end
".
Proof. vm_compute. reflexivity. Qed.

(** ** Determinism of the serializer *)

Lemma Subgraph_getId_identified {L} (s : SubgraphOf L) r1 r2 :
  truthy (sub_id s) || truthy (title (sub_fields s)) = true ->
  (Subgraph_getId s r1).1.1 = (Subgraph_getId s r2).1.1
  /\ (Subgraph_getId s r1).2 = r1.
Proof.
  unfold Subgraph_getId. intros H.
  destruct (truthy (sub_id s)); [done|]. simpl in H. by rewrite H.
Qed.

Lemma printSubgraphs_deterministic (ss : list Subgraph) indent n r1 r2 :
  Forall (fun s => identified s = true ->
            forall indent n r1 r2,
              text (Subgraph_print s indent n r1) = text (Subgraph_print s indent n r2)
              /\ random (Subgraph_print s indent n r1) = r1) ss ->
  forallb identified ss = true ->
  (printSubgraphs Subgraph_print indent ss ([], n, r1)).1.1
  = (printSubgraphs Subgraph_print indent ss ([], n, r2)).1.1
  /\ (printSubgraphs Subgraph_print indent ss ([], n, r1)).2 = r1.
Proof.
  intros H. revert n. induction H as [|s ss Hs _ IH]; intros n Hid; [done|].
  simpl in Hid. apply andb_true_iff in Hid as [Hs' Hss].
  rewrite !printSubgraphs_cons. cbn [fst snd].
  destruct (Hs Hs' indent n r1 r2) as [Ht Hr].
  destruct (Hs Hs' indent n r2 r2) as [_ Hr2].
  rewrite Hr, Hr2, !Subgraph_print_count, Ht.
  destruct (IH (n + linkTotal s) Hss) as [IH1 IH2]. by rewrite IH1, IH2.
Qed.

Lemma Subgraph_print_deterministic (s : Subgraph) :
  identified s = true ->
  forall indent n r1 r2,
    text (Subgraph_print s indent n r1) = text (Subgraph_print s indent n r2)
    /\ random (Subgraph_print s indent n r1) = r1.
Proof.
  induction s as [sid f IH] using Subgraph_tree_ind.
  intros Hid indent n r1 r2. simpl in Hid.
  apply andb_true_iff in Hid as [Hhere Hsubs].
  rewrite !Subgraph_print_eq.
  destruct (Subgraph_getId_identified (MkSubgraph sid f) r1 r2 Hhere) as [Hi Hr].
  destruct (Subgraph_getId_identified (MkSubgraph sid f) r2 r2 Hhere) as [_ Hr2].
  destruct (Subgraph_getId (MkSubgraph sid f) r1) as [[id1 s1] r1'].
  destruct (Subgraph_getId (MkSubgraph sid f) r2) as [[id2 s2] r2'].
  simpl in Hi, Hr, Hr2. subst. cbn [text random].
  rewrite !printBody_spec. cbn [text random]. unfold bodyItems.
  destruct (printSubgraphs_deterministic (subgraphs f) (indent ++ lit "  ")
              (n + length (links f)) r1 r2 IH Hsubs) as [H1 H2].
  by rewrite H1, H2.
Qed.

(** C9. When every sub-grouping of a tree has an identifier or a non-empty
    title, the text of the tree does not depend on the random source: any
    two runs of [toString] give the same text. *)
Theorem serialization_deterministic (c : Chart) :
  forallb identified (subgraphs c) = true ->
  forall r1 r2, Chart_toString r1 c = Chart_toString r2 c.
Proof.
  intros Hid r1 r2. unfold Chart_toString, Chart_print. cbn [text].
  rewrite !printBody_spec. cbn [text]. unfold bodyItems.
  assert (H : Forall (fun s => identified s = true ->
            forall indent n r1 r2,
              text (Subgraph_print s indent n r1) = text (Subgraph_print s indent n r2)
              /\ random (Subgraph_print s indent n r1) = r1) (subgraphs c)).
  { apply Forall_forall. intros s _. apply Subgraph_print_deterministic. }
  destruct (printSubgraphs_deterministic (subgraphs c) ([] ++ lit "  ")
              (0 + length (links c)) r1 r2 H Hid) as [H1 _].
  by rewrite H1.
Qed.

Lemma serialization_deterministic_witness :
  Chart_toString {| draws := fun _ => 1; calls := 0 |} twoStyledSubgraphs
  = Chart_toString {| draws := fun _ => 2; calls := 0 |} twoStyledSubgraphs.
Proof. apply (serialization_deterministic twoStyledSubgraphs). reflexivity. Defined.

(** A sub-grouping with neither identifier nor title gets the random
    suffix, and two runs differ. *)
Definition anonymousSubgraph : Chart :=
  addSubgraph (newChart None TD) (MkSubgraph None (newChart None TD)).

Example fallback_identifier_is_random :
  Chart_toString {| draws := fun _ => 1; calls := 0 |} anonymousSubgraph
  = lit "flowchart TD
  subgraph subgraph1 []
    direction TD

  end
"
  /\ Chart_toString {| draws := fun _ => 2; calls := 0 |} anonymousSubgraph
     = lit "flowchart TD
  subgraph subgraph2 []
    direction TD

  end
".
Proof. split; vm_compute; reflexivity. Qed.

(** ** The matcher on the shapes of pattern the parser uses *)

Lemma strip_prefix_app p s : strip_prefix p (p ++ s) = Some s.
Proof. induction p as [|x p IH]; simpl; [done|]. by rewrite char_eqb_refl. Qed.

Lemma strip_prefix_Some p s r : strip_prefix p s = Some r <-> s = p ++ r.
Proof.
  split; [|intros ->; apply strip_prefix_app].
  revert s. induction p as [|x p IH]; intros s; simpl.
  - by intros [= ->].
  - destruct s as [|y s]; [done|]. destruct (char_eqb x y) eqn:E; [|done].
    apply char_eqb_eq in E as ->. intros H. by rewrite (IH _ H).
Qed.

Lemma m_Cat a b k s c : m (Cat a b) k s c = m a (m b k) s c.
Proof. done. Qed.

Lemma m_Grp n a k s c :
  m (Grp n a) k s c
  = m a (fun s' c' => k s' (<[n := take (length s - length s') s]> c')) s c.
Proof. done. Qed.

Lemma m_Opt a k s c :
  m (Opt a) k s c = match m a k s c with Some r => Some r | None => k s c end.
Proof. done. Qed.

Lemma m_Alt a b k s c :
  m (Alt a b) k s c = match m a k s c with Some r => Some r | None => m b k s c end.
Proof. done. Qed.

Lemma m_Lit l k s c : m (Lit l) k (l ++ s) c = k s c.
Proof. simpl. by rewrite strip_prefix_app. Qed.

Lemma m_Lit_None l k s c : strip_prefix l s = None -> m (Lit l) k s c = None.
Proof. simpl. by intros ->. Qed.

(** Greedy iteration of a character class, as a recursion on the input. *)
Fixpoint greedy (p : char -> bool) (k : cont) (s : str) (c : caps) : option caps :=
  match s with
  | x :: s' =>
      if p x then
        match greedy p k s' c with
        | Some r => Some r
        | None => k s c
        end
      else k s c
  | [] => k s c
  end.

Lemma star_Cls p fuel k s c :
  length s <= fuel -> star (m (Cls p)) fuel k s c = greedy p k s c.
Proof.
  revert s. induction fuel as [|f IH]; intros s Hlen.
  - destruct s; [done | simpl in Hlen; lia].
  - destruct s as [|x s]; [done|]. cbn [star m greedy].
    destruct (p x); [|done].
    assert (Hlt : Nat.ltb (length s) (length (x :: s)) = true).
    { apply Nat.ltb_lt. simpl. lia. }
    rewrite Hlt, IH; [done | simpl in Hlen; lia].
Qed.

Lemma m_Star_Cls p k s c : m (Star (Cls p)) k s c = greedy p k s c.
Proof. simpl. by apply star_Cls. Qed.

Lemma m_Plus_Cls p k s c :
  m (Plus (Cls p)) k s c
  = match s with
    | x :: s' => if p x then greedy p k s' c else None
    | [] => None
    end.
Proof.
  unfold Plus. cbn [m]. destruct s as [|x s]; [done|].
  destruct (p x); [|done]. by apply star_Cls.
Qed.

(** The continuation fails whenever the next character is in the class. *)
Definition rejects (k : cont) (p : char -> bool) : Prop :=
  forall x s c, p x = true -> k (x :: s) c = None.

(** The input stops the class: it is empty or starts outside it. *)
Definition stops (p : char -> bool) (s : str) : Prop :=
  match s with
  | [] => True
  | x :: _ => p x = false
  end.

Lemma greedy_stop p k s c : stops p s -> greedy p k s c = k s c.
Proof. destruct s as [|x s]; simpl; [done|]. by intros ->. Qed.

(** No backtracking into the run when the continuation cannot start inside
    it. *)
Lemma greedy_commit p k run rest c :
  forallb p run = true -> stops p rest -> rejects k p ->
  greedy p k (run ++ rest) c = k rest c.
Proof.
  intros Hrun Hstop Hrej. induction run as [|x run IH]; simpl.
  - by apply greedy_stop.
  - simpl in Hrun. apply andb_true_iff in Hrun as [Hx Hrun].
    rewrite Hx, (IH Hrun). destruct (k rest c) eqn:E; [done|].
    by apply Hrej.
Qed.

(** The longest run wins when the continuation accepts after it. *)
Lemma greedy_first p k run rest c r :
  forallb p run = true -> stops p rest -> k rest c = Some r ->
  greedy p k (run ++ rest) c = Some r.
Proof.
  intros Hrun Hstop Hk. induction run as [|x run IH]; simpl.
  - by rewrite greedy_stop.
  - simpl in Hrun. apply andb_true_iff in Hrun as [Hx Hrun].
    by rewrite Hx, (IH Hrun).
Qed.

(** Backtracking from the end of the input to the last [n] characters. *)
Lemma greedy_back p k a u c r :
  forallb p (a ++ u) = true ->
  (forall v, length v < length u -> k v c = None) ->
  k u c = Some r ->
  greedy p k (a ++ u) c = Some r.
Proof.
  intros Hp Hshort Hk.
  assert (Hu : greedy p k u c = Some r).
  { assert (Hpu : forallb p u = true).
    { rewrite forallb_app in Hp. by apply andb_true_iff in Hp as [_ ?]. }
    clear Hp. destruct u as [|x u]; [done|]. simpl.
    simpl in Hpu. apply andb_true_iff in Hpu as [-> Hpu].
    assert (Hnone : forall w, length w <= length u -> forallb p w = true ->
                              greedy p k w c = None).
    { induction w as [|y w IHw]; intros Hlen Hw; simpl.
      - apply Hshort. simpl. lia.
      - simpl in Hw. apply andb_true_iff in Hw as [-> Hw].
        rewrite IHw by (simpl in Hlen; done || lia).
        apply Hshort. simpl in *. lia. }
    by rewrite Hnone. }
  induction a as [|x a IH]; [done|]. simpl in *.
  apply andb_true_iff in Hp as [-> Hp]. by rewrite (IH Hp).
Qed.

(** Whatever the iteration returns was accepted by the continuation at some
    split of the input. *)
Lemma greedy_sound p k s c r :
  greedy p k s c = Some r ->
  exists a u, s = a ++ u /\ forallb p a = true /\ k u c = Some r.
Proof.
  induction s as [|x s IH]; simpl.
  - intros H. by exists [], [].
  - destruct (p x) eqn:Hx.
    + destruct (greedy p k s c) eqn:E.
      * intros [= ->]. destruct (IH eq_refl) as (a & u & -> & Ha & Hk).
        exists (x :: a), u. simpl. by rewrite Hx, Ha.
      * intros H. by exists [], (x :: s).
    + intros H. by exists [], (x :: s).
Qed.

Lemma rejects_at_end p : rejects at_end p.
Proof. by intros x s c _. Qed.

Lemma rejects_Cls q k p :
  (forall x, p x = true -> q x = false) -> rejects (m (Cls q) k) p.
Proof. intros H x s c Hx. simpl. by rewrite (H x Hx). Qed.

Lemma rejects_Lit y l k p : p y = false -> rejects (m (Lit (y :: l)) k) p.
Proof.
  intros Hy x s c Hx. simpl. destruct (char_eqb y x) eqn:E; [|done].
  apply char_eqb_eq in E as ->. congruence.
Qed.

Lemma rejects_Plus_Cls q k p :
  (forall x, p x = true -> q x = false) -> rejects (m (Plus (Cls q)) k) p.
Proof. intros H x s c Hx. rewrite m_Plus_Cls. by rewrite (H x Hx). Qed.

Lemma rejects_Grp n a k p :
  (forall k', rejects (m a k') p) -> rejects (m (Grp n a) k) p.
Proof. intros H x s c Hx. simpl. by apply H. Qed.

Lemma rejects_Cat a b k p : rejects (m a (m b k)) p -> rejects (m (Cat a b) k) p.
Proof. done. Qed.

Lemma rejects_Alt a b k p :
  rejects (m a k) p -> rejects (m b k) p -> rejects (m (Alt a b) k) p.
Proof. intros Ha Hb x s c Hx. simpl. by rewrite (Ha x s c Hx), (Hb x s c Hx). Qed.

Lemma rejects_Opt a k p :
  rejects (m a k) p -> rejects k p -> rejects (m (Opt a) k) p.
Proof. intros Ha Hk x s c Hx. simpl. by rewrite (Ha x s c Hx), (Hk x s c Hx). Qed.

Lemma rejects_Star_Cls q k p :
  (forall x, p x = true -> q x = false) -> rejects k p ->
  rejects (m (Star (Cls q)) k) p.
Proof.
  intros H Hk x s c Hx. rewrite m_Star_Cls. simpl.
  by rewrite (H x Hx), (Hk x s c Hx).
Qed.

Lemma forallb_app_true {A} (p : A -> bool) (a b : list A) :
  forallb p (a ++ b) = true <-> forallb p a = true /\ forallb p b = true.
Proof. rewrite forallb_app. apply andb_true_iff. Qed.

Lemma take_app_length' {A} (a b : list A) n :
  n = length a -> take n (a ++ b) = a.
Proof. intros ->. apply take_app_length. Qed.

Ltac unlit := cbv [lit list_ascii_of_string map] in *.

Lemma group_insert_eq (c : caps) n x : group (<[n := x]> c) n = Some x.
Proof. apply lookup_insert_eq. Qed.

Lemma group_insert_ne (c : caps) n n' x :
  n <> n' -> group (<[n := x]> c) n' = group c n'.
Proof. intros. by apply lookup_insert_ne. Qed.

Lemma group_empty n : group ∅ n = None.
Proof. apply lookup_empty. Qed.

Ltac groups :=
  repeat first [ rewrite group_insert_eq
               | rewrite group_insert_ne by done
               | rewrite group_empty ];
  cbn [default from_option id].

Lemma strip_prefix_short p v : length v < length p -> strip_prefix p v = None.
Proof.
  revert v. induction p as [|x p IH]; intros v Hlen; simpl in *; [lia|].
  destruct v as [|y v]; [done|]. destruct (char_eqb x y); [|done].
  apply IH. simpl in Hlen. lia.
Qed.

Lemma m_Lit_at_end l c : m (Lit l) at_end l c = Some c.
Proof. rewrite <- (app_nil_r l) at 2. by rewrite m_Lit. Qed.

(** A shape pattern matches its own delimiters around any label, and the
    captured label is everything between them. *)
Lemma exec_shapeRe_self (open close : string) (l : str) :
  exec (shapeRe open close) (lit open ++ l ++ lit close) = Some (<[1 := l]> ∅).
Proof.
  unfold exec, shapeRe. rewrite m_Cat, m_Lit, m_Cat, m_Grp, m_Star_Cls.
  erewrite greedy_back; [done | | |].
  - by apply forallb_forall.
  - intros v Hv. by rewrite m_Lit_None by by apply strip_prefix_short.
  - rewrite m_Lit_at_end.
    rewrite take_app_length'; [done|]. rewrite length_app. lia.
Qed.

Lemma exec_shapeRe_sound (open close : string) (s : str) mt :
  exec (shapeRe open close) s = Some mt ->
  exists l, s = lit open ++ l ++ lit close /\ mt = <[1 := l]> ∅.
Proof.
  unfold exec, shapeRe. rewrite m_Cat.
  destruct (strip_prefix (lit open) s) as [s1|] eqn:E1;
    [|by rewrite m_Lit_None].
  apply strip_prefix_Some in E1 as ->.
  rewrite m_Lit, m_Cat, m_Grp, m_Star_Cls. intros H.
  apply greedy_sound in H as (a & u & -> & _ & H).
  destruct (strip_prefix (lit close) u) as [u1|] eqn:E2;
    [|by rewrite m_Lit_None in H].
  apply strip_prefix_Some in E2 as ->. rewrite m_Lit in H.
  destruct u1; [|done]. simpl in H. injection H as <-.
  exists a. split; [by rewrite app_nil_r|].
  rewrite app_nil_r. f_equal. apply take_app_length'.
  rewrite length_app. lia.
Qed.

(** The identifier pattern splits a line at the end of its identifier when
    the rest is on one line. *)
Lemma exec_idRe id rest :
  id <> [] -> forallb is_id_char id = true ->
  rest <> [] -> stops is_id_char rest -> forallb dot rest = true ->
  exec idRe (id ++ rest) = Some (<[2 := rest]> (<[1 := id]> ∅)).
Proof.
  intros Hid Hidc Hrest Hstop Hdot. unfold exec, idRe.
  rewrite m_Cat, m_Grp, m_Plus_Cls.
  destruct id as [|x id]; [done|]. simpl in Hidc.
  apply andb_true_iff in Hidc as [Hx Hidc]. cbn [app]. rewrite Hx.
  apply greedy_first; [done..|].
  rewrite m_Grp, m_Plus_Cls.
  destruct rest as [|y rest]; [done|]. simpl in Hdot.
  apply andb_true_iff in Hdot as [Hy Hdot]. rewrite Hy.
  rewrite <- (app_nil_r rest) at 1.
  erewrite greedy_first; [done | done | done |]. cbn [at_end length].
  f_equal. f_equal.
  - rewrite Nat.sub_0_r. exact (firstn_all (y :: rest)).
  - f_equal. apply (take_app_length' (x :: id)). simpl.
    rewrite length_app. simpl. lia.
Qed.

(** *** The class separator *)

Definition colon : char := ch ":".

Lemma strip_prefix_sep_head (x : char) s :
  x <> colon -> strip_prefix (lit ":::") (x :: s) = None.
Proof.
  intros Hx. unlit. simpl. destruct (char_eqb (ch ":") x) eqn:E; [|done].
  apply char_eqb_eq in E. by destruct Hx.
Qed.

Definition no_colon (s : str) : bool := forallb (fun c => negb (char_eqb c colon)) s.

Lemma find_last_sep_skip a t :
  no_colon a = true ->
  find_last (lit ":::") (a ++ t)
  = match find_last (lit ":::") t with
    | Some (b, r) => Some (a ++ b, r)
    | None => None
    end.
Proof.
  intros Ha. induction a as [|x a IH]; cbn [app].
  - by destruct (find_last _ t) as [[??]|].
  - cbn [no_colon forallb] in Ha. apply andb_true_iff in Ha as [Hx Ha].
    cbn [find_last].
    rewrite (IH Ha). destruct (find_last _ t) as [[??]|]; [done|].
    rewrite strip_prefix_sep_head; [done|]. intros ->.
    unfold colon in Hx. by rewrite char_eqb_refl in Hx.
Qed.

Lemma strip_prefix_sep_app s b :
  strip_prefix (lit ":::") s = None -> no_colon b = true ->
  strip_prefix (lit ":::") (s ++ b) = None.
Proof.
  intros Hs Hb.
  assert (Hgen : forall p, forallb (char_eqb colon) p = true ->
                           strip_prefix p s = None -> strip_prefix p (s ++ b) = None).
  { clear Hs. intros p. revert s. induction p as [|x p IH]; intros s Hp H; [done|].
    simpl in Hp. apply andb_true_iff in Hp as [Hx Hp].
    apply char_eqb_eq in Hx as <-.
    destruct s as [|y s]; simpl in *.
    - destruct b as [|z b]; [done|]. simpl in Hb.
      apply andb_true_iff in Hb as [Hz _].
      destruct (char_eqb colon z) eqn:E; [|done].
      apply char_eqb_eq in E as <-. by rewrite char_eqb_refl in Hz.
    - destruct (char_eqb colon y); [|done]. by apply IH. }
  by apply Hgen.
Qed.

Lemma find_last_sep_app s b :
  find_last (lit ":::") s = None -> no_colon b = true ->
  find_last (lit ":::") (s ++ b) = None.
Proof.
  intros Hs Hb. induction s as [|x s IH].
  - rewrite app_nil_l, <- (app_nil_r b), find_last_sep_skip by done. done.
  - cbn [find_last] in Hs.
    destruct (find_last (lit ":::") s) as [[??]|] eqn:E; [done|].
    change ((x :: s) ++ b) with (x :: (s ++ b)). cbn [find_last].
    rewrite (IH eq_refl).
    change (x :: s ++ b) with ((x :: s) ++ b).
    rewrite strip_prefix_sep_app; [done | | done].
    by destruct (strip_prefix (lit ":::") (x :: s)).
Qed.

Lemma id_chars_no_colon id : forallb is_id_char id = true -> no_colon id = true.
Proof.
  intros H. apply forallb_forall. intros x Hx.
  rewrite forallb_forall in H. specialize (H x Hx).
  destruct (char_eqb x colon) eqn:E; [|done].
  apply char_eqb_eq in E as ->. by vm_compute in H.
Qed.

(** ** Parser: the body loop, one statement at a time *)

Section BodySteps.
Context (fuel : nat) (lines : list str) (index : nat) (last : bool)
        (chart : ParsedChart) (state : ParseState) (stop : bool).

Lemma body_eof :
  lines !! index = None ->
  bodyLoop (S fuel) lines index last chart state stop
  = Some (Ok {| nextIndex := index; foundEndToken := false;
                parsedChart := chart; parsedState := state |}).
Proof. intros H. cbn [bodyLoop]. by rewrite H. Qed.

Lemma body_blank raw :
  lines !! index = Some raw -> trim raw = [] ->
  bodyLoop (S fuel) lines index last chart state stop
  = bodyLoop fuel lines (index + 1) last chart state stop.
Proof. intros H Ht. cbn [bodyLoop]. by rewrite H, Ht. Qed.

Lemma body_end raw :
  lines !! index = Some raw -> trim raw = lit "end" ->
  bodyLoop (S fuel) lines index last chart state stop
  = Some (Ok {| nextIndex := index + 1; foundEndToken := true;
                parsedChart := chart; parsedState := state |}).
Proof.
  intros H Ht. cbn [bodyLoop]. rewrite H, Ht.
  change (nonempty (lit "end")) with true.
  rewrite str_eqb_refl. cbn [negb]. by destruct stop.
Qed.

(** A line that is neither blank nor the terminator goes through the
    statement patterns. *)
Definition statement (line : str) : Prop := line <> [] /\ line <> lit "end".

Lemma statement_tests line :
  statement line -> nonempty line = true /\ str_eqb line (lit "end") = false.
Proof.
  intros [H1 H2]. split; [by destruct line|]. by apply str_eqb_neq.
Qed.

Lemma body_subgraph raw sm :
  lines !! index = Some raw -> statement (trim raw) ->
  exec subgraphRe (trim raw) = Some sm ->
  bodyLoop (S fuel) lines index last chart state stop
  = let subgraphId := default [] (group sm 1) in
    let subgraphTitle := default [] (group sm 2) in
    let index := skipBlank lines (index + 1) in
    match lines !! index with
    | None => Some (Err (SubgraphMissingDirectionAndBody subgraphId))
    | Some rawDirection =>
        match exec directionRe (trim rawDirection) with
        | None => Some (Err (SubgraphMissingValidDirection subgraphId))
        | Some directionMatch =>
            match bodyLoop fuel lines (index + 1) false
                    (newChart (Some subgraphTitle)
                       (ChartDir_of_value (default [] (group directionMatch 1))))
                    state true with
            | None => None
            | Some (Err e) => Some (Err e)
            | Some (Ok nestedResult) =>
                if negb (foundEndToken nestedResult) then
                  Some (Err (SubgraphMissingEnd subgraphId))
                else
                  bodyLoop fuel lines (nextIndex nestedResult) false
                    (addSubgraph chart
                       (MkSubgraph (Some subgraphId) (parsedChart nestedResult)))
                    (parsedState nestedResult) stop
            end
        end
    end.
Proof.
  intros H [Hn He]%statement_tests Hm. cbn [bodyLoop].
  by rewrite H, Hn, He, Hm.
Qed.

Lemma body_classDef raw mt :
  lines !! index = Some raw -> statement (trim raw) ->
  exec subgraphRe (trim raw) = None ->
  exec classDefRe (trim raw) = Some mt ->
  bodyLoop (S fuel) lines index last chart state stop
  = bodyLoop fuel lines (index + 1) false
      (addClassDef chart
         {| classNames := classNamesOf (default [] (group mt 1));
            cd_style := RawNodeStyle (trim (default [] (group mt 2))) |})
      state stop.
Proof.
  intros H [Hn He]%statement_tests H1 Hm. cbn [bodyLoop].
  by rewrite H, Hn, He, H1, Hm.
Qed.

Lemma body_class raw mt :
  lines !! index = Some raw -> statement (trim raw) ->
  exec subgraphRe (trim raw) = None ->
  exec classDefRe (trim raw) = None ->
  exec classRe (trim raw) = Some mt ->
  bodyLoop (S fuel) lines index last chart state stop
  = bodyLoop fuel lines (index + 1) false
      (attachClass chart (attachedNodesOf (default [] (group mt 1)))
         (default [] (group mt 2)))
      state stop.
Proof.
  intros H [Hn He]%statement_tests H1 H2 Hm. cbn [bodyLoop].
  by rewrite H, Hn, He, H1, H2, Hm.
Qed.

Lemma body_linkStyle raw mt :
  lines !! index = Some raw -> statement (trim raw) ->
  exec subgraphRe (trim raw) = None ->
  exec classDefRe (trim raw) = None ->
  exec classRe (trim raw) = None ->
  exec linkStyleRe (trim raw) = Some mt ->
  bodyLoop (S fuel) lines index last chart state stop
  = let linkIndex := parseInt (default [] (group mt 1)) in
    let style := stripTrailingSemicolon (trim (default [] (group mt 2))) in
    if attachesInline last state linkIndex then
      bodyLoop fuel lines (index + 1) false chart
        (styleInline state linkIndex style) stop
    else
      bodyLoop fuel lines (index + 1) false
        (addLinkStyle chart linkIndex (RawStyle style)) state stop.
Proof.
  intros H [Hn He]%statement_tests H1 H2 H3 Hm. cbn [bodyLoop].
  by rewrite H, Hn, He, H1, H2, H3, Hm.
Qed.

Definition registerLink (state : ParseState) (link : Link) : ParseState :=
  {| nextLinkIndex := nextLinkIndex state + 1;
     linksByIndex := <[nextLinkIndex state := link]> (linksByIndex state);
     lastParsedLinkIndex := Some (nextLinkIndex state) |}.

Definition linkOfMatch (mt : caps) : Link :=
  {| src := ById (default [] (group mt 1));
     dest := ById (default [] (group mt 4));
     link_text := group mt 3;
     link_type := LinkType_of_value (default [] (group mt 2));
     link_style := None |}.

Lemma body_link raw mt :
  lines !! index = Some raw -> statement (trim raw) ->
  exec subgraphRe (trim raw) = None ->
  exec classDefRe (trim raw) = None ->
  exec classRe (trim raw) = None ->
  exec linkStyleRe (trim raw) = None ->
  exec linkRe (trim raw) = Some mt ->
  bodyLoop (S fuel) lines index last chart state stop
  = bodyLoop fuel lines (index + 1) true
      (addLink chart (nextLinkIndex state))
      (registerLink state (linkOfMatch mt)) stop.
Proof.
  intros H [Hn He]%statement_tests H1 H2 H3 H4 Hm. cbn [bodyLoop].
  by rewrite H, Hn, He, H1, H2, H3, H4, Hm.
Qed.

Lemma body_node raw :
  lines !! index = Some raw -> statement (trim raw) ->
  exec subgraphRe (trim raw) = None ->
  exec classDefRe (trim raw) = None ->
  exec classRe (trim raw) = None ->
  exec linkStyleRe (trim raw) = None ->
  exec linkRe (trim raw) = None ->
  bodyLoop (S fuel) lines index last chart state stop
  = match parseNodeLine (trim raw) with
    | Some node =>
        bodyLoop fuel lines (index + 1) false (addNode chart node) state stop
    | None => Some (Err (UnsupportedLine (trim raw)))
    end.
Proof.
  intros H [Hn He]%statement_tests H1 H2 H3 H4 H5. cbn [bodyLoop].
  by rewrite H, Hn, He, H1, H2, H3, H4, H5.
Qed.

End BodySteps.

(** ** Parser: fuel *)

Lemma line_cases (line : str) :
  line = [] \/ line = lit "end" \/ statement line.
Proof.
  destruct line as [|x l]; [by left|]. right.
  destruct (str_eqb (x :: l) (lit "end")) eqn:E.
  - left. by apply str_eqb_eq.
  - right. split; [done|]. by apply str_eqb_neq.
Qed.

(** One more round of fuel never changes a result. *)
Lemma bodyLoop_mono f f' lines index last chart state stop r :
  f <= f' ->
  bodyLoop f lines index last chart state stop = Some r ->
  bodyLoop f' lines index last chart state stop = Some r.
Proof.
  revert f' index last chart state stop r.
  induction f as [|f IH]; intros f' index last chart state stop r Hle H; [done|].
  destruct f' as [|f']; [lia|]. assert (Hle' : f <= f') by lia.
  destruct (lines !! index) as [raw|] eqn:Hl;
    [|rewrite body_eof in H by done; by rewrite body_eof].
  destruct (line_cases (trim raw)) as [Hb|[He|Hs]].
  { rewrite (body_blank _ _ _ _ _ _ _ raw) in H by done; rewrite (body_blank _ _ _ _ _ _ _ raw) by done. by eapply IH. }
  { rewrite (body_end _ _ _ _ _ _ _ raw) in H by done; rewrite (body_end _ _ _ _ _ _ _ raw) by done. done. }
  destruct (exec subgraphRe (trim raw)) as [sm|] eqn:H1.
  { rewrite (body_subgraph _ _ _ _ _ _ _ raw sm) in H by done; rewrite (body_subgraph _ _ _ _ _ _ _ raw sm) by done. cbv zeta in H |- *.
    destruct (lines !! skipBlank lines (index + 1)) as [rawd|]; [|done].
    destruct (exec directionRe (trim rawd)) as [dm|]; [|done].
    destruct (bodyLoop f lines _ false _ state true) as [[nested|e]|] eqn:Hn;
      [| |done].
    - rewrite (IH _ _ _ _ _ _ _ Hle' Hn).
      destruct (negb (foundEndToken nested)); [done|]. by eapply IH.
    - by rewrite (IH _ _ _ _ _ _ _ Hle' Hn). }
  destruct (exec classDefRe (trim raw)) as [m2|] eqn:H2.
  { rewrite (body_classDef _ _ _ _ _ _ _ raw m2) in H by done; rewrite (body_classDef _ _ _ _ _ _ _ raw m2) by done. by eapply IH. }
  destruct (exec classRe (trim raw)) as [m3|] eqn:H3.
  { rewrite (body_class _ _ _ _ _ _ _ raw m3) in H by done; rewrite (body_class _ _ _ _ _ _ _ raw m3) by done. by eapply IH. }
  destruct (exec linkStyleRe (trim raw)) as [m4|] eqn:H4.
  { rewrite (body_linkStyle _ _ _ _ _ _ _ raw m4) in H by done; rewrite (body_linkStyle _ _ _ _ _ _ _ raw m4) by done. cbv zeta in H |- *.
    destruct (attachesInline _ _ _); by eapply IH. }
  destruct (exec linkRe (trim raw)) as [m5|] eqn:H5.
  { rewrite (body_link _ _ _ _ _ _ _ raw m5) in H by done; rewrite (body_link _ _ _ _ _ _ _ raw m5) by done. by eapply IH. }
  rewrite (body_node _ _ _ _ _ _ _ raw) in H by done; rewrite (body_node _ _ _ _ _ _ _ raw) by done.
  destruct (parseNodeLine (trim raw)); [by eapply IH | done].
Qed.

Lemma skipBlankFrom_ge rest index : index <= skipBlankFrom rest index.
Proof.
  revert index. induction rest as [|l rest IH]; intros index; simpl; [done|].
  destruct (nonempty (trim l)); [done|]. specialize (IH (index + 1)). lia.
Qed.

Lemma skipBlank_ge lines index : index <= skipBlank lines index.
Proof. apply skipBlankFrom_ge. Qed.

(** The loop returns with [length lines - index + 1] rounds of fuel, and a
    normal return never moves backwards. *)
Lemma bodyLoop_terminates f lines index last chart state stop :
  length lines - index < f ->
  exists r, bodyLoop f lines index last chart state stop = Some r
            /\ forall br, r = Ok br -> index <= nextIndex br.
Proof.
  revert index last chart state stop.
  induction f as [|f IH]; intros index last chart state stop Hf; [lia|].
  destruct (lines !! index) as [raw|] eqn:Hl;
    [|rewrite body_eof by done; eexists; split; [done|]; by intros ? [= <-]].
  assert (Hlt : index < length lines) by by eapply lookup_lt_Some.
  assert (Hnext : forall last chart state stop,
            exists r, bodyLoop f lines (index + 1) last chart state stop = Some r
                      /\ forall br, r = Ok br -> index <= nextIndex br).
  { intros. destruct (IH (index + 1) last0 chart0 state0 stop0) as (r & Hr & Hi);
      [lia|]. exists r. split; [done|]. intros br ->.
    specialize (Hi br eq_refl). lia. }
  destruct (line_cases (trim raw)) as [Hb|[He|Hs]].
  { rewrite (body_blank _ _ _ _ _ _ _ raw) by done. apply Hnext. }
  { rewrite (body_end _ _ _ _ _ _ _ raw) by done. eexists. split; [done|].
    intros ? [= <-]. simpl. lia. }
  destruct (exec subgraphRe (trim raw)) as [sm|] eqn:H1.
  { rewrite (body_subgraph _ _ _ _ _ _ _ raw sm) by done. cbv zeta.
    pose proof (skipBlank_ge lines (index + 1)) as Hsk.
    destruct (lines !! skipBlank lines (index + 1)) as [rawd|];
      [|by eexists].
    destruct (exec directionRe (trim rawd)) as [dm|]; [|by eexists].
    edestruct (IH (skipBlank lines (index + 1) + 1)) as (rn & -> & Hin); [lia|].
    destruct rn as [nested|e]; [|by eexists].
    destruct (negb (foundEndToken nested)); [by eexists|].
    specialize (Hin nested eq_refl).
    edestruct (IH (nextIndex nested)) as (r & -> & Hi); [lia|].
    exists r. split; [done|]. intros br ->. specialize (Hi br eq_refl). lia. }
  destruct (exec classDefRe (trim raw)) as [m2|] eqn:H2.
  { rewrite (body_classDef _ _ _ _ _ _ _ raw m2) by done. apply Hnext. }
  destruct (exec classRe (trim raw)) as [m3|] eqn:H3.
  { rewrite (body_class _ _ _ _ _ _ _ raw m3) by done. apply Hnext. }
  destruct (exec linkStyleRe (trim raw)) as [m4|] eqn:H4.
  { rewrite (body_linkStyle _ _ _ _ _ _ _ raw m4) by done. cbv zeta.
    destruct (attachesInline _ _ _); apply Hnext. }
  destruct (exec linkRe (trim raw)) as [m5|] eqn:H5.
  { rewrite (body_link _ _ _ _ _ _ _ raw m5) by done. apply Hnext. }
  rewrite (body_node _ _ _ _ _ _ _ raw) by done.
  destruct (parseNodeLine (trim raw)); [apply Hnext | by eexists].
Qed.

(** [parseChartBody] always returns. *)
Lemma parseChartBody_total lines index chart state stop :
  is_Some (parseChartBody lines index chart state stop).
Proof.
  unfold parseChartBody.
  destruct (bodyLoop_terminates (S (length lines - index)) lines index false
              chart state stop) as (r & -> & _); [lia | done].
Qed.

(** [parseFlowchart] always returns: a chart or an error. *)
Lemma parseFlowchart_total input : is_Some (parseFlowchart input).
Proof.
  unfold parseFlowchart, parseLines.
  destruct (if is_line _ _ _ then _ else _) as [[index t]|e]; [|done].
  destruct (_ !! _); [|done]. destruct (exec headerRe _); [|done].
  destruct (parseChartBody_total (split LF (replaceCRLF input))
              (skipBlank (split LF (replaceCRLF input)) index + 1)
              (newChart t (ChartDir_of_value (default [] (group g 1))))
              {| nextLinkIndex := 0; linksByIndex := ∅; lastParsedLinkIndex := None |}
              false) as [r Hr].
  rewrite Hr. destruct r as [r|e]; [|done]. by destruct (foundEndToken r).
Qed.

(** The loop seen as a relation: some amount of fuel gives the result. *)
Definition runs (lines : list str) (index : nat) (last : bool)
    (chart : ParsedChart) (state : ParseState) (stop : bool)
    (r : result BodyResult) : Prop :=
  exists f, bodyLoop f lines index last chart state stop = Some r.

Lemma runs_parseChartBody lines index chart state stop r :
  runs lines index false chart state stop r ->
  parseChartBody lines index chart state stop = Some r.
Proof.
  intros [f Hf]. unfold parseChartBody.
  destruct (bodyLoop_terminates (S (length lines - index)) lines index false
              chart state stop) as (r' & Hr' & _); [lia|].
  rewrite Hr'. f_equal.
  assert (H1 := bodyLoop_mono f (f + S (length lines - index))).
  assert (H2 := bodyLoop_mono (S (length lines - index))
                  (f + S (length lines - index))).
  specialize (H1 _ _ _ _ _ _ _ ltac:(lia) Hf).
  specialize (H2 _ _ _ _ _ _ _ ltac:(lia) Hr'). congruence.
Qed.

(** ** Parser: the top level *)

Definition initialState : ParseState :=
  {| nextLinkIndex := 0; linksByIndex := ∅; lastParsedLinkIndex := None |}.

(** What [parseFlowchart] does before it calls [parseChartBody]: the index
    of the first body line and the empty chart, or the error. *)
Definition preamble (lines : list str) : result (nat * ParsedChart) :=
  let index := skipBlank lines 0 in
  let front : result (nat * option str) :=
    if is_line lines index (lit "---") then
      let '(index, t) := frontmatterLoop (drop (index + 1) lines) (index + 1) None in
      if negb (is_line lines index (lit "---")) then Err MissingClosingFrontmatter
      else Ok (index + 1, t)
    else Ok (index, None) in
  match front with
  | Err e => Err e
  | Ok (index, t) =>
      let index := skipBlank lines index in
      match lines !! index with
      | None => Err MissingFlowchartDeclaration
      | Some raw =>
          match exec headerRe (trim raw) with
          | None => Err (InvalidFlowchartDeclaration (trim raw))
          | Some headerMatch =>
              Ok (index + 1,
                  newChart t (ChartDir_of_value (default [] (group headerMatch 1))))
          end
      end
  end.

Definition finish (r : result BodyResult) : result Chart :=
  match r with
  | Err e => Err e
  | Ok r =>
      if foundEndToken r then Err UnexpectedEndAtRoot
      else Ok (resolveChart (linksByIndex (parsedState r)) (parsedChart r))
  end.

Lemma parseLines_preamble lines :
  parseLines lines
  = match preamble lines with
    | Err e => Some (Err e)
    | Ok (index, chart) =>
        finish <$> parseChartBody lines index chart initialState false
    end.
Proof.
  unfold parseLines, preamble.
  destruct (if is_line _ _ _ then _ else _) as [[index t]|e]; [|done].
  destruct (_ !! _); [|done]. destruct (exec headerRe _); [|done].
  destruct (parseChartBody _ _ _ _ _) as [[r|e]|]; try done.
  simpl. by destruct (foundEndToken r).
Qed.

(** An error of the body is the error of the parse. *)
Lemma parseLines_body_error lines index chart e :
  preamble lines = Ok (index, chart) ->
  runs lines index false chart initialState false (Err e) ->
  parseLines lines = Some (Err e).
Proof.
  intros Hp Hr. rewrite parseLines_preamble, Hp.
  by rewrite (runs_parseChartBody _ _ _ _ _ _ Hr).
Qed.

(** ** The terminator at the top level *)

(** C8. At every nesting level the body loop answers an [end] line by
    returning to its caller with [foundEndToken] set, whatever [stopOnEnd]
    is; and when the call made by [parseFlowchart] returns with
    [foundEndToken] set, the parse fails with the unexpected-terminator
    error. *)
Theorem end_at_root_is_rejected :
  (forall fuel lines index last chart state stop raw,
     lines !! index = Some raw -> trim raw = lit "end" ->
     bodyLoop (S fuel) lines index last chart state stop
     = Some (Ok {| nextIndex := index + 1; foundEndToken := true;
                   parsedChart := chart; parsedState := state |}))
  /\ (forall lines index chart r,
        preamble lines = Ok (index, chart) ->
        parseChartBody lines index chart initialState false = Some (Ok r) ->
        foundEndToken r = true ->
        parseLines lines = Some (Err UnexpectedEndAtRoot)).
Proof.
  split.
  - intros. by eapply body_end.
  - intros lines index chart r Hp Hb Hf.
    rewrite parseLines_preamble, Hp, Hb. simpl. by rewrite Hf.
Qed.

Lemma end_at_root_is_rejected_witness :
  parseLines [lit "flowchart LR"; lit "  a(x)"; lit "end"]
  = Some (Err UnexpectedEndAtRoot).
Proof.
  apply (proj2 end_at_root_is_rejected
           [lit "flowchart LR"; lit "  a(x)"; lit "end"] 1 (newChart None LR)
           {| nextIndex := 3; foundEndToken := true;
              parsedChart :=
                addNode (newChart None LR)
                  {| node_title := lit "x"; shape := RECT_ROUND;
                     node_id := lit "a"; className := None |};
              parsedState := initialState |});
    vm_compute; reflexivity.
Defined.

(** The terminator of a sub-grouping closes it; one more at the top level
    is the error. *)
Example end_after_closed_subgraph :
  parseFlowchart (lit "flowchart TD
  subgraph A [a]
    direction LR
    x(y)
  end
end
")
  = Some (Err UnexpectedEndAtRoot).
Proof. vm_compute. reflexivity. Qed.

(** ** A sub-grouping without its direction line *)

Lemma exec_Lit_prefix l r s mt :
  exec (Cat (Lit l) r) s = Some mt -> exists rest, s = l ++ rest.
Proof.
  unfold exec. rewrite m_Cat. simpl.
  destruct (strip_prefix l s) as [rest|] eqn:E; [|done].
  intros _. exists rest. by apply strip_prefix_Some.
Qed.

Lemma subgraph_line_statement line sm :
  exec subgraphRe line = Some sm -> statement line.
Proof.
  intros [rest ->]%exec_Lit_prefix. by split.
Qed.

Lemma skipBlankFrom_blanks blanks rest index :
  Forall (fun l => trim l = []) blanks ->
  skipBlankFrom (blanks ++ rest) index = skipBlankFrom rest (index + length blanks).
Proof.
  intros H. revert index. induction H as [|l blanks Hl _ IH]; intros index; simpl.
  - by rewrite Nat.add_0_r.
  - rewrite Hl. simpl. rewrite IH. f_equal. lia.
Qed.

Lemma skipBlank_blanks pre blanks l post :
  Forall (fun l => trim l = []) blanks -> trim l <> [] ->
  skipBlank (pre ++ blanks ++ l :: post) (length pre) = length pre + length blanks.
Proof.
  intros Hb Hl. unfold skipBlank. rewrite drop_app_length.
  rewrite skipBlankFrom_blanks by done. simpl.
  by destruct (trim l).
Qed.

(** C7. When the body loop is at a sub-grouping header and the next
    non-blank line is not a valid [direction <token>] line, the parse of the
    body fails with the missing-direction error of that sub-grouping. *)
Theorem subgraph_without_direction
    (fuel : nat) (pre blanks post : list str) (raw bad : str) (last : bool)
    (chart : ParsedChart) (state : ParseState) (stop : bool) (sm : caps) :
  exec subgraphRe (trim raw) = Some sm ->
  Forall (fun l => trim l = []) blanks ->
  trim bad <> [] ->
  exec directionRe (trim bad) = None ->
  bodyLoop (S fuel) (pre ++ raw :: blanks ++ bad :: post) (length pre) last
    chart state stop
  = Some (Err (SubgraphMissingValidDirection (default [] (group sm 1)))).
Proof.
  intros Hm Hb Hbad Hd.
  assert (Hl : (pre ++ raw :: blanks ++ bad :: post) !! length pre = Some raw).
  { by rewrite lookup_app_r, Nat.sub_diag by lia. }
  rewrite (body_subgraph _ _ _ _ _ _ _ raw sm Hl) by by eauto using subgraph_line_statement.
  cbv zeta.
  assert (Hsk : skipBlank (pre ++ raw :: blanks ++ bad :: post) (length pre + 1)
                = length pre + 1 + length blanks).
  { pose proof (skipBlank_blanks (pre ++ [raw]) blanks bad post Hb Hbad) as H.
    rewrite <- app_assoc, length_app in H. exact H. }
  rewrite Hsk.
  assert (Hl2 : (pre ++ raw :: blanks ++ bad :: post) !! (length pre + 1 + length blanks)
                = Some bad).
  { rewrite lookup_app_r by lia.
    replace (length pre + 1 + length blanks - length pre) with (S (length blanks)) by lia.
    simpl. by rewrite lookup_app_r, Nat.sub_diag by lia. }
  by rewrite Hl2, Hd.
Qed.

Lemma subgraph_without_direction_witness :
  bodyLoop 1 ([lit "flowchart TD"] ++ lit "  subgraph A [a]" :: [[]; lit "  "]
                ++ lit "    x(y)" :: [lit "  end"])
    (length [lit "flowchart TD"]) false (newChart None TD) initialState false
  = Some (Err (SubgraphMissingValidDirection
                 (default [] (group (<[2 := lit "a"]> (<[1 := lit "A"]> ∅)) 1)))).
Proof.
  apply (subgraph_without_direction 0 [lit "flowchart TD"] [[]; lit "  "]
           [lit "  end"] (lit "  subgraph A [a]") (lit "    x(y)") false
           (newChart None TD) initialState false
           (<[2 := lit "a"]> (<[1 := lit "A"]> ∅))).
  - vm_compute. reflexivity.
  - repeat constructor.
  - vm_compute. discriminate.
  - vm_compute. reflexivity.
Defined.

(** The same on whole documents: the error of the parse is the
    missing-direction error, also below the top level, and not the
    unsupported-line error that the line [x(y z] would raise as a
    statement. *)
Example missing_direction_document :
  parseFlowchart (lit "flowchart TD
  a(b)
  subgraph Outer [outer]
    direction LR
    subgraph Inner

      x(y z
    end
  end
")
  = Some (Err (SubgraphMissingValidDirection (lit "Inner"))).
Proof. vm_compute. reflexivity. Qed.

(** ** The parser reads trimmed lines only *)

Definition same_trimmed (l l' : list str) : Prop := map trim l = map trim l'.

Lemma same_trimmed_lookup l l' i :
  same_trimmed l l' ->
  match l !! i, l' !! i with
  | Some a, Some b => trim a = trim b
  | None, None => True
  | _, _ => False
  end.
Proof.
  unfold same_trimmed. revert l' i.
  induction l as [|a l IH]; intros [|b l'] i H; try done.
  injection H as Hab H. destruct i as [|i]; simpl; [done|]. by apply IH.
Qed.

Lemma same_trimmed_drop l l' n :
  same_trimmed l l' -> same_trimmed (drop n l) (drop n l').
Proof.
  unfold same_trimmed. revert l l'.
  induction n as [|n IH]; intros [|a l] [|b l'] H; try done.
  injection H as _ H. by apply IH.
Qed.

Lemma same_trimmed_length l l' : same_trimmed l l' -> length l = length l'.
Proof.
  unfold same_trimmed. intros H.
  by rewrite <- (length_map trim l), H, length_map.
Qed.

Lemma skipBlankFrom_trimmed l l' index :
  same_trimmed l l' -> skipBlankFrom l index = skipBlankFrom l' index.
Proof.
  unfold same_trimmed. revert l' index.
  induction l as [|a l IH]; intros [|b l'] index H; try done.
  injection H as Hab H. simpl. rewrite Hab. by rewrite (IH l' _ H).
Qed.

Lemma skipBlank_trimmed l l' index :
  same_trimmed l l' -> skipBlank l index = skipBlank l' index.
Proof. intros H. by apply skipBlankFrom_trimmed, same_trimmed_drop. Qed.

Lemma is_line_trimmed l l' index s :
  same_trimmed l l' -> is_line l index s = is_line l' index s.
Proof.
  intros H. unfold is_line. pose proof (same_trimmed_lookup l l' index H) as Hi.
  destruct (l !! index), (l' !! index); try done. by rewrite Hi.
Qed.

Lemma frontmatterLoop_trimmed l l' index t :
  same_trimmed l l' -> frontmatterLoop l index t = frontmatterLoop l' index t.
Proof.
  unfold same_trimmed. revert l' index t.
  induction l as [|a l IH]; intros [|b l'] index t H; try done.
  injection H as Hab H. simpl. rewrite Hab.
  destruct (str_eqb (trim b) (lit "---")); [done|]. by apply IH.
Qed.

Lemma bodyLoop_trimmed f l l' index last chart state stop :
  same_trimmed l l' ->
  bodyLoop f l index last chart state stop
  = bodyLoop f l' index last chart state stop.
Proof.
  intros Hs. revert index last chart state stop.
  induction f as [|f IH]; intros index last chart state stop; [done|].
  pose proof (same_trimmed_lookup l l' index Hs) as Hi.
  destruct (l !! index) as [raw|] eqn:Hl, (l' !! index) as [raw'|] eqn:Hl';
    try done; [|by rewrite !body_eof].
  destruct (line_cases (trim raw)) as [Hb|[He|Hst]].
  { rewrite (body_blank _ l _ _ _ _ _ raw) by done.
    rewrite (body_blank _ l' _ _ _ _ _ raw') by congruence. apply IH. }
  { rewrite (body_end _ l _ _ _ _ _ raw) by done.
    by rewrite (body_end _ l' _ _ _ _ _ raw') by congruence. }
  destruct (exec subgraphRe (trim raw)) as [sm|] eqn:H1.
  { rewrite (body_subgraph _ l _ _ _ _ _ raw sm) by done.
    rewrite Hi in Hst, H1.
    rewrite (body_subgraph _ l' _ _ _ _ _ raw' sm) by done.
    cbv zeta. rewrite (skipBlank_trimmed l l') by done.
    pose proof (same_trimmed_lookup l l' (skipBlank l' (index + 1)) Hs) as Hd.
    destruct (l !! skipBlank l' (index + 1)) as [rd|],
             (l' !! skipBlank l' (index + 1)) as [rd'|]; try done.
    rewrite Hd. destruct (exec directionRe (trim rd')); [|done].
    rewrite IH. destruct (bodyLoop f l' _ _ _ _ _) as [[nested|e]|]; try done.
    by rewrite IH. }
  destruct (exec classDefRe (trim raw)) as [m2|] eqn:H2.
  { rewrite (body_classDef _ l _ _ _ _ _ raw m2) by done.
    rewrite Hi in Hst, H1, H2.
    rewrite (body_classDef _ l' _ _ _ _ _ raw' m2) by done. apply IH. }
  destruct (exec classRe (trim raw)) as [m3|] eqn:H3.
  { rewrite (body_class _ l _ _ _ _ _ raw m3) by done.
    rewrite Hi in Hst, H1, H2, H3.
    rewrite (body_class _ l' _ _ _ _ _ raw' m3) by done. apply IH. }
  destruct (exec linkStyleRe (trim raw)) as [m4|] eqn:H4.
  { rewrite (body_linkStyle _ l _ _ _ _ _ raw m4) by done.
    rewrite Hi in Hst, H1, H2, H3, H4.
    rewrite (body_linkStyle _ l' _ _ _ _ _ raw' m4) by done.
    cbv zeta. by rewrite !IH. }
  destruct (exec linkRe (trim raw)) as [m5|] eqn:H5.
  { rewrite (body_link _ l _ _ _ _ _ raw m5) by done.
    rewrite Hi in Hst, H1, H2, H3, H4, H5.
    rewrite (body_link _ l' _ _ _ _ _ raw' m5) by done. apply IH. }
  rewrite (body_node _ l _ _ _ _ _ raw) by done.
  rewrite Hi in Hst, H1, H2, H3, H4, H5.
  rewrite (body_node _ l' _ _ _ _ _ raw') by done.
  rewrite Hi. destruct (parseNodeLine (trim raw')); [apply IH | done].
Qed.

Lemma parseLines_trimmed l l' :
  same_trimmed l l' -> parseLines l = parseLines l'.
Proof.
  intros Hs. unfold parseLines.
  rewrite (skipBlank_trimmed l l') by done.
  rewrite (is_line_trimmed l l') by done.
  rewrite (frontmatterLoop_trimmed (drop _ l) (drop (skipBlank l' 0 + 1) l'))
    by by apply same_trimmed_drop.
  destruct (frontmatterLoop _ _ _) as [i t].
  rewrite (is_line_trimmed l l') by done.
  destruct (if is_line _ _ _ then _ else _) as [[index t']|e]; [|done].
  rewrite (skipBlank_trimmed l l') by done.
  pose proof (same_trimmed_lookup l l' (skipBlank l' index) Hs) as Hi.
  destruct (l !! skipBlank l' index), (l' !! skipBlank l' index); try done.
  rewrite Hi. destruct (exec headerRe _); [|done].
  unfold parseChartBody. rewrite (same_trimmed_length l l') by done.
  by rewrite (bodyLoop_trimmed _ l l').
Qed.

(** C10. Two inputs whose lines are equal once trimmed have the same parse:
    the same chart or the same error. *)
Theorem parse_ignores_line_padding (a b : str) :
  map trim (split LF (replaceCRLF a)) = map trim (split LF (replaceCRLF b)) ->
  parseFlowchart a = parseFlowchart b.
Proof. intros H. unfold parseFlowchart. by apply parseLines_trimmed. Qed.

Lemma parse_ignores_line_padding_witness :
  parseFlowchart (lit "flowchart TD
  a(x)
    a --> b
")
  = parseFlowchart (lit "   flowchart TD   
a(x)
a --> b   
   ").
Proof. apply parse_ignores_line_padding. vm_compute. reflexivity. Defined.

(** *** Documents given by their lines *)

Definition no_LF (l : str) : bool := forallb (fun c => negb (char_eqb c LF)) l.

(** A line without its final carriage return, if it has one. *)
Fixpoint stripCR (l : str) : str :=
  match l with
  | [] => []
  | c :: r => if negb (nonempty r) && char_eqb c CR then [] else c :: stripCR r
  end.

Lemma replaceCRLF_cons2 c d r :
  replaceCRLF (c :: d :: r)
  = if char_eqb c CR && char_eqb d LF then LF :: replaceCRLF r
    else c :: replaceCRLF (d :: r).
Proof. done. Qed.

Lemma replaceCRLF_line l rest :
  no_LF l = true ->
  replaceCRLF (l ++ LF :: rest) = stripCR l ++ LF :: replaceCRLF rest.
Proof.
  intros Hl. induction l as [|c l IH].
  - cbn [app stripCR]. destruct rest as [|d rest]; [done|].
    by rewrite replaceCRLF_cons2.
  - cbn [no_LF forallb] in Hl. apply andb_true_iff in Hl as [Hc Hl].
    cbn [stripCR]. destruct l as [|d l].
    + cbn [app nonempty negb andb].
      rewrite replaceCRLF_cons2, char_eqb_refl, andb_true_r.
      destruct (char_eqb c CR); [done|]. cbn [app stripCR]. f_equal.
      destruct rest as [|e rest]; [done|]. by rewrite replaceCRLF_cons2.
    + change ((c :: d :: l) ++ LF :: rest) with (c :: d :: (l ++ LF :: rest)).
      rewrite replaceCRLF_cons2. cbn [nonempty negb andb].
      pose proof Hl as Hl'.
      cbn [no_LF forallb] in Hl. apply andb_true_iff in Hl as [Hd Hl].
      apply negb_true_iff in Hd. rewrite Hd, andb_false_r.
      change (d :: l ++ LF :: rest) with ((d :: l) ++ LF :: rest).
      by rewrite (IH Hl').
Qed.

Lemma replaceCRLF_no_LF l : no_LF l = true -> replaceCRLF l = l.
Proof.
  intros Hl. induction l as [|c l IH]; [done|].
  cbn [no_LF forallb] in Hl. apply andb_true_iff in Hl as [Hc Hl].
  destruct l as [|d l]; [done|]. rewrite replaceCRLF_cons2.
  pose proof Hl as Hl'. cbn [no_LF forallb] in Hl.
  apply andb_true_iff in Hl as [Hd Hl]. apply negb_true_iff in Hd.
  rewrite Hd, andb_false_r. by rewrite (IH Hl').
Qed.

Lemma split_no_LF l : no_LF l = true -> split LF l = [l].
Proof.
  intros Hl. induction l as [|c l IH]; [done|].
  cbn [no_LF forallb] in Hl. apply andb_true_iff in Hl as [Hc Hl].
  apply negb_true_iff in Hc. cbn [split]. by rewrite Hc, (IH Hl).
Qed.

Lemma split_line l rest :
  no_LF l = true -> split LF (l ++ LF :: rest) = l :: split LF rest.
Proof.
  intros Hl. induction l as [|c l IH].
  - done.
  - cbn [no_LF forallb] in Hl. apply andb_true_iff in Hl as [Hc Hl].
    apply negb_true_iff in Hc. cbn [app split]. by rewrite Hc, (IH Hl).
Qed.

Lemma stripCR_no_LF l : no_LF l = true -> no_LF (stripCR l) = true.
Proof.
  intros Hl. induction l as [|c l IH]; [done|].
  cbn [no_LF forallb] in Hl. apply andb_true_iff in Hl as [Hc Hl].
  cbn [stripCR]. destruct (_ && _); [done|].
  cbn [no_LF forallb]. rewrite Hc. by apply IH.
Qed.

Lemma trimEnd_snoc_ws s c : is_ws c = true -> trimEnd (s ++ [c]) = trimEnd s.
Proof. intros Hc. unfold trimEnd. rewrite rev_app_distr. simpl. by rewrite Hc. Qed.

Lemma trim_snoc_ws s c : is_ws c = true -> trim (s ++ [c]) = trim s.
Proof.
  intros Hc. unfold trim. induction s as [|x s IH]; simpl.
  - by rewrite Hc.
  - destruct (is_ws x); [done|].
    change (x :: s ++ [c]) with ((x :: s) ++ [c]). by apply trimEnd_snoc_ws.
Qed.

Lemma stripCR_cases l : stripCR l = l \/ l = stripCR l ++ [CR].
Proof.
  induction l as [|c l IH]; [by left|]. cbn [stripCR].
  destruct l as [|d l].
  - cbn [nonempty negb andb]. destruct (char_eqb c CR) eqn:E; [|by left].
    right. apply char_eqb_eq in E. by subst.
  - cbn [nonempty negb andb]. destruct IH as [IH|IH].
    + left. by rewrite IH.
    + right. cbn [app]. by rewrite <- IH.
Qed.

Lemma trim_stripCR l : trim (stripCR l) = trim l.
Proof.
  destruct (stripCR_cases l) as [->|H]; [done|].
  rewrite H at 2. by rewrite trim_snoc_ws.
Qed.

Lemma join_cons2 sep (x y : str) r :
  join sep (x :: y :: r) = x ++ sep ++ join sep (y :: r).
Proof. done. Qed.

(** The lines the parser sees for a document written line by line. *)
Lemma lines_of_join ls :
  ls <> [] -> Forall (fun l => no_LF l = true) ls ->
  map trim (split LF (replaceCRLF (join NL ls))) = map trim ls.
Proof.
  intros Hne H. induction H as [|l ls Hl Hls IH]; [done|].
  destruct ls as [|l2 ls].
  - simpl. by rewrite replaceCRLF_no_LF, split_no_LF.
  - rewrite join_cons2. unfold NL at 1. cbn [app].
    rewrite replaceCRLF_line by done.
    rewrite split_line by by apply stripCR_no_LF.
    cbn [map]. rewrite trim_stripCR. f_equal. by apply IH.
Qed.

(** C10 on documents given by their lines: padding any line with white
    space (anything [trim] removes, a line feed excepted since it would
    split the line) leaves the parse as it is. *)
Corollary padded_lines_parse_alike (ls ls' : list str) :
  Forall (fun l => no_LF l = true) ls ->
  Forall (fun l => no_LF l = true) ls' ->
  map trim ls = map trim ls' ->
  parseFlowchart (join NL ls) = parseFlowchart (join NL ls').
Proof.
  intros H H' Ht. destruct ls as [|l ls], ls' as [|l' ls']; try done.
  apply parse_ignores_line_padding. by rewrite !lines_of_join.
Qed.

(** ** Link-style statements: inline or positional *)



(** The most recently parsed link is in the store. *)
Definition store_ok (state : ParseState) : Prop :=
  forall i, lastParsedLinkIndex state = Some i -> is_Some (linksByIndex state !! i).

Lemma store_ok_initial : store_ok initialState.
Proof. by intros i. Qed.

Lemma store_ok_registerLink state link : store_ok (registerLink state link).
Proof. intros i [= <-]. simpl. by rewrite lookup_insert_eq. Qed.

Lemma store_ok_styleInline state i style :
  store_ok state -> store_ok (styleInline state i style).
Proof.
  intros H j Hj. destruct i as [v|t]; simpl in *; [|by apply H].
  rewrite lookup_alter. destruct (H j Hj) as [l Hl]. rewrite Hl.
  destruct (decide (N.to_nat v = j)) as [->|]; [|done]. by rewrite Hl.
Qed.

(** Every call of the body loop made from a state where [store_ok] holds
    returns such a state. *)
Lemma store_ok_bodyLoop f lines index last chart state stop r :
  bodyLoop f lines index last chart state stop = Some (Ok r) ->
  store_ok state -> store_ok (parsedState r).
Proof.
  revert index last chart state stop r.
  induction f as [|f IH]; intros index last chart state stop r H Hok; [done|].
  destruct (lines !! index) as [raw|] eqn:Hl;
    [|rewrite body_eof in H by done; by injection H as <-].
  destruct (line_cases (trim raw)) as [Hb|[He|Hs]].
  { rewrite (body_blank _ _ _ _ _ _ _ raw) in H by done. by eapply IH. }
  { rewrite (body_end _ _ _ _ _ _ _ raw) in H by done. by injection H as <-. }
  destruct (exec subgraphRe (trim raw)) as [sm|] eqn:H1.
  { rewrite (body_subgraph _ _ _ _ _ _ _ raw sm) in H by done. cbv zeta in H.
    destruct (lines !! skipBlank lines (index + 1)) as [rawd|]; [|done].
    destruct (exec directionRe (trim rawd)) as [dm|]; [|done].
    destruct (bodyLoop f lines _ false _ state true) as [[nested|e]|] eqn:Hn;
      [|done..].
    destruct (negb (foundEndToken nested)); [done|].
    eapply IH; [exact H|]. by eapply IH. }
  destruct (exec classDefRe (trim raw)) as [m2|] eqn:H2.
  { rewrite (body_classDef _ _ _ _ _ _ _ raw m2) in H by done. by eapply IH. }
  destruct (exec classRe (trim raw)) as [m3|] eqn:H3.
  { rewrite (body_class _ _ _ _ _ _ _ raw m3) in H by done. by eapply IH. }
  destruct (exec linkStyleRe (trim raw)) as [m4|] eqn:H4.
  { rewrite (body_linkStyle _ _ _ _ _ _ _ raw m4) in H by done. cbv zeta in H.
    destruct (attachesInline _ _ _); [|by eapply IH].
    eapply IH; [exact H|]. by apply store_ok_styleInline. }
  destruct (exec linkRe (trim raw)) as [m5|] eqn:H5.
  { rewrite (body_link _ _ _ _ _ _ _ raw m5) in H by done.
    eapply IH; [exact H|]. apply store_ok_registerLink. }
  rewrite (body_node _ _ _ _ _ _ _ raw) in H by done.
  destruct (parseNodeLine (trim raw)); [by eapply IH | done].
Qed.


Lemma runs_step lines i j last last' c c' st st' stop :
  (forall fuel, bodyLoop (S fuel) lines i last c st stop
                = bodyLoop fuel lines j last' c' st' stop) ->
  forall R, runs lines i last c st stop R <-> runs lines j last' c' st' stop R.
Proof.
  intros H R. split.
  - intros [[|f] Hf]; [done|]. rewrite H in Hf. by exists f.
  - intros [f Hf]. exists (S f). by rewrite H.
Qed.

Lemma runs_functional lines i last c st stop R R' :
  runs lines i last c st stop R -> runs lines i last c st stop R' -> R = R'.
Proof.
  intros [f Hf] [f' Hf'].
  pose proof (bodyLoop_mono f (f + f') _ _ _ _ _ _ _ ltac:(lia) Hf) as H1.
  pose proof (bodyLoop_mono f' (f + f') _ _ _ _ _ _ _ ltac:(lia) Hf') as H2.
  congruence.
Qed.







Definition linkAB : Link :=
  {| src := ById (lit "a"); dest := ById (lit "b"); link_text := None;
     link_type := ARROW; link_style := None |}.

Definition linkMatch : caps :=
  <[4 := lit "b"]> (<[2 := lit "-->"]> (<[1 := lit "a"]> ∅)).



(** The two ways on whole documents: the style right after its link is
    attached to the link; the same statement after another statement, or
    with another index, is a positional style of the container. *)
Example link_style_inline_and_positional :
  parseFlowchart (lit "flowchart TD
  a --> b
  linkStyle 0 stroke:red;
  b --> c
  x(y)
  linkStyle 1 stroke:blue;
  c --> d
  linkStyle 1 stroke:green;
")
  = Some (Ok (MkChart None TD
       [{| node_title := lit "y"; shape := RECT_ROUND; node_id := lit "x";
           className := None |}]
       [{| src := ById (lit "a"); dest := ById (lit "b"); link_text := None;
           link_type := ARROW; link_style := Some (RawStyle (lit "stroke:red")) |};
        {| src := ById (lit "b"); dest := ById (lit "c"); link_text := None;
           link_type := ARROW; link_style := None |};
        {| src := ById (lit "c"); dest := ById (lit "d"); link_text := None;
           link_type := ARROW; link_style := None |}]
       [] [] []
       [(Integer 1, RawStyle (lit "stroke:blue"));
        (Integer 1, RawStyle (lit "stroke:green"))])).
Proof. vm_compute. reflexivity. Qed.

(** ** Round trip: strings *)

(** *** Numerals *)

Lemma uint_str_digits u : forallb is_digit (uint_str u) = true.
Proof. induction u; simpl; rewrite ?IHu; done. Qed.

Lemma N_str_digits v : forallb is_digit (N_str v) = true.
Proof. apply uint_str_digits. Qed.

Lemma nat_str_digits n : forallb is_digit (nat_str n) = true.
Proof. apply uint_str_digits. Qed.

Lemma N_str_nonempty v : N_str v <> [].
Proof.
  unfold N_str. destruct v as [|p]; [done|]. simpl.
  pose proof (DecimalPos.Unsigned.to_uint_nonnil p) as H.
  by destruct (Pos.to_uint p).
Qed.

Lemma nat_str_nonempty n : nat_str n <> [].
Proof. apply N_str_nonempty. Qed.

Lemma digitsValue_acc u acc :
  fold_left (fun acc c => 10 * acc + (c - 48))%N (uint_str u) (Npos acc)
  = Npos (Pos.of_uint_acc u acc).
Proof.
  revert acc. induction u; intros acc; cbn [uint_str fold_left Pos.of_uint_acc];
    [done|..];
    match goal with
    | |- fold_left _ _ ?a = _ =>
        match goal with
        | |- _ = N.pos (Pos.of_uint_acc _ ?b) => replace a with (Npos b) by lia
        end
    end; apply IHu.
Qed.

Lemma digitsValue_uint_str u : digitsValue (uint_str u) = N.of_uint u.
Proof.
  unfold digitsValue.
  induction u; cbn [uint_str fold_left N.of_uint Pos.of_uint]; try done;
    match goal with
    | |- fold_left _ _ ?a = N.pos (Pos.of_uint_acc _ ?b) =>
        replace a with (Npos b) by lia; apply digitsValue_acc
    | _ => idtac
    end.
Qed.

Lemma digitsValue_N_str v : digitsValue (N_str v) = v.
Proof. unfold N_str. rewrite digitsValue_uint_str. apply DecimalN.Unsigned.of_to. Qed.

Lemma digitPrefix_all s : forallb is_digit s = true -> digitPrefix s = s.
Proof.
  induction s as [|c r IH]; [done|]. cbn [forallb digitPrefix].
  intros [-> Hr]%andb_true_iff. by rewrite IH.
Qed.

(** On a numeral [parseInt] reads the whole string. *)
Lemma parseInt_digits s :
  s <> [] -> forallb is_digit s = true ->
  parseInt s
  = let v := digitsValue s in
    let x := if (v <? two53)%N then v else roundToDouble v in
    if (x <? 2 ^ 1024)%N then Integer x else NotInteger (lit "Infinity").
Proof.
  intros Hne Hd. unfold parseInt. destruct s as [|c r]; [done|].
  pose proof Hd as Hall. cbn [forallb] in Hd. apply andb_true_iff in Hd as [Hc _].
  assert (Hws : is_ws c = false /\ char_eqb c (ch "-") = false
                /\ char_eqb c (ch "+") = false).
  { unfold is_digit, in_range in Hc. apply andb_true_iff in Hc as [H1 H2].
    apply N.leb_le in H1, H2. unfold is_ws, in_range, char_eqb.
    split_and!.
    - repeat (apply orb_false_iff; split);
        rewrite ?andb_false_iff, ?N.leb_gt, ?N.eqb_neq; lia.
    - apply N.eqb_neq. vm_compute (ch "-"). lia.
    - apply N.eqb_neq. vm_compute (ch "+"). lia. }
  destruct Hws as (Hw & Hm & Hp). cbn [trimStart]. rewrite Hw, Hm, Hp.
  rewrite digitPrefix_all by done. done.
Qed.

(** An integer below 2^53 is read back from its numeral. *)
Lemma parseInt_N_str v : (v < two53)%N -> parseInt (N_str v) = Integer v.
Proof.
  intros Hv. rewrite parseInt_digits by (apply N_str_nonempty || apply N_str_digits).
  cbv zeta. rewrite digitsValue_N_str.
  apply N.ltb_lt in Hv as Hb. rewrite Hb.
  replace (v <? 2 ^ 1024)%N with true; [done|].
  symmetry. apply N.ltb_lt. eapply N.lt_trans; [exact Hv|]. by vm_compute.
Qed.

Lemma parseInt_nat_str n :
  (N.of_nat n < two53)%N -> parseInt (nat_str n) = Integer (N.of_nat n).
Proof. apply parseInt_N_str. Qed.

(** *** Character classes *)

Lemma id_char_not_ws c : is_id_char c = true -> is_ws c = false.
Proof.
  unfold is_id_char, is_ws, in_range. intros H.
  repeat (apply orb_true_iff in H as [H|H]);
    repeat match goal with
      | H : _ && _ = true |- _ => apply andb_true_iff in H as [? ?]
      | H : N.leb _ _ = true |- _ => apply N.leb_le in H
      | H : N.eqb _ _ = true |- _ => apply N.eqb_eq in H
      end;
    repeat (apply orb_false_iff; split);
    rewrite ?andb_false_iff, ?N.leb_gt, ?N.eqb_neq; lia.
Qed.

Lemma digit_id_char c : is_digit c = true -> is_id_char c = true.
Proof.
  unfold is_digit, is_id_char. intros ->. by rewrite !orb_true_r.
Qed.

Lemma line_terminator_ws c : is_line_terminator c = true -> is_ws c = true.
Proof.
  unfold is_line_terminator, is_ws, in_range. intros H.
  repeat (apply orb_true_iff in H as [H|H]); apply N.eqb_eq in H; by subst.
Qed.

Lemma non_ws_dot c : is_ws c = false -> dot c = true.
Proof.
  unfold dot. intros H. destruct (is_line_terminator c) eqn:E; [|done].
  apply line_terminator_ws in E. congruence.
Qed.

Lemma dot_not_LF c : dot c = true -> char_eqb c LF = false.
Proof.
  intros H. destruct (char_eqb c LF) eqn:E; [|done].
  apply char_eqb_eq in E as ->. by vm_compute in H.
Qed.

Lemma forallb_impl' {A} (p q : A -> bool) l :
  (forall x, p x = true -> q x = true) ->
  forallb p l = true -> forallb q l = true.
Proof.
  intros Hpq H. apply forallb_forall. intros x Hx.
  apply Hpq. by eapply forallb_forall in H.
Qed.

(** Strings of identifier characters, and words (no white space). *)
Definition plain (s : str) : bool := nonempty s && forallb is_id_char s.
Definition wordy (s : str) : bool := nonempty s && forallb non_ws s.
Definition one_line (s : str) : bool := forallb dot s.

Lemma plain_wordy s : plain s = true -> wordy s = true.
Proof.
  unfold plain, wordy. intros [-> H]%andb_true_iff. simpl.
  eapply forallb_impl'; [|done]. intros x Hx. unfold non_ws.
  by rewrite id_char_not_ws.
Qed.

Lemma wordy_one_line s : wordy s = true -> one_line s = true.
Proof.
  unfold wordy, one_line. intros [_ H]%andb_true_iff.
  eapply forallb_impl'; [|done]. intros x Hx. apply non_ws_dot.
  unfold non_ws in Hx. by apply negb_true_iff.
Qed.

Lemma one_line_no_LF s : one_line s = true -> no_LF s = true.
Proof.
  unfold one_line, no_LF. apply forallb_impl'. intros x Hx.
  by rewrite dot_not_LF.
Qed.

Lemma no_LF_app a b : no_LF (a ++ b) = no_LF a && no_LF b.
Proof. apply forallb_app. Qed.

Lemma one_line_app a b : one_line (a ++ b) = one_line a && one_line b.
Proof. apply forallb_app. Qed.

Lemma digits_plain n : plain (nat_str n) = true.
Proof.
  unfold plain. apply andb_true_iff. split.
  - pose proof (nat_str_nonempty n). by destruct (nat_str n).
  - eapply forallb_impl'; [apply digit_id_char | apply nat_str_digits].
Qed.

(** *** Trimming *)

Definition starts_tight (s : str) : bool :=
  match s with c :: _ => negb (is_ws c) | [] => false end.
Definition ends_tight (s : str) : bool := starts_tight (rev s).
Definition tight (s : str) : bool := starts_tight s && ends_tight s.

Lemma trimStart_ws w s : forallb is_ws w = true -> trimStart (w ++ s) = trimStart s.
Proof.
  induction w as [|c w IH]; [done|]. simpl.
  intros [-> H]%andb_true_iff. by apply IH.
Qed.

Lemma trimStart_tight s : starts_tight s = true -> trimStart s = s.
Proof. destruct s as [|c s]; [done|]. simpl. by intros ->%negb_true_iff. Qed.

Lemma trim_tight w s :
  forallb is_ws w = true -> tight s = true -> trim (w ++ s) = s.
Proof.
  intros Hw [Hs He]%andb_true_iff. unfold trim.
  rewrite trimStart_ws, trimStart_tight by done.
  unfold trimEnd. rewrite trimStart_tight by done. apply rev_involutive.
Qed.

Lemma trim_tight' s : tight s = true -> trim s = s.
Proof. intros H. by apply (trim_tight []). Qed.

Lemma starts_tight_app a b :
  starts_tight a = true -> starts_tight (a ++ b) = true.
Proof. by destruct a. Qed.

Lemma ends_tight_app a b :
  ends_tight b = true -> ends_tight (a ++ b) = true.
Proof.
  unfold ends_tight. rewrite rev_app_distr. apply starts_tight_app.
Qed.

Lemma tight_app a b :
  starts_tight a = true -> ends_tight b = true -> tight (a ++ b) = true.
Proof.
  intros Ha Hb. unfold tight. by rewrite starts_tight_app, ends_tight_app.
Qed.

Lemma non_ws_starts l :
  forallb non_ws l = true -> l <> [] -> starts_tight l = true.
Proof.
  destruct l as [|c l]; [done|]. simpl. unfold non_ws.
  by intros [-> _]%andb_true_iff.
Qed.

Lemma wordy_tight s : wordy s = true -> tight s = true.
Proof.
  unfold wordy, tight, ends_tight. intros [Hn H]%andb_true_iff.
  assert (Hne : s <> []) by by destruct s.
  apply andb_true_iff. split; apply non_ws_starts; try done.
  - apply forallb_forall. intros x Hx%in_rev. by eapply forallb_forall in H.
  - intros E. apply (f_equal (@rev _)) in E. by rewrite rev_involutive in E.
Qed.

Lemma wordy_starts s : wordy s = true -> starts_tight s = true.
Proof. intros H%wordy_tight. by apply andb_true_iff in H as [? _]. Qed.

Lemma wordy_ends s : wordy s = true -> ends_tight s = true.
Proof. intros H%wordy_tight. by apply andb_true_iff in H as [_ ?]. Qed.

(** *** Joining and splitting *)

Definition tailj (sep : str) (l : list str) : str :=
  concat (map (fun x => sep ++ x) l).

Lemma tailj_cons sep x r : tailj sep (x :: r) = sep ++ x ++ tailj sep r.
Proof. unfold tailj. simpl. by rewrite <- app_assoc. Qed.

Lemma tailj_nil sep : tailj sep [] = [].
Proof. done. Qed.

Lemma join_cons sep x r : join sep (x :: r) = x ++ tailj sep r.
Proof.
  revert x. induction r as [|y r IH]; intros x.
  - simpl. by rewrite app_nil_r.
  - by rewrite join_cons2, IH, tailj_cons.
Qed.

Lemma tailj_app sep a b : tailj sep (a ++ b) = tailj sep a ++ tailj sep b.
Proof. unfold tailj. by rewrite map_app, concat_app. Qed.

Lemma tailj_join sep X : X <> [] -> tailj sep [join sep X] = tailj sep X.
Proof.
  destruct X as [|x r]; [done|]. intros _.
  by rewrite join_cons, !tailj_cons, tailj_nil, app_nil_r.
Qed.

(** A joined block pushed as one item reads as its lines. *)
Lemma join_flatten sep A X B :
  X <> [] -> join sep (A ++ [join sep X] ++ B) = join sep (A ++ X ++ B).
Proof.
  intros HX. destruct A as [|a A].
  - destruct X as [|x r]; [done|]. cbn [app].
    rewrite !join_cons, tailj_app. by rewrite <- app_assoc.
  - rewrite <- !app_comm_cons, !join_cons, !tailj_app.
    change (join sep X :: [] ++ B) with ([join sep X] ++ B).
    by rewrite tailj_app, tailj_join.
Qed.

Lemma join_flatten_all sep A XS B :
  Forall (fun X => X <> []) XS ->
  join sep (A ++ map (join sep) XS ++ B) = join sep (A ++ concat XS ++ B).
Proof.
  intros H. revert A. induction H as [|X XS HX _ IH]; intros A; [done|].
  cbn [map concat].
  replace (A ++ (join sep X :: map (join sep) XS) ++ B)
    with ((A ++ [join sep X]) ++ map (join sep) XS ++ B)
    by by rewrite <- !app_assoc.
  rewrite IH, <- !app_assoc.
  by rewrite (join_flatten sep A X (concat XS ++ B)) by done.
Qed.

Lemma split_nonempty c s : split c s <> [].
Proof.
  induction s as [|x s IH]; [done|]. cbn [split].
  destruct (char_eqb x c); [done|]. by destruct (split c s).
Qed.

Lemma join_split c s : join [c] (split c s) = s.
Proof.
  induction s as [|x s IH]; [done|]. cbn [split].
  pose proof (split_nonempty c s) as Hne.
  destruct (char_eqb x c) eqn:E.
  - apply char_eqb_eq in E as ->.
    destruct (split c s) as [|y r] eqn:Es; [done|].
    rewrite join_cons, tailj_cons. rewrite join_cons in IH.
    cbn [app]. by rewrite IH.
  - destruct (split c s) as [|y r] eqn:Es; [done|].
    rewrite join_cons in *. cbn [app]. by rewrite IH.
Qed.

Lemma split_wordy c s :
  forallb non_ws s = true -> Forall (fun p => forallb non_ws p = true) (split c s).
Proof.
  induction s as [|x s IH]; intros H; [by repeat constructor|].
  simpl in H. apply andb_true_iff in H as [Hx H]. specialize (IH H).
  cbn [split]. destruct (char_eqb x c).
  - by constructor.
  - destruct (split c s) as [|y r]; [by repeat constructor; simpl; rewrite Hx|].
    inversion IH; subst. constructor; [|done]. simpl. by rewrite Hx.
Qed.

Lemma trim_no_ws s : forallb non_ws s = true -> trim s = s.
Proof.
  intros H. destruct s as [|c s]; [done|].
  apply trim_tight', wordy_tight. unfold wordy. by rewrite H.
Qed.

Lemma map_trim_split c s :
  forallb non_ws s = true -> map trim (split c s) = split c s.
Proof.
  intros H%(split_wordy c). induction H as [|p r Hp _ IH]; [done|].
  simpl. by rewrite trim_no_ws, IH.
Qed.

(** ** Round trip: the patterns on serialized lines *)

(** *** The first word of a line and the keyword patterns *)

Fixpoint firstWord (s : str) : str :=
  match s with
  | c :: r => if is_ws c then [] else c :: firstWord r
  | [] => []
  end.

Fixpoint skipNonWs (s : str) : str :=
  match s with
  | c :: r => if is_ws c then s else skipNonWs r
  | [] => []
  end.

Fixpoint leadingWs (s : str) : str :=
  match s with
  | c :: r => if is_ws c then c :: leadingWs r else []
  | [] => []
  end.

Lemma firstWord_split s : s = firstWord s ++ skipNonWs s.
Proof.
  induction s as [|c r IH]; [done|]. simpl.
  destruct (is_ws c); [done|]. simpl. by rewrite <- IH.
Qed.

Lemma firstWord_non_ws s : forallb non_ws (firstWord s) = true.
Proof.
  induction s as [|c r IH]; [done|]. simpl.
  destruct (is_ws c) eqn:E; [done|]. simpl. unfold non_ws at 1. by rewrite E.
Qed.

Lemma skipNonWs_stops s : stops non_ws (skipNonWs s).
Proof.
  induction s as [|c r IH]; [done|]. simpl.
  destruct (is_ws c) eqn:E; [|done]. simpl. unfold non_ws. by rewrite E.
Qed.

Lemma leadingWs_split s : s = leadingWs s ++ trimStart s.
Proof.
  induction s as [|c r IH]; [done|]. simpl.
  destruct (is_ws c); [|done]. simpl. by rewrite <- IH.
Qed.

Lemma leadingWs_ws s : forallb is_ws (leadingWs s) = true.
Proof.
  induction s as [|c r IH]; [done|]. simpl.
  destruct (is_ws c) eqn:E; [|done]. simpl. by rewrite E.
Qed.

Lemma trimStart_stops s : stops is_ws (trimStart s).
Proof.
  induction s as [|c r IH]; [done|]. simpl.
  destruct (is_ws c) eqn:E; [done|]. done.
Qed.

Lemma firstWord_app w x rest :
  forallb non_ws w = true -> is_ws x = true -> firstWord (w ++ x :: rest) = w.
Proof.
  intros Hw Hx. induction w as [|c w IH]; simpl.
  - by rewrite Hx.
  - simpl in Hw. apply andb_true_iff in Hw as [Hc Hw]. unfold non_ws in Hc.
    apply negb_true_iff in Hc. by rewrite Hc, (IH Hw).
Qed.

Lemma firstWord_all w : forallb non_ws w = true -> firstWord w = w.
Proof.
  intros Hw. induction w as [|c w IH]; [done|]. simpl.
  simpl in Hw. apply andb_true_iff in Hw as [Hc Hw]. unfold non_ws in Hc.
  apply negb_true_iff in Hc. by rewrite Hc, (IH Hw).
Qed.

Lemma firstWord_prefix w rest :
  forallb non_ws w = true -> firstWord (w ++ rest) = w ++ firstWord rest.
Proof.
  intros Hw. induction w as [|c w IH]; [done|]. simpl.
  simpl in Hw. apply andb_true_iff in Hw as [Hc Hw]. unfold non_ws in Hc.
  apply negb_true_iff in Hc. by rewrite Hc, (IH Hw).
Qed.

(** A pattern [keyword \s+ ...] fails on a line whose first word is not
    the keyword. *)
Lemma keyword_pattern_None kw r line :
  forallb non_ws kw = true -> firstWord line <> kw ->
  exec (Lit kw · Plus (Cls is_ws) · r)%re line = None.
Proof.
  intros Hkw Hne. unfold exec. rewrite m_Cat.
  destruct (strip_prefix kw line) as [rest|] eqn:E; [|by apply m_Lit_None].
  apply strip_prefix_Some in E as ->. rewrite m_Lit, m_Cat, m_Plus_Cls.
  destruct rest as [|x rest]; [done|]. destruct (is_ws x) eqn:Ex; [|done].
  destruct Hne. by apply firstWord_app.
Qed.

Definition keywords : list str :=
  [lit "subgraph"; lit "classDef"; lit "class"; lit "linkStyle"].

Definition not_keyword (s : str) : bool := negb (existsb (str_eqb s) keywords).

(** The four keyword patterns fail on a line whose first word is none of
    the keywords. *)
Lemma keyword_patterns_None line :
  not_keyword (firstWord line) = true ->
  exec subgraphRe line = None /\ exec classDefRe line = None
  /\ exec classRe line = None /\ exec linkStyleRe line = None.
Proof.
  unfold not_keyword, keywords. cbn [existsb].
  rewrite !negb_orb, !andb_true_iff, !negb_true_iff, !str_eqb_neq.
  intros (H1 & H2 & H3 & H4 & _).
  repeat split; by apply keyword_pattern_None.
Qed.

(** *** Groups over a run of a character class *)

Lemma take_consumed {A} (a b : list A) :
  take (length (a ++ b) - length b) (a ++ b) = a.
Proof. apply take_app_length'. rewrite length_app. lia. Qed.

Lemma m_Star_first p k run rest c r :
  forallb p run = true -> stops p rest -> k rest c = Some r ->
  m (Star (Cls p)) k (run ++ rest) c = Some r.
Proof. intros. rewrite m_Star_Cls. by apply greedy_first. Qed.

Lemma m_Star_skip p k rest c : stops p rest -> m (Star (Cls p)) k rest c = k rest c.
Proof. intros. rewrite m_Star_Cls. by apply greedy_stop. Qed.

Lemma m_Plus_first p k run rest c r :
  run <> [] -> forallb p run = true -> stops p rest -> k rest c = Some r ->
  m (Plus (Cls p)) k (run ++ rest) c = Some r.
Proof.
  intros Hne Hrun Hstop Hk. rewrite m_Plus_Cls.
  destruct run as [|x run]; [done|]. simpl in Hrun.
  apply andb_true_iff in Hrun as [Hx Hrun]. cbn [app]. rewrite Hx.
  by apply greedy_first.
Qed.

Lemma m_Grp_Plus_first n p k run rest c r :
  run <> [] -> forallb p run = true -> stops p rest ->
  k rest (<[n := run]> c) = Some r ->
  m (Grp n (Plus (Cls p))) k (run ++ rest) c = Some r.
Proof.
  intros Hne Hrun Hstop Hk. rewrite m_Grp.
  apply m_Plus_first; try done. by rewrite take_consumed.
Qed.

Lemma m_Grp_Star_back n p k a u c r :
  forallb p (a ++ u) = true ->
  (forall v c', length v < length u -> k v c' = None) ->
  k u (<[n := a]> c) = Some r ->
  m (Grp n (Star (Cls p))) k (a ++ u) c = Some r.
Proof.
  intros Hp Hshort Hk. rewrite m_Grp, m_Star_Cls.
  apply greedy_back; try done.
  - intros v Hv. by apply Hshort.
  - by rewrite take_consumed.
Qed.

Lemma m_Plus_commit p k run rest c :
  run <> [] -> forallb p run = true -> stops p rest -> rejects k p ->
  m (Plus (Cls p)) k (run ++ rest) c = k rest c.
Proof.
  intros Hne Hrun Hstop Hk. rewrite m_Plus_Cls.
  destruct run as [|x run]; [done|]. simpl in Hrun.
  apply andb_true_iff in Hrun as [Hx Hrun]. cbn [app]. rewrite Hx.
  by apply greedy_commit.
Qed.

(** *** Directions and the header *)

Lemma ChartDir_of_value_value d : ChartDir_of_value (ChartDir_value d) = d.
Proof. by destruct d. Qed.

Lemma LinkType_of_value_value t : LinkType_of_value (LinkType_value t) = t.
Proof. by destruct t. Qed.

Lemma exec_directionRe d :
  exec directionRe (lit "direction " ++ ChartDir_value d)
  = Some (<[1 := ChartDir_value d]> ∅).
Proof. destruct d; vm_compute; reflexivity. Qed.

Lemma exec_headerRe d :
  exec headerRe (lit "flowchart " ++ ChartDir_value d)
  = Some (<[1 := ChartDir_value d]> ∅).
Proof. destruct d; vm_compute; reflexivity. Qed.

Lemma starts_tight_stops t : starts_tight t = true -> stops is_ws t.
Proof. destruct t as [|c t]; [done|]. simpl. by intros ->%negb_true_iff. Qed.

Lemma exec_titleRe t :
  starts_tight t = true -> one_line t = true ->
  exec titleRe (lit "title: " ++ t) = Some (<[1 := t]> ∅).
Proof.
  intros Ht Hl. unfold exec, titleRe.
  change (lit "title: " ++ t) with (lit "title:" ++ [ch " "] ++ t).
  rewrite m_Cat, m_Lit, m_Cat.
  apply m_Star_first; [done | by apply starts_tight_stops |].
  rewrite <- (app_nil_r t) at 1.
  apply m_Grp_Star_back with (u := []); rewrite ?app_nil_r; try done.
  intros v c' Hv. simpl in Hv. lia.
Qed.

(** *** Statement lines *)

Lemma stops_app p q s rest :
  nonempty s = true -> forallb q s = true ->
  (forall c, q c = true -> p c = false) -> stops p (s ++ rest).
Proof.
  destruct s as [|c s]; [done|]. simpl. intros _ [Hc _]%andb_true_iff H.
  by apply H.
Qed.

Lemma non_ws_is_ws c : non_ws c = true -> is_ws c = false.
Proof. unfold non_ws. by intros ->%negb_true_iff. Qed.

Lemma nonempty_ne (s : str) : nonempty s = true -> s <> [].
Proof. by destruct s. Qed.

Definition sub_id_char (c : char) : bool := negb (is_ws c || char_eqb c (ch "[")).
Definition subId_ok (s : str) : bool := nonempty s && forallb sub_id_char s.

Lemma sub_id_char_not_ws c : sub_id_char c = true -> is_ws c = false.
Proof.
  unfold sub_id_char. intros H%negb_true_iff. by apply orb_false_iff in H as [? _].
Qed.

Lemma exec_subgraphRe ID T :
  subId_ok ID = true -> one_line T = true ->
  exec subgraphRe (lit "subgraph " ++ ID ++ lit " [" ++ T ++ lit "]")
  = Some (<[2 := T]> (<[1 := ID]> ∅)).
Proof.
  intros [Hne Hid]%andb_true_iff HT. unfold exec, subgraphRe.
  change (lit "subgraph " ++ ID ++ lit " [" ++ T ++ lit "]")
    with (lit "subgraph" ++ [ch " "] ++ ID ++ [ch " "] ++ lit "[" ++ T ++ lit "]").
  rewrite m_Cat, m_Lit, m_Cat.
  apply m_Plus_first; [done | done | |].
  { eapply stops_app; [done | done | apply sub_id_char_not_ws]. }
  rewrite m_Cat.
  apply (m_Grp_Plus_first 1 sub_id_char); [by apply nonempty_ne | done | done |].
  rewrite m_Cat. apply m_Star_first; [done | done |].
  rewrite m_Opt, m_Cat, m_Lit, m_Cat.
  erewrite (m_Grp_Star_back 2 dot _ T (lit "]")); [done | | |].
  - unfold one_line in HT. by rewrite forallb_app, HT.
  - intros v c' Hv. destruct v; [done | simpl in Hv; lia].
  - by rewrite m_Lit_at_end.
Qed.

(** The text of a style or of a class definition: on one line, not starting
    with white space; [tight] when it must also survive [trim]. *)
Definition styleText_ok (s : str) : bool :=
  nonempty s && one_line s && starts_tight s.

Lemma exec_classDefRe names style :
  wordy names = true -> one_line style = true -> starts_tight style = true ->
  exec classDefRe (lit "classDef " ++ names ++ lit " " ++ style)
  = Some (<[2 := style]> (<[1 := names]> ∅)).
Proof.
  intros [Hne Hn]%andb_true_iff Hl Hs. unfold exec, classDefRe.
  change (lit "classDef " ++ names ++ lit " " ++ style)
    with (lit "classDef" ++ [ch " "] ++ names ++ [ch " "] ++ style).
  rewrite m_Cat, m_Lit, m_Cat.
  apply m_Plus_first; [done | done | |].
  { eapply stops_app; [done | done | apply non_ws_is_ws]. }
  rewrite m_Cat.
  apply (m_Grp_Plus_first 1 non_ws); [by apply nonempty_ne | done | done |].
  rewrite m_Cat.
  apply m_Plus_first; [done | done | by apply starts_tight_stops |].
  rewrite <- (app_nil_r style) at 1.
  apply (m_Grp_Plus_first 2 dot); [by destruct style | done | done | done].
Qed.

Definition class_name_char (c : char) : bool := negb (is_ws c || char_eqb c (ch ";")).
Definition className_ok (s : str) : bool := nonempty s && forallb class_name_char s.

Lemma class_name_char_not_ws c : class_name_char c = true -> is_ws c = false.
Proof.
  unfold class_name_char. intros H%negb_true_iff.
  by apply orb_false_iff in H as [? _].
Qed.

Lemma exec_classRe ids cn :
  wordy ids = true -> className_ok cn = true ->
  exec classRe (lit "class " ++ ids ++ lit " " ++ cn ++ lit ";")
  = Some (<[2 := cn]> (<[1 := ids]> ∅)).
Proof.
  intros [Hne Hn]%andb_true_iff [Hcne Hcn]%andb_true_iff. unfold exec, classRe.
  change (lit "class " ++ ids ++ lit " " ++ cn ++ lit ";")
    with (lit "class" ++ [ch " "] ++ ids ++ [ch " "] ++ cn ++ lit ";").
  rewrite m_Cat, m_Lit, m_Cat.
  apply m_Plus_first; [done | done | |].
  { eapply stops_app; [done | done | apply non_ws_is_ws]. }
  rewrite m_Cat.
  apply (m_Grp_Plus_first 1 non_ws); [by apply nonempty_ne | done | done |].
  rewrite m_Cat.
  apply m_Plus_first; [done | done | |].
  { eapply stops_app; [done | done | apply class_name_char_not_ws]. }
  rewrite m_Cat.
  apply (m_Grp_Plus_first 2 class_name_char);
    [by apply nonempty_ne | done | done |].
  by rewrite m_Opt, m_Lit_at_end.
Qed.

Lemma exec_linkStyleRe ds style :
  nonempty ds = true -> forallb is_digit ds = true ->
  one_line style = true -> stops is_ws style ->
  exec linkStyleRe (lit "linkStyle " ++ ds ++ lit " " ++ style ++ lit ";")
  = Some (<[2 := style ++ lit ";"]> (<[1 := ds]> ∅)).
Proof.
  intros Hdn Hdd Hl Hs. unfold exec, linkStyleRe.
  change (lit "linkStyle " ++ ds ++ lit " " ++ style ++ lit ";")
    with (lit "linkStyle" ++ [ch " "] ++ ds ++ [ch " "] ++ style ++ lit ";").
  assert (Hd : forallb is_id_char ds = true)
    by (eapply forallb_impl'; [apply digit_id_char | exact Hdd]).
  rewrite m_Cat, m_Lit, m_Cat.
  apply m_Plus_first; [done | done | |].
  { eapply stops_app; [done | done | apply id_char_not_ws]. }
  rewrite m_Cat.
  apply (m_Grp_Plus_first 1 is_digit);
    [by apply nonempty_ne | exact Hdd | done |].
  rewrite m_Cat.
  apply m_Plus_first; [done | done | |].
  { destruct style; [done | exact Hs]. }
  rewrite m_Cat. rewrite <- (app_nil_r (style ++ lit ";")) at 1.
  apply (m_Grp_Plus_first 2 dot); [by destruct style | | done |].
  - unfold one_line in Hl. by rewrite forallb_app, Hl.
  - by rewrite m_Opt.
Qed.

(** *** Link lines *)

Definition arrows : re :=
  Alt (Lit (lit "-->")) (Alt (Lit (lit "---")) (Lit (lit "~~~"))).

Lemma m_Grp_arrows t k rest c r :
  k rest (<[2 := LinkType_value t]> c) = Some r ->
  m (Grp 2 arrows) k (LinkType_value t ++ rest) c = Some r.
Proof.
  intros Hk. rewrite m_Grp. unfold arrows.
  destruct t; cbn [LinkType_value] in *.
  - by rewrite m_Alt, m_Lit, take_consumed, Hk.
  - rewrite m_Alt, (m_Lit_None (lit "-->")) by done.
    by rewrite m_Alt, m_Lit, take_consumed, Hk.
  - rewrite m_Alt, (m_Lit_None (lit "-->")) by done.
    rewrite m_Alt, (m_Lit_None (lit "---")) by done.
    by rewrite m_Lit, take_consumed, Hk.
Qed.

Definition no_pipe (s : str) : bool :=
  forallb (fun c => negb (char_eqb c (ch "|"))) s.

Lemma char_eqb_sym a b : char_eqb a b = char_eqb b a.
Proof. apply N.eqb_sym. Qed.

Lemma id_char_not_pipe c :
  is_id_char c = true -> negb (char_eqb c (ch "|")) = true.
Proof.
  intros H. destruct (char_eqb c (ch "|")) eqn:E; [|done].
  apply char_eqb_eq in E as ->. by vm_compute in H.
Qed.

Definition linkTextPart (t : option str) : str :=
  match t with
  | Some t => if nonempty t then lit "|" ++ t ++ lit "|" else []
  | None => []
  end.

Definition linkCaps (s : str) (ty : LinkType) (t : option str) (d : str) : caps :=
  let c := <[2 := LinkType_value ty]> (<[1 := s]> ∅) in
  let c := if truthy t then <[3 := default [] t]> c else c in
  <[4 := d]> c.

Lemma exec_linkRe s ty t d :
  plain s = true -> plain d = true ->
  (truthy t = true -> no_pipe (default [] t) = true) ->
  exec linkRe (s ++ lit " " ++ LinkType_value ty ++ lit " " ++ linkTextPart t ++ d)
  = Some (linkCaps s ty t d).
Proof.
  intros Hs Hd Ht. unfold exec, linkRe. fold arrows.
  pose proof (plain_wordy _ Hs) as [Hsn Hsw]%andb_true_iff.
  pose proof (plain_wordy _ Hd) as [Hdn Hdw]%andb_true_iff.
  apply andb_true_iff in Hd as [_ Hdi].
  change (lit " " ++ LinkType_value ty ++ lit " " ++ linkTextPart t ++ d)
    with ([ch " "] ++ LinkType_value ty ++ [ch " "] ++ linkTextPart t ++ d).
  rewrite m_Cat.
  apply (m_Grp_Plus_first 1 non_ws); [by apply nonempty_ne | done | done |].
  rewrite m_Cat. apply m_Plus_first; [done | done | by destruct ty |].
  rewrite m_Cat. apply m_Grp_arrows.
  rewrite m_Cat. apply m_Star_first; [done | |].
  { unfold linkTextPart. destruct t as [t|]; [destruct (nonempty t)|];
      try done; cbn [app]; rewrite <- (app_nil_r d);
      (eapply stops_app; [exact Hdn | exact Hdw | apply non_ws_is_ws]). }
  assert (Hdest : forall c,
            m (Star (Cls is_ws) · Grp 4 (Plus (Cls non_ws)))%re at_end d c
            = Some (<[4 := d]> c)).
  { intros c. rewrite m_Cat, m_Star_skip.
    - rewrite <- (app_nil_r d) at 1.
      by apply (m_Grp_Plus_first 4 non_ws); [by apply nonempty_ne | ..].
    - rewrite <- (app_nil_r d).
      eapply stops_app; [done | done | apply non_ws_is_ws]. }
  rewrite m_Cat, m_Opt. unfold linkCaps, linkTextPart.
  destruct t as [t|]; cbn [truthy default from_option id] in *.
  - destruct (nonempty t) eqn:Etn.
    + rewrite <- !app_assoc, m_Cat, m_Lit, m_Cat.
      erewrite (m_Grp_Plus_first 3 (fun c => negb (char_eqb c (ch "|"))));
        [done | by apply nonempty_ne | by apply Ht | done |].
      by rewrite m_Lit, Hdest.
    + cbn [app]. rewrite m_Cat, m_Lit_None, Hdest; [done|].
      destruct d as [|x d]; [done|]. simpl in Hdi.
      apply andb_true_iff in Hdi as [Hx _]. apply id_char_not_pipe in Hx.
      unlit. cbn [strip_prefix]. apply negb_true_iff in Hx.
      by rewrite char_eqb_sym, Hx.
  - cbn [app]. rewrite m_Cat, m_Lit_None, Hdest; [done|].
    destruct d as [|x d]; [done|]. simpl in Hdi.
    apply andb_true_iff in Hdi as [Hx _]. apply id_char_not_pipe in Hx.
    unlit. cbn [strip_prefix]. apply negb_true_iff in Hx.
    by rewrite char_eqb_sym, Hx.
Qed.

(** A line whose first white space is not followed by an arrow is not a
    link. *)
Definition startsWithArrow (s : str) : bool :=
  match strip_prefix (lit "-->") s, strip_prefix (lit "---") s,
        strip_prefix (lit "~~~") s with
  | None, None, None => false
  | _, _, _ => true
  end.

Definition linkLike (line : str) : bool :=
  startsWithArrow (trimStart (skipNonWs line)).

Lemma exec_linkRe_None line : linkLike line = false -> exec linkRe line = None.
Proof.
  unfold linkLike. intros Hno. unfold exec, linkRe. fold arrows.
  rewrite (firstWord_split line) at 1.
  pose proof (firstWord_non_ws line) as Hw.
  pose proof (skipNonWs_stops line) as Hstop.
  destruct (firstWord line) as [|x w] eqn:Ew.
  { cbn [app]. rewrite m_Cat, m_Grp, m_Plus_Cls.
    destruct (skipNonWs line) as [|y r]; [done|]. simpl in Hstop.
    by rewrite Hstop. }
  rewrite m_Cat, m_Grp, m_Plus_commit; [| done | done | done |].
  2:{ intros y s0 c0 Hy. cbv beta. rewrite m_Cat, m_Plus_Cls.
      by rewrite (non_ws_is_ws _ Hy). }
  rewrite m_Cat, m_Plus_Cls.
  destruct (skipNonWs line) as [|y r]; [done|]. simpl in Hstop.
  unfold non_ws in Hstop. apply negb_false_iff in Hstop. rewrite Hstop.
  cbn [trimStart] in Hno. rewrite Hstop in Hno.
  rewrite (leadingWs_split r) at 1.
  rewrite greedy_commit;
    [| apply leadingWs_ws | apply trimStart_stops |].
  2:{ apply rejects_Cat, rejects_Grp. intros k'. unfold arrows.
      repeat apply rejects_Alt; by apply rejects_Lit. }
  rewrite m_Cat, m_Grp. unfold arrows, startsWithArrow in *.
  rewrite !m_Alt.
  destruct (strip_prefix (lit "-->") (trimStart r)) eqn:E1; [done|].
  destruct (strip_prefix (lit "---") (trimStart r)) eqn:E2; [done|].
  destruct (strip_prefix (lit "~~~") (trimStart r)) eqn:E3; [done|].
  by rewrite !m_Lit_None.
Qed.

(** *** Node lines *)

Definition delims (s : NodeShape) : string * string :=
  match s with
  | RECT_ROUND => ("(", ")")
  | STADIUM => ("([", "])")
  | SUBROUTINE => ("[[", "]]")
  | CYLINDER => ("[(", ")]")
  | CIRCLE => ("((", "))")
  | ASSYMETRIC => (">", "]")
  | RHOMBUS => ("{", "}")
  | HEXAGON => ("{{", "}}")
  end%string.

Definition openOf (s : NodeShape) : str := lit (fst (delims s)).
Definition closeOf (s : NodeShape) : str := lit (snd (delims s)).

Definition no_dollar (s : str) : bool :=
  forallb (fun c => negb (char_eqb c (ch "$"))) s.

Definition no_sep (s : str) : bool :=
  match find_last (lit ":::") s with None => true | Some _ => false end.

Definition classSuffix (c : option str) : str :=
  match c with
  | Some c => if nonempty c then lit ":::" ++ c else []
  | None => []
  end.

Lemma getSubstitution_plain matched before after t :
  no_dollar t = true -> getSubstitution matched before after t = t.
Proof.
  induction t as [|c r IH]; [done|]. simpl.
  intros [Hc Hr]%andb_true_iff. apply negb_true_iff in Hc.
  by rewrite Hc, (IH Hr).
Qed.

Lemma shape_replace sh label :
  no_dollar label = true ->
  replaceFirst (NodeShape_value sh) (lit "VAL") label
  = openOf sh ++ label ++ closeOf sh.
Proof.
  intros H. unfold replaceFirst.
  assert (Hf : find_sub (lit "VAL") (NodeShape_value sh)
               = Some (openOf sh, closeOf sh)) by by destruct sh.
  by rewrite Hf, getSubstitution_plain.
Qed.

Lemma ensureId_fields n :
  node_title (ensureId n) = node_title n /\ shape (ensureId n) = shape n
  /\ className (ensureId n) = className n.
Proof. unfold ensureId. by destruct (_ && _). Qed.

Lemma ChartNode_toString_eq n :
  no_dollar (node_title n) = true ->
  ChartNode_toString n
  = node_id (ensureId n)
    ++ (openOf (shape n) ++ node_title n ++ closeOf (shape n))
    ++ classSuffix (className n).
Proof.
  intros H. unfold ChartNode_toString, ChartNode_toString_with.
  destruct (ensureId_fields n) as (-> & -> & ->).
  by rewrite shape_replace.
Qed.

Lemma no_dollar_app a b : no_dollar (a ++ b) = no_dollar a && no_dollar b.
Proof. apply forallb_app. Qed.

(** The first candidate that accepts a serialized label gives the same
    text back, whatever shape it is. *)
Lemma firstShape_printed sh label id cls :
  exists sh' label',
    firstShape shapeCandidates (openOf sh ++ label ++ closeOf sh) id cls
    = Some {| node_title := label'; shape := sh'; node_id := id; className := cls |}
    /\ openOf sh' ++ label' ++ closeOf sh' = openOf sh ++ label ++ closeOf sh.
Proof.
  set (rest := openOf sh ++ label ++ closeOf sh).
  assert (Hself : forall o c, delims sh = (o, c) ->
                              exec (shapeRe o c) rest = Some (<[1 := label]> ∅)).
  { intros o c Hd. subst rest. unfold openOf, closeOf. rewrite Hd.
    apply exec_shapeRe_self. }
  unfold shapeCandidates. cbn [firstShape].
  repeat match goal with
    | |- context [exec (shapeRe ?o ?c) rest] =>
        let E := fresh "E" in
        destruct (exec (shapeRe o c) rest) as [mt|] eqn:E;
          [ apply exec_shapeRe_sound in E as (l & Hrest & ->);
            eexists _, l; split; [by groups | by rewrite Hrest]
          | ]
    end.
  destruct sh;
    match goal with
    | H : exec (shapeRe ?o ?c) rest = None |- _ =>
        rewrite (Hself o c eq_refl) in H; discriminate H
    end.
Qed.

Lemma firstWord_with_delim w o t kw :
  forallb non_ws w = true -> is_ws o = false -> is_id_char o = false ->
  forallb is_id_char kw = true -> firstWord (w ++ o :: t) <> kw.
Proof.
  intros Hw Ho Hoi Hkw E.
  assert (Hw' : forallb non_ws (w ++ [o]) = true).
  { rewrite forallb_app, Hw. simpl. unfold non_ws. by rewrite Ho. }
  replace (w ++ o :: t) with ((w ++ [o]) ++ t) in E by by rewrite <- app_assoc.
  rewrite firstWord_prefix in E by done. subst kw.
  rewrite !forallb_app in Hkw. simpl in Hkw. rewrite Hoi in Hkw.
  by rewrite andb_false_r in Hkw.
Qed.

Lemma not_keyword_with_delim w o t :
  forallb non_ws w = true -> is_ws o = false -> is_id_char o = false ->
  not_keyword (firstWord (w ++ o :: t)) = true.
Proof.
  intros Hw Ho Hoi. unfold not_keyword, keywords. cbn [existsb].
  rewrite !negb_orb, !andb_true_iff, !negb_true_iff, !str_eqb_neq.
  repeat split; try done; by apply firstWord_with_delim.
Qed.

Lemma openOf_head sh :
  exists o t, openOf sh = o :: t /\ is_ws o = false /\ is_id_char o = false.
Proof. destruct sh; by eexists _, _. Qed.

Definition plain_node (n : ChartNode) : bool :=
  plain (node_id (ensureId n)) && one_line (node_title n)
  && no_dollar (node_title n)
  && match className n with
     | Some c => if nonempty c then plain c else no_sep (node_title n)
     | None => no_sep (node_title n)
     end
  && negb (linkLike (ChartNode_toString n)).

Lemma plain_no_colon s : plain s = true -> no_colon s = true.
Proof. intros [_ H]%andb_true_iff. by apply id_chars_no_colon. Qed.

Lemma find_last_sep_suffix a c :
  no_colon c = true ->
  find_last (lit ":::") (a ++ lit ":::" ++ c) = Some (a, c).
Proof.
  intros Hc.
  assert (Hbase : find_last (lit ":::") (lit ":::" ++ c) = Some ([], c)).
  { change (lit ":::" ++ c) with (colon :: (lit "::" ++ c)).
    cbn [find_last]. rewrite (find_last_sep_app (lit "::") c) by done.
    change (colon :: lit "::" ++ c) with (lit ":::" ++ c).
    by rewrite strip_prefix_app. }
  induction a as [|x a IH]; [done|]. cbn [app find_last]. by rewrite IH.
Qed.

Lemma no_sep_no_colon s : no_colon s = true -> find_last (lit ":::") s = None.
Proof.
  intros H. rewrite <- (app_nil_r s). by rewrite find_last_sep_skip.
Qed.

(** What [parseNodeLine] makes of the line of a plain node. *)
Lemma parseNodeLine_printed n :
  plain_node n = true ->
  exists sh' label',
    parseNodeLine (ChartNode_toString n)
    = Some {| node_title := label'; shape := sh'; node_id := node_id (ensureId n);
              className := if truthy (className n) then className n else None |}
    /\ openOf sh' ++ label' ++ closeOf sh'
       = openOf (shape n) ++ node_title n ++ closeOf (shape n).
Proof.
  unfold plain_node. rewrite !andb_true_iff.
  intros ((((Hid & Hl) & Hd) & Hc) & _).
  rewrite ChartNode_toString_eq by done.
  set (id := node_id (ensureId n)) in *.
  set (rest := openOf (shape n) ++ node_title n ++ closeOf (shape n)).
  destruct (firstShape_printed (shape n) (node_title n) id
              (if truthy (className n) then className n else None))
    as (sh' & label' & Hfirst & Hrest).
  exists sh', label'. split; [|done]. fold rest in Hfirst.
  assert (Hexec : exec idRe (id ++ rest) = Some (<[2 := rest]> (<[1 := id]> ∅))).
  { pose proof Hid as [Hne Hic]%andb_true_iff.
    destruct (openOf_head (shape n)) as (o & t & Ho & Hows & Hoid).
    apply exec_idRe; [by apply nonempty_ne | done | | |].
    - subst rest. rewrite Ho. done.
    - subst rest. rewrite Ho. exact Hoid.
    - subst rest. rewrite !forallb_app. fold (one_line (node_title n)).
      rewrite Hl. by destruct (shape n). }
  unfold parseNodeLine.
  assert (Hcolon : forall sh, no_colon (openOf sh) = true
                              /\ no_colon (closeOf sh) = true)
    by by intros [].
  assert (Hnone : no_sep (node_title n) = true ->
                   find_last (lit ":::") (id ++ rest) = None).
  { intros Hn. unfold no_sep in Hn.
    destruct (find_last (lit ":::") (node_title n)) eqn:Es; [done|].
    rewrite find_last_sep_skip by by apply plain_no_colon.
    unfold rest. rewrite find_last_sep_skip by apply Hcolon.
    by rewrite find_last_sep_app by (done || apply Hcolon). }
  destruct (className n) as [c|] eqn:Ec; cbn [classSuffix truthy] in *;
    [destruct (nonempty c) eqn:Enc|].
  - rewrite app_assoc, find_last_sep_suffix by by apply plain_no_colon.
    rewrite trim_no_ws, Enc.
    + rewrite Hexec. by groups.
    + apply plain_wordy in Hc. by apply andb_true_iff in Hc as [_ ?].
  - rewrite !app_nil_r, (Hnone Hc), Hexec. by groups.
  - rewrite !app_nil_r, (Hnone Hc), Hexec. by groups.
Qed.

(** ** Round trip: one statement *)

Lemma statement_with_space w rest :
  w <> [] -> statement (w ++ ch " " :: rest).
Proof.
  intros Hw. split; [by destruct w|]. intros E.
  assert (H : forallb non_ws (w ++ ch " " :: rest) = true) by by rewrite E.
  rewrite forallb_app in H. simpl in H. by rewrite andb_false_r in H.
Qed.

Lemma statement_with_delim w o rest :
  is_id_char o = false -> statement (w ++ o :: rest).
Proof.
  intros Ho. split; [by destruct w|]. intros E.
  assert (H : forallb is_id_char (w ++ o :: rest) = true) by by rewrite E.
  rewrite forallb_app in H. simpl in H. rewrite Ho in H.
  by rewrite andb_false_r in H.
Qed.

Lemma ends_tight_lit_app a (s : string) :
  ends_tight (lit s) = true -> ends_tight (a ++ lit s) = true.
Proof. apply ends_tight_app. Qed.

Lemma plain_starts s : plain s = true -> starts_tight s = true.
Proof. intros H. by apply wordy_starts, plain_wordy. Qed.

Lemma plain_ends s : plain s = true -> ends_tight s = true.
Proof. intros H. by apply wordy_ends, plain_wordy. Qed.

Lemma plain_one_line s : plain s = true -> one_line s = true.
Proof. intros H. by apply wordy_one_line, plain_wordy. Qed.

Lemma plain_no_LF s : plain s = true -> no_LF s = true.
Proof. intros H. by apply one_line_no_LF, plain_one_line. Qed.

(** *** Nodes *)

Record line_ok (line : str) : Prop := {
  line_statement : statement line;
  line_tight : tight line = true;
  line_no_LF : no_LF line = true
}.

(** A statement reads back when its line, printed alone, is read by the
    statement loop as a statement of the same kind that prints the same
    line.  The loop trims the line, skips it when nothing is left, ends the
    body on [end], and tries the patterns in a fixed order: the line has to
    be [printable] and to fall through the patterns tried before its own. *)
Definition printable (line : str) : bool :=
  tight line && negb (str_eqb line (lit "end")) && no_LF line.

Definition matches (r : re) (line : str) : bool :=
  match exec r line with Some _ => true | None => false end.

Definition safe_node (n : ChartNode) : bool :=
  let line := ChartNode_toString n in
  printable line
  && negb (matches subgraphRe line) && negb (matches classDefRe line)
  && negb (matches classRe line) && negb (matches linkStyleRe line)
  && negb (matches linkRe line)
  && match parseNodeLine line with
     | Some n' => str_eqb (ChartNode_toString n') line
     | None => false
     end.

Lemma printable_ok line : printable line = true <-> line_ok line.
Proof.
  unfold printable. rewrite !andb_true_iff, negb_true_iff, str_eqb_neq. split.
  - intros [[Ht He] Hl]. constructor; [split; [by destruct line | done] | done | done].
  - intros [[_ He] Ht Hl]. done.
Qed.

Lemma matches_false r line : matches r line = false <-> exec r line = None.
Proof. unfold matches. by destruct (exec r line). Qed.

Lemma unmatched r line : negb (matches r line) = true <-> exec r line = None.
Proof. by rewrite negb_true_iff, matches_false. Qed.

Lemma node_line n :
  safe_node n = true ->
  line_ok (ChartNode_toString n)
  /\ exec subgraphRe (ChartNode_toString n) = None
  /\ exec classDefRe (ChartNode_toString n) = None
  /\ exec classRe (ChartNode_toString n) = None
  /\ exec linkStyleRe (ChartNode_toString n) = None
  /\ exec linkRe (ChartNode_toString n) = None
  /\ exists n',
       parseNodeLine (ChartNode_toString n) = Some n'
       /\ ChartNode_toString n' = ChartNode_toString n.
Proof.
  unfold safe_node. cbv zeta.
  rewrite !andb_true_iff, printable_ok, !unmatched.
  intros ((((((Hp & H1) & H2) & H3) & H4) & H5) & H6).
  split_and!; try done.
  destruct (parseNodeLine (ChartNode_toString n)) as [n'|]; [|done].
  exists n'. by apply str_eqb_eq in H6.
Qed.

(** A sufficient condition on the fields: a plain identifier, a label on
    one line without [$] (and without [:::] where no class follows), a
    plain class, and a line that is not shaped like a link. *)
Lemma plain_node_line n :
  plain_node n = true ->
  line_ok (ChartNode_toString n)
  /\ exec subgraphRe (ChartNode_toString n) = None
  /\ exec classDefRe (ChartNode_toString n) = None
  /\ exec classRe (ChartNode_toString n) = None
  /\ exec linkStyleRe (ChartNode_toString n) = None
  /\ exec linkRe (ChartNode_toString n) = None
  /\ exists n',
       parseNodeLine (ChartNode_toString n) = Some n'
       /\ ChartNode_toString n' = ChartNode_toString n.
Proof.
  intros Hsafe. pose proof Hsafe as Hs. unfold plain_node in Hs.
  rewrite !andb_true_iff in Hs. destruct Hs as ((((Hid & Hl) & Hd) & Hc) & Hlink).
  apply negb_true_iff in Hlink.
  destruct (parseNodeLine_printed n Hsafe) as (sh' & label' & Hparse & Hrest).
  pose proof (exec_linkRe_None _ Hlink) as Hnolink.
  rewrite ChartNode_toString_eq in * by done.
  set (id := node_id (ensureId n)) in *.
  destruct (openOf_head (shape n)) as (o & t & Ho & Hows & Hoid).
  pose proof (plain_wordy _ Hid) as [Hidn Hidw]%andb_true_iff.
  assert (Hkw : not_keyword
                  (firstWord (id ++ (openOf (shape n) ++ node_title n
                                     ++ closeOf (shape n))
                              ++ classSuffix (className n))) = true).
  { rewrite Ho. cbn [app]. by apply not_keyword_with_delim. }
  destruct (keyword_patterns_None _ Hkw) as (H1 & H2 & H3 & H4).
  assert (Hsuffix : classSuffix (className n) = []
                    \/ exists c, classSuffix (className n) = lit ":::" ++ c
                                 /\ plain c = true).
  { destruct (className n) as [c|]; [|by left]. simpl.
    destruct (nonempty c); [right; by exists c | by left]. }
  split_and!; try done.
  - constructor.
    + rewrite Ho. cbn [app]. by apply statement_with_delim.
    + apply tight_app; [by apply plain_starts|].
      destruct Hsuffix as [->|(c & -> & Hpc)].
      * rewrite app_nil_r, app_assoc. apply ends_tight_app. by destruct (shape n).
      * rewrite !app_assoc. by apply ends_tight_app, plain_ends.
    + rewrite !no_LF_app, (plain_no_LF id), (one_line_no_LF (node_title n)) by done.
      assert (Hoc : no_LF (openOf (shape n)) = true
                    /\ no_LF (closeOf (shape n)) = true) by by destruct (shape n).
      destruct Hoc as [-> ->].
      destruct Hsuffix as [->|(c & -> & Hpc)]; [done|].
      by rewrite no_LF_app, (plain_no_LF c).
  - eexists. split; [exact Hparse|].
    assert (Hd' : no_dollar label' = true).
    { assert (Hall : no_dollar (openOf sh' ++ label' ++ closeOf sh') = true).
      { rewrite Hrest, !no_dollar_app, Hd. by destruct (shape n). }
      rewrite !no_dollar_app in Hall.
      by apply andb_true_iff in Hall as [_ [? _]%andb_true_iff]. }
    rewrite ChartNode_toString_eq by done. cbn [node_title shape className].
    assert (Hens : ensureId {| node_title := label'; shape := sh'; node_id := id;
                               className := if truthy (className n)
                                            then className n else None |}
                   = {| node_title := label'; shape := sh'; node_id := id;
                        className := if truthy (className n)
                                     then className n else None |}).
    { unfold ensureId. cbn [node_id]. by rewrite Hidn. }
    rewrite Hens. cbn [node_id]. rewrite Hrest. do 2 f_equal.
    destruct (className n) as [[|x c]|]; done.
Qed.

Lemma plain_node_safe n : plain_node n = true -> safe_node n = true.
Proof.
  intros (Hp & H1 & H2 & H3 & H4 & H5 & n' & Hn & E)%plain_node_line.
  unfold safe_node. cbv zeta.
  rewrite !andb_true_iff, printable_ok, !unmatched, Hn, str_eqb_eq. done.
Qed.

(** *** The priority of the shapes *)

(** A pattern is more specific than another when every text it matches
    the other matches too, and not the other way round. *)
Definition more_specific (ra rb : re) : Prop :=
  (forall rest, is_Some (exec ra rest) -> is_Some (exec rb rest))
  /\ exists rest, is_Some (exec rb rest) /\ exec ra rest = None.

(** The loop over the candidates returns at the first pattern that
    matches. *)
Lemma firstShape_first cands rest id cls i sh rx mt :
  cands !! i = Some (sh, rx) -> exec rx rest = Some mt ->
  (forall j sh' rx', j < i -> cands !! j = Some (sh', rx') -> exec rx' rest = None) ->
  firstShape cands rest id cls
  = Some {| node_title := default [] (group mt 1); shape := sh; node_id := id;
            className := cls |}.
Proof.
  revert i. induction cands as [|[sh0 rx0] cands IH]; intros i Hi Hm Hbefore; [done|].
  cbn [firstShape]. destruct i as [|i].
  - injection Hi as -> ->. by rewrite Hm.
  - rewrite (Hbefore 0 sh0 rx0) by (done || lia).
    apply (IH i); [done | done |]. intros j sh' rx' Hj Hl.
    apply (Hbefore (S j) sh' rx'); [lia | done].
Qed.

Lemma nested_delimiters_more_specific (o c o' c' : string) (pre post : str) :
  (forall l, lit o ++ l ++ lit c = lit o' ++ (pre ++ l ++ post) ++ lit c') ->
  exec (shapeRe o c) (lit o' ++ lit c') = None ->
  more_specific (shapeRe o c) (shapeRe o' c').
Proof.
  intros Hnest Hnot. split.
  - intros rest [mt Hm]. apply exec_shapeRe_sound in Hm as (l & -> & _).
    rewrite Hnest, exec_shapeRe_self. by eexists.
  - exists (lit o' ++ lit c'). split; [|done].
    rewrite <- (app_nil_l (lit c')), exec_shapeRe_self. by eexists.
Qed.

Lemma hexagon_more_specific : more_specific (shapeRe "{{" "}}") (shapeRe "{" "}").
Proof.
  apply (nested_delimiters_more_specific _ _ _ _ (lit "{") (lit "}"));
    [|by vm_compute].
  intros l. unlit. cbn [app]. by rewrite <- !app_assoc.
Qed.

(** The text made of the delimiters alone tells a candidate from the ones
    tried before it: none of them matches it. *)
Lemma candidates_most_specific_first i j a b ra rb :
  shapeCandidates !! i = Some (a, ra) -> shapeCandidates !! j = Some (b, rb) ->
  more_specific ra rb -> i < j.
Proof.
  intros Hi Hj [Hsub (rest & Hb & Ha)].
  destruct (decide (i < j)) as [|Hge]; [done|]. exfalso.
  destruct (decide (i = j)) as [->|Hne].
  { rewrite Hi in Hj. injection Hj as <- <-. rewrite Ha in Hb. by destruct Hb. }
  specialize (Hsub (openOf a ++ closeOf a)). unfold shapeCandidates in Hi, Hj.
  repeat (destruct i as [|i]; [injection Hi as <- <-|cbn [lookup list_lookup] in Hi]);
    try done;
    repeat (destruct j as [|j]; [injection Hj as <- <-|cbn [lookup list_lookup] in Hj]);
    try done; try lia;
    (destruct Hsub as [mt Hmt]; [vm_compute; by eexists | by vm_compute in Hmt]).
Qed.

(** C5 (as amended).  [parseNodeLine] reads [id{{s}}], for a label [s]
    without line terminator and without the class separator [:::]
    (closing braces are allowed), as the double-brace (hexagon) node with
    label [s].  The statement loop hands a line to [parseNodeLine] when no
    statement pattern matches it: of these only the link pattern can match
    such a line, and when it does not, the loop adds that node.  The shapes
    are tried in the order of [shapeCandidates], the first pattern that
    matches decides, and a pattern stands before every pattern that matches
    all the texts it matches and others besides; the double-brace pattern
    is more specific in this sense than the single-brace one. *)
Theorem double_brace_parses_as_hexagon (id s : str) :
  id <> [] -> forallb is_id_char id = true ->
  forallb dot s = true -> find_last (lit ":::") s = None ->
  let line := id ++ lit "{{" ++ s ++ lit "}}" in
  let node := {| node_title := s; shape := HEXAGON; node_id := id;
                 className := None |} in
  parseNodeLine line = Some node
  /\ (forall lines i raw last chart state stop R,
        lines !! i = Some raw -> trim raw = line -> exec linkRe line = None ->
        runs lines i last chart state stop R
        <-> runs lines (i + 1) false (addNode chart node) state stop R)
  /\ (forall rest id' cls i sh rx mt,
        shapeCandidates !! i = Some (sh, rx) -> exec rx rest = Some mt ->
        (forall j sh' rx', j < i -> shapeCandidates !! j = Some (sh', rx') ->
                           exec rx' rest = None) ->
        firstShape shapeCandidates rest id' cls
        = Some {| node_title := default [] (group mt 1); shape := sh;
                  node_id := id'; className := cls |})
  /\ (forall i j a b ra rb,
        shapeCandidates !! i = Some (a, ra) -> shapeCandidates !! j = Some (b, rb) ->
        more_specific ra rb -> i < j)
  /\ exists i j rh rr,
       shapeCandidates !! i = Some (HEXAGON, rh)
       /\ shapeCandidates !! j = Some (RHOMBUS, rr)
       /\ more_specific rh rr.
Proof.
  intros Hid Hidc Hdot Hsep. cbv zeta.
  assert (Hparse : parseNodeLine (id ++ lit "{{" ++ s ++ lit "}}")
                   = Some {| node_title := s; shape := HEXAGON; node_id := id;
                             className := None |}).
  { unfold parseNodeLine.
    rewrite find_last_sep_skip by by apply id_chars_no_colon.
    rewrite (find_last_sep_skip (lit "{{")) by done.
    rewrite find_last_sep_app by done.
    rewrite exec_idRe; [| done | done | by unlit | by unlit |].
    - groups. unfold shapeCandidates. cbn [firstShape].
      rewrite (exec_shapeRe_self "{{" "}}" s). by groups.
    - rewrite !forallb_app_true. by repeat split. }
  split_and!.
  - exact Hparse.
  - intros lines i raw last chart state stop R Hl Ht Hlink.
    assert (Hw : forallb non_ws id = true).
    { eapply forallb_impl'; [|exact Hidc]. intros c Hc. unfold non_ws.
      by rewrite id_char_not_ws. }
    assert (Hkw : not_keyword (firstWord (id ++ lit "{{" ++ s ++ lit "}}")) = true).
    { unlit. cbn [app]. by apply not_keyword_with_delim. }
    destruct (keyword_patterns_None _ Hkw) as (H1 & H2 & H3 & H4).
    apply runs_step. intros fuel.
    rewrite (body_node fuel lines i last chart state stop raw Hl);
      rewrite Ht; try done; [by rewrite Hparse|].
    unlit. cbn [app]. by apply statement_with_delim.
  - intros rest id' cls i sh rx mt. apply firstShape_first.
  - apply candidates_most_specific_first.
  - exists 0, 5, (shapeRe "{{" "}}"), (shapeRe "{" "}").
    split_and!; [done | done | apply hexagon_more_specific].
Qed.

Lemma double_brace_parses_as_hexagon_witness :
  parseNodeLine (lit "a" ++ lit "{{" ++ lit "x}y" ++ lit "}}")
  = Some {| node_title := lit "x}y"; shape := HEXAGON; node_id := lit "a";
            className := None |}.
Proof.
  apply (double_brace_parses_as_hexagon (lit "a") (lit "x}y")); by vm_compute.
Defined.

(** C5, the claim as stated fails: the label [b:::c] between double braces
    is cut at the class separator and the statement is not a node at all. *)
Lemma double_brace_label_with_separator :
  parseNodeLine (lit "a" ++ lit "{{" ++ lit "b:::c" ++ lit "}}") = None.
Proof. vm_compute. reflexivity. Qed.

(** A double-brace line that the link pattern matches is a link for the
    statement loop, which never hands it to [parseNodeLine]. *)
Example double_brace_line_read_as_link :
  parseNodeLine (lit "k{{b --> c}}")
  = Some {| node_title := lit "b --> c"; shape := HEXAGON; node_id := lit "k";
            className := None |}
  /\ parseFlowchart (lit "flowchart TD
  k{{b --> c}}")
     = Some (Ok (addLink (newChart None TD)
                   {| src := ById (lit "k{{b"); dest := ById (lit "c}}");
                      link_text := None; link_type := ARROW; link_style := None |})).
Proof. split; vm_compute; reflexivity. Qed.

(** *** Links *)

(** The link the parser builds from the line of [l]; the style, when the
    link carries one, goes on a line of its own and has to read back too. *)
Definition parsedLink (l : Link) : Link :=
  linkOfMatch (default ∅ (exec linkRe (Link_toString l))).

Definition link_reads (l : Link) : bool :=
  let line := Link_toString l in
  printable line
  && negb (matches subgraphRe line) && negb (matches classDefRe line)
  && negb (matches classRe line) && negb (matches linkStyleRe line)
  && matches linkRe line
  && str_eqb (Link_toString (parsedLink l)) line.

Definition safe_link (l : Link) : bool :=
  link_reads l && (if hasStyle l then styleText_ok (styleText l) else true).

(** A sufficient condition on the fields: plain identifiers, the source
    not a keyword, a label on one line without [|]. *)
Definition plain_link (l : Link) : bool :=
  plain (NodeRef_id (src l)) && not_keyword (NodeRef_id (src l))
  && plain (NodeRef_id (dest l))
  && (if truthy (link_text l)
      then no_pipe (default [] (link_text l)) && one_line (default [] (link_text l))
      else true).

Definition plainLink (l : Link) : Link :=
  {| src := ById (NodeRef_id (src l)); dest := ById (NodeRef_id (dest l));
     link_text := if truthy (link_text l) then link_text l else None;
     link_type := link_type l; link_style := None |}.

Lemma Link_toString_eq l :
  Link_toString l
  = NodeRef_id (src l) ++ lit " " ++ LinkType_value (link_type l) ++ lit " "
    ++ linkTextPart (link_text l) ++ NodeRef_id (dest l).
Proof. done. Qed.

Lemma linkTextPart_parsed t :
  linkTextPart (if truthy t then t else None) = linkTextPart t.
Proof. by destruct t as [[|x t]|]. Qed.

Lemma link_line l :
  safe_link l = true ->
  line_ok (Link_toString l)
  /\ exec subgraphRe (Link_toString l) = None
  /\ exec classDefRe (Link_toString l) = None
  /\ exec classRe (Link_toString l) = None
  /\ exec linkStyleRe (Link_toString l) = None
  /\ (exists mt, exec linkRe (Link_toString l) = Some mt
                 /\ linkOfMatch mt = parsedLink l)
  /\ Link_toString (parsedLink l) = Link_toString l.
Proof.
  unfold safe_link, link_reads, parsedLink. cbv zeta.
  rewrite !andb_true_iff, printable_ok, !unmatched, str_eqb_eq.
  intros (((((((Hp & H1) & H2) & H3) & H4) & H5) & H6) & _).
  split_and!; try done.
  unfold matches in H5.
  destruct (exec linkRe (Link_toString l)) as [mt|]; [|done]. by exists mt.
Qed.

Lemma plain_link_line l :
  plain_link l = true ->
  line_ok (Link_toString l)
  /\ exec subgraphRe (Link_toString l) = None
  /\ exec classDefRe (Link_toString l) = None
  /\ exec classRe (Link_toString l) = None
  /\ exec linkStyleRe (Link_toString l) = None
  /\ (exists mt, exec linkRe (Link_toString l) = Some mt
                 /\ linkOfMatch mt = plainLink l)
  /\ Link_toString (plainLink l) = Link_toString l.
Proof.
  unfold plain_link. rewrite !andb_true_iff.
  intros (((Hs & Hk) & Hd) & Ht). rewrite !Link_toString_eq.
  pose proof (plain_wordy _ Hs) as [Hsn Hsw]%andb_true_iff.
  set (s := NodeRef_id (src l)) in *. set (d := NodeRef_id (dest l)) in *.
  assert (Hfw : firstWord (s ++ lit " " ++ LinkType_value (link_type l) ++ lit " "
                           ++ linkTextPart (link_text l) ++ d) = s).
  { change (lit " " ++ ?x) with (ch " " :: x). by apply firstWord_app. }
  assert (Hkw : not_keyword (firstWord (s ++ lit " " ++ LinkType_value (link_type l)
                  ++ lit " " ++ linkTextPart (link_text l) ++ d)) = true)
    by by rewrite Hfw.
  destruct (keyword_patterns_None _ Hkw) as (H1 & H2 & H3 & H4).
  assert (Hpart : no_LF (linkTextPart (link_text l)) = true).
  { unfold linkTextPart. destruct (link_text l) as [t|]; [|done].
    cbn [truthy default from_option id] in Ht. destruct (nonempty t); [|done].
    apply andb_true_iff in Ht as [_ Ht].
    rewrite !no_LF_app, (one_line_no_LF t) by done. reflexivity. }
  split_and!; try done.
  - constructor.
    + change (lit " " ++ ?x) with (ch " " :: x). apply statement_with_space.
      by apply nonempty_ne.
    + apply tight_app; [by apply plain_starts|].
      rewrite !app_assoc. by apply ends_tight_app, plain_ends.
    + rewrite !no_LF_app, (plain_no_LF s), (plain_no_LF d), Hpart by done.
      by destruct (link_type l).
  - eexists. split.
    + apply exec_linkRe; [done | done |]. intros Htr. rewrite Htr in Ht.
      by apply andb_true_iff in Ht as [? _].
    + unfold linkOfMatch, linkCaps, plainLink. fold s d.
      destruct (truthy (link_text l)) eqn:Etr; groups;
        rewrite LinkType_of_value_value; f_equal.
      destruct (link_text l); [done | discriminate].
  - cbn [plainLink src dest link_text link_type NodeRef_id].
    by rewrite linkTextPart_parsed.
Qed.

Lemma plain_link_safe l :
  plain_link l = true ->
  (if hasStyle l then styleText_ok (styleText l) else true) = true ->
  safe_link l = true.
Proof.
  intros (Hp & H1 & H2 & H3 & H4 & (mt & Hm & E) & Hline)%plain_link_line Hst.
  unfold safe_link, link_reads, parsedLink. cbv zeta.
  rewrite !andb_true_iff, printable_ok, !unmatched, str_eqb_eq.
  unfold matches. rewrite Hm. cbn [default from_option id]. rewrite E. done.
Qed.

(** *** Link-style lines *)

Definition styleLine (index : str) (style : str) : str :=
  lit "linkStyle " ++ index ++ lit " " ++ style ++ lit ";".

(** A numeral: what [\d+] takes whole. *)
Definition digits (s : str) : bool := nonempty s && forallb is_digit s.

(** The text of a positional style: on one line and, unless it is empty,
    not starting with white space. *)
Definition positionalText_ok (s : str) : bool :=
  one_line s && (negb (nonempty s) || starts_tight s).

Lemma styleText_positional s : styleText_ok s = true -> positionalText_ok s = true.
Proof.
  unfold styleText_ok, positionalText_ok. rewrite !andb_true_iff.
  intros ((_ & -> ) & ->). by rewrite orb_true_r.
Qed.

Lemma digits_are_plain s : digits s = true -> plain s = true.
Proof.
  unfold digits, plain. rewrite !andb_true_iff. intros [? H]. split; [done|].
  eapply forallb_impl'; [apply digit_id_char | exact H].
Qed.

Lemma nat_str_is_digits n : digits (nat_str n) = true.
Proof.
  unfold digits. apply andb_true_iff. split; [|apply nat_str_digits].
  pose proof (nat_str_nonempty n). by destruct (nat_str n).
Qed.

Lemma stripTrailingSemicolon_snoc s : stripTrailingSemicolon (s ++ lit ";") = s.
Proof.
  unfold stripTrailingSemicolon. rewrite rev_app_distr. simpl.
  rewrite ?char_eqb_refl. apply rev_involutive.
Qed.

Lemma styleLine_first_word k style : firstWord (styleLine k style) = lit "linkStyle".
Proof.
  unfold styleLine. change (lit "linkStyle " ++ ?x) with (lit "linkStyle" ++ ch " " :: x).
  by apply firstWord_app.
Qed.

Lemma style_line index style :
  digits index = true -> positionalText_ok style = true ->
  line_ok (styleLine index style)
  /\ exec subgraphRe (styleLine index style) = None
  /\ exec classDefRe (styleLine index style) = None
  /\ exec classRe (styleLine index style) = None
  /\ exists mt, exec linkStyleRe (styleLine index style) = Some mt
                /\ default [] (group mt 1) = index
                /\ stripTrailingSemicolon (trim (default [] (group mt 2))) = style.
Proof.
  intros Hd. unfold positionalText_ok. rewrite !andb_true_iff. intros (Hl & Hs).
  pose proof (styleLine_first_word index style) as Hfw.
  pose proof Hd as [Hdn Hdd]%andb_true_iff.
  assert (Htight : tight (style ++ lit ";") = true).
  { destruct style as [|x style]; [done|]. by apply tight_app. }
  split_and!.
  - constructor.
    + done.
    + unfold styleLine. apply tight_app; [done|].
      rewrite !app_assoc. by apply ends_tight_app.
    + unfold styleLine. rewrite !no_LF_app, (plain_no_LF index),
        (one_line_no_LF style) by (done || by apply digits_are_plain). done.
  - apply keyword_pattern_None; [done|]. by rewrite Hfw.
  - apply keyword_pattern_None; [done|]. by rewrite Hfw.
  - apply keyword_pattern_None; [done|]. by rewrite Hfw.
  - eexists. split.
    { apply exec_linkStyleRe; [done | done | done |].
      destruct style as [|x style]; [done|]. by apply starts_tight_stops. }
    groups. split; [done|].
    rewrite trim_tight' by done. apply stripTrailingSemicolon_snoc.
Qed.

(** *** Class definitions and class attachments *)

Definition classNamesText (names : ClassNames) : str :=
  match names with
  | ManyNames l => join (lit ",") l
  | OneName s => s
  end.

Definition nodeStyleText (v : NodeStyleValue) : str :=
  match v with
  | RawNodeStyle s => s
  | NodeStyleObject o => NodeStyle_toString o
  end.

Definition classDefOfMatch (mt : caps) : ClassDef :=
  {| classNames := classNamesOf (default [] (group mt 1));
     cd_style := RawNodeStyle (trim (default [] (group mt 2))) |}.

Definition parsedClassDef (d : ClassDef) : ClassDef :=
  classDefOfMatch (default ∅ (exec classDefRe (ClassDef_toString d))).

Definition safe_classDef (d : ClassDef) : bool :=
  let line := ClassDef_toString d in
  printable line && matches classDefRe line
  && str_eqb (ClassDef_toString (parsedClassDef d)) line.

(** A sufficient condition on the fields: names without white space, a
    style on one line with no white space at either end. *)
Definition plain_classDef (d : ClassDef) : bool :=
  wordy (classNamesText (classNames d))
  && one_line (nodeStyleText (cd_style d)) && tight (nodeStyleText (cd_style d)).

Definition plainClassDef (d : ClassDef) : ClassDef :=
  {| classNames := classNamesOf (classNamesText (classNames d));
     cd_style := RawNodeStyle (trim (nodeStyleText (cd_style d))) |}.

Lemma ClassDef_toString_eq d :
  ClassDef_toString d
  = lit "classDef " ++ classNamesText (classNames d) ++ lit " "
    ++ nodeStyleText (cd_style d).
Proof. done. Qed.

Lemma classNamesOf_text names :
  forallb non_ws names = true -> classNamesText (classNamesOf names) = names.
Proof.
  intros H. unfold classNamesOf. destruct (includes _ _); [|done].
  cbn [classNamesText]. rewrite map_trim_split by done. apply join_split.
Qed.

Lemma tight_starts s : tight s = true -> starts_tight s = true.
Proof. by intros [? _]%andb_true_iff. Qed.

Lemma classDef_first_word d : firstWord (ClassDef_toString d) = lit "classDef".
Proof.
  rewrite ClassDef_toString_eq.
  change (lit "classDef " ++ ?x) with (lit "classDef" ++ ch " " :: x).
  by apply firstWord_app.
Qed.

Lemma classDef_line d :
  safe_classDef d = true ->
  line_ok (ClassDef_toString d)
  /\ exec subgraphRe (ClassDef_toString d) = None
  /\ (exists mt, exec classDefRe (ClassDef_toString d) = Some mt
                 /\ {| classNames := classNamesOf (default [] (group mt 1));
                       cd_style := RawNodeStyle (trim (default [] (group mt 2))) |}
                    = parsedClassDef d)
  /\ ClassDef_toString (parsedClassDef d) = ClassDef_toString d.
Proof.
  unfold safe_classDef, parsedClassDef. cbv zeta.
  rewrite !andb_true_iff, printable_ok, str_eqb_eq. intros ((Hp & Hm) & E).
  split_and!; try done;
    try (apply keyword_pattern_None; [done|]; by rewrite classDef_first_word).
  unfold matches in Hm.
  destruct (exec classDefRe (ClassDef_toString d)) as [mt|]; [|done]. by exists mt.
Qed.

Lemma plain_classDef_line d :
  plain_classDef d = true ->
  line_ok (ClassDef_toString d)
  /\ exec subgraphRe (ClassDef_toString d) = None
  /\ (exists mt, exec classDefRe (ClassDef_toString d) = Some mt
                 /\ classDefOfMatch mt = plainClassDef d)
  /\ ClassDef_toString (plainClassDef d) = ClassDef_toString d.
Proof.
  unfold plain_classDef. rewrite !andb_true_iff. intros ((Hn & Hl) & Ht).
  rewrite !ClassDef_toString_eq.
  set (names := classNamesText (classNames d)) in *.
  set (style := nodeStyleText (cd_style d)) in *.
  pose proof Hn as [Hnn Hnw]%andb_true_iff.
  assert (Hfw : firstWord (lit "classDef " ++ names ++ lit " " ++ style)
                = lit "classDef").
  { change (lit "classDef " ++ ?x) with (lit "classDef" ++ ch " " :: x).
    by apply firstWord_app. }
  split_and!.
  - constructor.
    + done.
    + apply tight_app; [done|]. rewrite !app_assoc. apply ends_tight_app.
      by apply andb_true_iff in Ht as [_ ?].
    + rewrite !no_LF_app, (one_line_no_LF names), (one_line_no_LF style)
        by (done || by apply wordy_one_line). done.
  - apply keyword_pattern_None; [done|]. by rewrite Hfw.
  - eexists. split; [apply exec_classDefRe; [done | done | by apply tight_starts]|].
    unfold classDefOfMatch. by groups.
  - cbn [plainClassDef classNames cd_style nodeStyleText]. fold names style.
    by rewrite classNamesOf_text, trim_tight'.
Qed.

Lemma plain_classDef_safe d : plain_classDef d = true -> safe_classDef d = true.
Proof.
  intros (Hp & _ & (mt & Hm & E) & Hline)%plain_classDef_line.
  unfold safe_classDef, parsedClassDef, matches. cbv zeta.
  rewrite Hm. cbn [default from_option id]. rewrite E.
  rewrite !andb_true_iff, printable_ok, str_eqb_eq. done.
Qed.

Definition attachedIds (ns : AttachedNodes) : list str :=
  match ns with
  | OneNode r => [NodeRef_id r]
  | ManyNodes l => map NodeRef_id l
  end.

Definition attachmentOfMatch (mt : caps) : ClassAttachment :=
  {| ca_nodes := attachedNodesOf (default [] (group mt 1));
     ca_className := default [] (group mt 2) |}.

Definition parsedAttachment (a : ClassAttachment) : ClassAttachment :=
  attachmentOfMatch (default ∅ (exec classRe (ClassAttachment_toString a))).

Definition safe_attachment (a : ClassAttachment) : bool :=
  let line := ClassAttachment_toString a in
  printable line && matches classRe line
  && str_eqb (ClassAttachment_toString (parsedAttachment a)) line.

(** A sufficient condition on the fields: identifiers without white space,
    a class name without white space or semicolon. *)
Definition plain_attachment (a : ClassAttachment) : bool :=
  wordy (join (lit ",") (attachedIds (ca_nodes a))) && className_ok (ca_className a).

Definition plainAttachment (a : ClassAttachment) : ClassAttachment :=
  {| ca_nodes := attachedNodesOf (join (lit ",") (attachedIds (ca_nodes a)));
     ca_className := ca_className a |}.

Lemma ClassAttachment_toString_eq a :
  ClassAttachment_toString a
  = lit "class " ++ join (lit ",") (attachedIds (ca_nodes a)) ++ lit " "
    ++ ca_className a ++ lit ";".
Proof. by destruct a as [[r|l] c]. Qed.

Lemma attachedNodesOf_ids ids :
  forallb non_ws ids = true ->
  join (lit ",") (attachedIds (attachedNodesOf ids)) = ids.
Proof.
  intros H. unfold attachedNodesOf. rewrite map_trim_split by done.
  rewrite <- (join_split (ch ",") ids) at 2.
  destruct (split (ch ",") ids) as [|one [|two many]]; try done.
  cbn [attachedIds]. rewrite map_map. cbn [NodeRef_id]. by rewrite map_id.
Qed.

Lemma className_ok_wordy cn : className_ok cn = true -> wordy cn = true.
Proof.
  unfold className_ok, wordy. intros [-> H]%andb_true_iff. simpl.
  eapply forallb_impl'; [|done]. intros c Hc. unfold non_ws.
  by rewrite class_name_char_not_ws.
Qed.

Lemma attachment_first_word a : firstWord (ClassAttachment_toString a) = lit "class".
Proof.
  rewrite ClassAttachment_toString_eq.
  change (lit "class " ++ ?x) with (lit "class" ++ ch " " :: x).
  by apply firstWord_app.
Qed.

Lemma attachment_line a :
  safe_attachment a = true ->
  line_ok (ClassAttachment_toString a)
  /\ exec subgraphRe (ClassAttachment_toString a) = None
  /\ exec classDefRe (ClassAttachment_toString a) = None
  /\ (exists mt, exec classRe (ClassAttachment_toString a) = Some mt
                 /\ attachClass (L := nat) (S := ParsedSubgraph)
                      (newChart None TD) (attachedNodesOf (default [] (group mt 1)))
                      (default [] (group mt 2))
                    = attachClass (newChart None TD) (ca_nodes (parsedAttachment a))
                        (ca_className (parsedAttachment a)))
  /\ ClassAttachment_toString (parsedAttachment a) = ClassAttachment_toString a.
Proof.
  unfold safe_attachment, parsedAttachment. cbv zeta.
  rewrite !andb_true_iff, printable_ok, str_eqb_eq. intros ((Hp & Hm) & E).
  split_and!; try done;
    try (apply keyword_pattern_None; [done|]; by rewrite attachment_first_word).
  unfold matches in Hm.
  destruct (exec classRe (ClassAttachment_toString a)) as [mt|]; [|done].
  by exists mt.
Qed.

Lemma plain_attachment_line a :
  plain_attachment a = true ->
  line_ok (ClassAttachment_toString a)
  /\ exec subgraphRe (ClassAttachment_toString a) = None
  /\ exec classDefRe (ClassAttachment_toString a) = None
  /\ (exists mt, exec classRe (ClassAttachment_toString a) = Some mt
                 /\ attachmentOfMatch mt = plainAttachment a)
  /\ ClassAttachment_toString (plainAttachment a) = ClassAttachment_toString a.
Proof.
  unfold plain_attachment. rewrite !andb_true_iff. intros (Hi & Hc).
  rewrite !ClassAttachment_toString_eq.
  set (ids := join (lit ",") (attachedIds (ca_nodes a))) in *.
  pose proof Hi as [Hin Hiw]%andb_true_iff.
  pose proof (className_ok_wordy _ Hc) as Hcw.
  assert (Hfw : firstWord (lit "class " ++ ids ++ lit " " ++ ca_className a ++ lit ";")
                = lit "class").
  { change (lit "class " ++ ?x) with (lit "class" ++ ch " " :: x).
    by apply firstWord_app. }
  split_and!.
  - constructor.
    + done.
    + apply tight_app; [done|]. rewrite !app_assoc. by apply ends_tight_app.
    + rewrite !no_LF_app, (one_line_no_LF ids), (one_line_no_LF (ca_className a))
        by by apply wordy_one_line. done.
  - apply keyword_pattern_None; [done|]. by rewrite Hfw.
  - apply keyword_pattern_None; [done|]. by rewrite Hfw.
  - eexists. split; [by apply exec_classRe|]. unfold attachmentOfMatch. by groups.
  - cbn [plainAttachment ca_nodes ca_className]. fold ids.
    by rewrite attachedNodesOf_ids.
Qed.

Lemma plain_attachment_safe a : plain_attachment a = true -> safe_attachment a = true.
Proof.
  intros (Hp & _ & _ & (mt & Hm & E) & Hline)%plain_attachment_line.
  unfold safe_attachment, parsedAttachment, matches. cbv zeta.
  rewrite Hm. cbn [default from_option id]. rewrite E.
  rewrite !andb_true_iff, printable_ok, str_eqb_eq. done.
Qed.

(** *** Sub-grouping headers *)

Definition subHeader (ID T : str) : str :=
  lit "subgraph " ++ ID ++ lit " [" ++ T ++ lit "]".

Lemma subHeader_line ID T :
  subId_ok ID = true -> one_line T = true ->
  line_ok (subHeader ID T)
  /\ exec subgraphRe (subHeader ID T) = Some (<[2 := T]> (<[1 := ID]> ∅)).
Proof.
  intros HID HT. split; [|by apply exec_subgraphRe].
  unfold subHeader. constructor.
  - done.
  - apply tight_app; [done|]. rewrite !app_assoc. by apply ends_tight_app.
  - apply andb_true_iff in HID as [_ HID].
    rewrite !no_LF_app, (one_line_no_LF T) by done.
    rewrite (one_line_no_LF ID); [done|].
    eapply forallb_impl'; [|exact HID]. intros c Hc.
    by apply non_ws_dot, sub_id_char_not_ws.
Qed.

Definition directionLine (d : ChartDir) : str := lit "direction " ++ ChartDir_value d.

Lemma directionLine_ok d : line_ok (directionLine d).
Proof. by destruct d. Qed.

Lemma trim_ws w : forallb is_ws w = true -> trim w = [].
Proof.
  intros H. unfold trim. rewrite <- (app_nil_r w), trimStart_ws by done. done.
Qed.

(** *** One round of the body loop on a printed line

    Each lemma reads backwards: the loop started at the printed line gives
    whatever result the loop started after it gives, with the container
    and the state the line leaves. *)

Definition parsedNode (n : ChartNode) : ChartNode :=
  default n (parseNodeLine (ChartNode_toString n)).

Lemma parsedNode_toString n :
  safe_node n = true ->
  ChartNode_toString (parsedNode n) = ChartNode_toString n.
Proof.
  intros H. destruct (node_line n H) as (_ & _ & _ & _ & _ & _ & n' & Hp & Hn).
  unfold parsedNode. by rewrite Hp.
Qed.

Lemma runs_round lines i j last last' c c' st st' stop R :
  (forall fuel, bodyLoop (S fuel) lines i last c st stop
                = bodyLoop fuel lines j last' c' st' stop) ->
  runs lines j last' c' st' stop R -> runs lines i last c st stop R.
Proof. intros H [f Hf]. exists (S f). by rewrite H. Qed.

Section Rounds.
Context (lines : list str) (i : nat) (w : str) (last : bool)
        (c : ParsedChart) (st : ParseState) (stop : bool) (R : result BodyResult).
Hypothesis Hw : forallb is_ws w = true.

Lemma round_blank :
  lines !! i = Some w ->
  runs lines (i + 1) last c st stop R -> runs lines i last c st stop R.
Proof using Hw.
  intros Hl. apply runs_round. intros fuel.
  by apply body_blank with (raw := w); [|apply trim_ws].
Qed.

Lemma round_node n :
  safe_node n = true ->
  lines !! i = Some (w ++ ChartNode_toString n) ->
  runs lines (i + 1) false (addNode c (parsedNode n)) st stop R ->
  runs lines i last c st stop R.
Proof using Hw.
  intros Hn Hl.
  destruct (node_line n Hn) as ([Hs Ht _] & H1 & H2 & H3 & H4 & H5 & n' & Hp & _).
  apply runs_round. intros fuel.
  rewrite (body_node fuel lines i last c st stop _ Hl);
    rewrite (trim_tight w _ Hw Ht); try done.
  unfold parsedNode. by rewrite Hp.
Qed.

Lemma round_link l :
  safe_link l = true ->
  lines !! i = Some (w ++ Link_toString l) ->
  runs lines (i + 1) true (addLink c (nextLinkIndex st))
    (registerLink st (parsedLink l)) stop R ->
  runs lines i last c st stop R.
Proof using Hw.
  intros Hsafe Hl.
  destruct (link_line l Hsafe) as ([Hs Ht _] & H1 & H2 & H3 & H4 & (mt & H5 & Hm) & _).
  apply runs_round. intros fuel.
  rewrite (body_link fuel lines i last c st stop _ mt Hl)
    by by rewrite (trim_tight w _ Hw Ht).
  by rewrite Hm.
Qed.

Lemma round_linkStyle index style :
  digits index = true -> positionalText_ok style = true ->
  lines !! i = Some (w ++ styleLine index style) ->
  (if attachesInline last st (parseInt index)
   then runs lines (i + 1) false c (styleInline st (parseInt index) style) stop R
   else runs lines (i + 1) false
          (addLinkStyle c (parseInt index) (RawStyle style)) st stop R) ->
  runs lines i last c st stop R.
Proof using Hw.
  intros Hdig Hsafe Hl.
  destruct (style_line index style Hdig Hsafe)
    as ([Hs Ht _] & H1 & H2 & H3 & mt & H4 & Hk & Hstyle).
  intros Hr.
  destruct (attachesInline last st (parseInt index)) eqn:E;
    destruct Hr as [f Hf]; exists (S f);
    rewrite (body_linkStyle f lines i last c st stop _ mt Hl)
      by (by rewrite (trim_tight w _ Hw Ht));
    cbv zeta; by rewrite Hk, Hstyle, E.
Qed.

Lemma round_classDef d :
  safe_classDef d = true ->
  lines !! i = Some (w ++ ClassDef_toString d) ->
  runs lines (i + 1) false (addClassDef c (parsedClassDef d)) st stop R ->
  runs lines i last c st stop R.
Proof using Hw.
  intros Hsafe Hl.
  destruct (classDef_line d Hsafe) as ([Hs Ht _] & H1 & (mt & H2 & Hm) & _).
  apply runs_round. intros fuel.
  rewrite (body_classDef fuel lines i last c st stop _ mt Hl)
    by by rewrite (trim_tight w _ Hw Ht).
  by rewrite Hm.
Qed.

Lemma round_attachment a :
  safe_attachment a = true ->
  lines !! i = Some (w ++ ClassAttachment_toString a) ->
  runs lines (i + 1) false
    (attachClass c (ca_nodes (parsedAttachment a)) (ca_className (parsedAttachment a)))
    st stop R ->
  runs lines i last c st stop R.
Proof using Hw.
  intros Hsafe Hl.
  destruct (attachment_line a Hsafe) as ([Hs Ht _] & H1 & H2 & (mt & H3 & Hm) & _).
  apply runs_round. intros fuel.
  rewrite (body_class fuel lines i last c st stop _ mt Hl)
    by by rewrite (trim_tight w _ Hw Ht).
  unfold attachClass in *. cbn [title direction nodes links subgraphs classDefs
    classAttachments positionalLinkStyles newChart app] in Hm.
  injection Hm as Hm1 Hm2. by rewrite Hm1, Hm2.
Qed.

Lemma round_end :
  lines !! i = Some (w ++ lit "end") ->
  runs lines i last c st stop
    (Ok {| nextIndex := i + 1; foundEndToken := true;
           parsedChart := c; parsedState := st |}).
Proof using Hw.
  intros Hl. exists 1.
  rewrite (body_end 0 lines i last c st stop _ Hl); [done|].
  by apply trim_tight.
Qed.

Lemma round_eof :
  lines !! i = None ->
  runs lines i last c st stop
    (Ok {| nextIndex := i; foundEndToken := false;
           parsedChart := c; parsedState := st |}).
Proof. intros Hl. exists 1. by apply body_eof. Qed.

End Rounds.

Lemma skipBlank_here lines j l :
  lines !! j = Some l -> trim l <> [] -> skipBlank lines j = j.
Proof.
  intros Hl Ht. unfold skipBlank. rewrite (drop_S _ _ _ Hl). simpl.
  by destruct (trim l).
Qed.

Lemma round_subgraph lines i w w' last c st stop R ID T d nested :
  forallb is_ws w = true -> forallb is_ws w' = true ->
  subId_ok ID = true -> one_line T = true ->
  lines !! i = Some (w ++ subHeader ID T) ->
  lines !! (i + 1) = Some (w' ++ directionLine d) ->
  runs lines (i + 2) false (newChart (Some T) d) st true (Ok nested) ->
  foundEndToken nested = true ->
  runs lines (nextIndex nested) false
    (addSubgraph c (MkSubgraph (Some ID) (parsedChart nested)))
    (parsedState nested) stop R ->
  runs lines i last c st stop R.
Proof.
  intros Hw Hw' HID HT Hl Hd [f1 H1] Hend [f2 H2].
  destruct (subHeader_line ID T HID HT) as [[Hs Ht _] Hm].
  destruct (directionLine_ok d) as [[Hdn _] Hdt _].
  exists (S (f1 + f2)).
  rewrite (body_subgraph _ lines i last c st stop _ _ Hl)
    by by rewrite (trim_tight w _ Hw Ht).
  cbv zeta.
  rewrite (skipBlank_here lines (i + 1) _ Hd) by by rewrite (trim_tight w' _ Hw' Hdt).
  rewrite Hd, (trim_tight w' _ Hw' Hdt). unfold directionLine.
  rewrite exec_directionRe. groups. cbn [default from_option id].
  rewrite ChartDir_of_value_value.
  replace (i + 1 + 1) with (i + 2) by lia.
  rewrite (bodyLoop_mono f1 (f1 + f2) _ _ _ _ _ _ _ ltac:(lia) H1).
  rewrite Hend. cbn [negb].
  apply (bodyLoop_mono f2 (f1 + f2)); [lia | done].
Qed.

(** *** Blocks of lines and the link store *)

(** The list [l] sits at position [i] of a sequence read through [get]. *)
Definition placed {A} (get : nat -> option A) (i : nat) (l : list A) : Prop :=
  forall j x, l !! j = Some x -> get (i + j) = Some x.

Abbreviation occurs_at lines := (placed (fun k => lines !! k)).
Abbreviation stored_at store := (placed (fun k => store !! k)).

Lemma placed_cons {A} (get : nat -> option A) i x l :
  placed get i (x :: l) <-> get i = Some x /\ placed get (i + 1) l.
Proof.
  unfold placed. split.
  - intros H. split.
    + rewrite <- (Nat.add_0_r i). by apply H.
    + intros j y Hj. replace (i + 1 + j) with (i + S j) by lia. by apply H.
  - intros [H0 H] [|j] y Hj.
    + rewrite Nat.add_0_r. simpl in Hj. congruence.
    + replace (i + S j) with (i + 1 + j) by lia. by apply H.
Qed.

Lemma placed_app {A} (get : nat -> option A) i l1 l2 :
  placed get i (l1 ++ l2) <-> placed get i l1 /\ placed get (i + length l1) l2.
Proof.
  revert i. induction l1 as [|x l1 IH]; intros i; cbn [app length].
  - rewrite Nat.add_0_r. split; [by intros H; split | by intros [_ H]].
  - rewrite !placed_cons, IH.
    replace (i + 1 + length l1) with (i + S (length l1)) by lia.
    split; [intros (? & ? & ?) | intros ((? & ?) & ?)]; by split_and!.
Qed.

Lemma placed_self {A} (l : list A) : placed (fun k => l !! k) 0 l.
Proof. by intros j x H. Qed.

Definition regs (st : ParseState) (ls : list Link) : ParseState :=
  fold_left registerLink ls st.

Lemma regs_app st l1 l2 : regs st (l1 ++ l2) = regs (regs st l1) l2.
Proof. apply fold_left_app. Qed.

Lemma regs_next st ls : nextLinkIndex (regs st ls) = nextLinkIndex st + length ls.
Proof.
  revert st. induction ls as [|l ls IH]; intros st; simpl; [lia|].
  rewrite IH. simpl. lia.
Qed.

Lemma regs_lookup_lt st ls k :
  k < nextLinkIndex st ->
  linksByIndex (regs st ls) !! k = linksByIndex st !! k.
Proof.
  revert st. induction ls as [|l ls IH]; intros st Hk; [done|]. simpl.
  rewrite IH by (simpl; lia). simpl. apply lookup_insert_ne. lia.
Qed.

Lemma regs_stored st ls :
  stored_at (linksByIndex (regs st ls)) (nextLinkIndex st) ls.
Proof.
  revert st. induction ls as [|l ls IH]; intros st; [done|].
  apply placed_cons. split.
  - simpl. rewrite regs_lookup_lt by (simpl; lia). simpl. apply lookup_insert_eq.
  - apply (IH (registerLink st l)).
Qed.

Lemma regs_last st ls :
  lastParsedLinkIndex (regs st ls)
  = match ls with
    | [] => lastParsedLinkIndex st
    | _ => Some (nextLinkIndex st + length ls - 1)
    end.
Proof.
  revert st. induction ls as [|l ls IH]; intros st; [done|]. simpl.
  rewrite IH. destruct ls; simpl; f_equal; lia.
Qed.

Lemma deref_stored store n ls :
  stored_at store n ls -> map (deref store) (seq n (length ls)) = ls.
Proof.
  revert n. induction ls as [|l ls IH]; intros n H; [done|].
  apply placed_cons in H as [H0 H]. simpl. unfold deref at 1. rewrite H0. simpl.
  f_equal. apply IH. by rewrite <- Nat.add_1_r.
Qed.

Lemma safe_link_style l :
  safe_link l = true -> (if hasStyle l then styleText_ok (styleText l) else true) = true.
Proof. unfold safe_link. by intros [_ H]%andb_true_iff. Qed.

Definition finalLink (l : Link) : Link :=
  if hasStyle l then setLinkStyle (parsedLink l) (styleText l) else parsedLink l.

Lemma styleInline_registered st l style :
  styleInline (registerLink st l) (Integer (N.of_nat (nextLinkIndex st))) style
  = registerLink st (setLinkStyle l style).
Proof.
  unfold styleInline, registerLink. cbn [linksByIndex nextLinkIndex lastParsedLinkIndex].
  by rewrite Nat2N.id, alter_insert_eq.
Qed.

Lemma parsedLink_unstyled l : link_style (parsedLink l) = None.
Proof. done. Qed.

Lemma attachesInline_registered st l :
  attachesInline true (registerLink st (parsedLink l))
    (Integer (N.of_nat (nextLinkIndex st))) = true.
Proof.
  unfold attachesInline, registerLink, sameIndex, getLink.
  cbn [linksByIndex nextLinkIndex lastParsedLinkIndex].
  by rewrite N.eqb_refl, Nat2N.id, lookup_insert_eq.
Qed.

Lemma runs_eq lines i i' last last' c c' st st' stop R :
  runs lines i last c st stop R ->
  i = i' -> last = last' -> c = c' -> st = st' ->
  runs lines i' last' c' st' stop R.
Proof. by intros H -> -> -> ->. Qed.

(** Several statements of one kind added to a parsed container. *)
Definition withNodes {L S} (c : ChartOf L S) (ns : list ChartNode) : ChartOf L S :=
  MkChart (title c) (direction c) (nodes c ++ ns) (links c) (subgraphs c)
    (classDefs c) (classAttachments c) (positionalLinkStyles c).

Definition addLinks {L S} (c : ChartOf L S) (ls : list L) : ChartOf L S :=
  MkChart (title c) (direction c) (nodes c) (links c ++ ls) (subgraphs c)
    (classDefs c) (classAttachments c) (positionalLinkStyles c).

Definition addSubgraphs {L S} (c : ChartOf L S) (ss : list S) : ChartOf L S :=
  MkChart (title c) (direction c) (nodes c) (links c) (subgraphs c ++ ss)
    (classDefs c) (classAttachments c) (positionalLinkStyles c).

Definition addClassDefs {L S} (c : ChartOf L S) (ds : list ClassDef) : ChartOf L S :=
  MkChart (title c) (direction c) (nodes c) (links c) (subgraphs c)
    (classDefs c ++ ds) (classAttachments c) (positionalLinkStyles c).

Definition addAttachments {L S} (c : ChartOf L S) (l : list ClassAttachment)
  : ChartOf L S :=
  MkChart (title c) (direction c) (nodes c) (links c) (subgraphs c)
    (classDefs c) (classAttachments c ++ l) (positionalLinkStyles c).

Definition addLinkStyles {L S} (c : ChartOf L S) (ps : list (number * LinkStyleValue))
  : ChartOf L S :=
  MkChart (title c) (direction c) (nodes c) (links c) (subgraphs c)
    (classDefs c) (classAttachments c) (positionalLinkStyles c ++ ps).

Ltac chart_eq :=
  intros;
  match goal with c : ChartOf _ _ |- _ => destruct c end;
  cbv [addNode withNodes addLink addLinks addSubgraph addSubgraphs addClassDef
       addClassDefs attachClass addAttachments addLinkStyle addLinkStyles
       title direction nodes links subgraphs classDefs classAttachments
       positionalLinkStyles];
  rewrite <- ?app_assoc, ?app_nil_r; reflexivity.

Lemma withNodes_nil {L S} (c : ChartOf L S) : withNodes c [] = c.
Proof. chart_eq. Qed.
Lemma withNodes_cons {L S} (c : ChartOf L S) x r :
  withNodes (addNode c x) r = withNodes c (x :: r).
Proof. chart_eq. Qed.
Lemma addLinks_nil {L S} (c : ChartOf L S) : addLinks c [] = c.
Proof. chart_eq. Qed.
Lemma addLinks_cons {L S} (c : ChartOf L S) x r :
  addLinks (addLink c x) r = addLinks c (x :: r).
Proof. chart_eq. Qed.
Lemma addSubgraphs_nil {L S} (c : ChartOf L S) : addSubgraphs c [] = c.
Proof. chart_eq. Qed.
Lemma addSubgraphs_cons {L S} (c : ChartOf L S) x r :
  addSubgraphs (addSubgraph c x) r = addSubgraphs c (x :: r).
Proof. chart_eq. Qed.
Lemma addClassDefs_nil {L S} (c : ChartOf L S) : addClassDefs c [] = c.
Proof. chart_eq. Qed.
Lemma addClassDefs_cons {L S} (c : ChartOf L S) x r :
  addClassDefs (addClassDef c x) r = addClassDefs c (x :: r).
Proof. chart_eq. Qed.
Lemma addAttachments_nil {L S} (c : ChartOf L S) : addAttachments c [] = c.
Proof. chart_eq. Qed.
Lemma addAttachments_cons {L S} (c : ChartOf L S) x r :
  addAttachments (attachClass c (ca_nodes x) (ca_className x)) r
  = addAttachments c (x :: r).
Proof. destruct x. chart_eq. Qed.
Lemma addLinkStyles_nil {L S} (c : ChartOf L S) : addLinkStyles c [] = c.
Proof. chart_eq. Qed.
Lemma addLinkStyles_cons {L S} (c : ChartOf L S) k v r :
  addLinkStyles (addLinkStyle c k v) r = addLinkStyles c ((k, v) :: r).
Proof. chart_eq. Qed.

(** The flag [lastStatementWasLink] after a run of statements that are
    not links. *)
Definition after {A} (l : list A) (last : bool) : bool :=
  match l with [] => last | _ => false end.

(** ... and after the lines of a run of links. *)
Definition afterLinks (ls : list Link) (last : bool) : bool :=
  fold_left (fun _ l => negb (hasStyle l)) ls last.

Fixpoint linksLines (indent : str) (n : nat) (ls : list Link) : list str :=
  match ls with
  | [] => []
  | l :: r => linkLines indent n l ++ linksLines indent (S n) r
  end.

Lemma linksLines_imap indent n ls :
  concat (imap (fun i l => linkLines indent (n + i) l) ls) = linksLines indent n ls.
Proof.
  revert n. induction ls as [|l ls IH]; intros n; [done|].
  cbn [imap concat linksLines]. rewrite Nat.add_0_r. f_equal.
  rewrite <- IH. f_equal. apply imap_ext. intros i x _. simpl. f_equal. lia.
Qed.

(** A positional style reads back when its index prints as a numeral that
    [parseInt] reads as a number printing the same numeral, and its text is
    on one line and does not start with white space. *)
Definition index_ok (x : number) : bool :=
  digits (Number_toString x)
  && str_eqb (Number_toString (parseInt (Number_toString x))) (Number_toString x).

Definition safe_positional (p : number * LinkStyleValue) : bool :=
  index_ok (fst p) && positionalText_ok (LinkStyleValue_text (snd p)).

Definition parsedPositional (p : number * LinkStyleValue) : number * LinkStyleValue :=
  (parseInt (Number_toString (fst p)), RawStyle (LinkStyleValue_text (snd p))).

Lemma counter_reads_back k :
  (N.of_nat k < two53)%N ->
  digits (Number_toString (counter k)) = true
  /\ parseInt (Number_toString (counter k)) = counter k.
Proof.
  intros H. rewrite Number_toString_counter by done.
  split; [apply nat_str_is_digits | by apply parseInt_nat_str].
Qed.

Section Runs.
Context (lines : list str) (w : str) (stop : bool) (R : result BodyResult).
Hypothesis Hw : forallb is_ws w = true.

Lemma nodes_run ns i last c st :
  forallb safe_node ns = true ->
  occurs_at lines i (map (fun n => w ++ ChartNode_toString n) ns) ->
  runs lines (i + length ns) (after ns last) (withNodes c (map parsedNode ns)) st stop R ->
  runs lines i last c st stop R.
Proof using Hw.
  revert i last c. induction ns as [|n ns IH]; intros i last c Hs Hp Hr.
  - eapply runs_eq; [exact Hr | simpl; lia | done | apply withNodes_nil | done].
  - simpl in Hs. apply andb_true_iff in Hs as [Hn Hs].
    cbn [map] in Hp. apply placed_cons in Hp as [H0 Hp].
    eapply round_node; [done | done | exact H0 |]. apply IH; [done | done |].
    eapply runs_eq; [exact Hr | simpl; lia | by destruct ns
                    | symmetry; apply withNodes_cons | done].
Qed.

Lemma classDefs_run ds i last c st :
  forallb safe_classDef ds = true ->
  occurs_at lines i (map (fun d => w ++ ClassDef_toString d) ds) ->
  runs lines (i + length ds) (after ds last)
    (addClassDefs c (map parsedClassDef ds)) st stop R ->
  runs lines i last c st stop R.
Proof using Hw.
  revert i last c. induction ds as [|d ds IH]; intros i last c Hs Hp Hr.
  - eapply runs_eq; [exact Hr | simpl; lia | done | apply addClassDefs_nil | done].
  - simpl in Hs. apply andb_true_iff in Hs as [Hn Hs].
    cbn [map] in Hp. apply placed_cons in Hp as [H0 Hp].
    eapply round_classDef; [done | done | exact H0 |]. apply IH; [done | done |].
    eapply runs_eq; [exact Hr | simpl; lia | by destruct ds
                    | symmetry; apply addClassDefs_cons | done].
Qed.

Lemma attachments_run l i last c st :
  forallb safe_attachment l = true ->
  occurs_at lines i (map (fun a => w ++ ClassAttachment_toString a) l) ->
  runs lines (i + length l) (after l last)
    (addAttachments c (map parsedAttachment l)) st stop R ->
  runs lines i last c st stop R.
Proof using Hw.
  revert i last c. induction l as [|a l IH]; intros i last c Hs Hp Hr.
  - eapply runs_eq; [exact Hr | simpl; lia | done | apply addAttachments_nil | done].
  - simpl in Hs. apply andb_true_iff in Hs as [Hn Hs].
    cbn [map] in Hp. apply placed_cons in Hp as [H0 Hp].
    eapply round_attachment; [done | done | exact H0 |]. apply IH; [done | done |].
    eapply runs_eq; [exact Hr | simpl; lia | by destruct l
                    | symmetry; apply addAttachments_cons | done].
Qed.

Lemma positionals_run ps i last c st :
  forallb safe_positional ps = true ->
  occurs_at lines i (map (positionalLine w) ps) ->
  match ps with
  | p :: _ => attachesInline last st (fst (parsedPositional p)) = false
  | [] => True
  end ->
  runs lines (i + length ps) (after ps last)
    (addLinkStyles c (map parsedPositional ps)) st stop R ->
  runs lines i last c st stop R.
Proof using Hw.
  revert i last c. induction ps as [|[k v] ps IH]; intros i last c Hs Hp Ha Hr.
  - eapply runs_eq; [exact Hr | simpl; lia | done | apply addLinkStyles_nil | done].
  - simpl in Hs. apply andb_true_iff in Hs as [Hn Hs].
    cbn [map] in Hp. apply placed_cons in Hp as [H0 Hp].
    apply andb_true_iff in Hn as [[Hd _]%andb_true_iff Hv].
    eapply (round_linkStyle _ _ _ _ _ _ _ _ Hw (Number_toString k)
              (LinkStyleValue_text v)); [done | done | exact H0 |].
    cbn [fst parsedPositional] in Ha. rewrite Ha.
    apply IH; [done | done | by destruct ps |].
    eapply runs_eq; [exact Hr | simpl; lia | by destruct ps
                    | symmetry; apply addLinkStyles_cons | done].
Qed.

Lemma links_run ls i n last c st :
  forallb safe_link ls = true ->
  countable (n + length ls) = true ->
  occurs_at lines i (linksLines w n ls) ->
  nextLinkIndex st = n ->
  runs lines (i + length (linksLines w n ls)) (afterLinks ls last)
    (addLinks c (seq n (length ls))) (regs st (map finalLink ls)) stop R ->
  runs lines i last c st stop R.
Proof using Hw.
  revert i n last c st.
  induction ls as [|l ls IH]; intros i n last c st Hs Hc Hp Hn Hr.
  - eapply runs_eq; [exact Hr | simpl; lia | done | apply addLinks_nil | done].
  - subst n. simpl in Hs. apply andb_true_iff in Hs as [Hl Hs].
    pose proof (safe_link_style l Hl) as Hstyle.
    assert (Hc' : countable (S (nextLinkIndex st) + length ls) = true).
    { rewrite <- Hc. f_equal. simpl. lia. }
    destruct (counter_reads_back (nextLinkIndex st)) as [Hdig Hread].
    { eapply countable_lt; [exact Hc | simpl; lia]. }
    cbn [linksLines] in Hp, Hr. unfold linkLines in Hp, Hr.
    cbn [map length seq afterLinks fold_left regs] in Hr.
    destruct (hasStyle l) eqn:E; cbn [app length] in Hp, Hr;
      apply placed_cons in Hp as [H0 Hp].
    + apply placed_cons in Hp as [H1 Hp].
      eapply round_link; [done | done | exact H0 |].
      eapply (round_linkStyle _ _ _ _ _ _ _ _ Hw
                (Number_toString (counter (nextLinkIndex st))) (styleText l));
        [done | by apply styleText_positional | exact H1 |].
      rewrite Hread. unfold counter.
      rewrite attachesInline_registered, styleInline_registered.
      apply (IH (i + 1 + 1) (S (nextLinkIndex st)));
        [done | done | done | simpl; lia |].
      eapply runs_eq; [exact Hr | lia | reflexivity | symmetry; apply addLinks_cons |].
      assert (HF : finalLink l = setLinkStyle (parsedLink l) (styleText l))
        by (unfold finalLink; by rewrite E).
      cbn [regs fold_left]. by rewrite HF.
    + eapply round_link; [done | done | exact H0 |].
      apply (IH (i + 1) (S (nextLinkIndex st))); [done | done | done | simpl; lia |].
      eapply runs_eq; [exact Hr | lia | reflexivity | symmetry; apply addLinks_cons |].
      assert (HF : finalLink l = parsedLink l) by (unfold finalLink; by rewrite E).
      cbn [regs fold_left]. by rewrite HF.
Qed.

End Runs.

(** *** What the parsed statements print *)

Lemma finalLink_toString l :
  safe_link l = true -> Link_toString (finalLink l) = Link_toString l.
Proof.
  intros H. destruct (link_line l H) as (_ & _ & _ & _ & _ & _ & Heq).
  unfold finalLink. by destruct (hasStyle l).
Qed.

Lemma finalLink_hasStyle l :
  safe_link l = true -> hasStyle (finalLink l) = hasStyle l.
Proof.
  intros H%safe_link_style. unfold finalLink.
  destruct (hasStyle l) eqn:E; [|done].
  unfold styleText_ok in H. apply andb_true_iff in H as [[H _]%andb_true_iff _].
  exact H.
Qed.

Lemma finalLink_styleText l :
  hasStyle l = true -> styleText (finalLink l) = styleText l.
Proof. intros H. unfold finalLink. by rewrite H. Qed.

Lemma finalLink_lines indent k l :
  safe_link l = true -> linkLines indent k (finalLink l) = linkLines indent k l.
Proof.
  intros H. unfold linkLines.
  rewrite finalLink_toString, finalLink_hasStyle by done.
  destruct (hasStyle l) eqn:E; [|done]. by rewrite finalLink_styleText.
Qed.

Lemma finalLinks_lines indent n ls :
  forallb safe_link ls = true ->
  linksLines indent n (map finalLink ls) = linksLines indent n ls.
Proof.
  revert n. induction ls as [|l ls IH]; intros n H; [done|].
  simpl in H. apply andb_true_iff in H as [Hl H]. cbn [map linksLines].
  by rewrite finalLink_lines, IH.
Qed.

Lemma linksLines_app indent n a b :
  linksLines indent n (a ++ b)
  = linksLines indent n a ++ linksLines indent (n + length a) b.
Proof.
  revert n. induction a as [|l a IH]; intros n; cbn [app linksLines length].
  - by rewrite Nat.add_0_r.
  - rewrite IH, <- app_assoc. do 3 f_equal. lia.
Qed.

Lemma parsedPositional_line indent p :
  safe_positional p = true ->
  positionalLine indent (parsedPositional p) = positionalLine indent p.
Proof.
  intros [[_ E%str_eqb_eq]%andb_true_iff _]%andb_true_iff.
  unfold positionalLine, parsedPositional. cbn [fst snd LinkStyleValue_text].
  by rewrite E.
Qed.

Lemma map_ext_forallb {A B} (f g : A -> B) (ok : A -> bool) l :
  (forall x, ok x = true -> f x = g x) -> forallb ok l = true -> map f l = map g l.
Proof.
  intros Hfg. induction l as [|x l IH]; [done|]. simpl.
  intros [Hx Hl]%andb_true_iff. by rewrite Hfg, IH.
Qed.

(** *** Trees the round trip is stated for *)

(** Indentation is made of spaces. *)
Definition is_indent (w : str) : bool := forallb (char_eqb (ch " ")) w.

Lemma is_indent_ws w : is_indent w = true -> forallb is_ws w = true.
Proof.
  apply forallb_impl'. intros c Hc. apply char_eqb_eq in Hc. by subst.
Qed.

Lemma is_indent_no_LF w : is_indent w = true -> no_LF w = true.
Proof.
  apply forallb_impl'. intros c Hc. apply char_eqb_eq in Hc. by subst.
Qed.

Lemma is_indent_nested w : is_indent w = true -> is_indent (w ++ lit "  ") = true.
Proof. unfold is_indent. intros H. by rewrite forallb_app, H. Qed.

(** The title as [print] renders it: [this.title || ''] for a
    sub-grouping. *)
Definition titleText {L S} (f : ChartOf L S) : str :=
  if truthy (title f) then default [] (title f) else [].

Definition safe_header {L} (s : SubgraphOf L) : bool :=
  (if truthy (sub_id s) then subId_ok (default [] (sub_id s))
   else if truthy (title (sub_fields s))
        then subId_ok (stripUnsafe is_subgraph_id_char
                         (default [] (title (sub_fields s))))
        else true)
  && one_line (titleText (sub_fields s)).

(** The flag [lastStatementWasLink] when the loop reaches the first
    positional style line of a printed container. *)
Definition flagBefore {S} (f : ChartOf Link S) : bool :=
  after (classAttachments f)
    (after (classDefs f) (after (subgraphs f) (afterLinks (links f) false))).

(** The first positional style line follows the line of the last link,
    which has no style, and is read with the index of that link: the parser
    attaches it to that link.  The counter is [n] at the first link. *)
Definition ambiguous {S} (f : ChartOf Link S) (n : nat) : bool :=
  flagBefore f
  && match positionalLinkStyles f with
     | p :: _ => sameIndex (Some (n + length (links f) - 1)) (fst (parsedPositional p))
     | [] => false
     end.

(** A body whose links are counted from [n] reads back when its statements
    do, the counter stays exact, and a positional style that the parser
    attaches to the last link has a text: an empty one is printed for the
    position and is not printed for a link. *)
Definition safe_body {S} (f : ChartOf Link S) (n : nat) : bool :=
  forallb safe_node (nodes f) && forallb safe_link (links f)
  && forallb safe_classDef (classDefs f)
  && forallb safe_attachment (classAttachments f)
  && forallb safe_positional (positionalLinkStyles f)
  && countable (n + length (links f))
  && (if ambiguous f n
      then match positionalLinkStyles f with
           | p :: _ => nonempty (LinkStyleValue_text (snd p))
           | [] => true
           end
      else true).

(** A condition that depends on a counter, along a list whose members
    advance it. *)
Fixpoint threaded {A} (ok : A -> nat -> bool) (size : A -> nat) (l : list A)
    (n : nat) : bool :=
  match l with
  | [] => true
  | x :: r => ok x n && threaded ok size r (n + size x)
  end.

Fixpoint safe_subgraph (s : Subgraph) (n : nat) {struct s} : bool :=
  match s with
  | MkSubgraph i f =>
      safe_header (MkSubgraph i f) && safe_body f n
      && threaded safe_subgraph linkTotal (subgraphs f) (n + length (links f))
  end.

Definition safe_chart (c : Chart) : bool :=
  (if truthy (title c)
   then tight (titleText c) && one_line (titleText c) else true)
  && safe_body c 0
  && threaded safe_subgraph linkTotal (subgraphs c) (length (links c)).

Lemma digit_sub_id_char c : is_digit c = true -> sub_id_char c = true.
Proof.
  intros H. unfold sub_id_char.
  rewrite (id_char_not_ws c) by by apply digit_id_char.
  destruct (char_eqb c (ch "[")) eqn:E; [|done].
  apply char_eqb_eq in E. subst c. by vm_compute in H.
Qed.

Lemma random_id_ok n : subId_ok (lit "subgraph" ++ nat_str n) = true.
Proof.
  unfold subId_ok. apply andb_true_iff. split; [done|].
  rewrite forallb_app. apply andb_true_iff. split; [by vm_compute|].
  eapply forallb_impl'; [apply digit_sub_id_char | apply nat_str_digits].
Qed.

Lemma Subgraph_getId_ok {L} (s : SubgraphOf L) rnd :
  safe_header s = true -> subId_ok (Subgraph_getId s rnd).1.1 = true.
Proof.
  unfold safe_header, Subgraph_getId. intros [H _]%andb_true_iff.
  destruct (truthy (sub_id s)); [done|].
  destruct (truthy (title (sub_fields s))); [done|].
  destruct (nextRandom rnd) as [n rnd']. apply random_id_ok.
Qed.

(** *** The round trip of a body, of a sub-grouping and of a run of them

    Each statement gives the printed text as lines, says what the body
    loop does on these lines wherever they occur, and says that what was
    parsed prints as the same text once its links are read from a store
    that holds them. *)

Definition retitle (t : option str) (d : ChartDir) (pc : ParsedChart) : ParsedChart :=
  MkChart t d (nodes pc) (links pc) (subgraphs pc) (classDefs pc)
    (classAttachments pc) (positionalLinkStyles pc).

Definition body_round_trip (w : str) (n : nat) (P : Printed) : Prop :=
  exists (il : list str) (pc : ParsedChart) (ls : list Link),
    text P = join NL il
    /\ il <> []
    /\ Forall (fun l => no_LF l = true) il
    /\ nextLinkCount P = n + length ls
    /\ (forall lines i t d st stop R,
          occurs_at lines i il -> nextLinkIndex st = n ->
          (forall flag,
             runs lines (i + length il) flag (retitle t d pc) (regs st ls) stop R) ->
          runs lines i false (newChart t d) st stop R)
    /\ (forall store rnd' t d,
          stored_at store n ls ->
          printBody Subgraph_print (resolveChart store (retitle t d pc)) w n rnd'
          = {| text := text P; nextLinkCount := n + length ls; random := rnd' |}).

Definition subgraph_round_trip (s : Subgraph) (n : nat) : Prop :=
  forall w rnd, is_indent w = true ->
  exists (il : list str) (ps : ParsedSubgraph) (ls : list Link),
    text (Subgraph_print s w n rnd) = join NL il
    /\ il <> []
    /\ Forall (fun l => no_LF l = true) il
    /\ nextLinkCount (Subgraph_print s w n rnd) = n + length ls
    /\ (forall lines i last c st stop R,
          occurs_at lines i il -> nextLinkIndex st = n ->
          runs lines (i + length il) false (addSubgraph c ps) (regs st ls) stop R ->
          runs lines i last c st stop R)
    /\ (forall store rnd',
          stored_at store n ls ->
          Subgraph_print (resolveSubgraph store ps) w n rnd'
          = {| text := text (Subgraph_print s w n rnd);
               nextLinkCount := n + length ls; random := rnd' |}).

Definition subgraphs_round_trip (ss : list Subgraph) (w : str) (n : nat)
    (rnd : Random) : Prop :=
  exists (ils : list (list str)) (pss : list ParsedSubgraph) (ls : list Link),
    (printSubgraphs Subgraph_print w ss ([], n, rnd)).1.1 = map (join NL) ils
    /\ Forall (fun X => X <> []) ils
    /\ Forall (Forall (fun l => no_LF l = true)) ils
    /\ (printSubgraphs Subgraph_print w ss ([], n, rnd)).1.2 = n + length ls
    /\ (ss = [] -> ls = [])
    /\ (forall lines i last c st stop R,
          occurs_at lines i (concat ils) -> nextLinkIndex st = n ->
          runs lines (i + length (concat ils)) (after ss last)
            (addSubgraphs c pss) (regs st ls) stop R ->
          runs lines i last c st stop R)
    /\ (forall store rnd',
          stored_at store n ls ->
          printSubgraphs Subgraph_print w (map (resolveSubgraph store) pss)
            ([], n, rnd')
          = (map (join NL) ils, n + length ls, rnd')).

Lemma subgraphs_round_trip_list ss :
  Forall (fun s => forall n, safe_subgraph s n = true -> subgraph_round_trip s n) ss ->
  forall w n rnd, is_indent w = true ->
  threaded safe_subgraph linkTotal ss n = true ->
  subgraphs_round_trip ss w n rnd.
Proof.
  unfold subgraphs_round_trip.
  induction 1 as [|s ss Hs _ IH]; intros w n rnd Hw Hsafe.
  - exists [], [], []. split_and!; try done.
    + intros lines i last c st stop R _ _ Hr.
      eapply runs_eq; [exact Hr | simpl; lia | done | apply addSubgraphs_nil | done].
    + intros store rnd' _. simpl. by rewrite Nat.add_0_r.
  - cbn [threaded] in Hsafe. apply andb_true_iff in Hsafe as [Hsafe1 Hsafe2].
    destruct (Hs n Hsafe1 w rnd Hw)
      as (il & ps & l1 & Ht & Hne & Hlf & Hc & Hparse & Hprint).
    assert (Hl1 : length l1 = linkTotal s).
    { rewrite Subgraph_print_count in Hc. lia. }
    rewrite <- Hl1 in Hsafe2.
    destruct (IH w (n + length l1) (random (Subgraph_print s w n rnd)) Hw Hsafe2)
      as (ils & pss & l2 & Hts & Hnes & Hlfs & Hcs & _ & Hparses & Hprints).
    exists (il :: ils), (ps :: pss), (l1 ++ l2).
    rewrite printSubgraphs_cons. cbv zeta. cbn [fst snd]. rewrite Hc.
    split_and!.
    + cbn [map]. by rewrite Ht, Hts.
    + by constructor.
    + by constructor.
    + rewrite Hcs, length_app. lia.
    + done.
    + intros lines i last c st stop R Hp Hn Hr. cbn [concat] in Hp, Hr.
      apply placed_app in Hp as [Hp1 Hp2].
      apply (Hparse lines i last c st stop R Hp1 Hn).
      apply (Hparses lines (i + length il) false (addSubgraph c ps) (regs st l1)
               stop R Hp2); [rewrite regs_next; lia|].
      eapply runs_eq; [exact Hr | rewrite length_app; lia | by destruct ss
                      | symmetry; apply addSubgraphs_cons | apply regs_app].
    + intros store rnd' Hst. apply placed_app in Hst as [Hst1 Hst2].
      cbn [map]. rewrite printSubgraphs_cons. cbv zeta.
      rewrite (Hprint store rnd' Hst1). cbn [text nextLinkCount random].
      rewrite (Hprints store rnd' Hst2). cbn [fst snd map].
      rewrite Ht, length_app. do 2 f_equal. lia.
Qed.

Lemma resolveSubgraph_eq store i f :
  resolveSubgraph store (MkSubgraph i f) = MkSubgraph i (resolveChart store f).
Proof. done. Qed.

Lemma titleText_Some {L S} t d (ns : list ChartNode) (ls : list L) (ss : list S)
    ds ats ps :
  titleText (MkChart (Some t) d ns ls ss ds ats ps) = t.
Proof. unfold titleText. simpl. by destruct t. Qed.

Lemma indented_no_LF w line :
  is_indent w = true -> no_LF line = true -> no_LF (w ++ line) = true.
Proof. intros Hw Hl. by rewrite no_LF_app, is_indent_no_LF, Hl. Qed.

Lemma subgraph_round_trip_of_body sid f n :
  safe_header (MkSubgraph sid f) = true ->
  (forall w rnd, is_indent w = true ->
     body_round_trip w n (printBody Subgraph_print f w n rnd)) ->
  subgraph_round_trip (MkSubgraph sid f) n.
Proof.
  intros Hh Hbody w rnd Hw.
  pose proof (Subgraph_getId_ok (MkSubgraph sid f) rnd Hh) as HID.
  apply andb_true_iff in Hh as [_ HT]. cbn [sub_fields] in HT.
  rewrite Subgraph_print_eq.
  destruct (Subgraph_getId (MkSubgraph sid f) rnd) as [[sgid s'] rnd1].
  cbn [fst] in HID. cbv zeta. cbn [text nextLinkCount].
  destruct (Hbody (w ++ lit "  ") rnd1 (is_indent_nested w Hw))
    as (il & pc & ls & Ht & Hne & Hlf & Hc & Hparse & Hprint).
  fold (titleText f). set (T := titleText f) in *.
  pose proof (is_indent_ws w Hw) as Hws.
  pose proof (is_indent_ws _ (is_indent_nested w Hw)) as Hws'.
  destruct (subHeader_line sgid T HID HT) as [[_ _ Hhl] _].
  destruct (directionLine_ok (direction f)) as [_ _ Hdl].
  exists ([w ++ subHeader sgid T; (w ++ lit "  ") ++ directionLine (direction f)]
          ++ il ++ [w ++ lit "end"]),
    (MkSubgraph (Some sgid) (retitle (Some T) (direction f) pc)), ls.
  split_and!.
  - rewrite Ht, <- (join_flatten NL _ il) by done. cbn [app].
    by rewrite <- (app_assoc w (lit "  ")).
  - done.
  - apply Forall_app. split; [|apply Forall_app; split; [done|]].
    + repeat constructor; apply indented_no_LF; try done.
      by apply is_indent_nested.
    + repeat constructor. by apply indented_no_LF.
  - done.
  - intros lines i last c st stop R Hp Hn Hr.
    cbn [app] in Hp. apply placed_cons in Hp as [H0 Hp].
    apply placed_cons in Hp as [H1 Hp]. apply placed_app in Hp as [Hil Hend].
    apply placed_cons in Hend as [Hend _].
    set (nested := {| nextIndex := i + 1 + 1 + length il + 1; foundEndToken := true;
                      parsedChart := retitle (Some T) (direction f) pc;
                      parsedState := regs st ls |}).
    apply (round_subgraph lines i w (w ++ lit "  ") last c st stop R sgid T
             (direction f) nested); try done.
    + replace (i + 2) with (i + 1 + 1) by lia.
      apply Hparse; [done | done |]. intros flag.
      by apply (round_end lines _ w).
    + eapply runs_eq; [exact Hr | | done | done | done].
      cbn [nested nextIndex]. rewrite !length_app. simpl. lia.
  - intros store rnd' Hst. rewrite resolveSubgraph_eq, Subgraph_print_eq.
    unfold Subgraph_getId. cbn [sub_id truthy default from_option id].
    apply andb_true_iff in HID as [HID _]. rewrite HID.
    cbv zeta. rewrite (Hprint store rnd' _ _ Hst). cbn [text nextLinkCount random].
    fold (titleText (resolveChart store (retitle (Some T) (direction f) pc))).
    unfold resolveChart at 1 2, retitle at 1 2. cbn [title direction].
    by rewrite titleText_Some.
Qed.

(** The lines of a body: an empty body prints as one empty line. *)
Definition bodyLinesOf (il : list str) : list str :=
  match il with [] => [[]] | _ => il end.

Lemma join_bodyLinesOf il : join NL (bodyLinesOf il) = join NL il.
Proof. by destruct il. Qed.

Lemma bodyLinesOf_nonempty il : bodyLinesOf il <> [].
Proof. by destruct il. Qed.

Lemma afterLinks_snoc ls l last : afterLinks (ls ++ [l]) last = negb (hasStyle l).
Proof. unfold afterLinks. by rewrite fold_left_app. Qed.

Lemma list_snoc_case {A} (l : list A) : l = [] \/ exists init x, l = init ++ [x].
Proof.
  induction l as [|x l IH] using rev_ind; [by left|]. right. by exists l, x.
Qed.

Lemma flagBefore_true {S} (f : ChartOf Link S) :
  flagBefore f = true ->
  classAttachments f = [] /\ classDefs f = [] /\ subgraphs f = []
  /\ exists init l, links f = init ++ [l] /\ hasStyle l = false.
Proof.
  unfold flagBefore.
  destruct (classAttachments f); [|done]. destruct (classDefs f); [|done].
  destruct (subgraphs f); [|done]. cbn [after]. intros H. split_and!; try done.
  destruct (list_snoc_case (links f)) as [E|(init & l & E)]; rewrite E in H; [done|].
  exists init, l. split; [done|]. rewrite afterLinks_snoc in H.
  by apply negb_true_iff.
Qed.

Lemma after_false {A} (l : list A) : after l false = false.
Proof. by destruct l. Qed.

Lemma no_inline_attachment {S} (f : ChartOf Link S) n st lsub (ns : list ChartNode) :
  ambiguous f n = false -> nextLinkIndex st = n -> (subgraphs f = [] -> lsub = []) ->
  match positionalLinkStyles f with
  | p :: _ =>
      attachesInline
        (after (classAttachments f)
           (after (classDefs f)
              (after (subgraphs f) (afterLinks (links f) (after ns false)))))
        (regs (regs st (map finalLink (links f))) lsub)
        (fst (parsedPositional p)) = false
  | [] => True
  end.
Proof.
  intros Ha Hn Hsub. unfold ambiguous in Ha.
  destruct (positionalLinkStyles f) as [|p ps]; [done|].
  rewrite after_false. fold (flagBefore f).
  destruct (flagBefore f) eqn:E; [|done]. cbn [andb] in Ha.
  apply flagBefore_true in E as (_ & _ & Hs & init & l & Hl & _).
  rewrite (Hsub Hs). cbn [regs fold_left]. fold (regs st (map finalLink (links f))).
  unfold attachesInline. rewrite regs_last, Hl, map_app, length_app. cbn [map length].
  destruct (map finalLink init ++ [finalLink l]) eqn:E; [by destruct (map finalLink init)|].
  rewrite length_map, Hn.
  rewrite Hl, length_app in Ha. cbn [length] in Ha. by rewrite Ha.
Qed.

Lemma mapped_no_LF {A} (ok : A -> bool) (line : A -> str) w l :
  (forall x, ok x = true -> no_LF (line x) = true) ->
  is_indent w = true -> forallb ok l = true ->
  Forall (fun l => no_LF l = true) (map (fun x => w ++ line x) l).
Proof.
  intros Hline Hw. induction l as [|x l IH]; [by constructor|]. simpl.
  intros [Hx Hl]%andb_true_iff. constructor; [|by apply IH].
  apply indented_no_LF; [done | by apply Hline].
Qed.

Lemma linksLines_no_LF w n ls :
  is_indent w = true -> forallb safe_link ls = true ->
  countable (n + length ls) = true ->
  Forall (fun l => no_LF l = true) (linksLines w n ls).
Proof.
  intros Hw. revert n. induction ls as [|l ls IH]; intros n; [by constructor|].
  cbn [forallb linksLines]. intros [Hl Hls]%andb_true_iff Hc.
  apply Forall_app. split.
  2:{ apply IH; [done|]. rewrite <- Hc. f_equal. simpl. lia. }
  destruct (link_line l Hl) as ([_ _ Hlf] & _).
  unfold linkLines. constructor; [by apply indented_no_LF|].
  destruct (hasStyle l) eqn:E; [|by constructor].
  apply safe_link_style in Hl. rewrite E in Hl.
  destruct (counter_reads_back n) as [Hdig _].
  { eapply countable_lt; [exact Hc | simpl; lia]. }
  destruct (style_line _ _ Hdig (styleText_positional _ Hl)) as ([_ _ Hsf] & _).
  constructor; [|by constructor]. by apply indented_no_LF.
Qed.

Lemma body_round_trip_plain (f : Chart) w n rnd :
  is_indent w = true -> safe_body f n = true ->
  subgraphs_round_trip (subgraphs f) w (n + length (links f)) rnd ->
  ambiguous f n = false ->
  body_round_trip w n (printBody Subgraph_print f w n rnd).
Proof.
  intros Hw Hsafe
    (ils & pss & lsub & Hts & Hnes & Hlfs & Hcs & Hempty & Hparses & Hprints) Hamb.
  unfold safe_body in Hsafe. rewrite !andb_true_iff in Hsafe.
  destruct Hsafe as ((((((Hns & Hls) & Hds) & Has) & Hps) & Hcount) & _).
  pose proof (is_indent_ws w Hw) as Hws.
  set (il0 := map (fun n => w ++ ChartNode_toString n) (nodes f)
              ++ linksLines w n (links f) ++ concat ils
              ++ map (fun d => w ++ ClassDef_toString d) (classDefs f)
              ++ map (fun a => w ++ ClassAttachment_toString a) (classAttachments f)
              ++ map (positionalLine w) (positionalLinkStyles f)).
  set (pc := MkChart None TD (map parsedNode (nodes f)) (seq n (length (links f)))
               pss (map parsedClassDef (classDefs f))
               (map parsedAttachment (classAttachments f))
               (map parsedPositional (positionalLinkStyles f)) : ParsedChart).
  exists (bodyLinesOf il0), pc, (map finalLink (links f) ++ lsub).
  rewrite printBody_spec. cbn [text nextLinkCount].
  split_and!.
  - rewrite join_bodyLinesOf. unfold bodyItems. rewrite linksLines_imap, Hts.
    rewrite (app_assoc (map _ (nodes f))). rewrite join_flatten_all by done.
    by rewrite <- app_assoc.
  - apply bodyLinesOf_nonempty.
  - assert (H0 : Forall (fun l => no_LF l = true) il0).
    { unfold il0. rewrite !Forall_app. split_and!.
      - apply (mapped_no_LF safe_node); [|done|done].
        intros x Hx. by destruct (node_line x Hx) as ([_ _ ?] & _).
      - by apply linksLines_no_LF.
      - by apply Forall_concat.
      - apply (mapped_no_LF safe_classDef); [|done|done].
        intros x Hx. by destruct (classDef_line x Hx) as ([_ _ ?] & _).
      - apply (mapped_no_LF safe_attachment); [|done|done].
        intros x Hx. by destruct (attachment_line x Hx) as ([_ _ ?] & _).
      - apply (mapped_no_LF safe_positional
                 (fun p => styleLine (Number_toString (fst p))
                             (LinkStyleValue_text (snd p))));
          [|done|done].
        intros x [[Hd _]%andb_true_iff Hx]%andb_true_iff.
        by destruct (style_line _ _ Hd Hx) as ([_ _ ?] & _). }
    clearbody il0. destruct il0; [by repeat constructor | done].
  - rewrite Hcs, length_app, length_map. lia.
  - intros lines i t d st stop R Hp Hn Hr.
    assert (Hchain : forall i,
              occurs_at lines i il0 ->
              (forall flag, runs lines (i + length il0) flag (retitle t d pc)
                              (regs st (map finalLink (links f) ++ lsub)) stop R) ->
              runs lines i false (newChart t d) st stop R).
    { clear i Hp Hr. intros i Hp Hr. unfold il0 in Hp.
      apply placed_app in Hp as [HA Hp]. apply placed_app in Hp as [HB Hp].
      apply placed_app in Hp as [HC Hp]. apply placed_app in Hp as [HD Hp].
      apply placed_app in Hp as [HE HG].
      rewrite !length_map in HB. rewrite !length_map in HC.
      rewrite !length_map in HD. rewrite !length_map in HE.
      rewrite !length_map in HG.
      apply (nodes_run lines w stop R Hws _ _ _ _ _ Hns HA).
      apply (links_run lines w stop R Hws _ _ n _ _ _ Hls Hcount HB Hn).
      apply (Hparses lines _ _ _ _ stop R HC); [rewrite regs_next, length_map; lia|].
      apply (classDefs_run lines w stop R Hws _ _ _ _ _ Hds HD).
      apply (attachments_run lines w stop R Hws _ _ _ _ _ Has HE).
      apply (positionals_run lines w stop R Hws _ _ _ _ _ Hps HG).
      { by apply (no_inline_attachment f n). }
      eapply runs_eq; [apply Hr | | reflexivity | reflexivity | apply regs_app].
      unfold il0. rewrite !length_app, !length_map. lia. }
    clearbody il0. destruct il0 as [|x r].
    + apply placed_cons in Hp as [H0 _].
      apply (round_blank lines i [] false _ _ stop R); [done | done |].
      apply Hchain; [by intros j y Hj|]. intros flag.
      eapply runs_eq; [apply Hr | simpl; lia | done | done | done].
    + by apply Hchain.
  - intros store rnd' t d Hst. apply placed_app in Hst as [Hst1 Hst2].
    rewrite length_map in Hst2.
    assert (Hd : map (deref store) (seq n (length (links f))) = map finalLink (links f)).
    { rewrite <- (length_map finalLink (links f)). by apply deref_stored. }
    rewrite printBody_spec. unfold bodyItems, resolveChart, retitle, pc.
    cbn [nodes links subgraphs classDefs classAttachments positionalLinkStyles
         title direction].
    rewrite Hd, !linksLines_imap, finalLinks_lines, !length_map by done.
    rewrite (Hprints store rnd' Hst2). cbn [fst snd]. rewrite Hts, !map_map.
    rewrite (map_ext_forallb (fun x => w ++ ChartNode_toString (parsedNode x))
               (fun x => w ++ ChartNode_toString x) safe_node)
      by (done || by intros x Hx; rewrite parsedNode_toString).
    rewrite (map_ext_forallb (fun x => w ++ ClassDef_toString (parsedClassDef x))
               (fun x => w ++ ClassDef_toString x) safe_classDef)
      by (done || by intros x Hx; destruct (classDef_line x Hx) as (_ & _ & _ & ->)).
    rewrite (map_ext_forallb
               (fun x => w ++ ClassAttachment_toString (parsedAttachment x))
               (fun x => w ++ ClassAttachment_toString x) safe_attachment)
      by (done || by intros x Hx;
                     destruct (attachment_line x Hx) as (_ & _ & _ & _ & ->)).
    rewrite (map_ext_forallb (fun x => positionalLine w (parsedPositional x))
               (positionalLine w) safe_positional)
      by (done || by intros x Hx; apply parsedPositional_line).
    f_equal. rewrite length_app, length_map. lia.
Qed.

(** The last link with the style of a positional line attached. *)
Definition withStyle (l : Link) (v : LinkStyleValue) : Link :=
  {| src := src l; dest := dest l; link_text := link_text l;
     link_type := link_type l; link_style := Some v |}.

Lemma withStyle_hasStyle l v :
  styleText_ok (LinkStyleValue_text v) = true -> hasStyle (withStyle l v) = true.
Proof.
  unfold styleText_ok. intros [[H _]%andb_true_iff _]%andb_true_iff.
  by destruct v.
Qed.

Lemma withStyle_safe l v :
  safe_link l = true -> styleText_ok (LinkStyleValue_text v) = true ->
  safe_link (withStyle l v) = true.
Proof.
  intros Hl Hv. unfold safe_link in *.
  rewrite withStyle_hasStyle by done.
  apply andb_true_iff in Hl as [Hl _]. apply andb_true_iff.
  split; [exact Hl | by destruct v].
Qed.

Lemma positional_with_text s :
  positionalText_ok s = true -> nonempty s = true -> styleText_ok s = true.
Proof.
  unfold positionalText_ok, styleText_ok. intros [Hl H]%andb_true_iff Hn.
  rewrite Hn in H |- *. by rewrite Hl.
Qed.

(** An index that reads back as the counter [k] prints as [k] does. *)
Lemma index_reads_as_counter p k :
  safe_positional p = true ->
  sameIndex (Some k) (fst (parsedPositional p)) = true ->
  Number_toString (fst p) = Number_toString (counter k).
Proof.
  intros [[_ E%str_eqb_eq]%andb_true_iff _]%andb_true_iff.
  unfold parsedPositional, sameIndex. cbn [fst].
  destruct (parseInt (Number_toString p.1)) as [v|t] eqn:Ep; [|done].
  intros Hk%N.eqb_eq. rewrite <- E. unfold counter. by rewrite Hk.
Qed.

(** In the ambiguous case the container prints the same lines as the one
    whose last link carries the style inline. *)
Lemma ambiguous_same_text (t : option str) d ns init l p ps w n rnd :
  hasStyle l = false -> styleText_ok (LinkStyleValue_text (snd p)) = true ->
  Number_toString (fst p) = Number_toString (counter (n + length init)) ->
  printBody Subgraph_print
    (MkChart t d ns (init ++ [withStyle l (snd p)]) [] [] [] ps) w n rnd
  = printBody Subgraph_print (MkChart t d ns (init ++ [l]) [] [] [] (p :: ps)) w n rnd.
Proof.
  intros Hl Hp Hk. rewrite !printBody_spec. unfold bodyItems.
  cbn [nodes links subgraphs classDefs classAttachments positionalLinkStyles].
  rewrite !linksLines_imap, !linksLines_app, !length_app. cbn [linksLines length].
  unfold linkLines. rewrite Hl, withStyle_hasStyle by done.
  f_equal. f_equal. f_equal. rewrite <- !app_assoc. f_equal.
  cbn [map app printSubgraphs fold_left fst]. unfold positionalLine. by rewrite Hk.
Qed.

Lemma body_round_trip_any (f : Chart) w n rnd :
  is_indent w = true -> safe_body f n = true ->
  subgraphs_round_trip (subgraphs f) w (n + length (links f)) rnd ->
  body_round_trip w n (printBody Subgraph_print f w n rnd).
Proof.
  intros Hw Hsafe Hsubs.
  destruct (ambiguous f n) eqn:E; [|by apply body_round_trip_plain].
  unfold safe_body in Hsafe. rewrite E in Hsafe.
  unfold ambiguous in E. apply andb_true_iff in E as [Hflag Hpos].
  apply flagBefore_true in Hflag as (Ha & Hd & Hs & init & l & Hl & Hstyle).
  destruct f as [t d ns ls ss ds ats ps].
  cbn [nodes links subgraphs classDefs classAttachments positionalLinkStyles] in *.
  subst ats ds ss ls. destruct ps as [|p ps]; [done|].
  rewrite length_app in Hpos. cbn [length] in Hpos.
  replace (n + (length init + 1) - 1) with (n + length init) in Hpos by lia.
  rewrite !andb_true_iff in Hsafe.
  destruct Hsafe as ((((((Hns & Hls) & _) & _) & Hps) & Hcount) & Htext).
  rewrite forallb_app in Hls. apply andb_true_iff in Hls as [Hinit Hlast].
  cbn [forallb] in Hlast, Hps. rewrite andb_true_r in Hlast.
  apply andb_true_iff in Hps as [Hp Hps].
  assert (Hv : styleText_ok (LinkStyleValue_text (snd p)) = true).
  { apply positional_with_text; [|done]. by apply andb_true_iff in Hp as [_ ?]. }
  rewrite <- (ambiguous_same_text t d ns init l p ps w n rnd)
    by (done || by apply index_reads_as_counter).
  assert (Hunamb : ambiguous (S := Subgraph)
                     (MkChart t d ns (init ++ [withStyle l (snd p)]) [] [] [] ps) n
                   = false).
  { unfold ambiguous, flagBefore.
    cbn [nodes links subgraphs classDefs classAttachments positionalLinkStyles after].
    by rewrite afterLinks_snoc, withStyle_hasStyle. }
  apply body_round_trip_plain; [done | | | done].
  - unfold safe_body. rewrite Hunamb.
    cbn [nodes links subgraphs classDefs classAttachments positionalLinkStyles].
    rewrite forallb_app, Hns, Hinit, Hps. cbn [forallb].
    rewrite withStyle_safe by done.
    rewrite length_app in Hcount |- *. cbn [length] in Hcount |- *. by rewrite Hcount.
  - cbn [subgraphs links]. rewrite length_app in Hsubs |- *. exact Hsubs.
Qed.

Lemma subgraph_round_trip_all (s : Subgraph) n :
  safe_subgraph s n = true -> subgraph_round_trip s n.
Proof.
  revert n. induction s as [sid f IH] using Subgraph_tree_ind. intros n Hsafe.
  cbn [safe_subgraph] in Hsafe. rewrite !andb_true_iff in Hsafe.
  destruct Hsafe as ((Hh & Hb) & Hss).
  apply subgraph_round_trip_of_body; [done|]. intros w rnd Hw.
  apply body_round_trip_any; [done | done |].
  by apply subgraphs_round_trip_list.
Qed.

(** *** The whole document *)

Definition headerLine (d : ChartDir) : str := lit "flowchart " ++ ChartDir_value d.

Lemma headerLine_ok d : line_ok (headerLine d).
Proof. by destruct d. Qed.

Lemma preamble_untitled d rest :
  preamble (headerLine d :: rest) = Ok (1, newChart None d).
Proof.
  destruct (headerLine_ok d) as [[Hn _] Ht _]. apply trim_tight' in Ht.
  assert (H0 : (headerLine d :: rest) !! 0 = Some (headerLine d)) by done.
  assert (Hne : trim (headerLine d) <> []) by by rewrite Ht.
  unfold preamble. rewrite (skipBlank_here _ 0 _ H0 Hne). unfold is_line.
  rewrite H0, Ht. replace (str_eqb (headerLine d) (lit "---")) with false
    by by destruct d.
  cbv iota. rewrite (skipBlank_here _ 0 _ H0 Hne), H0, Ht.
  unfold headerLine. rewrite exec_headerRe. groups.
  cbn [default from_option id]. by rewrite ChartDir_of_value_value.
Qed.

Lemma preamble_titled T d rest :
  tight T = true -> one_line T = true ->
  preamble (lit "---" :: (lit "title: " ++ T) :: lit "---" :: headerLine d :: rest)
  = Ok (4, newChart (Some T) d).
Proof.
  intros HT Hl.
  destruct (headerLine_ok d) as [[Hn _] Ht _]. apply trim_tight' in Ht.
  assert (Hne : trim (headerLine d) <> []) by by rewrite Ht.
  assert (Htt : trim (lit "title: " ++ T) = lit "title: " ++ T).
  { apply trim_tight'. apply andb_true_iff in HT as [_ HT].
    apply tight_app; [done|done]. }
  set (lines := lit "---" :: (lit "title: " ++ T) :: lit "---" :: headerLine d :: rest).
  assert (H0 : lines !! 0 = Some (lit "---")) by done.
  assert (H2 : lines !! 2 = Some (lit "---")) by done.
  assert (H3 : lines !! 3 = Some (headerLine d)) by done.
  unfold preamble. rewrite (skipBlank_here _ 0 _ H0) by done.
  unfold is_line. rewrite H0.
  change (str_eqb (trim (lit "---")) (lit "---")) with true. cbv iota.
  change (drop (0 + 1) lines)
    with ((lit "title: " ++ T) :: lit "---" :: headerLine d :: rest).
  cbn [frontmatterLoop]. rewrite Htt.
  change (str_eqb (lit "title: " ++ T) (lit "---")) with false. cbv iota.
  rewrite exec_titleRe by (done || by apply tight_starts). groups.
  change (str_eqb (trim (lit "---")) (lit "---")) with true. cbv iota.
  change (0 + 1 + 1) with 2. rewrite H2.
  change (str_eqb (trim (lit "---")) (lit "---")) with true. cbn [negb]. cbv iota.
  change (2 + 1) with 3. rewrite (skipBlank_here _ 3 _ H3 Hne), H3, Ht.
  unfold headerLine. rewrite exec_headerRe. groups.
  cbn [default from_option id]. by rewrite ChartDir_of_value_value.
Qed.

Lemma Chart_toString_lines rnd (c : Chart) il :
  text (printBody Subgraph_print c (lit "  ") 0 rnd) = join NL il -> il <> [] ->
  Chart_toString rnd c
  = join NL ((if truthy (title c)
              then [lit "---"; lit "title: " ++ titleText c; lit "---"] else [])
             ++ [headerLine (direction c)] ++ il ++ [[]]).
Proof.
  intros Ht Hne. unfold Chart_toString, Chart_print. cbv zeta. cbn [text].
  change ([] ++ lit "  ") with (lit "  "). rewrite Ht, <- !app_assoc.
  rewrite (app_assoc _ [headerLine (direction c)]).
  rewrite join_flatten by done. rewrite <- !app_assoc.
  unfold titleText. by destruct (truthy (title c)).
Qed.

(** The tree the parser returns for the text of [c]: its links are read
    from the store the parse leaves. *)
Lemma safe_chart_parses rnd (c : Chart) :
  safe_chart c = true ->
  exists (pc : ParsedChart) (ls : list Link),
    let c' := resolveChart (linksByIndex (regs initialState ls))
                (retitle (if truthy (title c) then Some (titleText c) else None)
                   (direction c) pc) in
    parseFlowchart (Chart_toString rnd c) = Some (Ok c')
    /\ forall rnd', Chart_toString rnd' c' = Chart_toString rnd c.
Proof.
  unfold safe_chart. rewrite !andb_true_iff. intros ((Htitle & Hbody) & Hsubs).
  assert (Hw : is_indent (lit "  ") = true) by done.
  destruct (body_round_trip_any c (lit "  ") 0 rnd Hw Hbody)
    as (il & pc & ls & Ht & Hne & Hlf & Hc & Hparse & Hprint).
  { apply subgraphs_round_trip_list; [|done|done].
    apply List.Forall_forall. intros x _ n. apply subgraph_round_trip_all. }
  exists pc, ls. cbv zeta.
  set (t' := if truthy (title c) then Some (titleText c) else None).
  set (pre := if truthy (title c)
              then [lit "---"; lit "title: " ++ titleText c; lit "---"] else []).
  set (IL := pre ++ [headerLine (direction c)] ++ il ++ [[]]).
  set (store := linksByIndex (regs initialState ls)).
  assert (Htext : Chart_toString rnd c = join NL IL)
    by by apply Chart_toString_lines.
  assert (Hstore : stored_at store 0 ls) by apply (regs_stored initialState).
  split.
  - rewrite Htext. unfold parseFlowchart.
    assert (HIL : IL <> []) by (unfold IL; by destruct pre).
    assert (Hlines : Forall (fun l => no_LF l = true) IL).
    { unfold IL. rewrite !Forall_app. split_and!; try done.
      - unfold pre. destruct (truthy (title c)); [|by constructor].
        apply andb_true_iff in Htitle as [_ Hl].
        repeat constructor. rewrite no_LF_app. by rewrite (one_line_no_LF _ Hl).
      - repeat constructor. by destruct (headerLine_ok (direction c)).
      - by repeat constructor. }
    rewrite (parseLines_trimmed _ IL) by by apply lines_of_join.
    rewrite parseLines_preamble.
    assert (Hpre : preamble IL = Ok (length pre + 1, newChart t' (direction c))).
    { unfold IL, pre, t'. destruct (truthy (title c)).
      - apply andb_true_iff in Htitle as [? ?]. by apply preamble_titled.
      - apply preamble_untitled. }
    rewrite Hpre.
    pose proof (placed_self IL) as Hp. unfold IL at 2 in Hp.
    apply placed_app in Hp as [_ Hp]. apply placed_cons in Hp as [_ Hp].
    apply placed_app in Hp as [Hil Hend]. apply placed_cons in Hend as [Hend _].
    set (R := Ok {| nextIndex := 0 + length pre + 1 + length il + 1;
                    foundEndToken := false;
                    parsedChart := retitle t' (direction c) pc;
                    parsedState := regs initialState ls |}).
    rewrite (runs_parseChartBody IL (length pre + 1) _ _ _ R); [done|].
    apply (Hparse IL (0 + length pre + 1)); [done | done |]. intros flag.
    apply (round_blank IL _ []); [done | done |].
    apply round_eof. apply lookup_ge_None.
    unfold IL. rewrite !length_app. simpl. lia.
  - intros rnd'. rewrite Htext.
    rewrite (Chart_toString_lines rnd' _ il); [| |done].
    + assert (Htl : title (resolveChart store (retitle t' (direction c) pc)) = t')
        by done.
      assert (Hdr : direction (resolveChart store (retitle t' (direction c) pc))
                    = direction c) by done.
      unfold titleText. rewrite Htl, Hdr. unfold IL, pre, t', titleText.
      destruct (truthy (title c)) eqn:E; [|done].
      destruct (title c) as [t|]; [|done].
      cbn [truthy default from_option id] in E |- *. by rewrite E.
    + by rewrite (Hprint store rnd' _ _ Hstore).
Qed.

(** *** The chart of the repository's test [OOP Style] *)

Module OopStyle.

Definition node1 : ChartNode :=
  {| node_title := lit "this is my node"; shape := HEXAGON;
     node_id := lit "my-node"; className := None |}.
Definition node2 : ChartNode := newChartNode (lit "this is my second node").
Definition link : Link :=
  {| src := ById (fst (ChartNode_getId node1));
     dest := ById (fst (ChartNode_getId node2));
     link_text := Some (lit "this is my link"); link_type := ARROW;
     link_style :=
       Some (StyleObject {| stroke := None; strokeWidth := Some (lit "2px");
                            color := Some (lit "red") |}) |}.
Definition sn1 : ChartNode :=
  {| node_title := lit "subnode 2"; shape := RECT_ROUND; node_id := [];
     className := Some (lit "class1") |}.
Definition sn2 : ChartNode := newChartNode (lit "subnode 3").
Definition subgraph2 : Subgraph :=
  MkSubgraph None
    (addLink (addNode (addNode (newChart (Some (lit "subgraph2")) LR) sn1) sn2)
       {| src := ByNode sn1; dest := ByNode sn2;
          link_text := Some (lit "link between subnodes"); link_type := ARROW;
          link_style := None |}).
Definition subgraph : Subgraph :=
  MkSubgraph None
    (addSubgraph
       (addNode (newChart (Some (lit "My Subgraph")) LR)
          (newChartNode (lit "i am a node inside subgraph")))
       subgraph2).
Definition chart : Chart :=
  let c := addLink (addNode (addNode (newChart (Some (lit "Test")) TB) node1) node2)
             link in
  let c := addSubgraph c subgraph in
  let c := addClassDef c
             {| classNames := ManyNames [lit "class1"];
                cd_style := RawNodeStyle (lit "fill:#f9f,stroke:#333,stroke-width:2px;") |} in
  let c := addClassDef c
             {| classNames := ManyNames [lit "class2"];
                cd_style :=
                  NodeStyleObject
                    {| fill := Some (lit "#300"); ns_stroke := Some (lit "#666");
                       ns_strokeWidth := Some (lit "5px");
                       ns_color := Some (lit "red");
                       strokeDasharray :=
                         Some (DashNumbers [Integer 5; Integer 5]) |} |} in
  let c := attachClass c (OneNode (ByNode sn2)) (lit "class1") in
  let c := attachClass c (ManyNodes [ById (lit "my-node")]) (lit "class1") in
  let c := attachClass c (OneNode (ByNode node2)) (lit "class2") in
  let c := addLinkBetween c (ByNode node1)
             (ById (fst (fst (Subgraph_getId subgraph2 noRandom)))) None in
  addLinkStyle c (Integer 2)
    (StyleObject {| stroke := None; strokeWidth := Some (lit "2px");
                    color := Some (lit "green") |}).

Definition expected : str := lit "---
title: Test
---
flowchart TB
  my-node{{this is my node}}
  thisismysecondnode(this is my second node)
  my-node --> |this is my link|thisismysecondnode
  linkStyle 0 stroke-width:2px,color:red;
  my-node --> subgraph2
  subgraph MySubgraph [My Subgraph]
    direction LR
    iamanodeinsidesubgraph(i am a node inside subgraph)
    subgraph subgraph2 [subgraph2]
      direction LR
      subnode2(subnode 2):::class1
      subnode3(subnode 3)
      subnode2 --> |link between subnodes|subnode3
    end
  end
  classDef class1 fill:#f9f,stroke:#333,stroke-width:2px;
  classDef class2 fill:#300,stroke:#666,stroke-width:5px,color:red,stroke-dasharray:5 5
  class subnode3 class1;
  class my-node class1;
  class thisismysecondnode class2;
  linkStyle 2 stroke-width:2px,color:green;
".

End OopStyle.

(** The serializer gives the text the test expects. *)
Example oop_style_text : Chart_toString noRandom OopStyle.chart = OopStyle.expected.
Proof. vm_compute. reflexivity. Qed.

(** *** Trees that do not survive the round trip *)

(** A link whose source is called [class] prints as a line that the
    parser reads as a class attachment, and the parsed tree prints another
    text. *)
Definition linkFromClass : Chart :=
  addLinkBetween (newChart None TD) (ById (lit "class")) (ById (lit "b")) None.

Definition linkFromClassParsed : Chart :=
  attachClass (newChart None TD) (OneNode (ById (lit "-->"))) (lit "b").

(** C1, as stated, fails: [chart.addLinkBetween('class', 'b')] serializes
    to the line [class --> b]; the parser returns a tree with no link and
    one class attachment, whose text has the line [class --> b;].  No link
    style is involved. *)
Lemma keyword_source_breaks_round_trip :
  parseFlowchart (Chart_toString noRandom linkFromClass)
  = Some (Ok linkFromClassParsed)
  /\ Chart_toString noRandom linkFromClass = lit "flowchart TD
  class --> b
"
  /\ Chart_toString noRandom linkFromClassParsed = lit "flowchart TD
  class --> b;
"
  /\ Chart_toString noRandom linkFromClassParsed
     <> Chart_toString noRandom linkFromClass.
Proof. split_and!; try (vm_compute; reflexivity). vm_compute. discriminate. Qed.

(** A node built with the default (empty) label prints as the line [()],
    which the parser rejects. *)
Lemma unlabelled_node_does_not_parse :
  parseFlowchart
    (Chart_toString noRandom (addNode (newChart None TD) (newChartNode [])))
  = Some (Err (UnsupportedLine (lit "()"))).
Proof. vm_compute. reflexivity. Qed.

(** A title that ends in a space comes back without it. *)
Lemma padded_title_is_trimmed :
  parseFlowchart (Chart_toString noRandom (newChart (Some (lit "T ")) TD))
  = Some (Ok (newChart (Some (lit "T")) TD)).
Proof. vm_compute. reflexivity. Qed.

(** The ambiguity of section 4.3 changes the tree and not the text: the
    positional style of link 0 comes back attached to the link, and prints
    as the same line. *)
Definition positionalOnLastLink : Chart :=
  addLinkStyle
    (addLinkBetween (newChart None TD) (ById (lit "a")) (ById (lit "b")) None)
    (Integer 0) (RawStyle (lit "stroke:red")).

Lemma reattached_style_prints_alike :
  exists c',
    parseFlowchart (Chart_toString noRandom positionalOnLastLink) = Some (Ok c')
    /\ positionalLinkStyles c' = []
    /\ (hasStyle <$> head (links c')) = Some true
    /\ Chart_toString noRandom c' = Chart_toString noRandom positionalOnLastLink.
Proof.
  exists (addLink (newChart None TD)
            {| src := ById (lit "a"); dest := ById (lit "b"); link_text := None;
               link_type := ARROW; link_style := Some (RawStyle (lit "stroke:red")) |}).
  split_and!; vm_compute; reflexivity.
Qed.

(** With an empty text the ambiguity does change the text: the positional
    line [linkStyle 0 ;] is attached to the link as the empty style, which
    prints no line. *)
Definition emptyPositionalOnLastLink : Chart :=
  addLinkStyle
    (addLinkBetween (newChart None TD) (ById (lit "a")) (ById (lit "b")) None)
    (Integer 0) (RawStyle []).

Lemma empty_style_is_lost_on_the_link :
  Chart_toString noRandom emptyPositionalOnLastLink = lit "flowchart TD
  a --> b
  linkStyle 0 ;
"
  /\ exists c',
       parseFlowchart (Chart_toString noRandom emptyPositionalOnLastLink)
       = Some (Ok c')
       /\ Chart_toString noRandom c' = lit "flowchart TD
  a --> b
".
Proof.
  split; [by vm_compute|].
  exists (addLink (newChart None TD)
            {| src := ById (lit "a"); dest := ById (lit "b"); link_text := None;
               link_type := ARROW; link_style := Some (RawStyle []) |}).
  split; vm_compute; reflexivity.
Qed.

(** A positional index that does not print as a numeral is not read back:
    the number 10^21 prints with an exponent, and a negative or fractional
    index prints a sign or a point. *)
Lemma exponent_index_does_not_parse :
  let c := addLinkStyle (L := Link) (S := Subgraph) (newChart None TD)
             (Integer (10 ^ 21)) (RawStyle (lit "stroke:red")) in
  Chart_toString noRandom c = lit "flowchart TD
  linkStyle 1e+21 stroke:red;
"
  /\ parseFlowchart (Chart_toString noRandom c)
     = Some (Err (UnsupportedLine (lit "linkStyle 1e+21 stroke:red;"))).
Proof. split; vm_compute; reflexivity. Qed.

Lemma negative_index_does_not_parse :
  let c := addLinkStyle (L := Link) (S := Subgraph) (newChart None TD)
             (NotInteger (lit "-1")) (RawStyle (lit "stroke:red")) in
  parseFlowchart (Chart_toString noRandom c)
  = Some (Err (UnsupportedLine (lit "linkStyle -1 stroke:red;"))).
Proof. vm_compute. reflexivity. Qed.

(** The condition is on what the parser makes of the printed lines, not on
    the alphabet of the fields: a target that ends in a point, a source
    called [subgraph], a label with a dollar sign, an empty positional style
    away from the last link and an index above 2^53 that is a double all
    read back. *)
Definition unusual : Chart :=
  let c := addLinkBetween (newChart None TD) (ById (lit "a")) (ById (lit "b.")) None in
  let c := addLinkBetween c (ById (lit "subgraph")) (ById (lit "c")) None in
  let c := addNode c {| node_title := lit "costs $5"; shape := RECT_ROUND;
                        node_id := lit "n"; className := None |} in
  let c := addLinkStyle c (Integer 0) (RawStyle []) in
  addLinkStyle c (Integer (2 ^ 60)) (RawStyle (lit "stroke:red")).

Example unusual_trees_read_back :
  safe_chart unusual = true
  /\ Chart_toString noRandom unusual = lit "flowchart TD
  n(costs $5)
  a --> b.
  subgraph --> c
  linkStyle 0 ;
  linkStyle 1152921504606847000 stroke:red;
".
Proof. split; vm_compute; reflexivity. Qed.

(** The fields of everyday trees meet the condition: plain identifiers,
    labels and texts on one line without the delimiters of the syntax. *)
Lemma plain_statements_are_safe :
  (forall n, plain_node n = true -> safe_node n = true)
  /\ (forall l, plain_link l = true ->
                (if hasStyle l then styleText_ok (styleText l) else true) = true ->
                safe_link l = true)
  /\ (forall d, plain_classDef d = true -> safe_classDef d = true)
  /\ (forall a, plain_attachment a = true -> safe_attachment a = true)
  /\ (forall k v, (N.of_nat k < two53)%N ->
                  positionalText_ok (LinkStyleValue_text v) = true ->
                  safe_positional (counter k, v) = true).
Proof.
  split_and!.
  - apply plain_node_safe.
  - apply plain_link_safe.
  - apply plain_classDef_safe.
  - apply plain_attachment_safe.
  - intros k v Hk Hv. unfold safe_positional, index_ok. cbn [fst snd].
    destruct (counter_reads_back k Hk) as [Hd Hr].
    by rewrite Hd, Hr, str_eqb_refl, Hv.
Qed.

(** C1 (as amended).  For a tree whose statements read back
    ([safe_chart]), parsing the serialized text succeeds and the parsed
    tree serializes, with any random source, to the very text it was
    parsed from.  A statement reads back when its line, printed alone, is
    kept by the line splitting and the trimming of the parser, is matched
    by none of the statement patterns tried before the one of its kind,
    and is read by that one as a statement that prints the same line; a
    style text after the index of a [linkStyle] line has to be on one line
    and not to start with white space, and not to be empty when printed
    for a link; a positional index has to print as a numeral that
    [parseInt] reads as a number printing that numeral; a title has to
    survive the trimming; the identifier of a sub-grouping has to be one
    token; and the links have to stay within what the counters count
    exactly.  This holds as well when a positional style is re-attached to
    the last link, unless its text is empty: the tree changes and the text
    does not. *)
Theorem serialize_parse_serialize (rnd : Random) (c : Chart) :
  safe_chart c = true ->
  exists c',
    parseFlowchart (Chart_toString rnd c) = Some (Ok c')
    /\ forall rnd', Chart_toString rnd' c' = Chart_toString rnd c.
Proof.
  intros Hsafe. destruct (safe_chart_parses rnd c Hsafe) as (pc & ls & Hp & Hs).
  eexists. split; [exact Hp | exact Hs].
Qed.

Lemma serialize_parse_serialize_witness :
  safe_chart OopStyle.chart = true
  /\ exists c',
       parseFlowchart (Chart_toString noRandom OopStyle.chart) = Some (Ok c')
       /\ forall rnd', Chart_toString rnd' c' = Chart_toString noRandom OopStyle.chart.
Proof.
  split; [vm_compute; reflexivity|].
  apply (serialize_parse_serialize noRandom OopStyle.chart).
  vm_compute. reflexivity.
Defined.

(** * More of the code

    Behaviour of the functions around the ones above: the front matter and
    the declaration line of [parseFlowchart], the errors and the results of
    [parseChartBody], [parseNodeLine] read in both directions, the text of
    the style objects, and the serializer of [src/index.ts] next to the
    revised one. *)

(** [Chart.parse] and [Subgraph.toString]. *)
Definition Chart_parse (input : str) : option (result Chart) := parseFlowchart input.

Definition Subgraph_toString (rnd : Random) (s : Subgraph) : str :=
  text (Subgraph_print s [] 0 rnd).

(** ** The lines before the body *)

Definition blank (l : str) : bool := negb (nonempty (trim l)).

Lemma blank_trim l : blank l = true -> trim l = [].
Proof. unfold blank. by destruct (trim l). Qed.

Lemma blanks_trim ls : forallb blank ls = true -> Forall (fun l => trim l = []) ls.
Proof.
  intros H. apply List.Forall_forall. intros l Hl. apply blank_trim.
  by apply (proj1 (forallb_forall blank ls) H).
Qed.

Lemma skipBlank_all_blank pre blanks :
  forallb blank blanks = true ->
  skipBlank (pre ++ blanks) (length pre) = length pre + length blanks.
Proof.
  intros H. unfold skipBlank. rewrite drop_app_length.
  rewrite <- (app_nil_r blanks) at 1.
  by rewrite skipBlankFrom_blanks by by apply blanks_trim.
Qed.

Lemma skipBlank_past lines index : length lines <= index -> skipBlank lines index = index.
Proof. intros H. unfold skipBlank. by rewrite drop_ge. Qed.

Lemma is_line_past lines index s : length lines <= index -> is_line lines index s = false.
Proof. intros H. unfold is_line. by rewrite lookup_ge_None_2. Qed.

(** X1. An input without any non-blank line, the empty string included,
    fails with the error of the missing flowchart declaration. *)
Theorem blank_input_has_no_declaration (input : str) :
  forallb blank (split LF (replaceCRLF input)) = true ->
  parseFlowchart input = Some (Err MissingFlowchartDeclaration).
Proof.
  intros H. unfold parseFlowchart. set (lines := split LF (replaceCRLF input)) in *.
  rewrite parseLines_preamble. unfold preamble.
  pose proof (skipBlank_all_blank [] lines H) as Hs. cbn [app length] in Hs.
  rewrite Hs. cbn [Nat.add]. rewrite is_line_past by done.
  rewrite skipBlank_past by done. by rewrite lookup_ge_None_2.
Qed.

Lemma blank_input_has_no_declaration_witness :
  forallb blank (split LF (replaceCRLF (lit "  

 ")) ) = true
  /\ parseFlowchart (lit "  

 ") = Some (Err MissingFlowchartDeclaration).
Proof.
  split; [vm_compute; reflexivity|].
  apply blank_input_has_no_declaration. vm_compute. reflexivity.
Defined.

Lemma frontmatterLoop_unclosed rest index t :
  forallb (fun l => negb (str_eqb (trim l) (lit "---"))) rest = true ->
  fst (frontmatterLoop rest index t) = index + length rest.
Proof.
  revert index t. induction rest as [|l rest IH]; intros index t H.
  - simpl. lia.
  - cbn [forallb] in H. apply andb_true_iff in H as [Hl H].
    apply negb_true_iff in Hl. cbn [frontmatterLoop]. rewrite Hl.
    rewrite IH by done. simpl. lia.
Qed.

(** X2. When the first non-blank line is [---] and no later line is,
    the parse fails with the error of the missing closing [---], whatever
    the lines after the opening one are. *)
Theorem unclosed_frontmatter_is_rejected (input : str) (blanks rest : list str)
    (opening : str) :
  split LF (replaceCRLF input) = blanks ++ opening :: rest ->
  forallb blank blanks = true ->
  trim opening = lit "---" ->
  forallb (fun l => negb (str_eqb (trim l) (lit "---"))) rest = true ->
  parseFlowchart input = Some (Err MissingClosingFrontmatter).
Proof.
  intros Hlines Hb Ho Hrest. unfold parseFlowchart. rewrite Hlines.
  rewrite parseLines_preamble. unfold preamble.
  pose proof (skipBlank_blanks [] blanks opening rest (blanks_trim _ Hb)) as Hs.
  cbn [app length Nat.add] in Hs. rewrite Hs by by rewrite Ho.
  assert (Hat : (blanks ++ opening :: rest) !! length blanks = Some opening).
  { by rewrite lookup_app_r, Nat.sub_diag by lia. }
  unfold is_line at 1. rewrite Hat, Ho. change (str_eqb (lit "---") (lit "---")) with true.
  cbv iota.
  replace (drop (length blanks + 1) (blanks ++ opening :: rest)) with rest.
  2:{ rewrite drop_app_ge by lia.
      replace (length blanks + 1 - length blanks) with 1 by lia. done. }
  pose proof (frontmatterLoop_unclosed rest (length blanks + 1) None Hrest) as Hf.
  destruct (frontmatterLoop rest (length blanks + 1) None) as [index t].
  cbn [fst] in Hf. subst index.
  rewrite is_line_past; [done|]. rewrite length_app. simpl. lia.
Qed.

Lemma unclosed_frontmatter_is_rejected_witness :
  parseFlowchart (lit "
---
title: Test
flowchart TD
  a --> b
") = Some (Err MissingClosingFrontmatter).
Proof.
  apply (unclosed_frontmatter_is_rejected _ [[]] [lit "title: Test";
           lit "flowchart TD"; lit "  a --> b"; []] (lit "---"));
    vm_compute; reflexivity.
Defined.

(** X3. When the first non-blank line is neither [---] nor a declaration
    [flowchart <direction>] with one of the five directions, the parse
    fails with the invalid-declaration error, which carries that line
    trimmed. *)
Theorem invalid_declaration_is_reported (input : str) (blanks rest : list str)
    (header : str) :
  split LF (replaceCRLF input) = blanks ++ header :: rest ->
  forallb blank blanks = true ->
  blank header = false ->
  str_eqb (trim header) (lit "---") = false ->
  exec headerRe (trim header) = None ->
  parseFlowchart input = Some (Err (InvalidFlowchartDeclaration (trim header))).
Proof.
  intros Hlines Hb Hh Hno Hre. unfold parseFlowchart. rewrite Hlines.
  rewrite parseLines_preamble. unfold preamble.
  assert (Hne : trim header <> []).
  { unfold blank in Hh. apply negb_false_iff in Hh. by destruct (trim header). }
  pose proof (skipBlank_blanks [] blanks header rest (blanks_trim _ Hb) Hne) as Hs.
  cbn [app length Nat.add] in Hs. rewrite Hs.
  assert (Hat : (blanks ++ header :: rest) !! length blanks = Some header).
  { by rewrite lookup_app_r, Nat.sub_diag by lia. }
  unfold is_line. rewrite Hat, Hno. cbv iota.
  by rewrite (skipBlank_here _ _ _ Hat Hne), Hat, Hre.
Qed.

Lemma invalid_declaration_is_reported_witness :
  parseFlowchart (lit "graph TD
  a --> b") = Some (Err (InvalidFlowchartDeclaration (lit "graph TD"))).
Proof.
  apply (invalid_declaration_is_reported _ [] [lit "  a --> b"] (lit "graph TD"));
    vm_compute; reflexivity.
Defined.

Definition not_closing (l : str) : bool := negb (str_eqb (trim l) (lit "---")).

Definition not_title (l : str) : bool :=
  match exec titleRe (trim l) with Some _ => false | None => true end.

Lemma frontmatterLoop_skip p rest index t :
  forallb not_closing p = true ->
  exists t', frontmatterLoop (p ++ rest) index t
             = frontmatterLoop rest (index + length p) t'.
Proof.
  revert index t. induction p as [|l p IH]; intros index t H.
  - exists t. simpl. by rewrite Nat.add_0_r.
  - cbn [forallb] in H. apply andb_true_iff in H as [Hl H].
    apply negb_true_iff in Hl. cbn [app frontmatterLoop]. rewrite Hl.
    destruct (IH (index + 1) (match exec titleRe (trim l) with
                              | Some titleMatch => Some (default [] (group titleMatch 1))
                              | None => t end) H) as [t' Ht'].
    exists t'. rewrite Ht'. f_equal. simpl. lia.
Qed.

Lemma frontmatterLoop_keep p rest index t :
  forallb (fun l => not_closing l && not_title l) p = true ->
  frontmatterLoop (p ++ rest) index t = frontmatterLoop rest (index + length p) t.
Proof.
  revert index. induction p as [|l p IH]; intros index H.
  - simpl. by rewrite Nat.add_0_r.
  - cbn [forallb] in H. apply andb_true_iff in H as [Hl H].
    apply andb_true_iff in Hl as [Hc Ht]. apply negb_true_iff in Hc.
    unfold not_title in Ht. cbn [app frontmatterLoop]. rewrite Hc.
    destruct (exec titleRe (trim l)); [done|].
    rewrite IH by done. f_equal. simpl. lia.
Qed.

(** X4. In a front matter the last line that matches [title: ...] gives
    the title of the chart: title lines before it are overwritten and the
    other lines of the front matter are ignored.  The body is then parsed
    into a chart with this title and the direction of the declaration. *)
Theorem last_title_line_wins (input : str) (fm1 fm2 gap body : list str)
    (opening titleLine closing header : str) (tm hm : caps) :
  split LF (replaceCRLF input)
  = opening :: fm1 ++ titleLine :: fm2 ++ closing :: gap ++ header :: body ->
  trim opening = lit "---" -> trim closing = lit "---" ->
  forallb not_closing fm1 = true ->
  forallb (fun l => not_closing l && not_title l) fm2 = true ->
  forallb blank gap = true ->
  exec titleRe (trim titleLine) = Some tm ->
  exec headerRe (trim header) = Some hm ->
  parseFlowchart input
  = finish <$> parseChartBody (split LF (replaceCRLF input))
                 (length fm1 + length fm2 + length gap + 4)
                 (newChart (Some (default [] (group tm 1)))
                    (ChartDir_of_value (default [] (group hm 1))))
                 initialState false.
Proof.
  intros Hlines Ho Hc H1 H2 Hgap Htm Hhm. unfold parseFlowchart.
  rewrite parseLines_preamble, Hlines.
  set (lines := opening :: fm1 ++ titleLine :: fm2 ++ closing :: gap ++ header :: body).
  assert (H0 : lines !! 0 = Some opening) by done.
  assert (Hhd : trim header <> []).
  { destruct (exec_Lit_prefix _ _ _ _ Hhm) as [rest ->]. done. }
  assert (Htl : str_eqb (trim titleLine) (lit "---") = false).
  { destruct (exec_Lit_prefix _ _ _ _ Htm) as [rest ->]. by vm_compute. }
  assert (Hpre : preamble lines
                 = Ok (length fm1 + length fm2 + length gap + 4,
                       newChart (Some (default [] (group tm 1)))
                         (ChartDir_of_value (default [] (group hm 1))))).
  { unfold preamble. rewrite (skipBlank_here _ 0 _ H0) by by rewrite Ho.
    unfold is_line at 1. rewrite H0, Ho.
    change (str_eqb (lit "---") (lit "---")) with true. cbv iota.
    change (drop (0 + 1) lines)
      with (fm1 ++ titleLine :: fm2 ++ closing :: gap ++ header :: body).
    destruct (frontmatterLoop_skip fm1
                (titleLine :: fm2 ++ closing :: gap ++ header :: body) (0 + 1) None H1)
      as [t' ->].
    cbn [frontmatterLoop]. rewrite Htl, Htm.
    rewrite frontmatterLoop_keep by done. cbn [frontmatterLoop]. rewrite Hc.
    change (str_eqb (lit "---") (lit "---")) with true. cbv iota.
    set (j := 0 + 1 + length fm1 + 1 + length fm2).
    assert (Hj : lines !! j = Some closing).
    { unfold lines, j. rewrite lookup_cons_ne_0 by lia.
      rewrite lookup_app_r by lia. rewrite lookup_cons_ne_0 by lia.
      rewrite lookup_app_r by lia.
      replace (pred (pred (0 + 1 + length fm1 + 1 + length fm2) - length fm1)
               - length fm2) with 0 by lia. done. }
    unfold is_line. rewrite Hj, Hc.
    change (str_eqb (lit "---") (lit "---")) with true. cbn [negb]. cbv iota.
    assert (Hsplit : lines = (opening :: fm1 ++ titleLine :: fm2 ++ [closing])
                             ++ gap ++ header :: body).
    { unfold lines. cbn [app]. f_equal. rewrite <- !app_assoc. cbn [app].
      f_equal. f_equal. by rewrite <- app_assoc. }
    assert (Hlen : length (opening :: fm1 ++ titleLine :: fm2 ++ [closing]) = j + 1).
    { unfold j. cbn [length]. rewrite !length_app. cbn [length].
      rewrite length_app. simpl. lia. }
    assert (Hs : skipBlank lines (j + 1) = j + 1 + length gap).
    { rewrite Hsplit, <- Hlen. by apply skipBlank_blanks; [apply blanks_trim|]. }
    rewrite Hs.
    assert (Hh : lines !! (j + 1 + length gap) = Some header).
    { rewrite Hsplit, <- Hlen. rewrite lookup_app_r by lia.
      rewrite lookup_app_r by lia.
      replace (_ - _ - _) with 0 by lia. done. }
    rewrite Hh, Hhm. do 2 f_equal. unfold j. lia. }
  by rewrite Hpre.
Qed.

Lemma last_title_line_wins_witness :
  parseFlowchart (lit "---
title: first
title: second
config: x
---

flowchart LR
  a --> b")
  = finish <$> parseChartBody (split LF (replaceCRLF (lit "---
title: first
title: second
config: x
---

flowchart LR
  a --> b")))
                 (length [lit "title: first"] + length [lit "config: x"]
                  + length [[] : str] + 4)
                 (newChart
                    (Some (default [] (group (<[1 := lit "second"]> ∅ : caps) 1)))
                    (ChartDir_of_value (default [] (group (<[1 := lit "LR"]> ∅ : caps) 1))))
                 initialState false.
Proof.
  apply (last_title_line_wins _ [lit "title: first"] [lit "config: x"] [[]]
           [lit "  a --> b"] (lit "---") (lit "title: second") (lit "---")
           (lit "flowchart LR") (<[1 := lit "second"]> ∅) (<[1 := lit "LR"]> ∅));
    vm_compute; reflexivity.
Defined.

(** ** Errors of the body *)

(** X5. When a sub-grouping header is followed by nothing but blank
    lines up to the end of the input, the body fails with the error that
    names the sub-grouping as missing its direction and body; it does so
    at any nesting level and in any state. *)
Theorem subgraph_header_at_end_of_input
    (fuel : nat) (pre blanks : list str) (raw : str) (last : bool)
    (chart : ParsedChart) (state : ParseState) (stop : bool) (sm : caps) :
  exec subgraphRe (trim raw) = Some sm ->
  forallb blank blanks = true ->
  bodyLoop (S fuel) (pre ++ raw :: blanks) (length pre) last chart state stop
  = Some (Err (SubgraphMissingDirectionAndBody (default [] (group sm 1)))).
Proof.
  intros Hm Hb.
  assert (Hat : (pre ++ raw :: blanks) !! length pre = Some raw).
  { by rewrite lookup_app_r, Nat.sub_diag by lia. }
  rewrite (body_subgraph _ _ _ _ _ _ _ raw sm Hat (subgraph_line_statement _ _ Hm) Hm).
  cbv zeta.
  replace (pre ++ raw :: blanks) with ((pre ++ [raw]) ++ blanks)
    by by rewrite <- app_assoc.
  replace (length pre + 1) with (length (pre ++ [raw]))
    by (rewrite length_app; simpl; lia).
  rewrite skipBlank_all_blank by done.
  by rewrite lookup_ge_None_2 by (rewrite !length_app; lia).
Qed.

Lemma subgraph_header_at_end_of_input_witness :
  bodyLoop 1 ([lit "flowchart TD"] ++ lit "  subgraph A [Title]" :: [[]; lit "  "])
    (length [lit "flowchart TD"]) false (newChart None TD) initialState false
  = Some (Err (SubgraphMissingDirectionAndBody
                 (default [] (group (<[2 := lit "Title"]> (<[1 := lit "A"]> ∅) : caps) 1)))).
Proof.
  apply (subgraph_header_at_end_of_input 0 [lit "flowchart TD"] [[]; lit "  "]
           (lit "  subgraph A [Title]") false (newChart None TD) initialState false
           (<[2 := lit "Title"]> (<[1 := lit "A"]> ∅)));
    vm_compute; reflexivity.
Defined.

(** ** Node lines *)

(** What a match of the identifier pattern says about the line. *)
Lemma exec_idRe_sound s mt :
  exec idRe s = Some mt ->
  exists id rest,
    s = id ++ rest /\ id <> [] /\ forallb is_id_char id = true
    /\ rest <> [] /\ forallb dot rest = true
    /\ mt = <[2 := rest]> (<[1 := id]> ∅).
Proof.
  unfold exec, idRe. rewrite m_Cat, m_Grp, m_Plus_Cls.
  destruct s as [|x s]; [done|]. destruct (is_id_char x) eqn:Hx; [|done].
  intros H. apply greedy_sound in H as (a & u & -> & Ha & H).
  change (x :: a ++ u) with ((x :: a) ++ u) in H. rewrite take_consumed in H.
  rewrite m_Grp, m_Plus_Cls in H.
  destruct u as [|y u]; [done|]. destruct (dot y) eqn:Hy; [|done].
  apply greedy_sound in H as (b & v & -> & Hb & H).
  destruct v as [|z v]; [|done]. cbn [at_end] in H. injection H as <-.
  rewrite app_nil_r. exists (x :: a), (y :: b). split_and!; try done.
  - simpl. by rewrite Hx.
  - simpl. by rewrite Hy.
  - by rewrite firstn_all.
Qed.

Lemma shapeRe_needs_opening (open close : string) x (s : str) :
  strip_prefix (lit open) (x :: s) = None -> exec (shapeRe open close) (x :: s) = None.
Proof. intros H. unfold exec, shapeRe. rewrite m_Cat. by apply m_Lit_None. Qed.

Lemma firstShape_id_char x s id cls :
  is_id_char x = true -> firstShape shapeCandidates (x :: s) id cls = None.
Proof.
  intros Hx.
  assert (Hne : forall o, is_id_char o = false -> char_eqb o x = false).
  { intros o Ho. destruct (char_eqb o x) eqn:E; [|done].
    apply char_eqb_eq in E as ->. congruence. }
  unfold shapeCandidates. cbn [firstShape].
  rewrite !shapeRe_needs_opening; [done|..]; unlit; cbn [strip_prefix];
    by rewrite Hne.
Qed.

(** X8. A line made only of identifier characters, such as a bare node
    name, is not a node statement: [parseNodeLine] finds no shape after
    the identifier and returns null, and the body loop, which no other
    pattern stops on such a line, fails with the unsupported-line error. *)
Theorem bare_identifier_is_unsupported
    (fuel : nat) (lines : list str) (index : nat) (last : bool)
    (chart : ParsedChart) (state : ParseState) (stop : bool) (raw : str) :
  lines !! index = Some raw ->
  plain (trim raw) = true ->
  trim raw <> lit "end" ->
  parseNodeLine (trim raw) = None
  /\ bodyLoop (S fuel) lines index last chart state stop
     = Some (Err (UnsupportedLine (trim raw))).
Proof.
  intros Hl Hp Hend. set (s := trim raw) in *.
  pose proof Hp as [Hne Hid]%andb_true_iff.
  assert (Hnode : parseNodeLine s = None).
  { unfold parseNodeLine.
    rewrite no_sep_no_colon by by apply id_chars_no_colon.
    destruct (exec idRe s) as [mt|] eqn:E; [|done].
    apply exec_idRe_sound in E as (id & rest & Hs & _ & _ & Hrest & _ & ->).
    groups. destruct rest as [|x rest]; [done|].
    apply firstShape_id_char. rewrite Hs, forallb_app in Hid.
    apply andb_true_iff in Hid as [_ Hid]. simpl in Hid.
    by apply andb_true_iff in Hid as [? _]. }
  split; [done|].
  assert (Hw : forallb non_ws s = true).
  { by apply plain_wordy in Hp as [_ ?]%andb_true_iff. }
  assert (Hkw : forall kw r, exec (Lit kw · Plus (Cls is_ws) · r)%re s = None).
  { intros kw r. unfold exec. rewrite m_Cat.
    destruct (strip_prefix kw s) as [rest|] eqn:E; [|by apply m_Lit_None].
    apply strip_prefix_Some in E. rewrite E, m_Lit, m_Cat, m_Plus_Cls.
    destruct rest as [|x rest]; [done|].
    rewrite E, forallb_app in Hw. apply andb_true_iff in Hw as [_ Hw].
    simpl in Hw. apply andb_true_iff in Hw as [Hx _]. unfold non_ws in Hx.
    apply negb_true_iff in Hx. by rewrite Hx. }
  assert (Hlink : exec linkRe s = None).
  { apply exec_linkRe_None. unfold linkLike.
    assert (Hskip : skipNonWs s = []).
    { clear -Hw. induction s as [|c s IH]; [done|]. simpl in *.
      apply andb_true_iff in Hw as [Hc Hw]. unfold non_ws in Hc.
      apply negb_true_iff in Hc. rewrite Hc. by apply IH. }
    by rewrite Hskip. }
  rewrite (body_node fuel lines index last chart state stop raw Hl); fold s.
  - by rewrite Hnode.
  - split; [by destruct s | done].
  - apply Hkw.
  - apply Hkw.
  - apply Hkw.
  - apply Hkw.
  - done.
Qed.

Lemma bare_identifier_is_unsupported_witness :
  parseNodeLine (trim (lit "  server")) = None
  /\ bodyLoop 1 [lit "  server"] 0 false (newChart None TD) initialState false
     = Some (Err (UnsupportedLine (trim (lit "  server")))).
Proof.
  apply (bare_identifier_is_unsupported 0 [lit "  server"] 0 false
           (newChart None TD) initialState false (lit "  server"));
    [reflexivity | vm_compute; reflexivity | vm_compute; discriminate].
Defined.

(** X9. A node line that ends in the class separator [:::], followed at
    most by white space, is rejected whatever stands before the
    separator: an empty class name is not accepted. *)
Theorem empty_class_name_is_rejected (content w : str) :
  forallb is_ws w = true ->
  parseNodeLine (content ++ lit ":::" ++ w) = None.
Proof.
  intros Hw. unfold parseNodeLine.
  assert (Hc : no_colon w = true).
  { eapply forallb_impl'; [|exact Hw]. intros c Hc.
    destruct (char_eqb c colon) eqn:E; [|done].
    apply char_eqb_eq in E. subst c. by vm_compute in Hc. }
  rewrite find_last_sep_suffix by done. by rewrite trim_ws.
Qed.

Lemma empty_class_name_is_rejected_witness :
  parseNodeLine (lit "a(label)" ++ lit ":::" ++ lit " ") = None.
Proof. apply empty_class_name_is_rejected. reflexivity. Defined.

Lemma firstShape_sound rest id cls n :
  firstShape shapeCandidates rest id cls = Some n ->
  exists sh label,
    n = {| node_title := label; shape := sh; node_id := id; className := cls |}
    /\ rest = openOf sh ++ label ++ closeOf sh.
Proof.
  unfold shapeCandidates. cbn [firstShape].
  repeat match goal with
    | |- context [exec (shapeRe ?o ?c) rest] =>
        let E := fresh "E" in
        destruct (exec (shapeRe o c) rest) as [mt|] eqn:E;
          [apply exec_shapeRe_sound in E as (l & Hr & ->); groups;
           intros [= <-];
           first [ by exists HEXAGON, l | by exists CIRCLE, l
                 | by exists SUBROUTINE, l | by exists CYLINDER, l
                 | by exists STADIUM, l | by exists RHOMBUS, l
                 | by exists RECT_ROUND, l | by exists ASSYMETRIC, l ]|]
    end.
  done.
Qed.

(** X10. The other direction of the node round trip: when
    [parseNodeLine] accepts a line and the label it reads has no [$]
    (which [String.prototype.replace] would expand), the node prints as
    the line it was read from, up to the white space around the class
    name, which is trimmed; a line without class separator is printed
    back unchanged. *)
Theorem parsed_node_prints_its_line (line : str) (n : ChartNode) :
  parseNodeLine line = Some n ->
  no_dollar (node_title n) = true ->
  ChartNode_toString n
  = match find_last (lit ":::") line with
    | Some (before, after) => before ++ lit ":::" ++ trim after
    | None => line
    end.
Proof.
  unfold parseNodeLine. intros H Hd.
  assert (Hcore : forall content cls,
            match exec idRe content with
            | Some idMatch =>
                firstShape shapeCandidates (default [] (group idMatch 2))
                  (default [] (group idMatch 1)) cls
            | None => None
            end = Some n ->
            ChartNode_toString n = content ++ classSuffix cls).
  { intros content cls Hn.
    destruct (exec idRe content) as [mt|] eqn:E; [|done].
    apply exec_idRe_sound in E as (id & rest & -> & Hid & _ & _ & _ & ->).
    revert Hn. groups. intros Hn.
    apply firstShape_sound in Hn as (sh & label & -> & ->).
    rewrite ChartNode_toString_eq by done. unfold ensureId.
    cbn [node_id node_title shape className].
    destruct id as [|x id]; [done|]. cbn [nonempty negb andb node_id].
    by rewrite <- !app_assoc. }
  destruct (find_last (lit ":::") line) as [[before after]|].
  - destruct (nonempty (trim after)) eqn:E; [|done].
    rewrite (Hcore before (Some (trim after)) H). cbn [classSuffix]. by rewrite E.
  - rewrite (Hcore line None H). cbn [classSuffix]. by rewrite app_nil_r.
Qed.

Lemma parsed_node_prints_its_line_witness :
  ChartNode_toString
    {| node_title := lit "(x)"; shape := CIRCLE; node_id := lit "a";
       className := Some (lit "big") |}
  = match find_last (lit ":::") (lit "a(((x))):::  big") with
    | Some (before, after) => before ++ lit ":::" ++ trim after
    | None => lit "a(((x))):::  big"
    end.
Proof.
  apply (parsed_node_prints_its_line (lit "a(((x))):::  big")
           {| node_title := lit "(x)"; shape := CIRCLE; node_id := lit "a";
              className := Some (lit "big") |});
    vm_compute; reflexivity.
Defined.

(** ** The runs of the body loop

    The returns of [parseChartBody] as a relation between the line it
    starts at, the container and the state it is given, and its result:
    one rule per way through an iteration of the loop.  The flag
    [lastStatementWasLink] is left out: of the test that attaches a style
    to a link, the rule keeps that the link is in the store without a
    style. *)
Inductive body_run (lines : list str)
  : nat -> ParsedChart -> ParseState -> BodyResult -> Prop :=
  | run_eof index chart state :
      lines !! index = None ->
      body_run lines index chart state
        {| nextIndex := index; foundEndToken := false;
           parsedChart := chart; parsedState := state |}
  | run_end index chart state raw :
      lines !! index = Some raw -> trim raw = lit "end" ->
      body_run lines index chart state
        {| nextIndex := index + 1; foundEndToken := true;
           parsedChart := chart; parsedState := state |}
  | run_blank index chart state raw r :
      lines !! index = Some raw -> trim raw = [] ->
      body_run lines (index + 1) chart state r ->
      body_run lines index chart state r
  | run_subgraph index chart state raw sm rawDirection dm nested r :
      lines !! index = Some raw -> exec subgraphRe (trim raw) = Some sm ->
      lines !! skipBlank lines (index + 1) = Some rawDirection ->
      exec directionRe (trim rawDirection) = Some dm ->
      body_run lines (skipBlank lines (index + 1) + 1)
        (newChart (Some (default [] (group sm 2)))
           (ChartDir_of_value (default [] (group dm 1))))
        state nested ->
      foundEndToken nested = true ->
      body_run lines (nextIndex nested)
        (addSubgraph chart
           (MkSubgraph (Some (default [] (group sm 1))) (parsedChart nested)))
        (parsedState nested) r ->
      body_run lines index chart state r
  | run_classDef index chart state raw mt r :
      lines !! index = Some raw -> exec classDefRe (trim raw) = Some mt ->
      body_run lines (index + 1)
        (addClassDef chart
           {| classNames := classNamesOf (default [] (group mt 1));
              cd_style := RawNodeStyle (trim (default [] (group mt 2))) |})
        state r ->
      body_run lines index chart state r
  | run_class index chart state raw mt r :
      lines !! index = Some raw -> exec classRe (trim raw) = Some mt ->
      body_run lines (index + 1)
        (attachClass chart (attachedNodesOf (default [] (group mt 1)))
           (default [] (group mt 2)))
        state r ->
      body_run lines index chart state r
  | run_style_inline index chart state raw mt link r :
      lines !! index = Some raw -> exec linkStyleRe (trim raw) = Some mt ->
      getLink state (parseInt (default [] (group mt 1))) = Some link ->
      hasStyle link = false ->
      body_run lines (index + 1) chart
        (styleInline state (parseInt (default [] (group mt 1)))
           (stripTrailingSemicolon (trim (default [] (group mt 2)))))
        r ->
      body_run lines index chart state r
  | run_style_positional index chart state raw mt r :
      lines !! index = Some raw -> exec linkStyleRe (trim raw) = Some mt ->
      body_run lines (index + 1)
        (addLinkStyle chart (parseInt (default [] (group mt 1)))
           (RawStyle (stripTrailingSemicolon (trim (default [] (group mt 2))))))
        state r ->
      body_run lines index chart state r
  | run_link index chart state raw mt r :
      lines !! index = Some raw -> exec linkRe (trim raw) = Some mt ->
      body_run lines (index + 1) (addLink chart (nextLinkIndex state))
        (registerLink state (linkOfMatch mt)) r ->
      body_run lines index chart state r
  | run_node index chart state raw node r :
      lines !! index = Some raw -> parseNodeLine (trim raw) = Some node ->
      body_run lines (index + 1) (addNode chart node) state r ->
      body_run lines index chart state r.

(** Every normal return of the loop is a run. *)
Lemma bodyLoop_run f lines index last chart state stop r :
  bodyLoop f lines index last chart state stop = Some (Ok r) ->
  body_run lines index chart state r.
Proof.
  revert index last chart state stop r.
  induction f as [|f IH]; intros index last chart state stop r H; [done|].
  destruct (lines !! index) as [raw|] eqn:Hl;
    [|rewrite body_eof in H by done; injection H as <-; by constructor].
  destruct (line_cases (trim raw)) as [Hb|[He|Hs]].
  { rewrite (body_blank _ _ _ _ _ _ _ raw) in H by done.
    eapply run_blank; [done | done | by eapply IH]. }
  { rewrite (body_end _ _ _ _ _ _ _ raw) in H by done. injection H as <-.
    by eapply run_end. }
  destruct (exec subgraphRe (trim raw)) as [sm|] eqn:H1.
  { rewrite (body_subgraph _ _ _ _ _ _ _ raw sm) in H by done. cbv zeta in H.
    destruct (lines !! skipBlank lines (index + 1)) as [rawd|] eqn:Hd; [|done].
    destruct (exec directionRe (trim rawd)) as [dm|] eqn:Hdm; [|done].
    destruct (bodyLoop f lines (skipBlank lines (index + 1) + 1) false _ state true)
      as [[nested|e]|] eqn:Hn; [|done|done].
    destruct (foundEndToken nested) eqn:Hend; [|done]. cbn [negb] in H.
    eapply run_subgraph; try done; by eapply IH. }
  destruct (exec classDefRe (trim raw)) as [mt|] eqn:H2.
  { rewrite (body_classDef _ _ _ _ _ _ _ raw mt) in H by done.
    eapply run_classDef; try done. by eapply IH. }
  destruct (exec classRe (trim raw)) as [mt|] eqn:H3.
  { rewrite (body_class _ _ _ _ _ _ _ raw mt) in H by done.
    eapply run_class; try done. by eapply IH. }
  destruct (exec linkStyleRe (trim raw)) as [mt|] eqn:H4.
  { rewrite (body_linkStyle _ _ _ _ _ _ _ raw mt) in H by done. cbv zeta in H.
    destruct (attachesInline last state _) eqn:Ha.
    - unfold attachesInline in Ha. destruct last; [|done].
      destruct (sameIndex _ _); [|done].
      destruct (getLink state _) as [link|] eqn:Hk; [|done].
      apply negb_true_iff in Ha.
      eapply run_style_inline; try done. by eapply IH.
    - eapply run_style_positional; try done. by eapply IH. }
  destruct (exec linkRe (trim raw)) as [mt|] eqn:H5.
  { rewrite (body_link _ _ _ _ _ _ _ raw mt) in H by done.
    eapply run_link; try done. by eapply IH. }
  rewrite (body_node _ _ _ _ _ _ _ raw) in H by done.
  destruct (parseNodeLine (trim raw)) as [node|] eqn:H6; [|done].
  eapply run_node; try done. by eapply IH.
Qed.

Lemma body_run_index lines index chart state r :
  body_run lines index chart state r -> index <= length lines ->
  if foundEndToken r
  then index < nextIndex r /\ nextIndex r <= length lines
       /\ exists raw, lines !! (nextIndex r - 1) = Some raw /\ trim raw = lit "end"
  else nextIndex r = length lines.
Proof.
  induction 1 as [index chart state Hl | index chart state raw Hl He
                 | index chart state raw r Hl _ _ IH
                 | index chart state raw sm rawd dm nested r Hl _ Hd _ _ IHn Hend _ IH
                 | index chart state raw mt r Hl _ _ IH
                 | index chart state raw mt r Hl _ _ IH
                 | index chart state raw mt link r Hl _ _ _ _ IH
                 | index chart state raw mt r Hl _ _ IH
                 | index chart state raw mt r Hl _ _ IH
                 | index chart state raw node r Hl _ _ IH];
    intros Hle; cbn [foundEndToken nextIndex];
    try (apply lookup_lt_Some in Hl as Hlt; specialize (IH ltac:(lia));
         destruct (foundEndToken r); [destruct IH as (? & ? & ?); split_and!; [lia|done..] | done]).
  - apply lookup_ge_None in Hl. lia.
  - apply lookup_lt_Some in Hl as Hlt. split_and!; [lia | lia |].
    exists raw. by rewrite Nat.add_sub.
  - apply lookup_lt_Some in Hd as Hlt.
    pose proof (skipBlank_ge lines (index + 1)) as Hge.
    specialize (IHn ltac:(lia)). rewrite Hend in IHn.
    destruct IHn as (Hn1 & Hn2 & _). specialize (IH Hn2).
    destruct (foundEndToken r); [|done].
    destruct IH as (? & ? & ?). split_and!; [lia | done | done].
Qed.

(** X11. Where the body loop returns.  Started inside the input, it
    returns either with [foundEndToken] false and the index at the end of
    the input: every line has been read; or with [foundEndToken] true and
    the index just after a later line that is [end] once trimmed.  It
    never returns in the middle of the input for another reason. *)
Theorem body_returns_at_end_or_after_end
    (fuel : nat) (lines : list str) (index : nat) (last : bool)
    (chart : ParsedChart) (state : ParseState) (stop : bool) (r : BodyResult) :
  bodyLoop fuel lines index last chart state stop = Some (Ok r) ->
  index <= length lines ->
  if foundEndToken r
  then index < nextIndex r /\ nextIndex r <= length lines
       /\ exists raw, lines !! (nextIndex r - 1) = Some raw /\ trim raw = lit "end"
  else nextIndex r = length lines.
Proof. intros H. eapply body_run_index. by eapply bodyLoop_run. Qed.

Lemma body_returns_at_end_or_after_end_witness :
  0 < 3 /\ 3 <= length [lit "a --> b"; []; lit " end "; lit "c(x)"]
  /\ exists raw, [lit "a --> b"; []; lit " end "; lit "c(x)"] !! (3 - 1) = Some raw
                 /\ trim raw = lit "end".
Proof.
  apply (body_returns_at_end_or_after_end 5
           [lit "a --> b"; []; lit " end "; lit "c(x)"] 0 false (newChart None TD)
           initialState false
           {| nextIndex := 3; foundEndToken := true;
              parsedChart := addLink (newChart None TD) 0;
              parsedState :=
                registerLink initialState
                  {| src := ById (lit "a"); dest := ById (lit "b"); link_text := None;
                     link_type := ARROW; link_style := None |} |});
    [vm_compute; reflexivity | simpl; lia].
Defined.

(** ** What the body loop keeps *)

(** The container [c'] is [c] with statements added at the end of its
    lists. *)
Definition extends (c c' : ParsedChart) : Prop :=
  title c' = title c /\ direction c' = direction c
  /\ nodes c `prefix_of` nodes c' /\ links c `prefix_of` links c'
  /\ subgraphs c `prefix_of` subgraphs c'
  /\ classDefs c `prefix_of` classDefs c'
  /\ classAttachments c `prefix_of` classAttachments c'
  /\ positionalLinkStyles c `prefix_of` positionalLinkStyles c'.

Lemma extends_refl c : extends c c.
Proof. by repeat split. Qed.

Lemma extends_trans c1 c2 c3 : extends c1 c2 -> extends c2 c3 -> extends c1 c3.
Proof.
  intros (? & ? & ? & ? & ? & ? & ? & ?) (? & ? & ? & ? & ? & ? & ? & ?).
  repeat split; try congruence; by etrans.
Qed.

Lemma extends_add (c c' : ParsedChart) :
  title c' = title c -> direction c' = direction c ->
  (exists l, nodes c' = nodes c ++ l) -> (exists l, links c' = links c ++ l) ->
  (exists l, subgraphs c' = subgraphs c ++ l) ->
  (exists l, classDefs c' = classDefs c ++ l) ->
  (exists l, classAttachments c' = classAttachments c ++ l) ->
  (exists l, positionalLinkStyles c' = positionalLinkStyles c ++ l) ->
  extends c c'.
Proof. by repeat split. Qed.

Ltac extends_step :=
  apply extends_add; cbn; first [done | by eexists | by exists []; rewrite app_nil_r].

Lemma body_run_extends lines index chart state r :
  body_run lines index chart state r -> extends chart (parsedChart r).
Proof.
  induction 1; cbn [parsedChart]; try apply extends_refl; try done;
    (eapply extends_trans; [|eassumption]); extends_step.
Qed.

(** X6. A sub-grouping that is left unclosed is rejected: when a header
    and its direction line are followed by no line that is [end] once
    trimmed, the body fails, whatever the other lines are.  The error is
    the one raised while the statements of the sub-grouping are read, when
    there is one, and otherwise the error that names the sub-grouping as
    missing its closing [end]. *)
Theorem unclosed_subgraph_is_rejected
    (lines : list str) (index : nat) (last : bool) (chart : ParsedChart)
    (state : ParseState) (stop : bool) (raw rawDirection : str) (sm dm : caps) :
  lines !! index = Some raw ->
  exec subgraphRe (trim raw) = Some sm ->
  lines !! skipBlank lines (index + 1) = Some rawDirection ->
  exec directionRe (trim rawDirection) = Some dm ->
  (forall k l, skipBlank lines (index + 1) < k -> lines !! k = Some l ->
               trim l <> lit "end") ->
  exists e,
    runs lines index last chart state stop (Err e)
    /\ (runs lines (skipBlank lines (index + 1) + 1) false
          (newChart (Some (default [] (group sm 2)))
             (ChartDir_of_value (default [] (group dm 1))))
          state true (Err e)
        \/ e = SubgraphMissingEnd (default [] (group sm 1))
           /\ exists nested,
                runs lines (skipBlank lines (index + 1) + 1) false
                  (newChart (Some (default [] (group sm 2)))
                     (ChartDir_of_value (default [] (group dm 1))))
                  state true (Ok nested)).
Proof.
  intros Hl Hm Hd Hdm Hnoend.
  set (start := skipBlank lines (index + 1) + 1).
  set (sub := newChart (Some (default [] (group sm 2)))
                (ChartDir_of_value (default [] (group dm 1))) : ParsedChart).
  destruct (bodyLoop_terminates (S (length lines - start)) lines start false sub
              state true) as (R & Hf & _); [lia|].
  assert (Hstep : forall e,
            (bodyLoop (S (length lines - start)) lines start false sub state true
             = Some (Err e)
             \/ exists nested,
                  bodyLoop (S (length lines - start)) lines start false sub state true
                  = Some (Ok nested)
                  /\ foundEndToken nested = false
                  /\ e = SubgraphMissingEnd (default [] (group sm 1))) ->
            runs lines index last chart state stop (Err e)).
  { intros e He. exists (S (S (length lines - start))).
    rewrite (body_subgraph _ _ _ _ _ _ _ raw sm Hl (subgraph_line_statement _ _ Hm) Hm).
    cbv zeta. rewrite Hd, Hdm. fold start sub.
    destruct He as [->|(nested & -> & Hend & ->)]; [done | by rewrite Hend]. }
  destruct R as [nested|e].
  - exists (SubgraphMissingEnd (default [] (group sm 1))).
    assert (Hend : foundEndToken nested = false).
    { pose proof (bodyLoop_run _ _ _ _ _ _ _ _ Hf) as Hrun.
      apply body_run_index in Hrun.
      2:{ apply lookup_lt_Some in Hd. unfold start. lia. }
      destruct (foundEndToken nested); [|done].
      destruct Hrun as (Hlt & _ & l & Hk & Ht).
      destruct (Hnoend (nextIndex nested - 1) l); [unfold start in Hlt; lia | done | done]. }
    split; [apply Hstep; right; by exists nested|].
    right. split; [done|]. exists nested. by eexists.
  - exists e. split; [apply Hstep; by left|]. left. by eexists.
Qed.

Lemma unclosed_subgraph_is_rejected_witness :
  exists e,
    runs [lit "subgraph A"; lit "direction LR"; lit "a --> b"] 0 false
      (newChart None TD) initialState false (Err e)
    /\ e = SubgraphMissingEnd (lit "A").
Proof.
  destruct (unclosed_subgraph_is_rejected
              [lit "subgraph A"; lit "direction LR"; lit "a --> b"] 0 false
              (newChart None TD) initialState false (lit "subgraph A")
              (lit "direction LR") (<[1 := lit "A"]> ∅) (<[1 := lit "LR"]> ∅))
    as (e & Hrun & Herr).
  - vm_compute. reflexivity.
  - vm_compute. reflexivity.
  - vm_compute. reflexivity.
  - vm_compute. reflexivity.
  - intros k l Hk Hl. change (1 < k) in Hk.
    destruct k as [|[|[|k]]]; [lia | lia | | done].
    injection Hl as <-. by vm_compute.
  - exists e. split; [exact Hrun|].
    destruct Herr as [Hnested|[He _]]; [|exact He].
    assert (Hok : runs [lit "subgraph A"; lit "direction LR"; lit "a --> b"] 2 false
                    (newChart (Some []) LR) initialState true
                    (Ok {| nextIndex := 3; foundEndToken := false;
                           parsedChart := addLink (newChart (Some []) LR) 0;
                           parsedState :=
                             registerLink initialState
                               {| src := ById (lit "a"); dest := ById (lit "b");
                                  link_text := None; link_type := ARROW;
                                  link_style := None |} |}))
      by (exists 3; vm_compute; reflexivity).
    by pose proof (runs_functional _ _ _ _ _ _ _ _ Hnested Hok).
Defined.

(** X12. The body loop only appends to the container it is given: the
    title and the direction are as before, and each of the six lists of
    the result starts with the list the container had.  No statement of
    the input removes, replaces or reorders what was parsed before it. *)
Theorem body_only_appends
    (fuel : nat) (lines : list str) (index : nat) (last : bool)
    (chart : ParsedChart) (state : ParseState) (stop : bool) (r : BodyResult) :
  bodyLoop fuel lines index last chart state stop = Some (Ok r) ->
  title (parsedChart r) = title chart
  /\ direction (parsedChart r) = direction chart
  /\ nodes chart `prefix_of` nodes (parsedChart r)
  /\ links chart `prefix_of` links (parsedChart r)
  /\ subgraphs chart `prefix_of` subgraphs (parsedChart r)
  /\ classDefs chart `prefix_of` classDefs (parsedChart r)
  /\ classAttachments chart `prefix_of` classAttachments (parsedChart r)
  /\ positionalLinkStyles chart `prefix_of` positionalLinkStyles (parsedChart r).
Proof. intros H. by apply (body_run_extends lines index chart state), (bodyLoop_run fuel _ _ last _ _ stop). Qed.

Lemma body_only_appends_witness :
  let chart : ParsedChart := addNode (newChart (Some (lit "T")) LR) (newChartNode (lit "n")) in
  let r := {| nextIndex := 2; foundEndToken := false;
              parsedChart := addClassDef (addLink chart 0)
                               {| classNames := OneName (lit "c");
                                  cd_style := RawNodeStyle (lit "fill:red") |};
              parsedState :=
                registerLink initialState
                  {| src := ById (lit "a"); dest := ById (lit "b"); link_text := None;
                     link_type := ARROW; link_style := None |} |} in
  title (parsedChart r) = title chart
  /\ direction (parsedChart r) = direction chart
  /\ nodes chart `prefix_of` nodes (parsedChart r)
  /\ links chart `prefix_of` links (parsedChart r)
  /\ subgraphs chart `prefix_of` subgraphs (parsedChart r)
  /\ classDefs chart `prefix_of` classDefs (parsedChart r)
  /\ classAttachments chart `prefix_of` classAttachments (parsedChart r)
  /\ positionalLinkStyles chart `prefix_of` positionalLinkStyles (parsedChart r).
Proof.
  apply (body_only_appends 3 [lit "a --> b"; lit "classDef c fill:red"] 0 false
           (addNode (newChart (Some (lit "T")) LR) (newChartNode (lit "n")))
           initialState false).
  vm_compute. reflexivity.
Defined.

(** No key of the store is at or above the next index. *)
Definition below_next (st : ParseState) : Prop :=
  forall k, is_Some (linksByIndex st !! k) -> k < nextLinkIndex st.

(** The link [l'] is [l], except that it may have been given a style if
    [l] had none. *)
Definition same_link (l l' : Link) : Prop :=
  src l' = src l /\ dest l' = dest l /\ link_text l' = link_text l
  /\ link_type l' = link_type l /\ (hasStyle l = true -> l' = l).

Definition keeps_links (st st' : ParseState) : Prop :=
  nextLinkIndex st <= nextLinkIndex st'
  /\ forall k l, linksByIndex st !! k = Some l ->
       exists l', linksByIndex st' !! k = Some l' /\ same_link l l'.

Lemma same_link_refl l : same_link l l.
Proof. by repeat split. Qed.

Lemma keeps_links_refl st : keeps_links st st.
Proof. split; [done|]. intros k l H. exists l. split; [done | apply same_link_refl]. Qed.

Lemma keeps_links_trans st1 st2 st3 :
  keeps_links st1 st2 -> keeps_links st2 st3 -> keeps_links st1 st3.
Proof.
  intros [Hn1 H1] [Hn2 H2]. split; [lia|]. intros k l Hl.
  destruct (H1 k l Hl) as (l' & Hl' & Ha & Hb & Hc & Hd & He).
  destruct (H2 k l' Hl') as (l'' & Hl'' & Ha' & Hb' & Hc' & Hd' & He').
  exists l''. split; [done|]. repeat split; try congruence.
  intros Hs. rewrite <- (He Hs). apply He'. by rewrite (He Hs).
Qed.

Lemma body_run_store lines index chart state r :
  body_run lines index chart state r -> below_next state ->
  below_next (parsedState r) /\ keeps_links state (parsedState r).
Proof.
  induction 1 as [ | | ? ? ? ? ? ? ? ? IH
                 | ? ? ? ? ? ? ? ? ? ? ? ? ? ? IHn ? ? IH
                 | ? ? ? ? ? ? ? ? ? IH | ? ? ? ? ? ? ? ? ? IH
                 | index chart state raw mt link r Hl Hm Hk Hs ? IH
                 | ? ? ? ? ? ? ? ? ? IH
                 | index chart state raw mt r Hl Hm ? IH
                 | ? ? ? ? ? ? ? ? ? IH ];
    intros Hb; cbn [parsedState];
    try (split; [done | apply keeps_links_refl]); try (by apply IH).
  - destruct (IHn Hb) as [Hbn Hkn]. destruct (IH Hbn) as [Hbr Hkr].
    split; [done | by eapply keeps_links_trans].
  - set (style := stripTrailingSemicolon (trim (default [] (group mt 2)))) in *.
    destruct (parseInt (default [] (group mt 1))) as [v|t]; [|done].
    cbn [getLink] in Hk.
    assert (Hb' : below_next (styleInline state (Integer v) style)).
    { intros k Hsome. apply Hb. cbn [styleInline linksByIndex] in Hsome.
      destruct (decide (N.to_nat v = k)) as [<-|Hne]; [by rewrite Hk|].
      by rewrite lookup_alter_ne in Hsome. }
    destruct (IH Hb') as [Hbr Hkr]. split; [done|].
    eapply keeps_links_trans; [|exact Hkr]. split; [done|].
    intros k l Hkl. cbn [styleInline linksByIndex]. rewrite lookup_alter.
    destruct (decide (N.to_nat v = k)) as [<-|Hne].
    + rewrite Hkl. eexists. split; [done|]. rewrite Hk in Hkl. injection Hkl as <-.
      repeat split. intros Hs'. congruence.
    + rewrite Hkl. exists l. split; [done | apply same_link_refl].
  - assert (Hb' : below_next (registerLink state (linkOfMatch mt))).
    { intros k Hsome. cbn [registerLink linksByIndex nextLinkIndex] in *.
      destruct (decide (k = nextLinkIndex state)) as [->|Hne]; [lia|].
      rewrite lookup_insert_ne in Hsome by done. specialize (Hb k Hsome). lia. }
    destruct (IH Hb') as [Hbr Hkr]. split; [done|].
    eapply keeps_links_trans; [|exact Hkr]. split; [simpl; lia|].
    intros k l Hkl. cbn [registerLink linksByIndex].
    assert (k < nextLinkIndex state) by (apply Hb; by rewrite Hkl).
    rewrite lookup_insert_ne by lia. exists l. split; [done | apply same_link_refl].
Qed.

(** X13. The body loop keeps the links of the store.  Started with a
    store whose keys are below [nextLinkIndex], as [parseFlowchart] starts
    it, it returns such a store, with [nextLinkIndex] not smaller, in
    which every link that was there is still under its index, with the
    same ends, text and type; a link that had a style has it unchanged, a
    link that had none may have been given one.  So no style is ever
    overwritten and no index is ever reused. *)
Theorem body_keeps_links
    (fuel : nat) (lines : list str) (index : nat) (last : bool)
    (chart : ParsedChart) (state : ParseState) (stop : bool) (r : BodyResult) :
  bodyLoop fuel lines index last chart state stop = Some (Ok r) ->
  (forall k, is_Some (linksByIndex state !! k) -> k < nextLinkIndex state) ->
  (forall k, is_Some (linksByIndex (parsedState r) !! k) ->
             k < nextLinkIndex (parsedState r))
  /\ nextLinkIndex state <= nextLinkIndex (parsedState r)
  /\ forall k l, linksByIndex state !! k = Some l ->
       exists l', linksByIndex (parsedState r) !! k = Some l'
                  /\ src l' = src l /\ dest l' = dest l
                  /\ link_text l' = link_text l /\ link_type l' = link_type l
                  /\ (hasStyle l = true -> l' = l).
Proof.
  intros H Hb.
  destruct (body_run_store lines index chart state r
              (bodyLoop_run _ _ _ _ _ _ _ _ H) Hb) as [H1 [H2 H3]].
  by split_and!.
Qed.

Lemma body_keeps_links_witness :
  let l0 := {| src := ById (lit "a"); dest := ById (lit "b"); link_text := None;
               link_type := ARROW; link_style := None |} in
  let state := registerLink initialState l0 in
  let r := {| nextIndex := 1; foundEndToken := false;
              parsedChart := addLink (newChart None TD) 0;
              parsedState := styleInline state (Integer 0) (lit "stroke:red") |} in
  (forall k, is_Some (linksByIndex (parsedState r) !! k) ->
             k < nextLinkIndex (parsedState r))
  /\ nextLinkIndex state <= nextLinkIndex (parsedState r)
  /\ forall k l, linksByIndex state !! k = Some l ->
       exists l', linksByIndex (parsedState r) !! k = Some l'
                  /\ src l' = src l /\ dest l' = dest l
                  /\ link_text l' = link_text l /\ link_type l' = link_type l
                  /\ (hasStyle l = true -> l' = l).
Proof.
  apply (body_keeps_links 2 [lit "linkStyle 0 stroke:red"] 0 true
           (addLink (newChart None TD) 0)
           (registerLink initialState
              {| src := ById (lit "a"); dest := ById (lit "b"); link_text := None;
                 link_type := ARROW; link_style := None |}) false).
  - vm_compute. reflexivity.
  - intros k [x Hx]. cbn [registerLink linksByIndex nextLinkIndex initialState] in *.
    destruct (decide (k = 0)) as [->|Hne]; [lia|].
    by rewrite lookup_insert_ne, lookup_empty in Hx.
Defined.

(** ** What a parsed chart is made of *)

(** A link whose ends are strings and whose style, if any, is a string. *)
Definition textual_link (l : Link) : bool :=
  match src l, dest l, link_style l with
  | ById _, ById _, (None | Some (RawStyle _)) => true
  | _, _, _ => false
  end.

Definition textual_ref (r : NodeRef) : bool :=
  match r with ById _ => true | ByNode _ => false end.

Definition textual_attachment (a : ClassAttachment) : bool :=
  match ca_nodes a with
  | OneNode r => textual_ref r
  | ManyNodes l => forallb textual_ref l
  end.

Definition textual_classDef (d : ClassDef) : bool :=
  match cd_style d with RawNodeStyle _ => true | NodeStyleObject _ => false end.

Definition textual_positional (p : number * LinkStyleValue) : bool :=
  match snd p with RawStyle _ => true | StyleObject _ => false end.

Definition textual_fields {L S} (okL : L -> bool) (okS : S -> bool)
    (f : ChartOf L S) : bool :=
  forallb okL (links f) && forallb okS (subgraphs f)
  && forallb textual_classDef (classDefs f)
  && forallb textual_attachment (classAttachments f)
  && forallb textual_positional (positionalLinkStyles f).

Fixpoint textual_subgraph {L} (okL : L -> bool) (s : SubgraphOf L) : bool :=
  match s with
  | MkSubgraph _ f =>
      forallb okL (links f) && forallb (textual_subgraph okL) (subgraphs f)
      && forallb textual_classDef (classDefs f)
      && forallb textual_attachment (classAttachments f)
      && forallb textual_positional (positionalLinkStyles f)
  end.

Definition textual_chart (c : Chart) : bool :=
  textual_fields textual_link (textual_subgraph textual_link) c.

Definition textual_store (store : gmap nat Link) : Prop :=
  forall k l, store !! k = Some l -> textual_link l = true.

Lemma textual_attachedNodesOf ids cn :
  textual_attachment {| ca_nodes := attachedNodesOf ids; ca_className := cn |} = true.
Proof.
  unfold textual_attachment, attachedNodesOf. cbn [ca_nodes].
  destruct (map trim (split (ch ",") ids)) as [|one [|two many]]; try done.
  cbn [map forallb textual_ref andb]. by induction many.
Qed.

Lemma forallb_snoc {A} (p : A -> bool) l x :
  forallb p (l ++ [x]) = forallb p l && p x.
Proof. rewrite forallb_app. simpl. by rewrite andb_true_r. Qed.

Lemma body_run_textual lines index chart state r :
  body_run lines index chart state r ->
  textual_fields (fun _ => true) (textual_subgraph (fun _ => true)) chart = true ->
  textual_store (linksByIndex state) ->
  textual_fields (fun _ => true) (textual_subgraph (fun _ => true)) (parsedChart r)
  = true
  /\ textual_store (linksByIndex (parsedState r)).
Proof.
  unfold textual_fields.
  induction 1 as [ | | ? ? ? ? ? ? ? ? IH
                 | index chart state raw sm rawd dm nested r ? ? ? ? ? IHn ? ? IH
                 | ? ? ? ? ? ? ? ? ? IH | ? ? ? ? ? ? ? ? ? IH
                 | index chart state raw mt link r Hl Hm Hk Hs ? IH
                 | ? ? ? ? ? ? ? ? ? IH
                 | index chart state raw mt r Hl Hm ? IH
                 | ? ? ? ? ? ? ? ? ? IH ];
    intros Hc Hst; cbn [parsedChart parsedState]; try done; try (by apply IH);
    pose proof Hc as Hc'; rewrite !andb_true_iff in Hc';
    destruct Hc' as ((((E1 & E2) & E3) & E4) & E5).
  - destruct IHn as [Hcn Hsn]; [done | done |].
    apply IH; [|done].
    cbn [addSubgraph links subgraphs classDefs classAttachments positionalLinkStyles].
    rewrite forallb_snoc. cbn [textual_subgraph].
    by rewrite E1, E2, E3, E4, E5, Hcn.
  - apply IH; [|done].
    cbn [addClassDef links subgraphs classDefs classAttachments positionalLinkStyles].
    rewrite forallb_snoc. by rewrite E1, E2, E3, E4, E5.
  - apply IH; [|done].
    cbn [attachClass links subgraphs classDefs classAttachments positionalLinkStyles].
    rewrite forallb_snoc, textual_attachedNodesOf. by rewrite E1, E2, E3, E4, E5.
  - apply IH; [done|]. intros k l.
    destruct (parseInt (default [] (group mt 1))) as [v|t]; [|done].
    cbn [getLink] in Hk. cbn [styleInline linksByIndex].
    destruct (decide (N.to_nat v = k)) as [<-|Hne].
    + rewrite lookup_alter_eq, Hk. intros [= <-].
      specialize (Hst _ _ Hk). unfold textual_link in *.
      cbn [setLinkStyle src dest link_style].
      by destruct (src link), (dest link).
    + rewrite lookup_alter_ne by done. apply Hst.
  - apply IH; [|done].
    cbn [addLinkStyle links subgraphs classDefs classAttachments positionalLinkStyles].
    rewrite forallb_snoc. by rewrite E1, E2, E3, E4, E5.
  - apply IH.
    + cbn [addLink links subgraphs classDefs classAttachments positionalLinkStyles].
      rewrite forallb_snoc. by rewrite E1, E2, E3, E4, E5.
    + intros k l. cbn [registerLink linksByIndex].
      destruct (decide (nextLinkIndex state = k)) as [<-|Hne].
      * rewrite lookup_insert_eq. by intros [= <-].
      * rewrite lookup_insert_ne by done. apply Hst.
Qed.

Lemma textual_deref store r : textual_store store -> textual_link (deref store r) = true.
Proof.
  intros H. unfold deref. destruct (store !! r) as [l|] eqn:E; [by eapply H | done].
Qed.

Lemma textual_resolveSubgraph store (s : ParsedSubgraph) :
  textual_store store ->
  textual_subgraph (fun _ => true) s = true ->
  textual_subgraph textual_link (resolveSubgraph store s) = true.
Proof.
  intros Hst. induction s as [sid f IH] using Subgraph_tree_ind.
  cbn [textual_subgraph resolveSubgraph links subgraphs classDefs classAttachments
       positionalLinkStyles].
  rewrite !andb_true_iff. intros ((((_ & Hs) & Hd) & Ha) & Hp). split_and!; try done.
  - apply forallb_forall. intros l [r [<- _]]%in_map_iff. by apply textual_deref.
  - apply forallb_forall. intros s' [s [<- Hin]]%in_map_iff.
    rewrite List.Forall_forall in IH. apply IH; [done|].
    by apply (proj1 (forallb_forall _ _) Hs).
Qed.

(** X14. A chart returned by the parser holds text only: the ends of
    every link are strings, never node objects, a link style and a
    positional style are strings when present, never [LinkStyle] objects,
    a class definition has a string style, never a [NodeStyle] object, and
    a class attachment names its nodes by strings; this holds in every
    sub-grouping as well. *)
Theorem parsed_chart_is_textual (input : str) (c : Chart) :
  parseFlowchart input = Some (Ok c) -> textual_chart c = true.
Proof.
  unfold parseFlowchart. rewrite parseLines_preamble.
  destruct (preamble _) as [[index chart]|e] eqn:Hp; [|done].
  assert (Hchart : exists t d, chart = newChart t d).
  { unfold preamble in Hp.
    destruct (if is_line _ _ _ then _ else _) as [[i t]|]; [|done].
    destruct (_ !! _); [|done]. destruct (exec headerRe _); [|done].
    injection Hp as _ <-. by eexists _, _. }
  destruct Hchart as (t & d & ->). unfold parseChartBody.
  destruct (bodyLoop _ _ _ _ _ _ _) as [[r|e]|] eqn:Hb; [|done|done].
  cbn [fmap option_fmap option_map finish].
  destruct (foundEndToken r); [done|]. intros [= <-].
  destruct (body_run_textual _ _ _ _ _ (bodyLoop_run _ _ _ _ _ _ _ _ Hb))
    as [Hc Hst]; [done | by intros k l |].
  unfold textual_chart, textual_fields in *.
  cbn [resolveChart links subgraphs classDefs classAttachments positionalLinkStyles].
  rewrite !andb_true_iff in Hc |- *. destruct Hc as ((((_ & Hs) & Hd) & Ha) & Hpos).
  split_and!; try done.
  - apply forallb_forall. intros l [k [<- _]]%in_map_iff. by apply textual_deref.
  - apply forallb_forall. intros s' [s [<- Hin]]%in_map_iff.
    apply textual_resolveSubgraph; [done|].
    by apply (proj1 (forallb_forall _ _) Hs).
Qed.

Lemma parsed_chart_is_textual_witness :
  textual_chart
    (addLink (newChart None TD)
       {| src := ById (lit "a"); dest := ById (lit "b"); link_text := None;
          link_type := ARROW; link_style := Some (RawStyle (lit "stroke:red")) |})
  = true.
Proof.
  apply (parsed_chart_is_textual (lit "flowchart TD
  a --> b
  linkStyle 0 stroke:red;")).
  vm_compute. reflexivity.
Defined.

(** The identifier captured by the sub-grouping pattern is not empty. *)
Lemma exec_subgraphRe_id line sm :
  exec subgraphRe line = Some sm -> nonempty (default [] (group sm 1)) = true.
Proof.
  unfold exec, subgraphRe. rewrite m_Cat.
  destruct (strip_prefix (lit "subgraph") line) as [s1|] eqn:E1;
    [|by rewrite m_Lit_None].
  apply strip_prefix_Some in E1 as ->. rewrite m_Lit, m_Cat, m_Plus_Cls.
  destruct s1 as [|x s1]; [done|]. destruct (is_ws x); [|done].
  intros H. apply greedy_sound in H as (a & u & -> & _ & H).
  rewrite m_Cat, m_Grp, m_Plus_Cls in H.
  destruct u as [|y u]; [done|].
  destruct (negb (is_ws y || char_eqb y (ch "["))); [|done].
  apply greedy_sound in H as (b & v & -> & _ & H).
  change (y :: b ++ v) with ((y :: b) ++ v) in H. rewrite take_consumed in H.
  rewrite m_Cat, m_Star_Cls in H.
  apply greedy_sound in H as (w & v2 & -> & _ & H).
  rewrite m_Opt in H.
  destruct (m (Lit (lit "[") · Grp 2 (Star (Cls dot)) · Lit (lit "]"))%re at_end v2
              (<[1 := y :: b]> ∅)) as [r|] eqn:E.
  - injection H as <-. rewrite m_Cat in E.
    destruct (strip_prefix (lit "[") v2) as [v3|] eqn:E3;
      [|by rewrite m_Lit_None in E].
    apply strip_prefix_Some in E3 as ->. rewrite m_Lit, m_Cat, m_Grp, m_Star_Cls in E.
    apply greedy_sound in E as (t & v4 & -> & _ & E).
    destruct (strip_prefix (lit "]") v4) as [v5|] eqn:E5;
      [|by rewrite m_Lit_None in E].
    apply strip_prefix_Some in E5 as ->. rewrite m_Lit in E.
    destruct v5; [|done]. cbn [at_end] in E. injection E as <-. by groups.
  - destruct v2; [|done]. cbn [at_end] in H. injection H as <-. by groups.
Qed.

Lemma body_run_identified lines index chart state r :
  body_run lines index chart state r ->
  forallb identified (subgraphs chart) = true ->
  forallb identified (subgraphs (parsedChart r)) = true.
Proof.
  induction 1 as [ | | ? ? ? ? ? ? ? ? IH
                 | index chart state raw sm rawd dm nested r ? Hm ? ? ? IHn ? ? IH
                 | ? ? ? ? ? ? ? ? ? IH | ? ? ? ? ? ? ? ? ? IH
                 | ? ? ? ? ? ? ? ? ? ? ? ? IH
                 | ? ? ? ? ? ? ? ? ? IH
                 | ? ? ? ? ? ? ? ? ? IH
                 | ? ? ? ? ? ? ? ? ? IH ];
    intros Hc; cbn [parsedChart]; try done; try (by apply IH).
  apply IH. cbn [addSubgraph subgraphs]. rewrite forallb_snoc, Hc.
  cbn [identified truthy]. rewrite (exec_subgraphRe_id _ _ Hm).
  by rewrite IHn.
Qed.

Lemma identified_resolveSubgraph store (s : ParsedSubgraph) :
  identified (resolveSubgraph store s) = identified s.
Proof.
  induction s as [sid f IH] using Subgraph_tree_ind.
  cbn [identified resolveSubgraph subgraphs title]. f_equal.
  rewrite List.Forall_forall in IH.
  induction (subgraphs f) as [|s ss IHss]; [done|]. cbn [map forallb].
  rewrite IH by by left. f_equal. apply IHss. intros x Hx. apply IH. by right.
Qed.

(** X15. Serializing a chart returned by the parser never draws a random
    number: every sub-grouping of a parsed tree has the identifier read
    from its header, which is not empty, so the text of a parsed chart is
    the same whatever [Math.random] would return. *)
Theorem parsed_chart_prints_without_random (input : str) (c : Chart) :
  parseFlowchart input = Some (Ok c) ->
  forallb identified (subgraphs c) = true
  /\ forall r1 r2, Chart_toString r1 c = Chart_toString r2 c.
Proof.
  unfold parseFlowchart. rewrite parseLines_preamble.
  destruct (preamble _) as [[index chart]|e] eqn:Hp; [|done].
  assert (Hchart : exists t d, chart = newChart t d).
  { unfold preamble in Hp.
    destruct (if is_line _ _ _ then _ else _) as [[i t]|]; [|done].
    destruct (_ !! _); [|done]. destruct (exec headerRe _); [|done].
    injection Hp as _ <-. by eexists _, _. }
  destruct Hchart as (t & d & ->). unfold parseChartBody.
  destruct (bodyLoop _ _ _ _ _ _ _) as [[r|e]|] eqn:Hb; [|done|done].
  cbn [fmap option_fmap option_map finish].
  destruct (foundEndToken r); [done|]. intros [= <-].
  assert (Hid : forallb identified
                  (subgraphs (resolveChart (linksByIndex (parsedState r))
                                (parsedChart r))) = true).
  { cbn [resolveChart subgraphs].
    pose proof (body_run_identified _ _ _ _ _ (bodyLoop_run _ _ _ _ _ _ _ _ Hb)
                  eq_refl) as H.
    induction (subgraphs (parsedChart r)) as [|s ss IH]; [done|].
    cbn [map forallb] in *. apply andb_true_iff in H as [Hs Hss].
    by rewrite identified_resolveSubgraph, Hs, IH. }
  split; [done|]. intros r1 r2.
  set (c := resolveChart (linksByIndex (parsedState r)) (parsedChart r)) in *.
  unfold Chart_toString, Chart_print. cbn [text].
  rewrite !printBody_spec. cbn [text]. unfold bodyItems.
  assert (H : Forall (fun s => identified s = true ->
            forall indent n r1 r2,
              text (Subgraph_print s indent n r1) = text (Subgraph_print s indent n r2)
              /\ random (Subgraph_print s indent n r1) = r1) (subgraphs c)).
  { apply Forall_forall. intros s _. apply Subgraph_print_deterministic. }
  destruct (printSubgraphs_deterministic (subgraphs c) ([] ++ lit "  ")
              (0 + length (links c)) r1 r2 H Hid) as [H1 _].
  by rewrite H1.
Qed.

Lemma parsed_chart_prints_without_random_witness :
  let c := addSubgraph (newChart None TD)
             (MkSubgraph (Some (lit "A")) (newChart (Some []) LR)) in
  forallb identified (subgraphs c) = true
  /\ forall r1 r2, Chart_toString r1 c = Chart_toString r2 c.
Proof.
  apply (parsed_chart_prints_without_random (lit "flowchart TD
  subgraph A
  direction LR
  end")).
  vm_compute. reflexivity.
Defined.

(** ** The parameter [stopOnEnd] *)

(** X16. The parameter [stopOnEnd] of [parseChartBody] has no effect:
    the two branches taken at an [end] line return the same record, so
    the body loop gives the same result, or the same error, for either
    value.  What tells the root from a sub-grouping is only what the
    caller does with [foundEndToken]. *)
Theorem stopOnEnd_is_ignored
    (fuel : nat) (lines : list str) (index : nat) (last : bool)
    (chart : ParsedChart) (state : ParseState) (stop stop' : bool) :
  bodyLoop fuel lines index last chart state stop
  = bodyLoop fuel lines index last chart state stop'.
Proof.
  revert index last chart state.
  induction fuel as [|f IH]; intros index last chart state; [done|].
  destruct (lines !! index) as [raw|] eqn:Hl; [|by rewrite !body_eof].
  destruct (line_cases (trim raw)) as [Hb|[He|Hs]].
  { rewrite !(body_blank _ _ _ _ _ _ _ raw) by done. apply IH. }
  { by rewrite !(body_end _ _ _ _ _ _ _ raw). }
  destruct (exec subgraphRe (trim raw)) as [sm|] eqn:H1.
  { rewrite !(body_subgraph _ _ _ _ _ _ _ raw sm) by done. cbv zeta.
    destruct (lines !! skipBlank lines (index + 1)) as [rawd|]; [|done].
    destruct (exec directionRe (trim rawd)) as [dm|]; [|done].
    destruct (bodyLoop f lines _ false _ state true) as [[nested|e]|]; [|done|done].
    destruct (negb (foundEndToken nested)); [done|]. apply IH. }
  destruct (exec classDefRe (trim raw)) as [mt|] eqn:H2.
  { rewrite !(body_classDef _ _ _ _ _ _ _ raw mt) by done. apply IH. }
  destruct (exec classRe (trim raw)) as [mt|] eqn:H3.
  { rewrite !(body_class _ _ _ _ _ _ _ raw mt) by done. apply IH. }
  destruct (exec linkStyleRe (trim raw)) as [mt|] eqn:H4.
  { rewrite !(body_linkStyle _ _ _ _ _ _ _ raw mt) by done. cbv zeta.
    destruct (attachesInline last state _); apply IH. }
  destruct (exec linkRe (trim raw)) as [mt|] eqn:H5.
  { rewrite !(body_link _ _ _ _ _ _ _ raw mt) by done. apply IH. }
  rewrite !(body_node _ _ _ _ _ _ _ raw) by done.
  destruct (parseNodeLine (trim raw)); [apply IH | done].
Qed.

(** ** Line ends *)

Definition CRLF : str := [CR; LF].

Lemma lines_of_join_CRLF ls :
  ls <> [] -> Forall (fun l => no_LF l = true) ls ->
  map trim (split LF (replaceCRLF (join CRLF ls))) = map trim ls.
Proof.
  intros Hne H. induction H as [|l ls Hl Hls IH]; [done|].
  destruct ls as [|l2 ls].
  - simpl. by rewrite replaceCRLF_no_LF, split_no_LF.
  - rewrite join_cons2. unfold CRLF at 1.
    change (l ++ [CR; LF] ++ join CRLF (l2 :: ls))
      with (l ++ [CR] ++ LF :: join CRLF (l2 :: ls)).
    rewrite (app_assoc l [CR]).
    assert (Hl' : no_LF (l ++ [CR]) = true) by by rewrite no_LF_app, Hl.
    rewrite replaceCRLF_line by done.
    rewrite split_line by by apply stripCR_no_LF.
    cbn [map]. rewrite trim_stripCR, trim_snoc_ws by done. f_equal. by apply IH.
Qed.

(** X17. A document whose lines are joined by carriage return and line
    feed parses as the same document with its lines joined by line feed
    alone: the same chart, or the same error. *)
Theorem line_ends_do_not_matter (ls : list str) :
  ls <> [] -> Forall (fun l => no_LF l = true) ls ->
  parseFlowchart (join CRLF ls) = parseFlowchart (join NL ls).
Proof.
  intros Hne H. unfold parseFlowchart. apply parseLines_trimmed.
  unfold same_trimmed. by rewrite lines_of_join_CRLF, lines_of_join.
Qed.

Lemma line_ends_do_not_matter_witness :
  parseFlowchart (join CRLF [lit "flowchart TD"; lit "  a --> b"; lit "  b(x)"])
  = parseFlowchart (join NL [lit "flowchart TD"; lit "  a --> b"; lit "  b(x)"]).
Proof.
  apply line_ends_do_not_matter; [done|]. by repeat constructor.
Defined.

(** ** The text of the style objects *)

Lemma join_nonempty_items sep (l : list str) :
  Forall (fun x => x <> []) l -> join sep l = [] -> l = [].
Proof.
  intros H. destruct H as [|x l Hx Hl]; [done|]. destruct l as [|y l]; simpl.
  - done.
  - intros E. by destruct x.
Qed.

Lemma pushIf_items o key :
  lit key <> [] -> Forall (fun x => x <> []) (pushIf o key).
Proof.
  intros Hk. unfold pushIf. destruct o as [v|]; [|by constructor].
  destruct (nonempty v); [|by constructor].
  constructor; [|by constructor]. by destruct (lit key).
Qed.

Lemma pushIf_nil o key : pushIf o key = [] <-> truthy o = false.
Proof.
  unfold pushIf, truthy. destruct o as [v|]; [|done]. by destruct (nonempty v).
Qed.

(** X18. [LinkStyle.toString] gives the empty string exactly when none
    of its three properties is set to a non-empty string. *)
Theorem empty_link_style_text (s : LinkStyle) :
  LinkStyle_toString s = []
  <-> truthy (stroke s) = false /\ truthy (strokeWidth s) = false
      /\ truthy (color s) = false.
Proof.
  unfold LinkStyle_toString. split.
  - intros H. apply join_nonempty_items in H.
    + apply app_eq_nil in H as [H1 H]. apply app_eq_nil in H as [H2 H3].
      by rewrite <- !pushIf_nil.
    + rewrite !Forall_app. split_and!; apply pushIf_items; by unlit.
  - intros (H1 & H2 & H3).
    by rewrite (proj2 (pushIf_nil _ _) H1), (proj2 (pushIf_nil _ _) H2),
      (proj2 (pushIf_nil _ _) H3).
Qed.

(** X19. [NodeStyle.toString] gives the empty string exactly when none
    of [fill], [stroke], [strokeWidth] and [color] is a non-empty string
    and [strokeDasharray] is absent or the empty string; an array, even
    an empty one, always prints a [stroke-dasharray:] entry. *)
Theorem empty_node_style_text (s : NodeStyle) :
  NodeStyle_toString s = []
  <-> truthy (fill s) = false /\ truthy (ns_stroke s) = false
      /\ truthy (ns_strokeWidth s) = false /\ truthy (ns_color s) = false
      /\ match strokeDasharray s with
         | None => True
         | Some (DashString d) => d = []
         | Some (DashNumbers _) => False
         end.
Proof.
  unfold NodeStyle_toString. cbv zeta.
  set (four := pushIf (fill s) "fill:" ++ pushIf (ns_stroke s) "stroke:"
               ++ pushIf (ns_strokeWidth s) "stroke-width:"
               ++ pushIf (ns_color s) "color:").
  assert (Hitems : Forall (fun x => x <> []) four).
  { unfold four. rewrite !Forall_app. split_and!; apply pushIf_items; by unlit. }
  assert (Hfour : four = [] <-> truthy (fill s) = false /\ truthy (ns_stroke s) = false
                  /\ truthy (ns_strokeWidth s) = false /\ truthy (ns_color s) = false).
  { unfold four. rewrite <- !pushIf_nil. split.
    - intros H. apply app_eq_nil in H as [H1 H]. apply app_eq_nil in H as [H2 H].
      by apply app_eq_nil in H as [H3 H4].
    - by intros (-> & -> & -> & ->). }
  destruct (strokeDasharray s) as [[d|l]|].
  - destruct d as [|c d]; cbn [nonempty].
    + split.
      * intros H. apply join_nonempty_items in H; [|done]. apply Hfour in H.
        by destruct H as (? & ? & ? & ?).
      * intros (H1 & H2 & H3 & H4 & _).
        by rewrite (proj2 Hfour (conj H1 (conj H2 (conj H3 H4)))).
    + split; [|by intros (_ & _ & _ & _ & ?)].
      intros H. apply join_nonempty_items in H.
      * by apply app_eq_nil in H as [_ ?].
      * apply Forall_app. split; [done|]. by repeat constructor.
  - split; [|by intros (_ & _ & _ & _ & ?)].
    intros H. apply join_nonempty_items in H.
    + by apply app_eq_nil in H as [_ ?].
    + apply Forall_app. split; [done|]. by repeat constructor.
  - split.
    + intros H. apply join_nonempty_items in H; [|done]. apply Hfour in H.
      by destruct H as (? & ? & ? & ?).
    + intros (H1 & H2 & H3 & H4 & _).
      by rewrite (proj2 Hfour (conj H1 (conj H2 (conj H3 H4)))).
Qed.

(** ** The two serializers *)

Definition is_cylinder (s : NodeShape) : bool :=
  match s with CYLINDER => true | _ => false end.

Lemma legacy_node_text n :
  is_cylinder (shape n) = false ->
  Legacy.ChartNode_toString n = ChartNode_toString n.
Proof.
  intros H. unfold Legacy.ChartNode_toString, ChartNode_toString,
    ChartNode_toString_with.
  destruct (ensureId_fields n) as (_ & Hs & _). rewrite Hs.
  by destruct (shape n).
Qed.

(** X21. On a chart without sub-groupings and without cylinder nodes the
    serializer of [src/index.ts] and the revised one give the same text,
    whatever the random sources are: the two differ only in the value of
    the cylinder shape, in the counter handed to sub-groupings and in the
    fallback identifier of a sub-grouping. *)
Theorem serializers_agree_without_subgraphs
    (c : Chart) (lr : Legacy.Random) (r : Random) :
  subgraphs c = [] ->
  forallb (fun n => negb (is_cylinder (shape n))) (nodes c) = true ->
  Legacy.Chart_toString lr c = Chart_toString r c.
Proof.
  intros Hs Hn. destruct c as [t d ns ls ss ds ats ps]. cbn [subgraphs nodes] in *.
  subst ss.
  unfold Legacy.Chart_toString, Legacy.Chart_print, Legacy.printBody,
    Chart_toString, Chart_print, printBody.
  cbn [nodes links subgraphs classDefs classAttachments positionalLinkStyles
       title direction].
  rewrite (map_ext_forallb (fun node => ([] ++ lit "  ") ++ Legacy.ChartNode_toString node)
             (fun node => ([] ++ lit "  ") ++ ChartNode_toString node)
             (fun n => negb (is_cylinder (shape n))) ns); [|
    intros x Hx; apply negb_true_iff in Hx; by rewrite legacy_node_text | done].
  change (Legacy.printLinks ?a ?b ?c) with (printLinks a b c).
  destruct (printLinks _ ls _) as [res n].
  cbn [Legacy.printSubgraphs printSubgraphs fold_left fst text].
  by rewrite <- !app_assoc.
Qed.

Lemma serializers_agree_without_subgraphs_witness :
  Legacy.Chart_toString noLegacyRandom
    (addLink (addNode (newChart (Some (lit "T")) LR) (newChartNode (lit "a b")))
       (styledLink "a" "b" "red"))
  = Chart_toString noRandom
      (addLink (addNode (newChart (Some (lit "T")) LR) (newChartNode (lit "a b")))
         (styledLink "a" "b" "red")).
Proof. apply serializers_agree_without_subgraphs; reflexivity. Defined.

(** ** A sub-grouping printed on its own *)

Lemma parseLines_invalid_header header rest :
  trim header <> [] -> str_eqb (trim header) (lit "---") = false ->
  exec headerRe (trim header) = None ->
  parseLines (header :: rest) = Some (Err (InvalidFlowchartDeclaration (trim header))).
Proof.
  intros Hne Hno Hre. rewrite parseLines_preamble. unfold preamble.
  assert (H0 : (header :: rest) !! 0 = Some header) by done.
  rewrite (skipBlank_here _ 0 _ H0 Hne). unfold is_line. rewrite H0, Hno. cbv iota.
  by rewrite (skipBlank_here _ 0 _ H0 Hne), H0, Hre.
Qed.

(** X22. The text of [Subgraph.toString] is not a document for
    [Chart.parse]: its first line is the header of the sub-grouping, so
    the parse fails with the invalid-declaration error, which quotes that
    header.  (The identifier and the title are taken without line
    terminator, the identifier free of white space and of [[].) *)
Theorem subgraph_text_is_not_a_chart (s : Subgraph) (rnd : Random) :
  safe_header s = true ->
  Chart_parse (Subgraph_toString rnd s)
  = Some (Err (InvalidFlowchartDeclaration
                 (subHeader (Subgraph_getId s rnd).1.1 (titleText (sub_fields s))))).
Proof.
  intros Hh. pose proof (Subgraph_getId_ok s rnd Hh) as HID.
  apply andb_true_iff in Hh as [_ HT].
  destruct s as [sid f]. cbn [sub_fields] in *.
  unfold Chart_parse, Subgraph_toString. rewrite Subgraph_print_eq.
  destruct (Subgraph_getId (MkSubgraph sid f) rnd) as [[sgid s'] rnd1].
  cbn [fst] in *. cbv zeta. cbn [text]. fold (titleText f).
  set (T := titleText f) in *.
  destruct (subHeader_line sgid T HID HT) as [[[Hne _] Ht Hlf] _].
  change ([] ++ lit "subgraph " ++ sgid ++ lit " [" ++ T ++ lit "]")
    with (subHeader sgid T).
  rewrite join_cons2. unfold NL at 1. cbn [app]. unfold parseFlowchart.
  rewrite replaceCRLF_line by done.
  rewrite split_line by by apply stripCR_no_LF.
  assert (Htrim : trim (stripCR (subHeader sgid T)) = subHeader sgid T)
    by by rewrite trim_stripCR, trim_tight'.
  rewrite parseLines_invalid_header; by rewrite Htrim.
Qed.

Lemma subgraph_text_is_not_a_chart_witness :
  Chart_parse (Subgraph_toString noRandom OopStyle.subgraph2)
  = Some (Err (InvalidFlowchartDeclaration
                 (subHeader (Subgraph_getId OopStyle.subgraph2 noRandom).1.1
                    (titleText (sub_fields OopStyle.subgraph2))))).
Proof. apply subgraph_text_is_not_a_chart. vm_compute. reflexivity. Defined.

(** ** Dollar signs in a label *)

Lemma getSubstitution_prefix matched before after a t :
  no_dollar a = true ->
  getSubstitution matched before after (a ++ t)
  = a ++ getSubstitution matched before after t.
Proof.
  induction a as [|c a IH]; [done|]. cbn [no_dollar forallb].
  intros [Hc Ha]%andb_true_iff. apply negb_true_iff in Hc.
  cbn [app getSubstitution]. by rewrite Hc, (IH Ha).
Qed.

(** X23. [ChartNode.toString] puts the label into the shape with
    [String.prototype.replace], so a dollar sign in a label is read as a
    replacement pattern: [$$] prints as one dollar sign, [$&] as the
    placeholder [VAL], and the patterns for the text before and after the
    match print the opening and the closing delimiter of the shape.  The
    text around the pattern is printed as it is. *)
Theorem dollar_patterns_in_a_label (id a b : str) (sh : NodeShape) :
  id <> [] -> no_dollar a = true -> no_dollar b = true ->
  let node t := {| node_title := a ++ t ++ b; shape := sh; node_id := id;
                   className := None |} in
  ChartNode_toString (node (lit "$$"))
  = id ++ openOf sh ++ (a ++ lit "$" ++ b) ++ closeOf sh
  /\ ChartNode_toString (node (lit "$&"))
     = id ++ openOf sh ++ (a ++ lit "VAL" ++ b) ++ closeOf sh
  /\ ChartNode_toString (node (lit "$`"))
     = id ++ openOf sh ++ (a ++ openOf sh ++ b) ++ closeOf sh
  /\ ChartNode_toString (node (lit "$'"))
     = id ++ openOf sh ++ (a ++ closeOf sh ++ b) ++ closeOf sh.
Proof.
  intros Hid Ha Hb node.
  assert (Hf : find_sub (lit "VAL") (NodeShape_value sh)
               = Some (openOf sh, closeOf sh)) by by destruct sh.
  assert (Hgen : forall t, ChartNode_toString (node t)
            = id ++ openOf sh
              ++ getSubstitution (lit "VAL") (openOf sh) (closeOf sh) (a ++ t ++ b)
              ++ closeOf sh).
  { intros t. unfold ChartNode_toString, ChartNode_toString_with, ensureId, node.
    cbn [node_id node_title shape className]. destruct id as [|x id]; [done|].
    cbn [nonempty negb andb node_id node_title shape className].
    unfold replaceFirst. rewrite Hf. by rewrite app_nil_r. }
  assert (Hplain : getSubstitution (lit "VAL") (openOf sh) (closeOf sh) b = b)
    by by apply getSubstitution_plain.
  split_and!; rewrite Hgen, getSubstitution_prefix by done.
  - change (lit "$$" ++ b) with (ch "$" :: ch "$" :: b). cbn [getSubstitution].
    change (char_eqb (ch "$") (ch "$")) with true. cbv iota. by rewrite Hplain.
  - change (lit "$&" ++ b) with (ch "$" :: ch "&" :: b). cbn [getSubstitution].
    change (char_eqb (ch "$") (ch "$")) with true.
    change (char_eqb (ch "&") (ch "$")) with false.
    change (char_eqb (ch "&") (ch "&")) with true. cbv iota. by rewrite Hplain.
  - change (lit "$`" ++ b) with (ch "$" :: ch "`" :: b). cbn [getSubstitution].
    change (char_eqb (ch "$") (ch "$")) with true.
    change (char_eqb (ch "`") (ch "$")) with false.
    change (char_eqb (ch "`") (ch "&")) with false.
    change (char_eqb (ch "`") (ch "`")) with true. cbv iota. by rewrite Hplain.
  - change (lit "$'" ++ b) with (ch "$" :: ch "'" :: b). cbn [getSubstitution].
    change (char_eqb (ch "$") (ch "$")) with true.
    change (char_eqb (ch "'") (ch "$")) with false.
    change (char_eqb (ch "'") (ch "&")) with false.
    change (char_eqb (ch "'") (ch "`")) with false.
    change (char_eqb (ch "'") (ch "'")) with true. cbv iota. by rewrite Hplain.
Qed.

Lemma dollar_patterns_in_a_label_witness :
  let node t := {| node_title := lit "costs " ++ t ++ lit "5"; shape := RECT_ROUND;
                   node_id := lit "price"; className := None |} in
  ChartNode_toString (node (lit "$$"))
  = lit "price" ++ openOf RECT_ROUND ++ (lit "costs " ++ lit "$" ++ lit "5")
    ++ closeOf RECT_ROUND
  /\ ChartNode_toString (node (lit "$&"))
     = lit "price" ++ openOf RECT_ROUND ++ (lit "costs " ++ lit "VAL" ++ lit "5")
       ++ closeOf RECT_ROUND
  /\ ChartNode_toString (node (lit "$`"))
     = lit "price" ++ openOf RECT_ROUND
       ++ (lit "costs " ++ openOf RECT_ROUND ++ lit "5") ++ closeOf RECT_ROUND
  /\ ChartNode_toString (node (lit "$'"))
     = lit "price" ++ openOf RECT_ROUND
       ++ (lit "costs " ++ closeOf RECT_ROUND ++ lit "5") ++ closeOf RECT_ROUND.
Proof.
  apply (dollar_patterns_in_a_label (lit "price") (lit "costs ") (lit "5") RECT_ROUND);
    [done | reflexivity | reflexivity].
Defined.

(** ** Blank lines in the body *)

Fixpoint leadingBlanks (rest : list str) : nat :=
  match rest with
  | l :: rest' => if nonempty (trim l) then 0 else S (leadingBlanks rest')
  | [] => 0
  end.

Lemma skipBlankFrom_leading rest index :
  skipBlankFrom rest index = index + leadingBlanks rest.
Proof.
  revert index. induction rest as [|l rest IH]; intros index; simpl; [lia|].
  destruct (nonempty (trim l)); [lia|]. rewrite IH. lia.
Qed.

Lemma leadingBlanks_stop rest raw :
  rest !! leadingBlanks rest = Some raw -> trim raw <> [].
Proof.
  induction rest as [|l rest IH]; [done|]. simpl.
  destruct (nonempty (trim l)) eqn:E; simpl.
  - intros [= <-]. by destruct (trim l).
  - apply IH.
Qed.

Lemma skipBlank_nonblank lines index raw :
  lines !! skipBlank lines index = Some raw -> trim raw <> [].
Proof.
  unfold skipBlank. rewrite skipBlankFrom_leading. rewrite <- lookup_drop.
  apply leadingBlanks_stop.
Qed.

Lemma leadingBlanks_app_blank a b post :
  trim b = [] ->
  (leadingBlanks (a ++ b :: post) = length a + 1 + leadingBlanks post
   /\ leadingBlanks (a ++ post) = length a + leadingBlanks post)
  \/ (leadingBlanks (a ++ b :: post) = leadingBlanks (a ++ post)
      /\ leadingBlanks (a ++ post) < length a).
Proof.
  intros Hb. induction a as [|x a IH]; cbn [app leadingBlanks length].
  - left. rewrite Hb. simpl. lia.
  - destruct (nonempty (trim x)); [right; lia|].
    destruct IH as [[-> ->]|[-> ?]]; [left | right]; lia.
Qed.

Section BlankLine.
Context (pre post : list str) (b : str).
Hypothesis Hb : trim b = [].

(** The index of a line once the blank line is taken out. *)
Definition unblank (i : nat) : nat := if Nat.ltb (length pre) i then i - 1 else i.

Definition unblankResult (r : result BodyResult) : result BodyResult :=
  match r with
  | Ok br =>
      Ok {| nextIndex := unblank (nextIndex br); foundEndToken := foundEndToken br;
            parsedChart := parsedChart br; parsedState := parsedState br |}
  | Err e => Err e
  end.

Lemma unblank_succ i : i <> length pre -> unblank (i + 1) = unblank i + 1.
Proof.
  intros H. unfold unblank.
  destruct (Nat.ltb_spec (length pre) (i + 1)), (Nat.ltb_spec (length pre) i); lia.
Qed.

Lemma unblank_at : unblank (length pre + 1) = unblank (length pre).
Proof.
  unfold unblank.
  destruct (Nat.ltb_spec (length pre) (length pre + 1)),
    (Nat.ltb_spec (length pre) (length pre)); lia.
Qed.

Lemma lookup_unblank i :
  i <> length pre -> (pre ++ b :: post) !! i = (pre ++ post) !! unblank i.
Proof.
  intros H. unfold unblank. destruct (Nat.ltb_spec (length pre) i) as [Hlt|Hge].
  - rewrite !lookup_app_r by lia.
    replace (i - length pre) with (S (i - 1 - length pre)) by lia. done.
  - by rewrite !lookup_app_l by lia.
Qed.

Lemma skipBlank_unblank j :
  unblank (skipBlank (pre ++ b :: post) j) = skipBlank (pre ++ post) (unblank j).
Proof using Hb.
  unfold skipBlank. rewrite !skipBlankFrom_leading. unfold unblank at 2 3.
  destruct (Nat.ltb_spec (length pre) j) as [Hlt|Hge].
  - rewrite !drop_app_ge by lia.
    replace (j - length pre) with (S (j - 1 - length pre)) by lia. cbn [drop].
    unfold unblank. destruct (Nat.ltb_spec (length pre) (j + leadingBlanks
      (drop (j - 1 - length pre) post))); lia.
  - rewrite !drop_app_le by lia.
    destruct (leadingBlanks_app_blank (drop j pre) b post Hb) as [[-> ->]|[-> Hlt]];
      rewrite length_drop in *; unfold unblank.
    + destruct (Nat.ltb_spec (length pre)
                  (j + (length pre - j + 1 + leadingBlanks post))); lia.
    + destruct (Nat.ltb_spec (length pre)
                  (j + leadingBlanks (drop j pre ++ post))); lia.
Qed.

Lemma bodyLoop_unblank f index last chart state stop res :
  bodyLoop f (pre ++ b :: post) index last chart state stop = Some res ->
  bodyLoop f (pre ++ post) (unblank index) last chart state stop
  = Some (unblankResult res).
Proof using Hb.
  revert index last chart state stop res.
  induction f as [|f IH]; intros index last chart state stop res H; [done|].
  destruct (decide (index = length pre)) as [->|Hne].
  { rewrite (body_blank _ _ _ _ _ _ _ b) in H;
      [|by rewrite lookup_app_r, Nat.sub_diag by lia | done].
    apply IH in H. rewrite unblank_at in H.
    by apply (bodyLoop_mono f (S f)); [lia|]. }
  pose proof (lookup_unblank index Hne) as Hlk.
  destruct ((pre ++ b :: post) !! index) as [raw|] eqn:Hl.
  2:{ rewrite body_eof in H by done. injection H as <-.
      by rewrite body_eof. }
  symmetry in Hlk.
  destruct (line_cases (trim raw)) as [Hbl|[He|Hs]].
  { rewrite (body_blank _ _ _ _ _ _ _ raw) in H by done.
    rewrite (body_blank _ _ _ _ _ _ _ raw) by done.
    rewrite <- unblank_succ by done. by apply IH. }
  { rewrite (body_end _ _ _ _ _ _ _ raw) in H by done. injection H as <-.
    rewrite (body_end _ _ _ _ _ _ _ raw) by done. cbn [unblankResult nextIndex
      foundEndToken parsedChart parsedState]. by rewrite unblank_succ. }
  destruct (exec subgraphRe (trim raw)) as [sm|] eqn:H1.
  { rewrite (body_subgraph _ _ _ _ _ _ _ raw sm) in H by done.
    rewrite (body_subgraph _ _ _ _ _ _ _ raw sm) by done. cbv zeta in H |- *.
    rewrite <- unblank_succ, <- skipBlank_unblank by done.
    set (j := skipBlank (pre ++ b :: post) (index + 1)) in *.
    destruct ((pre ++ b :: post) !! j) as [rawd|] eqn:Hd.
    - assert (Hj : j <> length pre).
      { intros Hj. pose proof (skipBlank_nonblank _ _ _ Hd) as Hnb.
        rewrite Hj, lookup_app_r, Nat.sub_diag in Hd by lia.
        injection Hd as <-. done. }
      rewrite <- (lookup_unblank j Hj), Hd.
      destruct (exec directionRe (trim rawd)) as [dm|]; [|by injection H as <-].
      rewrite <- unblank_succ by done.
      destruct (bodyLoop f (pre ++ b :: post) (j + 1) false _ state true)
        as [[nested|e]|] eqn:Hn; [| |done].
      + rewrite (IH _ _ _ _ _ _ Hn). cbn [unblankResult foundEndToken nextIndex
          parsedChart parsedState].
        destruct (negb (foundEndToken nested)); [by injection H as <-|].
        by apply IH.
      + rewrite (IH _ _ _ _ _ _ Hn). by injection H as <-.
    - injection H as <-.
      destruct (decide (j = length pre)) as [Hj|Hj].
      { by rewrite Hj, lookup_app_r, Nat.sub_diag in Hd by lia. }
      by rewrite <- (lookup_unblank j Hj), Hd. }
  destruct (exec classDefRe (trim raw)) as [mt|] eqn:H2.
  { rewrite (body_classDef _ _ _ _ _ _ _ raw mt) in H by done.
    rewrite (body_classDef _ _ _ _ _ _ _ raw mt) by done.
    rewrite <- unblank_succ by done. by apply IH. }
  destruct (exec classRe (trim raw)) as [mt|] eqn:H3.
  { rewrite (body_class _ _ _ _ _ _ _ raw mt) in H by done.
    rewrite (body_class _ _ _ _ _ _ _ raw mt) by done.
    rewrite <- unblank_succ by done. by apply IH. }
  destruct (exec linkStyleRe (trim raw)) as [mt|] eqn:H4.
  { rewrite (body_linkStyle _ _ _ _ _ _ _ raw mt) in H by done.
    rewrite (body_linkStyle _ _ _ _ _ _ _ raw mt) by done. cbv zeta in H |- *.
    rewrite <- unblank_succ by done.
    destruct (attachesInline last state _); by apply IH. }
  destruct (exec linkRe (trim raw)) as [mt|] eqn:H5.
  { rewrite (body_link _ _ _ _ _ _ _ raw mt) in H by done.
    rewrite (body_link _ _ _ _ _ _ _ raw mt) by done.
    rewrite <- unblank_succ by done. by apply IH. }
  rewrite (body_node _ _ _ _ _ _ _ raw) in H by done.
  rewrite (body_node _ _ _ _ _ _ _ raw) by done.
  destruct (parseNodeLine (trim raw)); [|by injection H as <-].
  rewrite <- unblank_succ by done. by apply IH.
Qed.

End BlankLine.

(** X24. A blank line in the lines [parseChartBody] reads changes
    nothing but the line numbers: without it the body gives the same
    container and the same state, or the same error, and returns at the
    same line.  This holds wherever the blank line stands, also between a
    link and the [linkStyle] line that is attached to it and between a
    sub-grouping header and its direction. *)
Theorem blank_line_in_the_body_is_ignored
    (pre post : list str) (b : str) (start : nat)
    (chart : ParsedChart) (state : ParseState) (stop : bool) :
  trim b = [] ->
  parseChartBody (pre ++ post) (unblank pre start) chart state stop
  = unblankResult pre <$> parseChartBody (pre ++ b :: post) start chart state stop.
Proof.
  intros Hb.
  destruct (parseChartBody_total (pre ++ b :: post) start chart state stop)
    as [res Hres].
  rewrite Hres. cbn [fmap option_fmap option_map].
  apply runs_parseChartBody. unfold parseChartBody in Hres.
  eexists. exact (bodyLoop_unblank pre post b Hb _ _ _ _ _ _ _ Hres).
Qed.

Lemma blank_line_in_the_body_is_ignored_witness :
  parseChartBody ([lit "a --> b"] ++ [lit "linkStyle 0 stroke:red"])
    (unblank [lit "a --> b"] 0) (newChart None TD) initialState false
  = unblankResult [lit "a --> b"]
      <$> parseChartBody ([lit "a --> b"] ++ lit "  " :: [lit "linkStyle 0 stroke:red"])
            0 (newChart None TD) initialState false.
Proof. apply blank_line_in_the_body_is_ignored. reflexivity. Defined.
